(** * Continuous-time Markov chain engine: a shallow embedding and its properties

    The development follows the TypeScript module that parses a chain
    description, builds the generator matrix, checks irreducibility, solves
    for the stationary distribution, exponentiates the generator and samples
    trajectories.

    Numbers.  A JavaScript [number] is a rational ([Qc], canonical
    fractions, Leibniz equality), and the functions are embedded twice.  The
    first embedding computes exactly: it is used for the statements that do
    not depend on rounding (signs, comparisons of the values themselves,
    which branch is taken) and for those marked "exact arithmetic".  The
    module [Binary64] repeats the functions in which rounding changes what
    is observed ([buildRateMatrix], [buildJumpMap] and the sampling
    functions), rounding the result of every addition, multiplication and
    division to the nearest double; the statements about sums being exact
    and about the sampling loop are made there.  Overflow, NaN and the
    subnormal range are not represented.  Where the source can produce a
    value outside the rationals ([parseFloat] yielding NaN, [Math.log 0]
    yielding [-Infinity]) the embedding makes the case explicit with an
    option or a dedicated constructor.

    Objects used as maps ([Record<string, number>], [Map], [Set]) are
    finite maps and sets keyed by strings; arrays are lists.  A plain
    JavaScript object also answers to the property names it inherits
    ([constructor], [toString], [__proto__] and the like); the finite maps
    do not, so the statements about objects indexed by a state name are
    about state names other than those. *)

From Stdlib Require Import QArith Qcanon Qround Qpower Lqa ZArith Lia String Ascii List.
From stdpp Require Import base option list numbers strings gmap sets relations.

Open Scope Qc_scope.

(* ================================================================= *)
(** * Part I: definitions *)
(* ================================================================= *)

(** ** Numbers *)

Definition Math_abs (x : Qc) : Qc := if decide (0 ≤ x) then x else - x.
Definition Math_max (x y : Qc) : Qc := if decide (x ≤ y) then y else x.

(** Left-to-right accumulation [acc += x], as every summation loop of the
    source is written. *)
Definition sum_Qc (l : list Qc) : Qc := foldl Qcplus 0 l.

(** ** The chain definition ([CtmcDef], [CtmcTransition]) *)

Record CtmcTransition : Type := mkTransition {
  from : string;
  to : string;
  rate : Qc
}.

Record CtmcDef : Type := mkCtmc {
  states : list string;
  initialDistribution : gmap string Qc;
  transitions : list CtmcTransition
}.

(** The data-model invariants of a chain definition, as a boolean check:
    unique state names, transitions between declared and distinct states
    with a positive rate, and an initial distribution that gives every state
    a non-negative probability with total 1 within 1e-6. *)
Definition wf_transition (sts : list string) (t : CtmcTransition) : bool :=
  bool_decide (from t ∈ sts) && bool_decide (to t ∈ sts)
  && bool_decide (from t ≠ to t) && bool_decide (0 < rate t).

Definition tolerance_1e6 : Qc := Q2Qc (1 # 1000000).

Definition wf_initial (sts : list string) (mu : gmap string Qc) : bool :=
  forallb (fun s => match mu !! s with
                    | Some p => bool_decide (0 ≤ p)
                    | None => false
                    end) sts
  && bool_decide (Math_abs (sum_Qc (map (fun s => default 0 (mu !! s)) sts) - 1)
                  ≤ tolerance_1e6).

Definition valid_chain (c : CtmcDef) : bool :=
  bool_decide (NoDup (states c))
  && forallb (wf_transition (states c)) (transitions c)
  && wf_initial (states c) (initialDistribution c).

(** ** buildRateMatrix *)

(** First loop: [Q[from] = {}] and [Q[from][to] = 0] for all states. *)
Definition zero_row (sts : list string) : gmap string Qc :=
  foldl (fun row s2 => <[s2 := 0]> row) ∅ sts.

Definition zero_matrix (sts : list string) : gmap string (gmap string Qc) :=
  foldl (fun Q s => <[s := zero_row sts]> Q) ∅ sts.

(** Second loop body: [Q[t.from][t.to] = (Q[t.from][t.to] ?? 0) + t.rate].
    Indexing the undefined [Q[t.from]] throws a TypeError: [None]. *)
Definition add_rate (Q : gmap string (gmap string Qc)) (t : CtmcTransition)
  : option (gmap string (gmap string Qc)) :=
  match Q !! from t with
  | None => None
  | Some row => Some (<[from t := <[to t := default 0 (row !! to t) + rate t]> row]> Q)
  end.

Fixpoint add_rates (Q : gmap string (gmap string Qc)) (ts : list CtmcTransition)
  : option (gmap string (gmap string Qc)) :=
  match ts with
  | [] => Some Q
  | t :: ts' => match add_rate Q t with
                | None => None
                | Some Q' => add_rates Q' ts'
                end
  end.

(** Reading [Q[i][j]]; the entries read by the source always exist. *)
Definition entry (Q : gmap string (gmap string Qc)) (i j : string) : Qc :=
  default 0 (Q !! i ≫= fun row => row !! j).

(** Third loop: [sum += Q[s][s2]] over [s2 !== s], then [Q[s][s] = -sum].
    The additions are exact here and rounded in [Binary64.off_diagonal_sum]. *)
Definition off_diagonal_sum (Q : gmap string (gmap string Qc))
    (sts : list string) (s : string) : Qc :=
  foldl (fun sum s2 => if decide (s ≠ s2) then sum + entry Q s s2 else sum) 0 sts.

Definition set_diagonal (sts : list string) (Q : gmap string (gmap string Qc))
    (s : string) : gmap string (gmap string Qc) :=
  <[s := <[s := - off_diagonal_sum Q sts s]> (default ∅ (Q !! s))]> Q.

Definition buildRateMatrix (chain : CtmcDef) : option (gmap string (gmap string Qc)) :=
  match add_rates (zero_matrix (states chain)) (transitions chain) with
  | None => None
  | Some Q => Some (foldl (set_diagonal (states chain)) Q (states chain))
  end.

(** Reading [Q[i][j]] as it is stored, [None] for a missing entry. *)
Definition lookup_entry (Q : gmap string (gmap string Qc)) (i j : string) : option Qc :=
  Q !! i ≫= fun row => row !! j.

(** The sum of the rates of all transitions from [i] to [j]. *)
Definition rate_between (ts : list CtmcTransition) (i j : string) : Qc :=
  sum_Qc (map rate (filter (fun t => from t = i ∧ to t = j) ts)).

(** ** Example chains *)

(** The two-state chain of the concrete scenario: [A -> B : 1], [B -> A : 1],
    started in [A]. *)
Definition two_state_chain : CtmcDef :=
  mkCtmc ["A"; "B"]%string
         (<["A"%string := 1]> (<["B"%string := 0]> ∅))
         [mkTransition "A" "B" 1; mkTransition "B" "A" 1].

(** ** Outcomes of functions that can throw or loop *)

(** [Throws] stands for a JavaScript TypeError (a property read on
    [undefined]); [OutOfFuel] is returned by the embedding of a [while] loop
    whose iteration budget ran out before the loop condition became false. *)
Inductive outcome (A : Type) : Type :=
  | Ret (a : A)
  | Throws
  | OutOfFuel.
Arguments Ret {A} a.
Arguments Throws {A}.
Arguments OutOfFuel {A}.

#[global] Instance outcome_eq_dec {A : Type} `{EqDecision A} : EqDecision (outcome A).
Proof. solve_decision. Defined.

Definition obind {A B : Type} (x : outcome A) (f : A -> outcome B) : outcome B :=
  match x with
  | Ret a => f a
  | Throws => Throws
  | OutOfFuel => OutOfFuel
  end.

(** ** isIrreducible *)

(** [successors(s) = chain.states.filter(j => s !== j && Q[s][j] > 0)]. *)
Definition successors (sts : list string) (Q : gmap string (gmap string Qc))
    (s : string) : list string :=
  filter (fun j => s ≠ j ∧ 0 < entry Q s j) sts.

(** Body of [for (const v of successors(u))]: an unvisited [v] is added to
    [visited] and pushed on the queue. *)
Definition visit (vq : gset string * list string) (v : string)
  : gset string * list string :=
  if decide (v ∈ vq.1) then vq else ({[v]} ∪ vq.1, vq.2 ++ [v]).

(** [while (queue.length > 0) { const u = queue.shift(); ... }] *)
Fixpoint bfs_loop (fuel : nat) (sts : list string) (Q : gmap string (gmap string Qc))
    (visited : gset string) (queue : list string) : outcome (gset string) :=
  match queue with
  | [] => Ret visited
  | u :: rest =>
      match fuel with
      | O => OutOfFuel
      | S fuel' =>
          let vq := foldl visit (visited, rest) (successors sts Q u) in
          bfs_loop fuel' sts Q vq.1 vq.2
      end
  end.

(** [for (const start of chain.states)] with the early [return false]. *)
Fixpoint bfs_from_all (fuel : nat) (sts : list string) (Q : gmap string (gmap string Qc))
    (starts : list string) : outcome bool :=
  match starts with
  | [] => Ret true
  | start :: more =>
      obind (bfs_loop fuel sts Q {[start]} [start]) (fun visited =>
        if decide (size visited ≠ length sts) then Ret false
        else bfs_from_all fuel sts Q more)
  end.

Definition isIrreducible (fuel : nat) (chain : CtmcDef) : outcome bool :=
  if decide (length (states chain) ≤ 1)%nat then Ret true
  else match buildRateMatrix chain with
       | None => Throws
       | Some Q => bfs_from_all fuel (states chain) Q (states chain)
       end.

(** The directed graph on the states whose edges are the pairs [(i,j)] with
    [Q(i,j) > 0], and its strong connectivity. *)
Definition edge (sts : list string) (Q : gmap string (gmap string Qc))
    (i j : string) : Prop :=
  i ∈ sts ∧ j ∈ sts ∧ 0 < entry Q i j.

Definition strongly_connected (sts : list string) (Q : gmap string (gmap string Qc)) : Prop :=
  ∀ i j, i ∈ sts -> j ∈ sts -> rtc (edge sts Q) i j.

(** The edges the traversal follows (those of [edge] between distinct
    states) and the number of states it has not visited yet. *)
Definition bfs_edge (sts : list string) (Q : gmap string (gmap string Qc))
    (i j : string) : Prop :=
  j ∈ successors sts Q i.

Definition unvisited (sts : list string) (visited : gset string) : nat :=
  size (list_to_set sts ∖ visited : gset string).

(** ** Arrays of numbers *)

(** Reads [a[i]] and [M[i][j]] at indices that the loops of the source keep
    within the bounds fixed by [states.length]. *)
Definition get (a : list Qc) (i : nat) : Qc := default 0 (a !! i).
Definition get_row (M : list (list Qc)) (i : nat) : list Qc := default [] (M !! i).
Definition get2 (M : list (list Qc)) (i j : nat) : Qc := get (get_row M i) j.

(** [for (let j = 0; j < n; j++) a[j] = f(j, a[j])]. *)
Definition for_each_index (n : nat) (f : nat -> Qc -> Qc) (a : list Qc) : list Qc :=
  foldl (fun a j => <[j := f j (get a j)]> a) a (seq 0 n).

(** [[M[i], M[j]] = [M[j], M[i]]]: both right-hand sides are read first. *)
Definition swap_rows (M : list (list Qc)) (i j : nat) : list (list Qc) :=
  <[j := get_row M i]> (<[i := get_row M j]> M).

Definition swap_entries (a : list Qc) (i j : nat) : list Qc :=
  <[j := get a i]> (<[i := get a j]> a).

(** ** getStationaryDistribution *)

Definition eps : Qc := Q2Qc (1 # 10000000000).

(** [M[i][j] = (i === n - 1 ? 1 : Q[states[j]][states[i]])] and
    [b[i] = (i === n - 1 ? 1 : 0)]. *)
Definition stationary_matrix (sts : list string) (Q : gmap string (gmap string Qc))
  : list (list Qc) :=
  imap (fun i si => map (fun sj => if decide (i = length sts - 1)%nat then 1
                                   else entry Q sj si) sts) sts.

Definition stationary_rhs (sts : list string) : list Qc :=
  imap (fun i _ => if decide (i = length sts - 1)%nat then 1 else 0) sts.

(** The pivot search: the first [row] in [col .. n-1] with
    [Math.abs(M[row][col]) > eps]; [None] is the source's [pivot === -1]. *)
Definition find_pivot (n : nat) (M : list (list Qc)) (col : nat) : option nat :=
  find (fun row => bool_decide (eps < Math_abs (get2 M row col))) (seq col (n - col)).

(** One pass of the inner [for (let row = 0; row < n; row++)] loop. *)
Definition eliminate_row (n col : nat) (Mb : list (list Qc) * list Qc) (row : nat)
  : list (list Qc) * list Qc :=
  let '(M, b) := Mb in
  if decide (row = col ∨ Math_abs (get2 M row col) < eps) then (M, b)
  else
    let f := get2 M row col in
    (<[row := for_each_index n (fun j x => x - f * get2 M col j) (get_row M row)]> M,
     <[row := get b row - f * get b col]> b).

(** The body of [for (let col = 0; col < n; col++)]. *)
Definition eliminate_column (n : nat) (Mb : list (list Qc) * list Qc) (col : nat)
  : list (list Qc) * list Qc :=
  let '(M, b) := Mb in
  match find_pivot n M col with
  | None => (M, b)
  | Some pivot =>
      let M1 := swap_rows M col pivot in
      let b1 := swap_entries b col pivot in
      let scale := get2 M1 col col in
      let M2 := <[col := for_each_index n (fun _ x => x / scale) (get_row M1 col)]> M1 in
      let b2 := <[col := get b1 col / scale]> b1 in
      foldl (eliminate_row n col) (M2, b2) (seq 0 n)
  end.

Definition gauss_eliminate (n : nat) (M : list (list Qc)) (b : list Qc)
  : list (list Qc) * list Qc :=
  foldl (eliminate_column n) (M, b) (seq 0 n).

(** [pi[states[i]] = Math.max(0, b[i])] for [i = 0 .. n-1]. *)
Definition clamp_solution (sts : list string) (b : list Qc) : gmap string Qc :=
  foldl (fun pi '(i, s) => <[s := Math_max 0 (get b i)]> pi) ∅ (imap pair sts).

(** [null] is [None]. *)
Definition getStationaryDistribution (fuel : nat) (chain : CtmcDef)
  : outcome (option (gmap string Qc)) :=
  obind (isIrreducible fuel chain) (fun irreducible =>
    if negb irreducible then Ret None
    else
      let sts := states chain in
      let n := length sts in
      if decide (n = 0)%nat then Ret (Some ∅)
      else match buildRateMatrix chain with
           | None => Throws
           | Some Q =>
               let Mb := gauss_eliminate n (stationary_matrix sts Q) (stationary_rhs sts) in
               Ret (Some (clamp_solution sts Mb.2))
           end).

(** A chain whose rates are below the pivot tolerance:
    [A -> B : 0.00000000001], [B -> A : 0.00000000001]. *)
Definition tiny_rate : Qc := Q2Qc (1 # 100000000000).

Definition slow_chain : CtmcDef :=
  mkCtmc ["A"; "B"]%string
         (<["A"%string := 1]> (<["B"%string := 0]> ∅))
         [mkTransition "A" "B" tiny_rate; mkTransition "B" "A" tiny_rate].

(** ** matrixExponential *)

(** [Math.ceil(Math.log2(x))] on exact numbers.  [Math.log2(0)] is
    [-Infinity], which [Math.ceil] keeps; for [x > 0] the result is the least
    integer [k] with [x <= 2^k].  With [x = p/q] in lowest terms this is
    [log2_up (ceil (p/q))] when [x >= 1] and [- log2 (floor (q/p))] below 1.
    The argument is always a norm, hence never negative. *)
Inductive ext_int : Type :=
  | NegInfinity
  | Finite (k : Z).

Definition ceil_log2_pos (x : Qc) : Z :=
  let p := Qnum (this x) in
  let q := Zpos (Qden (this x)) in
  if decide (q ≤ p)%Z then Z.log2_up ((p + q - 1) / q) else (- Z.log2 (q / p))%Z.

Definition Math_ceil_log2 (x : Qc) : ext_int :=
  if decide (x ≤ 0) then NegInfinity else Finite (ceil_log2_pos x).

(** [Math.max(0, e)] for such a value, as the number of squarings. *)
Definition Math_max0 (e : ext_int) : nat :=
  match e with
  | NegInfinity => 0%nat
  | Finite k => Z.to_nat (Z.max 0 k)
  end.

(** [Math.pow(2, m)] for a non-negative integer [m]. *)
Definition pow2 (m : nat) : Qc := Q2Qc (inject_Z (2 ^ Z.of_nat m)).

(** [states.map((i) => states.map((j) => Q[i][j] * t))]; [None] when an
    entry of [Q] is missing (a TypeError, or a NaN entry). *)
Definition times_t (Q : gmap string (gmap string Qc)) (sts : list string) (t : Qc)
  : option (list (list Qc)) :=
  mapM (fun i => mapM (fun j => (fun x => x * t) <$> lookup_entry Q i j) sts) sts.

Definition identity_matrix (n : nat) : list (list Qc) :=
  map (fun i => map (fun j => if decide (i = j) then 1 else 0) (seq 0 n)) (seq 0 n).

(** The infinity norm: the largest row sum of absolute values. *)
Definition inf_norm (n : nat) (M : list (list Qc)) : Qc :=
  foldl (fun norm i =>
           Math_max norm (foldl (fun rowSum j => rowSum + Math_abs (get2 M i j)) 0 (seq 0 n)))
        0 (seq 0 n).

Definition scaling_exponent (norm : Qc) : nat := Math_max0 (Math_ceil_log2 norm).

(** [Qt[i][j] /= scale] for all [i], [j]. *)
Definition scale_matrix (n : nat) (M : list (list Qc)) (scale : Qc) : list (list Qc) :=
  foldl (fun M i => <[i := for_each_index n (fun _ x => x / scale) (get_row M i)]> M)
        M (seq 0 n).

Definition matMult (n : nat) (A B : list (list Qc)) : list (list Qc) :=
  map (fun i => map (fun j => foldl (fun c k => c + get2 A i k * get2 B k j) 0 (seq 0 n))
                    (seq 0 n)) (seq 0 n).

Definition matAdd (n : nat) (A B : list (list Qc)) (coefA coefB : Qc) : list (list Qc) :=
  map (fun i => map (fun j => coefA * get2 A i j + coefB * get2 B i j) (seq 0 n)) (seq 0 n).

(** *** gaussJordanInverse *)

Definition gj_pivot (n : nat) (A : list (list Qc)) (col : nat) : nat :=
  foldl (fun pivot row =>
           if decide (Math_abs (get2 A pivot col) < Math_abs (get2 A row col))
           then row else pivot)
        col (seq (S col) (n - S col)).

Definition gj_eliminate_row (n col : nat) (AI : list (list Qc) * list (list Qc)) (row : nat)
  : list (list Qc) * list (list Qc) :=
  let '(A, Inv) := AI in
  if decide (row = col) then (A, Inv)
  else
    let f := get2 A row col in
    (<[row := for_each_index n (fun j x => x - f * get2 A col j) (get_row A row)]> A,
     <[row := for_each_index n (fun j x => x - f * get2 Inv col j) (get_row Inv row)]> Inv).

Definition gj_column (n : nat) (AI : list (list Qc) * list (list Qc)) (col : nat)
  : list (list Qc) * list (list Qc) :=
  let '(A, Inv) := AI in
  let pivot := gj_pivot n A col in
  if decide (Math_abs (get2 A pivot col) < eps) then (A, Inv)
  else
    let A1 := swap_rows A col pivot in
    let I1 := swap_rows Inv col pivot in
    let scale := get2 A1 col col in
    let A2 := <[col := for_each_index n (fun _ x => x / scale) (get_row A1 col)]> A1 in
    let I2 := <[col := for_each_index n (fun _ x => x / scale) (get_row I1 col)]> I1 in
    foldl (gj_eliminate_row n col) (A2, I2) (seq 0 n).

Definition gaussJordanInverse (M : list (list Qc)) : list (list Qc) :=
  let n := length M in
  (foldl (gj_column n) (M, identity_matrix n) (seq 0 n)).2.

(** *** The exponential *)

Definition one_half : Qc := Q2Qc (1 # 2).
Definition one_twelfth : Qc := Q2Qc (1 # 12).

(** [P[states[i]][states[j]] = result[i][j]]. *)
Definition to_record (sts : list string) (result : list (list Qc))
  : gmap string (gmap string Qc) :=
  foldl (fun P '(i, si) =>
           <[si := foldl (fun row '(j, sj) => <[sj := get2 result i j]> row) ∅ (imap pair sts)]> P)
        ∅ (imap pair sts).

(** The scaled matrix [Qt / 2^m] that the Padé step receives. *)
Definition scaled_Qt (n : nat) (Qt : list (list Qc)) : list (list Qc) :=
  scale_matrix n Qt (pow2 (scaling_exponent (inf_norm n Qt))).

Definition matrixExponential (Q : gmap string (gmap string Qc)) (sts : list string) (t : Qc)
  : option (gmap string (gmap string Qc)) :=
  let n := length sts in
  if decide (n = 0)%nat then Some ∅
  else
    match times_t Q sts t with
    | None => None
    | Some Qt0 =>
        let Id := identity_matrix n in
        let m := scaling_exponent (inf_norm n Qt0) in
        let Qt := scaled_Qt n Qt0 in
        let Qt2 := matMult n Qt Qt in
        let num := matAdd n (matAdd n Id Qt 1 one_half) Qt2 1 one_twelfth in
        let den := matAdd n (matAdd n Id Qt 1 (- one_half)) Qt2 1 one_twelfth in
        let invDen := gaussJordanInverse den in
        let result := Nat.iter m (fun r => matMult n r r) (matMult n invDen num) in
        Some (to_record sts result)
    end.

(** ** Strings

    Input texts are ASCII.  [\s] is the ASCII white space (tab, line feed,
    vertical tab, form feed, carriage return, space), [\S] its complement,
    [\d] a decimal digit. *)

Definition is_space (c : ascii) : bool :=
  let n := nat_of_ascii c in
  ((9 <=? n) && (n <=? 13) || (n =? 32))%nat.

Definition is_digit (c : ascii) : bool :=
  let n := nat_of_ascii c in ((48 <=? n) && (n <=? 57))%nat.

Definition is_digit_or_dot (c : ascii) : bool := is_digit c || Ascii.eqb c ".".

Definition to_lower (c : ascii) : ascii :=
  let n := nat_of_ascii c in
  if ((65 <=? n) && (n <=? 90))%nat then ascii_of_nat (n + 32) else c.

Fixpoint toLowerCase (s : string) : string :=
  match s with
  | EmptyString => EmptyString
  | String c s' => String (to_lower c) (toLowerCase s')
  end.

Fixpoint trim_start (s : string) : string :=
  match s with
  | EmptyString => EmptyString
  | String c s' => if is_space c then trim_start s' else s
  end.

Definition trim_end (s : string) : string := String.rev (trim_start (String.rev s)).

(** [s.trim()] *)
Definition trim (s : string) : string := trim_end (trim_start s).

(** [s.split(sep)] for a one-character separator. *)
Fixpoint split (sep : ascii) (s : string) : list string :=
  match s with
  | EmptyString => [EmptyString]
  | String c s' =>
      if Ascii.eqb c sep then EmptyString :: split sep s'
      else match split sep s' with
           | [] => [String c EmptyString]
           | w :: ws => String c w :: ws
           end
  end.

(** [a.join(' ')] *)
Fixpoint join_space (l : list string) : string :=
  match l with
  | [] => EmptyString
  | [x] => x
  | x :: rest => x +:+ " " +:+ join_space rest
  end.

(** The longest prefix of characters satisfying [p], and what follows it. *)
Fixpoint span (p : ascii -> bool) (s : string) : string * string :=
  match s with
  | EmptyString => (EmptyString, EmptyString)
  | String c s' =>
      if p c then let '(a, b) := span p s' in (String c a, b) else (EmptyString, s)
  end.

Fixpoint take (n : nat) (s : string) : string :=
  match n, s with
  | S n', String c s' => String c (take n' s')
  | _, _ => EmptyString
  end.

Fixpoint skip (n : nat) (s : string) : string :=
  match n, s with
  | S n', String _ s' => skip n' s'
  | _, _ => s
  end.

(** A literal matched without regard to case: what follows it in [s]. *)
Fixpoint strip_prefix_ci (lit s : string) : option string :=
  match lit, s with
  | EmptyString, _ => Some s
  | String a lit', String c s' =>
      if Ascii.eqb (to_lower a) (to_lower c) then strip_prefix_ci lit' s' else None
  | String _ _, EmptyString => None
  end.

Fixpoint strip_prefix (lit s : string) : option string :=
  match lit, s with
  | EmptyString, _ => Some s
  | String a lit', String c s' =>
      if Ascii.eqb a c then strip_prefix lit' s' else None
  | String _ _, EmptyString => None
  end.

(** ** parseFloat on a string of digits and dots

    [parseFloat] reads the longest prefix that is a decimal literal:
    digits, optionally a dot and digits, at least one digit in all; when
    there is none it returns NaN ([None]). *)
Fixpoint digits_value (acc : Z) (s : string) : Z :=
  match s with
  | EmptyString => acc
  | String c s' => digits_value (10 * acc + Z.of_nat (nat_of_ascii c - 48)) s'
  end.

Definition parseFloat (s : string) : option Qc :=
  let '(int_part, rest) := span is_digit s in
  let frac_part :=
    match rest with
    | String "." rest' => fst (span is_digit rest')
    | _ => EmptyString
    end in
  if (String.length int_part + String.length frac_part =? 0)%nat then None
  else Some (Q2Qc (inject_Z (digits_value 0 int_part))
             + Q2Qc (inject_Z (digits_value 0 frac_part))
               / Q2Qc (inject_Z (10 ^ Z.of_nat (String.length frac_part)))).

(** ** The two entry patterns *)

(** The tail [\s*:\s*([\d.]+)] of both patterns, matched at the start of
    [s]: the captured number and what follows the match. *)
Definition match_colon_number (s : string) : option (string * string) :=
  match strip_prefix ":" (trim_start s) with
  | None => None
  | Some after =>
      let '(num, rest) := span is_digit_or_dot (trim_start after) in
      if (String.length num =? 0)%nat then None else Some (num, rest)
  end.

(** [/(\S+)\s*:\s*([\d.]+)/] matched at the start of [s].  The group [(\S+)]
    is greedy: its lengths are tried from the longest ([k]) down to 1.  The
    result is the two captures and the length of the match. *)
Fixpoint prob_match_len (k : nat) (s : string) : option (string * string * nat) :=
  match k with
  | O => None
  | S k' =>
      match match_colon_number (skip k s) with
      | Some (num, rest) => Some (take k s, num, (String.length s - String.length rest)%nat)
      | None => prob_match_len k' s
      end
  end.

Definition prob_match_at (s : string) : option (string * string * nat) :=
  prob_match_len (String.length (fst (span (fun c => negb (is_space c)) s))) s.

(** The successive matches of the global pattern, as the [exec] loop finds
    them: leftmost first, each search resuming where the last match ended
    ([resume] characters are still to be passed over). *)
Fixpoint prob_matches (resume : nat) (s : string) : list (string * string) :=
  match s with
  | EmptyString => []
  | String _ s' =>
      match resume with
      | S r => prob_matches r s'
      | O =>
          match prob_match_at s with
          | Some (name, num, len) => (name, num) :: prob_matches (len - 1) s'
          | None => prob_matches 0 s'
          end
      end
  end.

(** [/^\s*(\S+)\s*->\s*(\S+)\s*:\s*([\d.]+)\s*$/]: both [(\S+)] groups are
    greedy and backtrack from their longest length. *)
Fixpoint rate_match_to (k : nat) (s : string) : option (string * string) :=
  match k with
  | O => None
  | S k' =>
      match match_colon_number (skip k s) with
      | Some (num, rest) =>
          if (String.length (trim_start rest) =? 0)%nat then Some (take k s, num)
          else rate_match_to k' s
      | None => rate_match_to k' s
      end
  end.

Fixpoint rate_match_from (k : nat) (s : string) : option (string * string * string) :=
  match k with
  | O => None
  | S k' =>
      let attempt :=
        match strip_prefix "->" (trim_start (skip k s)) with
        | None => None
        | Some after =>
            let s2 := trim_start after in
            rate_match_to (String.length (fst (span (fun c => negb (is_space c)) s2))) s2
        end in
      match attempt with
      | Some (to_, num) => Some (take k s, to_, num)
      | None => rate_match_from k' s
      end
  end.

Definition rate_match (part : string) : option (string * string * string) :=
  let s := trim_start part in
  rate_match_from (String.length (fst (span (fun c => negb (is_space c)) s))) s.

(** ** parseCtmcDSL *)

(** The failure messages of the parser, one constructor per message. *)
Inductive parse_error : Type :=
  | DefinitionIsEmpty
  | FirstSectionMustBeStates
  | StatesListIsEmpty
  | DuplicateStateName (name : string)
  | MissingStatesSection
  | MissingInitialSection
  | UnknownStateInInitial (name : string)
  | InvalidProbability (text : string)
  | InitialMustSumToOne (sum : Qc)
  | UnknownStateInRate (name : string)
  | SelfLoopNotAllowed (from_ to_ : string)
  | InvalidRate (text : string)
  | MissingRatesSection.

(** [{ ok: true, chain }] or [{ ok: false, error }]. *)
Inductive CtmcParseResult : Type :=
  | ParseOk (chain : CtmcDef)
  | ParseError (error : parse_error).

(** Early [return { ok: false, ... }] inside the parser. *)
Inductive parsing (A : Type) : Type :=
  | Continue (a : A)
  | Failed (error : parse_error).
Arguments Continue {A} a.
Arguments Failed {A} error.

Definition pbind {A B : Type} (x : parsing A) (f : A -> parsing B) : parsing B :=
  match x with
  | Continue a => f a
  | Failed e => Failed e
  end.

Notation "x ← y ;;; z" := (pbind y (fun x => z))
  (at level 20, y at level 100, z at level 200, right associativity, only parsing).

Fixpoint pfold {A B : Type} (f : A -> B -> parsing A) (a : A) (l : list B) : parsing A :=
  match l with
  | [] => Continue a
  | x :: l' => pbind (f a x) (fun a' => pfold f a' l')
  end.

Inductive section_name : Type := SecStates | SecInitial | SecRates.

(** The header a trimmed line starts with, and the rest of that line,
    trimmed.  The three patterns, each followed by white space and matched
    without regard to case, are tested in this order: [States:],
    [Initial distribution:], [Rates:] or [Rate:]. *)
Definition header_of (trimmedLine : string) : option (section_name * string) :=
  match strip_prefix_ci "States:" trimmedLine with
  | Some rest => Some (SecStates, trim rest)
  | None =>
      match strip_prefix_ci "Initial distribution:" trimmedLine with
      | Some rest => Some (SecInitial, trim rest)
      | None =>
          match strip_prefix_ci "Rates:" trimmedLine with
          | Some rest => Some (SecRates, trim rest)
          | None =>
              match strip_prefix_ci "Rate:" trimmedLine with
              | Some rest => Some (SecRates, trim rest)
              | None => None
              end
          end
      end
  end.

Record scan_state : Type := mkScan {
  section : option section_name;
  stateLines : list string;
  initialLines : list string;
  rateLines : list string
}.

Definition push_line (st : scan_state) (sec : section_name) (part : string) : scan_state :=
  match sec with
  | SecStates => mkScan (Some sec) (stateLines st ++ [part]) (initialLines st) (rateLines st)
  | SecInitial => mkScan (Some sec) (stateLines st) (initialLines st ++ [part]) (rateLines st)
  | SecRates => mkScan (Some sec) (stateLines st) (initialLines st) (rateLines st ++ [part])
  end.

Definition set_section (st : scan_state) (sec : section_name) : scan_state :=
  mkScan (Some sec) (stateLines st) (initialLines st) (rateLines st).

(** The body of the loop over the lines. *)
Definition scan_line (st : scan_state) (line : string) : parsing scan_state :=
  let trimmedLine := trim line in
  if (String.length trimmedLine =? 0)%nat then Continue st
  else
    match header_of trimmedLine with
    | Some (sec, part) =>
        if (String.length part =? 0)%nat then Continue (set_section st sec)
        else Continue (push_line st sec part)
    | None =>
        match section st with
        | Some sec => Continue (push_line st sec trimmedLine)
        | None => Failed FirstSectionMustBeStates
        end
    end.

Definition is_empty (s : string) : bool := (String.length s =? 0)%nat.

(** The duplicate check over the names. *)
Definition add_state (seen : list string) (n : string) : parsing (list string) :=
  if decide (n ∈ seen) then Failed (DuplicateStateName n) else Continue (seen ++ [n]).

(** One match of the probability pattern. *)
Definition add_probability (sts : list string) (mu : gmap string Qc)
    (m : string * string) : parsing (gmap string Qc) :=
  let stateName := trim (fst m) in
  if decide (stateName ∈ sts) then
    match parseFloat (snd m) with
    | None => Failed (InvalidProbability (snd m))
    | Some prob =>
        if decide (prob < 0 ∨ 1 < prob) then Failed (InvalidProbability (snd m))
        else Continue (<[stateName := default 0 (mu !! stateName) + prob]> mu)
    end
  else Failed (UnknownStateInInitial stateName).

Definition fill_missing (mu : gmap string Qc) (s : string) : gmap string Qc :=
  match mu !! s with
  | Some _ => mu
  | None => <[s := 0]> mu
  end.

Definition parse_initial (sts : list string) (initialText : string)
  : parsing (gmap string Qc) :=
  if String.eqb (toLowerCase initialText) "uniform" then
    let p := 1 / Q2Qc (inject_Z (Z.of_nat (length sts))) in
    Continue (foldl (fun mu s => <[s := p]> mu) ∅ sts)
  else
    mu ← pfold (add_probability sts) ∅ (prob_matches 0 initialText) ;;;
    let filled := foldl fill_missing mu sts in
    let sum := foldl (fun acc s => acc + default 0 (filled !! s)) 0 sts in
    if decide (tolerance_1e6 < Math_abs (sum - 1)) then Failed (InitialMustSumToOne sum)
    else Continue filled.

(** One comma-separated part of a line of the Rates section. *)
Definition add_transition (sts : list string) (ts : list CtmcTransition) (part : string)
  : parsing (list CtmcTransition) :=
  match rate_match (trim part) with
  | None => Continue ts
  | Some (m1, m2, m3) =>
      let from_ := trim m1 in
      let to_ := trim m2 in
      if decide (from_ ∈ sts) then
        if decide (to_ ∈ sts) then
          if decide (from_ = to_) then Failed (SelfLoopNotAllowed from_ to_)
          else
            match parseFloat m3 with
            | None => Failed (InvalidRate m3)
            | Some rate =>
                if decide (rate ≤ 0) then Failed (InvalidRate m3)
                else Continue (ts ++ [mkTransition from_ to_ rate])
            end
        else Failed (UnknownStateInRate to_)
      else Failed (UnknownStateInRate from_)
  end.

Definition parse_rate_line (sts : list string) (ts : list CtmcTransition) (line : string)
  : parsing (list CtmcTransition) :=
  pfold (add_transition sts) ts (split "," line).

Definition parse_body (trimmed : string) : parsing CtmcDef :=
  st ← pfold scan_line (mkScan None [] [] []) (split "010" trimmed) ;;;
  let stateText := join_space (stateLines st) in
  let names := filter (fun s => negb (is_empty s)) (map trim (split "," stateText)) in
  if (length names =? 0)%nat then Failed StatesListIsEmpty
  else
    sts ← pfold add_state [] names ;;;
    if (length sts =? 0)%nat then Failed MissingStatesSection
    else if (length (initialLines st) =? 0)%nat then Failed MissingInitialSection
    else
      mu ← parse_initial sts (trim (join_space (initialLines st))) ;;;
      ts ← pfold (parse_rate_line sts) [] (rateLines st) ;;;
      match section st with
      | Some SecRates => Continue (mkCtmc sts mu ts)
      | _ => Failed MissingRatesSection
      end.

Definition parseCtmcDSL (text : string) : CtmcParseResult :=
  let trimmed := trim text in
  if (String.length trimmed =? 0)%nat then ParseError DefinitionIsEmpty
  else match parse_body trimmed with
       | Continue chain => ParseOk chain
       | Failed e => ParseError e
       end.

(** The section headers of a text, in order of appearance, and whether some
    later section's header comes before an earlier section's header. *)
Definition headers (text : string) : list section_name :=
  omap (fun line => fst <$> header_of (trim line)) (split "010" (trim text)).

Definition section_rank (s : section_name) : nat :=
  match s with SecStates => 0 | SecInitial => 1 | SecRates => 2 end.

Fixpoint out_of_order (hs : list section_name) : bool :=
  match hs with
  | [] => false
  | h :: rest =>
      existsb (fun h' => (section_rank h' <? section_rank h)%nat) rest || out_of_order rest
  end.

(** Example texts. *)
Definition nl : string := String "010" EmptyString.

Definition scenario_text : string :=
  "States: A, B" +:+ nl +:+ "Initial distribution: A : 1.0" +:+ nl
  +:+ "Rates: A -> B : 1.0, B -> A : 1.0".

Definition initial_first_text : string :=
  "Initial distribution: uniform" +:+ nl +:+ "States: A, B" +:+ nl
  +:+ "Rates: A -> B : 1, B -> A : 1".

Definition rates_first_text : string :=
  "Rates: A -> B : 1, B -> A : 1" +:+ nl +:+ "States: A, B" +:+ nl
  +:+ "Initial distribution: uniform".

Definition negative_rate_text : string :=
  "States: A, B" +:+ nl +:+ "Initial distribution: uniform" +:+ nl
  +:+ "Rates: A -> B : -1, B -> A : 1".

(** ** The jump-chain table ([buildJumpMap]) *)

Record jump_row : Type := mkRow {
  totalRate : Qc;
  row_to : list string;
  cumul : list Qc
}.

(** [byFrom.get(t.from).push({ to: t.to, rate: t.rate })] *)
Definition group_by_from (ts : list CtmcTransition) : gmap string (list (string * Qc)) :=
  foldl (fun m t => <[from t := default [] (m !! from t) ++ [(to t, rate t)]]> m) ∅ ts.

(** [to.push(next); totalRate += rate; cumul.push(totalRate)], with an exact
    addition ([Binary64.extend_row] rounds it). *)
Definition extend_row (r : jump_row) (e : string * Qc) : jump_row :=
  let total := totalRate r + snd e in
  mkRow total (row_to r ++ [fst e]) (cumul r ++ [total]).

Definition row_of (l : list (string * Qc)) : jump_row :=
  foldl extend_row (mkRow 0 [] []) l.

Definition buildJumpMap (chain : CtmcDef) : gmap string jump_row :=
  let byFrom := group_by_from (transitions chain) in
  foldl (fun m s => <[s := row_of (default [] (byFrom !! s))]> m) ∅ (states chain).

(** ** Sampling

    The random source [rand : () => number] is the sequence of the values it
    returns, [rand 0], [rand 1], ...; each function takes the index [k] of
    the next draw and returns the index after its own draws.

    A state read from an empty array is [undefined]: [None]. *)

Record TrajectoryPoint : Type := mkPoint {
  t : Qc;
  state : option string
}.

#[global] Instance TrajectoryPoint_eq_dec : EqDecision TrajectoryPoint.
Proof. solve_decision. Defined.

Section sampler.

(** [Math.log] on positive arguments, an implementation-approximated value;
    [Math.log(0)] is [-Infinity] and is handled where it is used. *)
Variable Math_log : Qc -> Qc.

(** [-Math.log(r) / totalRate]; [None] is a non-finite result ([Infinity]
    for [r = 0], NaN for [r < 0]), which [isFinite] rejects. *)
Definition holding_time (r totalRate : Qc) : option Qc :=
  if decide (r ≤ 0) then None else Some (- Math_log r / totalRate).

(** The loop over [row.cumul]: the first [i] with [u < cumul[i]] gives
    [to[i]]; without one the state stays [from]. *)
Definition pick_next (from_ : option string) (row : jump_row) (u : Qc) : option string :=
  match find (fun c => bool_decide (u < fst c)) (zip (cumul row) (row_to row)) with
  | Some (_, next) => Some next
  | None => from_
  end.

Definition sampleJump (from_ : option string) (jumpMap : gmap string jump_row)
    (rand : nat -> Qc) (k : nat) : option string * option Qc * nat :=
  match from_ ≫= (fun s => jumpMap !! s) with
  | None => (from_, None, k)
  | Some row =>
      if decide (totalRate row = 0) then (from_, None, k)
      else
        let holdingTime := holding_time (rand k) (totalRate row) in
        let u := rand (S k) * totalRate row in
        (pick_next from_ row u, holdingTime, S (S k))
  end.

(** The loop of [sampleFromDistribution]. *)
Fixpoint sample_scan (dist : gmap string Qc) (u cumul_ : Qc) (sts : list string)
  : option string :=
  match sts with
  | [] => None
  | s :: rest =>
      let c := cumul_ + default 0 (dist !! s) in
      if decide (u < c) then Some s else sample_scan dist u c rest
  end.

Definition sampleFromDistribution (dist : gmap string Qc) (sts : list string) (u : Qc)
  : option string :=
  match sample_scan dist u 0 sts with
  | Some s => Some s
  | None => last sts
  end.

(** [while (currentTime < maxTime) { ... }], the clock advancing by exact
    additions ([Binary64.trajectory_loop] rounds them, and there a short
    holding time can leave the clock where it is). *)
Fixpoint trajectory_loop (fuel : nat) (jumpMap : gmap string jump_row) (maxTime : Qc)
    (rand : nat -> Qc) (trajectory : list TrajectoryPoint)
    (currentState : option string) (currentTime : Qc) (k : nat)
  : outcome (list TrajectoryPoint * nat) :=
  if decide (currentTime < maxTime) then
    match fuel with
    | O => OutOfFuel
    | S fuel' =>
        let '(nextState, holdingTime, k') := sampleJump currentState jumpMap rand k in
        match holdingTime with
        | None => Ret (trajectory, k')
        | Some h =>
            if decide (maxTime ≤ currentTime + h) then Ret (trajectory, k')
            else trajectory_loop fuel' jumpMap maxTime rand
                   (trajectory ++ [mkPoint (currentTime + h) nextState])
                   nextState (currentTime + h) k'
        end
    end
  else Ret (trajectory, k).

Definition sampleTrajectory (fuel : nat) (chain : CtmcDef) (maxTime : Qc)
    (rand : nat -> Qc) (k : nat) : outcome (list TrajectoryPoint * nat) :=
  let jumpMap := buildJumpMap chain in
  let start := sampleFromDistribution (initialDistribution chain) (states chain) (rand k) in
  trajectory_loop fuel jumpMap maxTime rand [mkPoint 0 start] start 0 (S k).

(** ** runSimulation *)

(** [timePoints[i] = (i / (numTimePoints - 1)) * maxTime]; the source divides
    0 by 0 when [numTimePoints = 1]. *)
Definition time_points (numTimePoints : nat) (maxTime : Qc) : list Qc :=
  map (fun i => Q2Qc (inject_Z (Z.of_nat i))
                / Q2Qc (inject_Z (Z.of_nat (numTimePoints - 1))) * maxTime)
      (seq 0 numTimePoints).

(** The scan [for (let j = 1; ...)] for the last jump at or before [time]. *)
Fixpoint last_state_before (st : option string) (rest : list TrajectoryPoint) (time : Qc)
  : option string :=
  match rest with
  | [] => st
  | p :: rest' => if decide (t p ≤ time) then last_state_before (state p) rest' time else st
  end.

(** [proportions[state][i] += 1]; a TypeError when [trajectory[0]] or
    [proportions[state]] is undefined. *)
Definition count_at (trajectory : list TrajectoryPoint) (timePoints : list Qc)
    (proportions : gmap string (list Qc)) (i : nat) : outcome (gmap string (list Qc)) :=
  match trajectory with
  | [] => Throws
  | p0 :: rest =>
      match last_state_before (state p0) rest (get timePoints i) with
      | None => Throws
      | Some s =>
          match proportions !! s with
          | None => Throws
          | Some counts => Ret (<[s := <[i := get counts i + 1]> counts]> proportions)
          end
      end
  end.

Fixpoint ofold {A B : Type} (f : A -> B -> outcome A) (a : A) (l : list B) : outcome A :=
  match l with
  | [] => Ret a
  | x :: l' => obind (f a x) (fun a' => ofold f a' l')
  end.

(** One pass of [for (let m = 0; m < M; m++)]. *)
Definition simulate_one (fuel : nat) (chain : CtmcDef) (maxTime : Qc) (numTimePoints : nat)
    (rand : nat -> Qc) (acc : gmap string (list Qc) * nat) (m : nat)
  : outcome (gmap string (list Qc) * nat) :=
  obind (sampleTrajectory fuel chain maxTime rand (snd acc)) (fun tk =>
    obind (ofold (count_at (fst tk) (time_points numTimePoints maxTime))
                 (fst acc) (seq 0 numTimePoints))
          (fun proportions => Ret (proportions, snd tk))).

Record SimulateResult : Type := mkResult {
  result_t : list Qc;
  proportions : gmap string (list Qc)
}.

(** [proportions[s][i] /= M], the quotient exact ([Binary64.runSimulation]
    rounds it). *)
Definition runSimulation (fuel : nat) (chain : CtmcDef) (M : nat) (maxTime : Qc)
    (numTimePoints : nat) (rand : nat -> Qc) : outcome SimulateResult :=
  let zeros := foldl (fun p s => <[s := replicate numTimePoints 0]> p) ∅ (states chain) in
  obind (ofold (simulate_one fuel chain maxTime numTimePoints rand) (zeros, 0%nat) (seq 0 M))
    (fun acc =>
       let scale := Q2Qc (inject_Z (Z.of_nat M)) in
       let normalized :=
         foldl (fun p s =>
                  <[s := for_each_index numTimePoints (fun _ x => x / scale)
                           (default [] (p !! s))]> p)
               (fst acc) (states chain) in
       Ret (mkResult (time_points numTimePoints maxTime) normalized)).

End sampler.

(** Readings of a simulation result: [proportions[s][i]] and the sum over
    the states at a grid index. *)
Definition proportion_at (p : gmap string (list Qc)) (s : string) (i : nat) : Qc :=
  get (default [] (p !! s)) i.

Definition column_sum (p : gmap string (list Qc)) (sts : list string) (i : nat) : Qc :=
  sum_Qc (map (fun s => proportion_at p s i) sts).

(** A lower bound of the natural logarithm on (0,1): [1 - 1/u <= ln u]. *)
Definition log_lower_bound (u : Qc) : Qc := 1 - 1 / u.

Definition half_rand (k : nat) : Qc := one_half.

(** What the counting loops maintain: every state has [n] counts, none of
    them negative. *)
Definition counts_ok (n : nat) (sts : list string) (p : gmap string (list Qc)) : Prop :=
  ∀ s, s ∈ sts -> ∃ counts, p !! s = Some counts ∧ length counts = n
                            ∧ ∀ i, 0 ≤ get counts i.

(** Event times that strictly increase along the list. *)
Definition strictly_increasing (l : list Qc) : Prop :=
  ∀ i j x y, (i < j)%nat -> l !! i = Some x -> l !! j = Some y -> x < y.

Definition twenty : Qc := Q2Qc (20 # 1).
Definition one_thousandth : Qc := Q2Qc (1 # 1000).

(** ** totalVariationDistance *)

(** [sum += Math.abs((p[s] ?? 0) - (q[s] ?? 0))] over [states], then
    [0.5 * sum]. *)
Definition totalVariationDistance (p q : gmap string Qc) (sts : list string) : Qc :=
  one_half
  * foldl (fun sum s => sum + Math_abs (default 0 (p !! s) - default 0 (q !! s))) 0 sts.

(** The total mass [sum of (p[s] ?? 0)] that a record puts on a list of states. *)
Definition mass (p : gmap string Qc) (sts : list string) : Qc :=
  sum_Qc (map (fun s => default 0 (p !! s)) sts).

(** ** computeDistributionOverTime *)

Record DistributionOverTimeResult : Type := mkDistributions {
  distribution_t : list Qc;
  distributions : gmap string (list Qc)
}.

(** A loop whose body may fail to give a value. *)
Fixpoint fold_option {A B : Type} (f : A -> B -> option A) (a : A) (l : list B) : option A :=
  match l with
  | [] => Some a
  | x :: l' => f a x ≫= fun a' => fold_option f a' l'
  end.

(** [prob += (chain.initialDistribution[from] ?? 0) * P[from][to]] over the
    states.  Reading [P[from][to]] where [P[from]] is undefined is a
    TypeError and a missing entry gives NaN: [None] in both cases. *)
Definition distribution_at (mu : gmap string Qc) (P : gmap string (gmap string Qc))
    (sts : list string) (to_ : string) : option Qc :=
  fold_option (fun prob from_ =>
                 (fun x => prob + default 0 (mu !! from_) * x) <$> lookup_entry P from_ to_)
              0 sts.

(** [distributions[to][idx] = prob]. *)
Definition record_distribution (mu : gmap string Qc) (P : gmap string (gmap string Qc))
    (sts : list string) (idx : nat) (d : gmap string (list Qc)) (to_ : string)
  : option (gmap string (list Qc)) :=
  distribution_at mu P sts to_ ≫= fun prob =>
  d !! to_ ≫= fun row => Some (<[to_ := <[idx := prob]> row]> d).

(** The body of [for (let idx = 0; idx < timePoints.length; idx++)]. *)
Definition distribution_step (chain : CtmcDef) (Q : gmap string (gmap string Qc))
    (d : gmap string (list Qc)) (it : nat * Qc) : option (gmap string (list Qc)) :=
  matrixExponential Q (states chain) (snd it) ≫= fun P =>
  fold_option (record_distribution (initialDistribution chain) P (states chain) (fst it))
              d (states chain).

Definition computeDistributionOverTime (chain : CtmcDef) (timePoints : list Qc)
  : option DistributionOverTimeResult :=
  let zeros := foldl (fun d s => <[s := replicate (length timePoints) 0]> d) ∅ (states chain) in
  buildRateMatrix chain ≫= fun Q =>
  fold_option (distribution_step chain Q) zeros (imap pair timePoints) ≫= fun d =>
  Some (mkDistributions timePoints d).

(** The initial distribution [mu] carried through a transition matrix [P]:
    the sum over the states [from] of [mu(from) * P(from, to)]. *)
Definition carried (mu : gmap string Qc) (P : gmap string (gmap string Qc))
    (sts : list string) (to_ : string) : Qc :=
  sum_Qc (map (fun from_ => default 0 (mu !! from_) * entry P from_ to_) sts).

(** A chain definition without its self-loops (the transitions from a
    state to itself). *)
Definition without_self_loops (chain : CtmcDef) : CtmcDef :=
  mkCtmc (states chain) (initialDistribution chain)
         (filter (fun t0 => from t0 ≠ to t0) (transitions chain)).

(** The transitions of a chain that leave a given state. *)
Definition outgoing (chain : CtmcDef) (s : string) : list CtmcTransition :=
  filter (fun t0 => from t0 = s) (transitions chain).

(** A chain without transitions, started in [A]. *)
Definition frozen_chain : CtmcDef :=
  mkCtmc ["A"; "B"]%string (<["A"%string := 1]> (<["B"%string := 0]> ∅)) [].

(** ** Texts in the canonical layout

    The layout of the examples: one line per section, the states and the
    rate entries separated by a comma and a space, the initial distribution
    [uniform]. *)

Fixpoint string_forall (p : ascii -> bool) (s : string) : bool :=
  match s with
  | EmptyString => true
  | String c s' => p c && string_forall p s'
  end.

(** A state name: not empty, without white space or comma. *)
Definition plain_name (s : string) : bool :=
  negb (is_empty s) && string_forall (fun c => negb (is_space c) && negb (Ascii.eqb c ",")) s.

(** The text of a number: not empty, digits and dots only. *)
Definition number_text (s : string) : bool :=
  negb (is_empty s) && string_forall is_digit_or_dot s.

Fixpoint join_comma (l : list string) : string :=
  match l with
  | [] => EmptyString
  | [x] => x
  | x :: rest => x +:+ "," +:+ join_comma rest
  end.

(** A rate entry as written: the two state names and the text of the rate. *)
Record rate_entry : Type := mkEntry {
  entry_from : string;
  entry_to : string;
  entry_rate : string
}.

Definition render_entry (e : rate_entry) : string :=
  entry_from e +:+ " -> " +:+ entry_to e +:+ " : " +:+ entry_rate e.

Definition canonical_text (names : list string) (entries : list rate_entry) : string :=
  "States:" +:+ join_comma (map (append " ") names) +:+ nl
  +:+ "Initial distribution: uniform" +:+ nl
  +:+ "Rates:" +:+ join_comma (map (fun e => " " +:+ render_entry e) entries).

(** The same layout with any text for the initial distribution. *)
Definition layout (names : list string) (initial : string) (entries : list rate_entry)
  : string :=
  "States:" +:+ join_comma (map (append " ") names) +:+ nl
  +:+ "Initial distribution: " +:+ initial +:+ nl
  +:+ "Rates:" +:+ join_comma (map (fun e => " " +:+ render_entry e) entries).

(** The transition an entry describes; its rate is the value of the text. *)
Definition described_transition (e : rate_entry) : CtmcTransition :=
  mkTransition (entry_from e) (entry_to e) (default 0 (parseFloat (entry_rate e))).

Definition well_formed_entry (names : list string) (e : rate_entry) : Prop :=
  entry_from e ∈ names ∧ entry_to e ∈ names ∧ entry_from e ≠ entry_to e
  ∧ number_text (entry_rate e) = true ∧ 0 < default 0 (parseFloat (entry_rate e)).

(** An entry that can be written down: plain names, a number text. *)
Definition renderable_entry (e : rate_entry) : Prop :=
  plain_name (entry_from e) = true ∧ plain_name (entry_to e) = true
  ∧ number_text (entry_rate e) = true.

Definition uniform_distribution (names : list string) : gmap string Qc :=
  foldl (fun mu s => <[s := 1 / Q2Qc (inject_Z (Z.of_nat (length names)))]> mu) ∅ names.

(** A string that begins and ends with a character that is not white
    space is its own trimming. *)
Definition ends_clean (s : string) : bool :=
  match String.rev s with
  | EmptyString => false
  | String d _ => negb (is_space d)
  end.

Definition starts_clean (s : string) : bool :=
  match s with
  | EmptyString => false
  | String c _ => negb (is_space c)
  end.

Definition is_not (sep : ascii) (c : ascii) : bool := negb (Ascii.eqb c sep).

(** What the parser does with one entry of a rendered line. *)
Definition read_entry (names : list string) (ts : list CtmcTransition) (e : rate_entry)
  : parsing (list CtmcTransition) :=
  add_transition names ts (render_entry e).

(** *** An explicit initial distribution *)

(** An entry of the initial distribution as written: the state name and
    the text of the probability. *)
Record prob_entry : Type := mkProb {
  prob_name : string;
  prob_text : string
}.

Definition render_prob (e : prob_entry) : string :=
  prob_name e +:+ " : " +:+ prob_text e.

Fixpoint join_comma_space (l : list string) : string :=
  match l with
  | [] => EmptyString
  | [x] => x
  | x :: rest => x +:+ ", " +:+ join_comma_space rest
  end.

Definition initial_text (probs : list prob_entry) : string :=
  join_comma_space (map render_prob probs).

Definition prob_value (e : prob_entry) : Qc := default 0 (parseFloat (prob_text e)).

Definition well_formed_prob (names : list string) (e : prob_entry) : Prop :=
  prob_name e ∈ names ∧ number_text (prob_text e) = true
  ∧ is_Some (parseFloat (prob_text e)) ∧ 0 ≤ prob_value e ∧ prob_value e ≤ 1.

(** The probability that the entries give to a state: the sum of the
    values of the entries that name it. *)
Definition mass_on (probs : list prob_entry) (s : string) : Qc :=
  sum_Qc (map prob_value (filter (fun e => prob_name e = s) probs)).

(** A state name that, in addition, has no colon. *)
Definition simple_name (s : string) : bool :=
  plain_name s && string_forall (is_not ":") s.

(** What may follow the text of a number: nothing, or a character that is
    neither a digit nor a dot. *)
Definition number_ends (rest : string) : bool :=
  match rest with
  | EmptyString => true
  | String c _ => negb (is_digit_or_dot c)
  end.

(** ** Double-precision arithmetic

    The definitions above compute with exact rationals.  The module below
    repeats the functions whose result depends on rounding, with every
    arithmetic operation rounded as IEEE 754 binary64 does (to the nearest
    number with a 53-bit significand, ties to the even one).  The exponent
    range is not bounded: overflow to [Infinity] and the subnormal numbers
    are not represented. *)

Module Binary64.

(** The power [2^z] of an integer [z]. *)
Definition two_to (z : Z) : Qc := Q2Qc (Qpower 2 z).

(** The binary exponent [e] of a number other than 0:
    [2^e <= |x| < 2^(e+1)].  With [x = n/d] it is the difference of the bit
    lengths of [n] and [d], or one less. *)
Definition exponent (x : Qc) : Z :=
  let e := (Z.log2 (Z.abs (Qnum x)) - Z.log2 (Zpos (Qden x)))%Z in
  if decide (two_to e ≤ Math_abs x) then e else (e - 1)%Z.

(** The distance between consecutive doubles at [x]. *)
Definition ulp (x : Qc) : Qc := two_to (exponent x - 52).

(** The nearest integer, the even one of the two when they are equally
    near. *)
Definition nearest_even (q : Qc) : Z :=
  let f := Qfloor q in
  let r := q - Q2Qc (inject_Z f) in
  if decide (r < one_half) then f
  else if decide (one_half < r) then (f + 1)%Z
  else if Z.even f then f else (f + 1)%Z.

(** The double nearest to [x]. *)
Definition round (x : Qc) : Qc :=
  if decide (x = 0) then 0 else Q2Qc (inject_Z (nearest_even (x / ulp x))) * ulp x.

(** [x + y], [x * y] and [x / y] on doubles. *)
Definition add (x y : Qc) : Qc := round (x + y).
Definition mul (x y : Qc) : Qc := round (x * y).
Definition div (x y : Qc) : Qc := round (x / y).

(** Left-to-right accumulation [acc += x] in doubles. *)
Definition sum (l : list Qc) : Qc := foldl add 0 l.

(** *** buildRateMatrix *)

(** [Q[t.from][t.to] = (Q[t.from][t.to] ?? 0) + t.rate] *)
Definition add_rate (Q : gmap string (gmap string Qc)) (t : CtmcTransition)
  : option (gmap string (gmap string Qc)) :=
  match Q !! from t with
  | None => None
  | Some row => Some (<[from t := <[to t := add (default 0 (row !! to t)) (rate t)]> row]> Q)
  end.

Fixpoint add_rates (Q : gmap string (gmap string Qc)) (ts : list CtmcTransition)
  : option (gmap string (gmap string Qc)) :=
  match ts with
  | [] => Some Q
  | t :: ts' => match add_rate Q t with
                | None => None
                | Some Q' => add_rates Q' ts'
                end
  end.

(** [sum += Q[s][s2]] over [s2 !== s]; [Q[s][s] = -sum] negates without
    rounding. *)
Definition off_diagonal_sum (Q : gmap string (gmap string Qc))
    (sts : list string) (s : string) : Qc :=
  foldl (fun sum s2 => if decide (s ≠ s2) then add sum (entry Q s s2) else sum) 0 sts.

Definition set_diagonal (sts : list string) (Q : gmap string (gmap string Qc))
    (s : string) : gmap string (gmap string Qc) :=
  <[s := <[s := - off_diagonal_sum Q sts s]> (default ∅ (Q !! s))]> Q.

Definition buildRateMatrix (chain : CtmcDef) : option (gmap string (gmap string Qc)) :=
  match add_rates (zero_matrix (states chain)) (transitions chain) with
  | None => None
  | Some Q => Some (foldl (set_diagonal (states chain)) Q (states chain))
  end.

(** *** buildJumpMap *)

(** [to.push(next); totalRate += rate; cumul.push(totalRate)] *)
Definition extend_row (r : jump_row) (e : string * Qc) : jump_row :=
  let total := add (totalRate r) (snd e) in
  mkRow total (row_to r ++ [fst e]) (cumul r ++ [total]).

Definition row_of (l : list (string * Qc)) : jump_row :=
  foldl extend_row (mkRow 0 [] []) l.

Definition buildJumpMap (chain : CtmcDef) : gmap string jump_row :=
  let byFrom := group_by_from (transitions chain) in
  foldl (fun m s => <[s := row_of (default [] (byFrom !! s))]> m) ∅ (states chain).

(** *** Sampling *)

Section sampler.

(** [Math.log] on positive doubles: the double that the implementation
    returns. *)
Variable Math_log : Qc -> Qc.

(** [-Math.log(r) / totalRate]: the negation is exact, the quotient is
    rounded. *)
Definition holding_time (r totalRate : Qc) : option Qc :=
  if decide (r ≤ 0) then None else Some (div (- Math_log r) totalRate).

(** [u = rand() * row.totalRate], then the scan of [row.cumul]. *)
Definition sampleJump (from_ : option string) (jumpMap : gmap string jump_row)
    (rand : nat -> Qc) (k : nat) : option string * option Qc * nat :=
  match from_ ≫= (fun s => jumpMap !! s) with
  | None => (from_, None, k)
  | Some row =>
      if decide (totalRate row = 0) then (from_, None, k)
      else
        let holdingTime := holding_time (rand k) (totalRate row) in
        let u := mul (rand (S k)) (totalRate row) in
        (pick_next from_ row u, holdingTime, S (S k))
  end.

(** [cumul += dist[s] ?? 0; if (u < cumul) return s] *)
Fixpoint sample_scan (dist : gmap string Qc) (u cumul_ : Qc) (sts : list string)
  : option string :=
  match sts with
  | [] => None
  | s :: rest =>
      let c := add cumul_ (default 0 (dist !! s)) in
      if decide (u < c) then Some s else sample_scan dist u c rest
  end.

Definition sampleFromDistribution (dist : gmap string Qc) (sts : list string) (u : Qc)
  : option string :=
  match sample_scan dist u 0 sts with
  | Some s => Some s
  | None => last sts
  end.

(** [while (currentTime < maxTime) { ... }]: the test
    [currentTime + holdingTime >= maxTime] and the update
    [currentTime += holdingTime] use the same rounded sum. *)
Fixpoint trajectory_loop (fuel : nat) (jumpMap : gmap string jump_row) (maxTime : Qc)
    (rand : nat -> Qc) (trajectory : list TrajectoryPoint)
    (currentState : option string) (currentTime : Qc) (k : nat)
  : outcome (list TrajectoryPoint * nat) :=
  if decide (currentTime < maxTime) then
    match fuel with
    | O => OutOfFuel
    | S fuel' =>
        let '(nextState, holdingTime, k') := sampleJump currentState jumpMap rand k in
        match holdingTime with
        | None => Ret (trajectory, k')
        | Some h =>
            if decide (maxTime ≤ add currentTime h) then Ret (trajectory, k')
            else trajectory_loop fuel' jumpMap maxTime rand
                   (trajectory ++ [mkPoint (add currentTime h) nextState])
                   nextState (add currentTime h) k'
        end
    end
  else Ret (trajectory, k).

Definition sampleTrajectory (fuel : nat) (chain : CtmcDef) (maxTime : Qc)
    (rand : nat -> Qc) (k : nat) : outcome (list TrajectoryPoint * nat) :=
  let jumpMap := buildJumpMap chain in
  let start := sampleFromDistribution (initialDistribution chain) (states chain) (rand k) in
  trajectory_loop fuel jumpMap maxTime rand [mkPoint 0 start] start 0 (S k).

(** *** runSimulation *)

(** [timePoints[i] = (i / (numTimePoints - 1)) * maxTime] *)
Definition time_points (numTimePoints : nat) (maxTime : Qc) : list Qc :=
  map (fun i => mul (div (Q2Qc (inject_Z (Z.of_nat i)))
                         (Q2Qc (inject_Z (Z.of_nat (numTimePoints - 1))))) maxTime)
      (seq 0 numTimePoints).

(** [proportions[state][i] += 1] *)
Definition count_at (trajectory : list TrajectoryPoint) (timePoints : list Qc)
    (proportions : gmap string (list Qc)) (i : nat) : outcome (gmap string (list Qc)) :=
  match trajectory with
  | [] => Throws
  | p0 :: rest =>
      match last_state_before (state p0) rest (get timePoints i) with
      | None => Throws
      | Some s =>
          match proportions !! s with
          | None => Throws
          | Some counts => Ret (<[s := <[i := add (get counts i) 1]> counts]> proportions)
          end
      end
  end.

Definition simulate_one (fuel : nat) (chain : CtmcDef) (maxTime : Qc) (numTimePoints : nat)
    (rand : nat -> Qc) (acc : gmap string (list Qc) * nat) (m : nat)
  : outcome (gmap string (list Qc) * nat) :=
  obind (sampleTrajectory fuel chain maxTime rand (snd acc)) (fun tk =>
    obind (ofold (count_at (fst tk) (time_points numTimePoints maxTime))
                 (fst acc) (seq 0 numTimePoints))
          (fun proportions => Ret (proportions, snd tk))).

(** [proportions[s][i] /= M] *)
Definition runSimulation (fuel : nat) (chain : CtmcDef) (M : nat) (maxTime : Qc)
    (numTimePoints : nat) (rand : nat -> Qc) : outcome SimulateResult :=
  let zeros := foldl (fun p s => <[s := replicate numTimePoints 0]> p) ∅ (states chain) in
  obind (ofold (simulate_one fuel chain maxTime numTimePoints rand) (zeros, 0%nat) (seq 0 M))
    (fun acc =>
       let scale := Q2Qc (inject_Z (Z.of_nat M)) in
       let normalized :=
         foldl (fun p s =>
                  <[s := for_each_index numTimePoints (fun _ x => div x scale)
                           (default [] (p !! s))]> p)
               (fst acc) (states chain) in
       Ret (mkResult (time_points numTimePoints maxTime) normalized)).

End sampler.

End Binary64.

(** ** Example chains and random sources for the double-precision model *)

Definition ten_to_20 : Qc := Q2Qc (100000000000000000000 # 1).

(** A state with a very large and a small exit rate: [A -> B : 1e20],
    [A -> C : 1] (both rates are doubles). *)
Definition wide_rate_chain : CtmcDef :=
  mkCtmc ["A"; "B"; "C"]%string
         (<["A"%string := 1]> (<["B"%string := 0]> (<["C"%string := 0]> ∅)))
         [mkTransition "A" "B" ten_to_20; mkTransition "A" "C" 1].

(** Three states without transitions, started in [A], [B] or [C] with
    probabilities 1/4, 1/2 and 1/4. *)
Definition still_chain : CtmcDef :=
  mkCtmc ["A"; "B"; "C"]%string
         (<["A"%string := Q2Qc (1 # 4)]>
            (<["B"%string := one_half]> (<["C"%string := Q2Qc (1 # 4)]> ∅)))
         [].

#[global] Instance CtmcTransition_eq_dec : EqDecision CtmcTransition.
Proof. solve_decision. Defined.

#[global] Instance CtmcDef_eq_dec : EqDecision CtmcDef.
Proof. solve_decision. Defined.

#[global] Instance parse_error_eq_dec : EqDecision parse_error.
Proof. solve_decision. Defined.

#[global] Instance CtmcParseResult_eq_dec : EqDecision CtmcParseResult.
Proof. solve_decision. Defined.

#[global] Instance jump_row_eq_dec : EqDecision jump_row.
Proof. solve_decision. Defined.

(** A slow transition into a pair of states that exchange very fast:
    [A -> B : 2^-10], [B -> C : 2^47], [C -> B : 2^47], started in [A]. *)
Definition slow_rate : Qc := Q2Qc (1 # 1024).
Definition fast_rate : Qc := Q2Qc (140737488355328 # 1).

Definition stiff_chain : CtmcDef :=
  mkCtmc ["A"; "B"; "C"]%string
         (<["A"%string := 1]> (<["B"%string := 0]> (<["C"%string := 0]> ∅)))
         [mkTransition "A" "B" slow_rate; mkTransition "B" "C" fast_rate;
          mkTransition "C" "B" fast_rate].

Definition stiff_text : string :=
  "States: A, B, C" +:+ nl +:+ "Initial distribution: A : 1" +:+ nl
  +:+ "Rates: A -> B : 0.0009765625, B -> C : 140737488355328, C -> B : 140737488355328".

(** The same with two states: [A -> B : 2^-10], [B -> A : 2^47]. *)
Definition stiff_pair_chain : CtmcDef :=
  mkCtmc ["A"; "B"]%string
         (<["A"%string := 1]> (<["B"%string := 0]> ∅))
         [mkTransition "A" "B" slow_rate; mkTransition "B" "A" fast_rate].

(** [Math.log(0.5)], the double [-0.6931471805599453]. *)
Definition ln_half : Qc := - Q2Qc (6243314768165359 # 9007199254740992).

Definition one_thousand : Qc := Q2Qc (1000 # 1).

(** The time of the first jump out of [A] when the draw is 1/2:
    [-Math.log(0.5) / 2^-10], about 709.78. *)
Definition first_jump_time : Qc := Binary64.div (- ln_half) slow_rate.

(** Six draws that start one trajectory in [A], four in [B] and one in
    [C]: 1/8, 1/2, 1/2, 1/2, 1/2, 7/8 (then 1/2). *)
Definition six_draws (k : nat) : Qc :=
  match k with
  | 0%nat => Q2Qc (1 # 8)
  | 5%nat => Q2Qc (7 # 8)
  | _ => one_half
  end.

(** A table of counts in which every entry is a natural number, the one at
    grid index [i] at most [bound i]. *)
Definition whole_counts (bound : nat -> nat) (p : gmap string (list Qc)) : Prop :=
  ∀ s counts i, p !! s = Some counts ->
    ∃ c : nat, get counts i = Q2Qc (inject_Z (Z.of_nat c)) ∧ (c ≤ bound i)%nat.

(* ================================================================= *)
(** * Part II: properties *)
(* ================================================================= *)

(** ** Arithmetic on [Qc] *)

Lemma Qc_eq_Qeq (x y : Qc) : x = y -> (this x == this y)%Q.
Proof. intros ->. reflexivity. Qed.

Ltac qc_unfold :=
  unfold Qcminus, Qcdiv in *;
  unfold Qclt, Qcle, Qcplus, Qcmult, Qcopp, Qcinv, Q2Qc in *; cbn [this] in *;
  rewrite ?Qred_correct in *.

(** Linear arithmetic over [Qc], by translation to [Q]. *)
Ltac qc_lra :=
  repeat match goal with
  | H : @eq Qc ?x ?y |- _ => apply Qc_eq_Qeq in H
  | |- @eq Qc _ _ => apply Qc_is_canon
  end; qc_unfold; lra.

Lemma foldl_Qcplus (a : Qc) (l : list Qc) : foldl Qcplus a l = a + sum_Qc l.
Proof.
  unfold sum_Qc. revert a. induction l as [|x l IH]; intros a; simpl.
  - ring.
  - rewrite (IH (a + x)), (IH (0 + x)). ring.
Qed.

Lemma sum_Qc_nil : sum_Qc [] = 0.
Proof. reflexivity. Qed.

Lemma sum_Qc_cons (x : Qc) (l : list Qc) : sum_Qc (x :: l) = x + sum_Qc l.
Proof. unfold sum_Qc at 1. simpl. rewrite foldl_Qcplus. ring. Qed.

Lemma sum_Qc_app (l1 l2 : list Qc) : sum_Qc (l1 ++ l2) = sum_Qc l1 + sum_Qc l2.
Proof.
  induction l1 as [|x l1 IH]; simpl.
  - rewrite sum_Qc_nil. ring.
  - rewrite !sum_Qc_cons, IH. ring.
Qed.

(** ** The data-model invariants, unpacked *)

Lemma valid_chain_NoDup (c : CtmcDef) : valid_chain c = true -> NoDup (states c).
Proof.
  unfold valid_chain. rewrite !andb_true_iff. intros [[H _] _].
  by apply bool_decide_eq_true in H.
Qed.

Lemma valid_chain_transition (c : CtmcDef) (t : CtmcTransition) :
  valid_chain c = true -> t ∈ transitions c ->
  from t ∈ states c ∧ to t ∈ states c ∧ from t ≠ to t ∧ 0 < rate t.
Proof.
  unfold valid_chain. rewrite !andb_true_iff. intros [[_ H] _] Ht.
  rewrite forallb_forall in H. apply list_elem_of_In, H in Ht.
  unfold wf_transition in Ht. rewrite !andb_true_iff in Ht.
  destruct Ht as [[[H1 H2] H3] H4].
  apply bool_decide_eq_true in H1, H2, H3, H4. done.
Qed.

(** ** buildRateMatrix *)

Lemma zero_row_lookup (sts : list string) (j : string) :
  zero_row sts !! j = if decide (j ∈ sts) then Some 0 else None.
Proof.
  unfold zero_row.
  assert (G : ∀ (row : gmap string Qc),
    foldl (fun row s2 => <[s2 := 0]> row) row sts !! j
    = if decide (j ∈ sts) then Some 0 else row !! j).
  { induction sts as [|s sts IH]; intros row; simpl.
    - destruct (decide (j ∈ [])) as [H|]; [by apply elem_of_nil in H|done].
    - rewrite IH. destruct (decide (j ∈ sts)) as [Hin|Hin].
      + rewrite decide_True; [done|by right].
      + destruct (decide (j = s)) as [->|Hne].
        * rewrite decide_True by left. by rewrite lookup_insert_eq.
        * rewrite decide_False by (by intros [?|?]%elem_of_cons).
          by rewrite lookup_insert_ne. }
  rewrite G. by destruct (decide _).
Qed.

Lemma zero_matrix_lookup (sts : list string) (i : string) :
  zero_matrix sts !! i = if decide (i ∈ sts) then Some (zero_row sts) else None.
Proof.
  unfold zero_matrix. generalize (zero_row sts) as r. intros r.
  assert (G : ∀ (Q : gmap string (gmap string Qc)),
    foldl (fun Q s => <[s := r]> Q) Q sts !! i
    = if decide (i ∈ sts) then Some r else Q !! i).
  { induction sts as [|s sts IH]; intros Q; simpl.
    - destruct (decide (i ∈ [])) as [H|]; [by apply elem_of_nil in H|done].
    - rewrite IH. destruct (decide (i ∈ sts)) as [Hin|Hin].
      + rewrite decide_True; [done|by right].
      + destruct (decide (i = s)) as [->|Hne].
        * rewrite decide_True by left. by rewrite lookup_insert_eq.
        * rewrite decide_False by (by intros [?|?]%elem_of_cons).
          by rewrite lookup_insert_ne. }
  rewrite G. by destruct (decide _).
Qed.

Lemma zero_matrix_entry (sts : list string) (i j : string) :
  i ∈ sts -> j ∈ sts -> lookup_entry (zero_matrix sts) i j = Some 0.
Proof.
  intros Hi Hj. unfold lookup_entry.
  rewrite zero_matrix_lookup, decide_True by done. simpl.
  by rewrite zero_row_lookup, decide_True.
Qed.

Lemma rate_between_nil (i j : string) : rate_between [] i j = 0.
Proof. reflexivity. Qed.

Lemma rate_between_cons (t : CtmcTransition) (ts : list CtmcTransition) (i j : string) :
  rate_between (t :: ts) i j
  = (if decide (from t = i ∧ to t = j) then rate t else 0) + rate_between ts i j.
Proof.
  unfold rate_between. rewrite filter_cons.
  destruct (decide (from t = i ∧ to t = j)); simpl.
  - by rewrite sum_Qc_cons.
  - ring.
Qed.

Lemma add_rate_entry (Q Q' : gmap string (gmap string Qc)) (t : CtmcTransition)
    (i j : string) :
  add_rate Q t = Some Q' -> is_Some (lookup_entry Q (from t) (to t)) ->
  lookup_entry Q' i j
  = (fun v => v + (if decide (from t = i ∧ to t = j) then rate t else 0))
      <$> lookup_entry Q i j.
Proof.
  unfold add_rate, lookup_entry. intros Hadd [v Hv].
  destruct (Q !! from t) as [row|] eqn:Hrow; [|done].
  simpl in Hv. injection Hadd as <-.
  destruct (decide (from t = i)) as [<-|Hi].
  - rewrite lookup_insert_eq, Hrow. simpl.
    destruct (decide (to t = j)) as [<-|Hj].
    + rewrite lookup_insert_eq, Hv, decide_True by done. done.
    + rewrite lookup_insert_ne by done. rewrite decide_False by tauto.
      destruct (row !! j); simpl; [|done]. f_equal. ring.
  - rewrite lookup_insert_ne by done. rewrite decide_False by tauto.
    destruct (Q !! i ≫= _); simpl; [|done]. f_equal. ring.
Qed.

Lemma add_rates_entry (ts : list CtmcTransition) (Q : gmap string (gmap string Qc)) :
  (∀ t, t ∈ ts -> is_Some (lookup_entry Q (from t) (to t))) ->
  ∃ Q', add_rates Q ts = Some Q'
        ∧ ∀ i j, lookup_entry Q' i j = (fun v => v + rate_between ts i j) <$> lookup_entry Q i j.
Proof.
  revert Q. induction ts as [|t ts IH]; intros Q Hdef; simpl.
  - exists Q. split; [done|]. intros i j. rewrite rate_between_nil.
    destruct (lookup_entry Q i j); simpl; [|done]. f_equal. ring.
  - assert (Ht : is_Some (lookup_entry Q (from t) (to t))) by (apply Hdef; set_solver).
    destruct (add_rate Q t) as [Q1|] eqn:HQ1.
    2:{ unfold add_rate in HQ1. unfold lookup_entry in Ht.
        destruct (Q !! from t); [done|]. by destruct Ht. }
    destruct (IH Q1) as (Q' & HQ' & Hent).
    { intros t' Ht'. rewrite (add_rate_entry Q Q1 t) by done.
      apply fmap_is_Some, Hdef. set_solver. }
    exists Q'. split; [done|]. intros i j.
    rewrite Hent, (add_rate_entry Q Q1 t) by done. rewrite rate_between_cons.
    destruct (lookup_entry Q i j); simpl; [|done]. f_equal. ring.
Qed.

Lemma set_diagonal_entry (sts : list string) (Q : gmap string (gmap string Qc))
    (s i j : string) :
  is_Some (Q !! s) ->
  lookup_entry (set_diagonal sts Q s) i j
  = if decide (i = s ∧ j = s) then Some (- off_diagonal_sum Q sts s)
    else lookup_entry Q i j.
Proof.
  intros [row Hrow]. unfold set_diagonal, lookup_entry. rewrite Hrow. simpl.
  destruct (decide (i = s)) as [->|Hi].
  - rewrite lookup_insert_eq. simpl. rewrite Hrow. simpl.
    destruct (decide (j = s)) as [->|Hj].
    + rewrite lookup_insert_eq. by rewrite decide_True.
    + rewrite lookup_insert_ne by done. rewrite decide_False by tauto. done.
  - rewrite lookup_insert_ne by done. rewrite decide_False by tauto. done.
Qed.

Lemma off_diagonal_sum_ext (Q Q' : gmap string (gmap string Qc))
    (sts : list string) (s : string) :
  (∀ j, s ≠ j -> entry Q s j = entry Q' s j) ->
  off_diagonal_sum Q sts s = off_diagonal_sum Q' sts s.
Proof.
  intros Hext. unfold off_diagonal_sum. generalize (Q2Qc 0) as acc.
  induction sts as [|s2 sts IH]; intros acc; simpl; [done|].
  destruct (decide (s ≠ s2)); [rewrite Hext by done|]; apply IH.
Qed.

Lemma entry_lookup_entry (Q : gmap string (gmap string Qc)) (i j : string) :
  entry Q i j = default 0 (lookup_entry Q i j).
Proof. reflexivity. Qed.

Lemma off_diagonal_sum_filter (Q : gmap string (gmap string Qc))
    (sts : list string) (s : string) :
  off_diagonal_sum Q sts s = sum_Qc (map (entry Q s) (filter (fun j => j ≠ s) sts)).
Proof.
  unfold off_diagonal_sum.
  assert (G : ∀ acc, foldl (fun sum s2 => if decide (s ≠ s2) then sum + entry Q s s2 else sum) acc sts
                     = acc + sum_Qc (map (entry Q s) (filter (fun j => j ≠ s) sts))).
  { induction sts as [|s2 sts IH]; intros acc; simpl.
    - rewrite sum_Qc_nil. ring.
    - rewrite IH, filter_cons. destruct (decide (s ≠ s2)).
      + rewrite decide_True by done. simpl. rewrite sum_Qc_cons. ring.
      + rewrite decide_False by (intros ?; by subst). done. }
  rewrite G. ring.
Qed.

Lemma set_diagonals_entry (sts done_ : list string) (Q : gmap string (gmap string Qc))
    (i j : string) :
  (∀ s, s ∈ done_ -> is_Some (Q !! s)) ->
  lookup_entry (foldl (set_diagonal sts) Q done_) i j
  = if decide (i = j ∧ i ∈ done_) then Some (- off_diagonal_sum Q sts i)
    else lookup_entry Q i j.
Proof.
  revert Q. induction done_ as [|s l IH]; intros Q Hdef; simpl.
  - rewrite decide_False; [done|]. intros [_ H]. by apply elem_of_nil in H.
  - assert (Hs : is_Some (Q !! s)) by (apply Hdef; left).
    rewrite IH.
    2:{ intros s' Hs'. unfold set_diagonal. destruct (decide (s' = s)) as [->|].
        - rewrite lookup_insert_eq. eauto.
        - rewrite lookup_insert_ne by done. apply Hdef. by right. }
    assert (Hods : off_diagonal_sum (set_diagonal sts Q s) sts i = off_diagonal_sum Q sts i).
    { apply off_diagonal_sum_ext. intros j' Hj'. rewrite !entry_lookup_entry.
      rewrite set_diagonal_entry by done. rewrite decide_False; [done|].
      intros [-> ->]. done. }
    rewrite Hods, set_diagonal_entry by done.
    destruct (decide (i = j ∧ i ∈ l)) as [[-> Hl]|Hn].
    + rewrite decide_True; [done|]. split; [done|by right].
    + destruct (decide (i = s ∧ j = s)) as [[-> ->]|Hn'].
      * rewrite decide_True; [done|]. split; [done|left].
      * rewrite decide_False; [done|]. intros [-> [->|?]%elem_of_cons]; tauto.
Qed.

Lemma sum_Qc_split_NoDup (f : string -> Qc) (sts : list string) (i : string) :
  NoDup sts -> i ∈ sts ->
  sum_Qc (map f sts) = f i + sum_Qc (map f (filter (fun j => j ≠ i) sts)).
Proof.
  induction 1 as [|s sts Hnin Hnd IH]; intros Hi.
  - by apply elem_of_nil in Hi.
  - simpl. rewrite sum_Qc_cons, filter_cons.
    apply elem_of_cons in Hi as [->|Hi].
    + rewrite decide_False by (intros ?; done).
      assert (Hf : filter (fun j => j ≠ s) sts = sts).
      { clear IH Hnd. induction sts as [|x l IHl]; [done|].
        rewrite filter_cons, decide_True.
        - f_equal. apply IHl. intros ?. apply Hnin. by right.
        - intros ->. apply Hnin. left. }
      by rewrite Hf.
    + rewrite decide_True by (intros ->; done). simpl.
      rewrite sum_Qc_cons, IH by done. ring.
Qed.

(** The generator matrix, entry by entry. *)
Lemma buildRateMatrix_spec (chain : CtmcDef) :
  valid_chain chain = true ->
  ∃ Q, buildRateMatrix chain = Some Q ∧
    ∀ i, i ∈ states chain ->
      (∀ j, j ∈ states chain -> i ≠ j ->
         lookup_entry Q i j = Some (rate_between (transitions chain) i j))
      ∧ lookup_entry Q i i
        = Some (- sum_Qc (map (entry Q i) (filter (fun j => j ≠ i) (states chain)))).
Proof.
  intros Hv. unfold buildRateMatrix.
  destruct (add_rates_entry (transitions chain) (zero_matrix (states chain)))
    as (Q1 & HQ1 & Hent).
  { intros t Ht. destruct (valid_chain_transition chain t Hv Ht) as (Hf & Hto & _).
    rewrite zero_matrix_entry by done. eauto. }
  rewrite HQ1. eexists. split; [done|]. intros i Hi.
  assert (Hrows : ∀ s, s ∈ states chain -> is_Some (Q1 !! s)).
  { intros s Hs. specialize (Hent s s). rewrite zero_matrix_entry in Hent by done.
    unfold lookup_entry in Hent. destruct (Q1 !! s); [eauto|done]. }
  assert (Hoff : ∀ j, i ≠ j ->
    lookup_entry (foldl (set_diagonal (states chain)) Q1 (states chain)) i j
    = lookup_entry Q1 i j).
  { intros j Hij. rewrite set_diagonals_entry by done.
    rewrite decide_False; [done|]. tauto. }
  split.
  - intros j Hj Hij. rewrite Hoff, Hent, zero_matrix_entry by done. simpl.
    f_equal. ring.
  - rewrite set_diagonals_entry by done. rewrite decide_True by done.
    rewrite off_diagonal_sum_filter. do 3 f_equal.
    apply map_ext_in. intros j Hj%list_elem_of_In.
    apply list_elem_of_filter in Hj as [Hj _].
    rewrite !entry_lookup_entry, Hoff; [done|]. intros ->. done.
Qed.

Lemma rate_between_none (ts : list CtmcTransition) (i j : string) :
  (∀ t, t ∈ ts -> ¬ (from t = i ∧ to t = j)) -> rate_between ts i j = 0.
Proof.
  intros Hnone. induction ts as [|t ts IH]; [done|].
  rewrite rate_between_cons, decide_False by (apply Hnone; left).
  rewrite IH; [ring|]. intros t' Ht'. apply Hnone. by right.
Qed.

(** In exact arithmetic the matrix of a valid chain is a generator: each
    off-diagonal entry [Q(i,j)] is the sum of the rates of all transitions
    from [i] to [j] (duplicates are summed, 0 when there is none), each
    diagonal entry [Q(i,i)] is the negation of the sum of the off-diagonal
    entries of row [i], and every row of [Q] sums to 0.  (In doubles the
    sums are rounded: see [buildRateMatrix_rounded_generator].) *)
Theorem buildRateMatrix_generator (chain : CtmcDef) :
  valid_chain chain = true ->
  ∃ Q, buildRateMatrix chain = Some Q ∧
    ∀ i, i ∈ states chain ->
      (∀ j, j ∈ states chain -> i ≠ j ->
         lookup_entry Q i j = Some (rate_between (transitions chain) i j)
         ∧ ((∀ t, t ∈ transitions chain -> ¬ (from t = i ∧ to t = j)) ->
            lookup_entry Q i j = Some 0))
      ∧ lookup_entry Q i i
        = Some (- sum_Qc (map (entry Q i) (filter (fun j => j ≠ i) (states chain))))
      ∧ sum_Qc (map (entry Q i) (states chain)) = 0.
Proof.
  intros Hv. destruct (buildRateMatrix_spec chain Hv) as (Q & HQ & Hspec).
  exists Q. split; [done|]. intros i Hi. destruct (Hspec i Hi) as [Hoff Hdiag].
  split; [|split; [done|]].
  - intros j Hj Hij. split; [by apply Hoff|].
    intros Hnone. rewrite Hoff by done. by rewrite rate_between_none.
  - rewrite (sum_Qc_split_NoDup _ _ i) by eauto using valid_chain_NoDup.
    rewrite (entry_lookup_entry _ i i), Hdiag. simpl. ring.
Qed.

Lemma buildRateMatrix_generator_witness :
  ∃ Q, buildRateMatrix two_state_chain = Some Q ∧
    ∀ i, i ∈ states two_state_chain ->
      (∀ j, j ∈ states two_state_chain -> i ≠ j ->
         lookup_entry Q i j = Some (rate_between (transitions two_state_chain) i j)
         ∧ ((∀ t, t ∈ transitions two_state_chain -> ¬ (from t = i ∧ to t = j)) ->
            lookup_entry Q i j = Some 0))
      ∧ lookup_entry Q i i
        = Some (- sum_Qc (map (entry Q i) (filter (fun j => j ≠ i) (states two_state_chain))))
      ∧ sum_Qc (map (entry Q i) (states two_state_chain)) = 0.
Proof. apply (buildRateMatrix_generator two_state_chain). vm_compute. reflexivity. Defined.

(** ** isIrreducible *)

Section bfs.
Variables (sts : list string) (Q : gmap string (gmap string Qc)).


Lemma bfs_edge_iff (i j : string) :
  bfs_edge sts Q i j ↔ j ∈ sts ∧ i ≠ j ∧ 0 < entry Q i j.
Proof. unfold bfs_edge, successors. rewrite list_elem_of_filter. tauto. Qed.

Lemma rtc_edge_bfs_edge (i j : string) :
  i ∈ sts -> rtc (edge sts Q) i j ↔ rtc (bfs_edge sts Q) i j.
Proof.
  intros Hi. split.
  - induction 1 as [|a b c [Ha [Hb Hab]] _ IH]; [done|].
    destruct (decide (a = b)) as [->|Hne]; [by apply IH|].
    eapply rtc_l; [|by apply IH]. apply bfs_edge_iff. done.
  - intros H. revert Hi. induction H as [|a b c Hab _ IH]; intros Hi; [done|].
    apply bfs_edge_iff in Hab as (Hb & Hne & Hpos).
    eapply rtc_l; [|by apply IH]. done.
Qed.


Lemma visit_fold_spec (succs : list string) (visited : gset string) (queue : list string) :
  (∀ w, w ∈ succs -> w ∈ sts) ->
  let vq := foldl visit (visited, queue) succs in
  vq.1 = visited ∪ list_to_set succs
  ∧ (∀ w, w ∈ vq.2 -> w ∈ queue ∨ (w ∈ succs ∧ w ∉ visited))
  ∧ (∀ w, w ∈ queue -> w ∈ vq.2)
  ∧ (∀ w, w ∈ succs -> w ∉ visited -> w ∈ vq.2)
  ∧ (unvisited sts vq.1 + length vq.2 = unvisited sts visited + length queue)%nat.
Proof.
  revert visited queue. induction succs as [|v succs IH]; intros visited queue Hsts; simpl.
  - split; [set_solver|]. split; [tauto|]. split; [done|]. split; [|done].
    intros w Hw. by apply elem_of_nil in Hw.
  - assert (Hsts' : ∀ w, w ∈ succs -> w ∈ sts) by (intros; apply Hsts; by right).
    assert (Hvis : visit (visited, queue) v
                   = if decide (v ∈ visited) then (visited, queue)
                     else ({[v]} ∪ visited, queue ++ [v])) by reflexivity.
    rewrite Hvis. clear Hvis. destruct (decide (v ∈ visited)) as [Hv|Hv].
    + destruct (IH visited queue Hsts') as (E1 & E2 & E3 & E4 & E5).
      split; [rewrite E1; set_solver|]. split.
      { intros w Hw. destruct (E2 w Hw) as [?|[? ?]]; [by left|right].
        split; [by right|done]. }
      split; [done|]. split; [|done].
      intros w [->|Hw]%elem_of_cons Hnv; [done|]. by apply E4.
    + destruct (IH ({[v]} ∪ visited) (queue ++ [v]) Hsts') as (E1 & E2 & E3 & E4 & E5).
      split; [rewrite E1; set_solver|]. split.
      { intros w Hw. destruct (E2 w Hw) as [Hq|[Hs Hn]].
        - apply elem_of_app in Hq as [?|Hq]; [by left|]. right.
          apply list_elem_of_singleton in Hq as ->. split; [left|done].
        - right. split; [by right|]. set_solver. }
      split; [intros w Hw; apply E3, elem_of_app; by left|]. split.
      { intros w [->|Hw]%elem_of_cons Hnv.
        - apply E3, elem_of_app. right. by apply list_elem_of_singleton.
        - destruct (decide (w = v)) as [->|Hne].
          + apply E3, elem_of_app. right. by apply list_elem_of_singleton.
          + apply E4; [done|]. set_solver. }
      rewrite E5, length_app. simpl. unfold unvisited.
      assert (Hvs : v ∈ sts) by (apply Hsts; left).
      assert (Hsz : size (list_to_set sts ∖ visited : gset string)
                    = S (size (list_to_set sts ∖ ({[v]} ∪ visited) : gset string))).
      { assert (Heq : (list_to_set sts ∖ visited : gset string)
                      = {[v]} ∪ (list_to_set sts ∖ ({[v]} ∪ visited))).
        { apply set_eq. intros x. rewrite elem_of_union, !elem_of_difference,
            elem_of_union, elem_of_singleton, elem_of_list_to_set.
          destruct (decide (x = v)) as [->|]; [tauto|]. tauto. }
        rewrite Heq, size_union by set_solver. by rewrite size_singleton. }
      lia.
Qed.
End bfs.

Section bfs_correct.
Variables (sts : list string) (Q : gmap string (gmap string Qc)).
Hypothesis sts_NoDup : NoDup sts.

Lemma closed_under_edges (R : relation string) (visited : gset string) (start v : string) :
  start ∈ visited -> (∀ a, a ∈ visited -> ∀ b, R a b -> b ∈ visited) ->
  rtc R start v -> v ∈ visited.
Proof.
  intros Hs Hcl Hr. induction Hr as [|a b c Hab _ IH]; [done|].
  apply IH. by eapply Hcl.
Qed.

Lemma bfs_loop_spec (start : string) (fuel : nat) :
  ∀ (visited : gset string) (queue : list string),
  start ∈ visited ->
  (∀ v, v ∈ queue -> v ∈ visited) ->
  (∀ v, v ∈ visited -> v ∈ sts ∧ rtc (bfs_edge sts Q) start v) ->
  (∀ v, v ∈ visited -> v ∉ queue -> ∀ w, bfs_edge sts Q v w -> w ∈ visited) ->
  (unvisited sts visited + length queue ≤ fuel)%nat ->
  ∃ final, bfs_loop fuel sts Q visited queue = Ret final
    ∧ ∀ v, v ∈ final ↔ v ∈ sts ∧ rtc (bfs_edge sts Q) start v.
Proof.
  induction fuel as [|fuel IH]; intros visited queue I1 I2 I3 I4 I5.
  - destruct queue as [|u rest]; [|simpl in I5; lia].
    exists visited. split; [done|]. intros v. split; [apply I3|].
    intros [_ Hr]. eapply closed_under_edges; eauto using not_elem_of_nil.
  - destruct queue as [|u rest].
    + exists visited. split; [done|]. intros v. split; [apply I3|].
      intros [_ Hr]. eapply closed_under_edges; eauto using not_elem_of_nil.
    + simpl.
      destruct (visit_fold_spec sts (successors sts Q u) visited rest)
        as (E1 & E2 & E3 & E4 & E5).
      { intros w Hw. apply (bfs_edge_iff sts Q u w) in Hw. tauto. }
      assert (Hu : u ∈ visited) by (apply I2; left).
      apply IH.
      * rewrite E1. set_solver.
      * intros w Hw. rewrite E1. destruct (E2 w Hw) as [Hr|[Hs _]].
        -- apply elem_of_union. left. apply I2. by right.
        -- apply elem_of_union. right. by apply elem_of_list_to_set.
      * intros v. rewrite E1, elem_of_union, elem_of_list_to_set.
        intros [Hv|Hv]; [by apply I3|].
        split; [apply (bfs_edge_iff sts Q u v) in Hv; tauto|].
        eapply rtc_r; [apply I3, Hu|done].
      * intros v Hv Hnq w Hvw. rewrite E1, elem_of_union, elem_of_list_to_set.
        rewrite E1, elem_of_union, elem_of_list_to_set in Hv.
        destruct (decide (v ∈ visited)) as [Hvis|Hnvis].
        -- destruct (decide (v = u)) as [->|Hne]; [by right|].
           left. eapply I4; [done| |done].
           intros [?|Hr]%elem_of_cons; [done|]. by apply Hnq, E3.
        -- destruct Hv as [?|Hv]; [done|]. exfalso. by apply Hnq, E4.
      * simpl in I5. lia.
Qed.

Lemma bfs_from_start (start : string) (fuel : nat) :
  start ∈ sts -> (length sts ≤ fuel)%nat ->
  ∃ final, bfs_loop fuel sts Q {[start]} [start] = Ret final
    ∧ (size final = length sts ↔ ∀ j, j ∈ sts -> rtc (edge sts Q) start j).
Proof.
  intros Hs Hfuel.
  destruct (bfs_loop_spec start fuel {[start]} [start]) as (final & Hrun & Hfinal).
  - set_solver.
  - intros v Hv. apply list_elem_of_singleton in Hv. set_solver.
  - intros v ->%elem_of_singleton. done.
  - intros v ->%elem_of_singleton Hn. exfalso. apply Hn. left.
  - unfold unvisited. simpl.
    assert (Hsz : (size (list_to_set sts ∖ {[start]} : gset string) < size (list_to_set sts : gset string))%nat).
    { apply subset_size. apply subset_difference_elem_of. by apply elem_of_list_to_set. }
    rewrite size_list_to_set in Hsz by done. lia.
  - exists final. split; [done|].
    assert (Hsub : final ⊆ list_to_set sts).
    { intros v Hv. apply elem_of_list_to_set. by apply Hfinal. }
    split.
    + intros Hsize j Hj. apply rtc_edge_bfs_edge; [done|].
      assert (Heq : final = list_to_set sts).
      { apply set_subseteq_size_eq; [done|]. rewrite size_list_to_set by done. lia. }
      apply Hfinal. rewrite Heq. by apply elem_of_list_to_set.
    + intros Hall. rewrite <- (size_list_to_set (C := gset string) sts) by done.
      f_equal. apply set_eq. intros v. rewrite elem_of_list_to_set. split.
      * intros Hv. by apply Hfinal.
      * intros Hv. apply Hfinal. split; [done|].
        apply rtc_edge_bfs_edge; [done|]. by apply Hall.
Qed.

Lemma bfs_from_all_spec (fuel : nat) (starts : list string) :
  (∀ s, s ∈ starts -> s ∈ sts) -> (length sts ≤ fuel)%nat ->
  ∃ b, bfs_from_all fuel sts Q starts = Ret b
    ∧ (b = true ↔ ∀ i j, i ∈ starts -> j ∈ sts -> rtc (edge sts Q) i j).
Proof.
  intros Hsub Hfuel. induction starts as [|start more IH]; simpl.
  - exists true. split; [done|]. split; [|done]. intros _ i j Hi. by apply elem_of_nil in Hi.
  - destruct (bfs_from_start start fuel) as (final & -> & Hfinal); [apply Hsub; left|done|].
    simpl. destruct (decide (size final ≠ length sts)) as [Hne|Heq].
    + exists false. split; [done|]. split; [done|]. intros Hall. exfalso. apply Hne.
      apply Hfinal. intros j Hj. apply Hall; [left|done].
    + destruct IH as (b & Hb & Hiff); [intros; apply Hsub; by right|].
      exists b. split; [done|]. rewrite Hiff. split.
      * intros Hall i j [->|Hi]%elem_of_cons Hj; [|by apply Hall].
        apply Hfinal; [|done]. destruct (decide (size final = length sts)); [done|].
        by exfalso.
      * intros Hall i j Hi Hj. apply Hall; [by right|done].
Qed.
End bfs_correct.

Lemma isIrreducible_fuel_independent (chain : CtmcDef) (Q : gmap string (gmap string Qc)) :
  NoDup (states chain) -> buildRateMatrix chain = Some Q ->
  ∃ b, (∀ fuel, (length (states chain) ≤ fuel)%nat -> isIrreducible fuel chain = Ret b)
     ∧ (b = true ↔ strongly_connected (states chain) Q).
Proof.
  intros Hnd HQ. destruct (decide (length (states chain) ≤ 1)%nat) as [Hle|Hgt].
  - exists true. split.
    + intros fuel _. unfold isIrreducible. by rewrite decide_True.
    + split; [|done]. intros _ i j Hi Hj.
      destruct (states chain) as [|s [|s' l]]; simpl in Hle; [| |lia].
      * by apply elem_of_nil in Hi.
      * apply list_elem_of_singleton in Hi, Hj. by subst.
  - destruct (bfs_from_all_spec (states chain) Q Hnd (length (states chain)) (states chain))
      as (b & Hb & Hiff); [done|done|].
    exists b. split; [|done].
    intros fuel Hfuel. unfold isIrreducible. rewrite decide_False, HQ by done.
    destruct (bfs_from_all_spec (states chain) Q Hnd fuel (states chain))
      as (b' & Hb' & Hiff'); [done|done|].
    rewrite Hb'. f_equal. destruct b, b'; try done.
    + apply Hiff', Hiff. done.
    + symmetry. apply Hiff, Hiff'. done.
Qed.

(** C2. For every chain definition, [isIrreducible] returns (never throws
    and, given at least one loop iteration per state, always terminates) and
    its result is [true] exactly when the directed graph with the edges
    [(i,j)], [Q(i,j) > 0], is strongly connected; it is [true] for every chain
    with at most one state. *)
Theorem isIrreducible_strongly_connected (chain : CtmcDef) :
  valid_chain chain = true ->
  ∃ Q b, buildRateMatrix chain = Some Q
    ∧ (∀ fuel, (length (states chain) ≤ fuel)%nat -> isIrreducible fuel chain = Ret b)
    ∧ (b = true ↔ strongly_connected (states chain) Q)
    ∧ ((length (states chain) ≤ 1)%nat -> b = true).
Proof.
  intros Hv. destruct (buildRateMatrix_spec chain Hv) as (Q & HQ & _).
  destruct (isIrreducible_fuel_independent chain Q) as (b & Hrun & Hiff);
    [by apply valid_chain_NoDup|done|].
  exists Q, b. split; [done|]. split; [done|]. split; [done|].
  intros Hle. specialize (Hrun (length (states chain)) (le_n _)).
  unfold isIrreducible in Hrun. rewrite decide_True in Hrun by done. congruence.
Qed.

Lemma isIrreducible_strongly_connected_witness :
  ∃ Q b, buildRateMatrix two_state_chain = Some Q
    ∧ (∀ fuel, (length (states two_state_chain) ≤ fuel)%nat
               -> isIrreducible fuel two_state_chain = Ret b)
    ∧ (b = true ↔ strongly_connected (states two_state_chain) Q)
    ∧ ((length (states two_state_chain) ≤ 1)%nat -> b = true).
Proof. apply (isIrreducible_strongly_connected two_state_chain). vm_compute. reflexivity. Defined.

(** ** getStationaryDistribution *)

Lemma Math_max_nonneg (x : Qc) : 0 ≤ Math_max 0 x.
Proof. unfold Math_max. destruct (decide (0 ≤ x)); [done|]. apply Qcle_refl. Qed.

Lemma clamp_fold_lookup (b : list Qc) (l : list (nat * string)) (pi : gmap string Qc)
    (s : string) :
  (is_Some (pi !! s) ∨ s ∈ l.*2 -> is_Some (foldl (fun pi '(i, s) => <[s := Math_max 0 (get b i)]> pi) pi l !! s))
  ∧ ∀ p, foldl (fun pi '(i, s) => <[s := Math_max 0 (get b i)]> pi) pi l !! s = Some p ->
         pi !! s = Some p ∨ (s ∈ l.*2 ∧ 0 ≤ p).
Proof.
  revert pi. induction l as [|[i s'] l IH]; intros pi; simpl.
  - split; [|by left]. intros [?|H]; [done|]. by apply elem_of_nil in H.
  - destruct (IH (<[s' := Math_max 0 (get b i)]> pi)) as [IH1 IH2]. split.
    + intros H. apply IH1. destruct (decide (s = s')) as [->|Hne].
      * left. rewrite lookup_insert_eq. eauto.
      * rewrite lookup_insert_ne by done.
        destruct H as [?|[?|?]%elem_of_cons]; [by left|done|by right].
    + intros p Hp. destruct (IH2 p Hp) as [Hl|[Hin Hnn]].
      * destruct (decide (s = s')) as [->|Hne].
        -- rewrite lookup_insert_eq in Hl. injection Hl as <-. right.
           split; [left|apply Math_max_nonneg].
        -- rewrite lookup_insert_ne in Hl by done. by left.
      * right. split; [by right|done].
Qed.

Lemma imap_pair_snd (sts : list string) : (imap pair sts).*2 = sts.
Proof.
  assert (G : ∀ k, (imap (fun i s => (k + i, s)%nat) sts).*2 = sts).
  { induction sts as [|s l IH]; intros k; simpl; [done|]. f_equal.
    rewrite <- (IH (S k)) at 2. f_equal. apply imap_ext. intros. simpl. f_equal. lia. }
  apply (G 0%nat).
Qed.

Lemma clamp_solution_spec (sts : list string) (b : list Qc) :
  dom (clamp_solution sts b) = list_to_set sts
  ∧ ∀ s p, clamp_solution sts b !! s = Some p -> 0 ≤ p.
Proof.
  unfold clamp_solution. split.
  - apply set_eq. intros s. rewrite elem_of_dom, elem_of_list_to_set.
    destruct (clamp_fold_lookup b (imap pair sts) ∅ s) as [H1 H2].
    rewrite imap_pair_snd in H1, H2. split.
    + intros [p Hp]. destruct (H2 p Hp) as [?|[? _]]; [done|done].
    + intros Hs. apply H1. by right.
  - intros s p Hp. destruct (clamp_fold_lookup b (imap pair sts) ∅ s) as [_ H2].
    destruct (H2 p Hp) as [?|[_ ?]]; done.
Qed.

(** C3. [getStationaryDistribution] returns [null] exactly when the chain is
    not irreducible; for an irreducible chain it returns a mapping defined on
    every state (and only on states), all of whose values are non-negative. *)
Theorem getStationaryDistribution_null_iff_reducible (chain : CtmcDef) (fuel : nat) :
  valid_chain chain = true -> (length (states chain) ≤ fuel)%nat ->
  ∃ Q r, buildRateMatrix chain = Some Q
    ∧ getStationaryDistribution fuel chain = Ret r
    ∧ (r = None ↔ ¬ strongly_connected (states chain) Q)
    ∧ (r = None ↔ isIrreducible fuel chain = Ret false)
    ∧ ∀ pi, r = Some pi ->
        dom pi = list_to_set (states chain) ∧ ∀ s p, pi !! s = Some p -> 0 ≤ p.
Proof.
  intros Hv Hfuel. destruct (buildRateMatrix_spec chain Hv) as (Q & HQ & _).
  destruct (isIrreducible_fuel_independent chain Q) as (b & Hrun & Hiff);
    [by apply valid_chain_NoDup|done|].
  specialize (Hrun fuel Hfuel). exists Q.
  unfold getStationaryDistribution. rewrite Hrun, HQ. simpl. destruct b; simpl.
  - destruct (decide (length (states chain) = 0)%nat) as [Hn|Hn].
    + exists (Some ∅). split; [done|]. split; [done|]. split; [|split; [done|]].
      * split; [done|]. intros Hnot. exfalso. apply Hnot. by apply Hiff.
      * intros pi [= <-]. apply length_zero_iff_nil in Hn. rewrite Hn.
        split; [by rewrite dom_empty_L|]. intros s p Hp. by rewrite lookup_empty in Hp.
    + eexists. split; [done|]. split; [done|]. split; [|split; [done|]].
      * split; [done|]. intros Hnot. exfalso. apply Hnot. by apply Hiff.
      * intros pi [= <-]. apply clamp_solution_spec.
  - exists None. split; [done|]. split; [done|]. split; [|split; [done|done]].
    split; [|done]. intros _ Hsc. by apply Hiff in Hsc.
Qed.

Lemma getStationaryDistribution_null_iff_reducible_witness :
  ∃ Q r, buildRateMatrix two_state_chain = Some Q
    ∧ getStationaryDistribution 2 two_state_chain = Ret r
    ∧ (r = None ↔ ¬ strongly_connected (states two_state_chain) Q)
    ∧ (r = None ↔ isIrreducible 2 two_state_chain = Ret false)
    ∧ ∀ pi, r = Some pi ->
        dom pi = list_to_set (states two_state_chain) ∧ ∀ s p, pi !! s = Some p -> 0 ≤ p.
Proof.
  apply (getStationaryDistribution_null_iff_reducible two_state_chain 2).
  - vm_compute. reflexivity.
  - simpl. lia.
Defined.

Lemma find_all_false {A : Type} (f : A -> bool) (l : list A) :
  (∀ x, In x l -> f x = false) -> find f l = None.
Proof.
  induction l as [|x l IH]; intros H; simpl; [done|].
  rewrite (H x) by (by left). apply IH. intros y Hy. apply H. by right.
Qed.

(** ** Arrays and matrices *)

Lemma insert_get_id (a : list Qc) (j : nat) : <[j := get a j]> a = a.
Proof.
  unfold get. destruct (a !! j) as [x|] eqn:Hj; simpl.
  - by apply list_insert_id.
  - apply list_insert_ge. by apply lookup_ge_None.
Qed.

Lemma insert_get_row_id (M : list (list Qc)) (i : nat) : <[i := get_row M i]> M = M.
Proof.
  unfold get_row. destruct (M !! i) as [x|] eqn:Hi; simpl.
  - by apply list_insert_id.
  - apply list_insert_ge. by apply lookup_ge_None.
Qed.

Lemma for_each_index_id (n : nat) (f : nat -> Qc -> Qc) (a : list Qc) :
  (∀ j x, f j x = x) -> for_each_index n f a = a.
Proof.
  intros Hf. unfold for_each_index. induction (seq 0 n) as [|j l IH]; simpl; [done|].
  by rewrite Hf, insert_get_id.
Qed.

Lemma swap_rows_same (M : list (list Qc)) (i : nat) : swap_rows M i i = M.
Proof. unfold swap_rows. by rewrite !insert_get_row_id. Qed.

Lemma get2_tabulate (n : nat) (f : nat -> nat -> Qc) (i j : nat) :
  (i < n)%nat -> (j < n)%nat ->
  get2 (map (fun i => map (fun j => f i j) (seq 0 n)) (seq 0 n)) i j = f i j.
Proof.
  intros Hi Hj. unfold get2, get_row, get.
  rewrite list_lookup_fmap, lookup_seq_lt by done. simpl.
  rewrite list_lookup_fmap, lookup_seq_lt by done. done.
Qed.

Lemma get2_identity (n i j : nat) :
  (i < n)%nat -> (j < n)%nat ->
  get2 (identity_matrix n) i j = if decide (i = j) then 1 else 0.
Proof. intros. unfold identity_matrix. by rewrite get2_tabulate. Qed.

Lemma Qc_div_1 (x : Qc) : x / 1 = x.
Proof. unfold Qcdiv. apply Qc_is_canon. qc_unfold. simpl. field. Qed.

Lemma scale_matrix_1 (n : nat) (M : list (list Qc)) : scale_matrix n M 1 = M.
Proof.
  unfold scale_matrix. induction (seq 0 n) as [|i l IH]; simpl; [done|].
  rewrite for_each_index_id by (intros; apply Qc_div_1). by rewrite insert_get_row_id.
Qed.

Lemma Math_abs_0 : Math_abs 0 = 0.
Proof. reflexivity. Qed.

Lemma inf_norm_zero (n : nat) (M : list (list Qc)) :
  (∀ i j, get2 M i j = 0) -> inf_norm n M = 0.
Proof.
  intros HM. unfold inf_norm.
  assert (Hrow : ∀ i l, foldl (fun rowSum j => rowSum + Math_abs (get2 M i j)) 0 l = 0).
  { intros i l. induction l as [|j l IH]; simpl; [done|].
    rewrite HM, Math_abs_0. replace (0 + 0) with (Q2Qc 0) by ring. done. }
  generalize (seq 0 n) at 2. intros l.
  induction l as [|i l IH]; simpl; [done|].
  rewrite Hrow. done.
Qed.

(** ** gaussJordanInverse on the identity *)

Lemma gj_pivot_identity (n col : nat) :
  (col < n)%nat -> gj_pivot n (identity_matrix n) col = col.
Proof.
  intros Hcol. unfold gj_pivot.
  assert (G : ∀ l, (∀ row, row ∈ l -> (col < row < n)%nat) ->
    foldl (fun pivot row =>
             if decide (Math_abs (get2 (identity_matrix n) pivot col)
                        < Math_abs (get2 (identity_matrix n) row col))
             then row else pivot) col l = col).
  { induction l as [|row l IH]; intros Hl; simpl; [done|].
    assert (Hrow : (col < row < n)%nat) by (apply Hl; left).
    rewrite (get2_identity n col col), (get2_identity n row col) by lia.
    rewrite (decide_True (P := col = col)) by done.
    rewrite (decide_False (P := row = col)) by lia.
    rewrite (decide_False (P := Math_abs 1 < Math_abs 0))
      by (apply (bool_decide_unpack _); vm_compute; exact I).
    apply IH. intros r Hr. apply Hl. by right. }
  apply G. intros row Hrow%elem_of_seq. lia.
Qed.

Lemma gj_eliminate_row_identity (n col row : nat) :
  (col < n)%nat -> (row < n)%nat ->
  gj_eliminate_row n col (identity_matrix n, identity_matrix n) row
  = (identity_matrix n, identity_matrix n).
Proof.
  intros Hcol Hrow. unfold gj_eliminate_row.
  destruct (decide (row = col)) as [|Hne]; [done|].
  rewrite get2_identity, (decide_False (P := row = col)) by done.
  assert (Hid : ∀ (g : nat -> Qc) (a : list Qc),
            for_each_index n (fun j x => x - 0 * g j) a = a).
  { intros g a. apply for_each_index_id. intros. ring. }
  by rewrite !Hid, insert_get_row_id.
Qed.

Lemma gj_column_identity (n col : nat) :
  (col < n)%nat ->
  gj_column n (identity_matrix n, identity_matrix n) col
  = (identity_matrix n, identity_matrix n).
Proof.
  intros Hcol. unfold gj_column. rewrite gj_pivot_identity by done.
  rewrite get2_identity, (decide_True (P := col = col)) by done.
  rewrite (decide_False (P := Math_abs 1 < eps))
    by (apply (bool_decide_unpack _); vm_compute; exact I).
  rewrite swap_rows_same, get2_identity, (decide_True (P := col = col)) by done.
  rewrite for_each_index_id by (intros; apply Qc_div_1). rewrite insert_get_row_id.
  assert (G : ∀ l, (∀ row, row ∈ l -> (row < n)%nat) ->
    foldl (gj_eliminate_row n col) (identity_matrix n, identity_matrix n) l
    = (identity_matrix n, identity_matrix n)).
  { induction l as [|row l IH]; intros Hl; cbn [foldl]; [done|].
    rewrite gj_eliminate_row_identity; [|done|apply Hl; left].
    apply IH. intros r Hr. apply Hl. by right. }
  apply G. intros row Hrow%elem_of_seq. lia.
Qed.

Lemma gaussJordanInverse_identity (n : nat) :
  gaussJordanInverse (identity_matrix n) = identity_matrix n.
Proof.
  unfold gaussJordanInverse.
  assert (Hlen : length (identity_matrix n) = n).
  { unfold identity_matrix. by rewrite length_map, length_seq. }
  rewrite Hlen.
  assert (G : ∀ l, (∀ col, col ∈ l -> (col < n)%nat) ->
    foldl (gj_column n) (identity_matrix n, identity_matrix n) l
    = (identity_matrix n, identity_matrix n)).
  { induction l as [|col l IH]; intros Hl; cbn [foldl]; [done|].
    rewrite gj_column_identity by (apply Hl; left).
    apply IH. intros c Hc. apply Hl. by right. }
  rewrite G; [done|]. intros col Hcol%elem_of_seq. lia.
Qed.

(** ** matrixExponential at [t = 0] *)

Lemma mapM_pointwise {A B : Type} (f : A -> option B) (g : A -> B) (l : list A) :
  (∀ x, x ∈ l -> f x = Some (g x)) -> mapM f l = Some (map g l).
Proof.
  intros H. apply mapM_Some. apply Forall2_fmap_r, Forall_Forall2_diag.
  apply Forall_forall. intros x Hx. by apply H.
Qed.

Lemma times_t_zero (Q : gmap string (gmap string Qc)) (sts : list string) :
  (∀ i j, i ∈ sts -> j ∈ sts -> is_Some (lookup_entry Q i j)) ->
  ∃ Z, times_t Q sts 0 = Some Z ∧ ∀ i j, get2 Z i j = 0.
Proof.
  intros Hdef. exists (map (fun _ => map (fun _ => 0) sts) sts). split.
  - unfold times_t. apply mapM_pointwise. intros i Hi.
    apply mapM_pointwise. intros j Hj.
    destruct (Hdef i j Hi Hj) as [x ->]. simpl. f_equal. ring.
  - intros i j. unfold get2, get_row, get. rewrite list_lookup_fmap.
    destruct (sts !! i); simpl; [|done].
    rewrite list_lookup_fmap. by destruct (sts !! j).
Qed.

Lemma delta_sum (i j : nat) (l : list nat) (acc : Qc) :
  NoDup l ->
  foldl (fun c k => c + (if decide (i = k) then 1 else 0) * (if decide (k = j) then 1 else 0))
        acc l
  = acc + (if decide (i = j ∧ i ∈ l) then 1 else 0).
Proof.
  intros Hnd. revert acc. induction Hnd as [|k l Hk Hnd IH]; intros acc; simpl.
  - rewrite decide_False; [ring|]. intros [_ H]. by apply elem_of_nil in H.
  - rewrite IH.
    repeat case_decide; subst; try ring; exfalso; set_solver.
Qed.

Lemma matMult_identity (n : nat) :
  matMult n (identity_matrix n) (identity_matrix n) = identity_matrix n.
Proof.
  unfold matMult. unfold identity_matrix at 3.
  apply map_ext_in. intros i Hi%in_seq. apply map_ext_in. intros j Hj%in_seq.
  assert (E : ∀ l acc, (∀ k, k ∈ l -> (k < n)%nat) ->
    foldl (fun c k => c + get2 (identity_matrix n) i k * get2 (identity_matrix n) k j) acc l
    = foldl (fun c k => c + (if decide (i = k) then 1 else 0)
                            * (if decide (k = j) then 1 else 0)) acc l).
  { induction l as [|k l IH]; intros acc Hl; simpl; [done|].
    rewrite !get2_identity; [|apply Hl; left|lia|lia|apply Hl; left].
    apply IH. intros k' Hk'. apply Hl. by right. }
  rewrite E; [|intros k Hk%elem_of_seq; lia].
  rewrite delta_sum by apply NoDup_seq.
  assert (Hi' : i ∈ seq 0 n) by (apply elem_of_seq; lia).
  repeat case_decide; try ring; exfalso; naive_solver.
Qed.

Lemma pade_of_zero (n : nat) (Z : list (list Qc)) (c : Qc) :
  (∀ i j, get2 Z i j = 0) ->
  matAdd n (matAdd n (identity_matrix n) Z 1 c) (matMult n Z Z) 1 one_twelfth
  = identity_matrix n.
Proof.
  intros HZ. unfold matAdd at 1. unfold identity_matrix at 2.
  apply map_ext_in. intros i Hi%in_seq. apply map_ext_in. intros j Hj%in_seq.
  unfold matAdd, matMult. rewrite !get2_tabulate by lia.
  rewrite get2_identity, HZ by lia.
  assert (E : ∀ l acc, foldl (fun c k => c + get2 Z i k * get2 Z k j) acc l = acc).
  { induction l as [|k l IH]; intros acc; simpl; [done|]. rewrite IH, !HZ. ring. }
  rewrite E. ring.
Qed.

Lemma fold_insert_lookup_notin {V : Type} (f : nat -> V) (l : list (nat * string))
    (m0 : gmap string V) (s : string) :
  s ∉ l.*2 -> foldl (fun m '(i, s) => <[s := f i]> m) m0 l !! s = m0 !! s.
Proof.
  revert m0. induction l as [|[i' s'] l IH]; intros m0 Hs; simpl; [done|].
  rewrite IH by (intros ?; apply Hs; by right).
  rewrite lookup_insert_ne; [done|]. intros ->. apply Hs. left.
Qed.

Lemma fold_insert_lookup {V : Type} (f : nat -> V) (l : list (nat * string))
    (m0 : gmap string V) (i : nat) (s : string) :
  NoDup l.*2 -> (i, s) ∈ l ->
  foldl (fun m '(i, s) => <[s := f i]> m) m0 l !! s = Some (f i).
Proof.
  revert m0. induction l as [|[i' s'] l IH]; intros m0 Hnd Hin; simpl.
  - by apply elem_of_nil in Hin.
  - simpl in Hnd. apply NoDup_cons in Hnd as [Hs' Hnd].
    apply elem_of_cons in Hin as [[= -> ->]|Hin].
    + rewrite fold_insert_lookup_notin by done. by rewrite lookup_insert_eq.
    + by apply IH.
Qed.

Lemma to_record_entry (sts : list string) (R : list (list Qc)) (i j : nat) (si sj : string) :
  NoDup sts -> sts !! i = Some si -> sts !! j = Some sj ->
  lookup_entry (to_record sts R) si sj = Some (get2 R i j).
Proof.
  intros Hnd Hi Hj. unfold lookup_entry, to_record.
  assert (Hin : ∀ k sk, sts !! k = Some sk -> (k, sk) ∈ imap pair sts).
  { intros k sk Hk. apply (list_elem_of_lookup_2 _ k). by rewrite list_lookup_imap, Hk. }
  rewrite (fold_insert_lookup
             (fun i => foldl (fun row '(j, sj) => <[sj := get2 R i j]> row) ∅ (imap pair sts))
             (imap pair sts) ∅ i si); [|by rewrite imap_pair_snd|by apply Hin].
  simpl.
  rewrite (fold_insert_lookup (fun j => get2 R i j) (imap pair sts) ∅ j sj);
    [done|by rewrite imap_pair_snd|by apply Hin].
Qed.

Lemma buildRateMatrix_entries_defined (chain : CtmcDef) (Q : gmap string (gmap string Qc)) :
  valid_chain chain = true -> buildRateMatrix chain = Some Q ->
  ∀ i j, i ∈ states chain -> j ∈ states chain -> is_Some (lookup_entry Q i j).
Proof.
  intros Hv HQ i j Hi Hj.
  destruct (buildRateMatrix_spec chain Hv) as (Q' & HQ' & Hspec).
  assert (Q' = Q) as -> by congruence.
  destruct (Hspec i Hi) as (Hoff & Hdiag).
  destruct (decide (i = j)) as [<-|Hne]; [by rewrite Hdiag|].
  rewrite Hoff by done. eauto.
Qed.

Lemma matrixExponential_zero_entries (Q : gmap string (gmap string Qc)) (sts : list string) :
  NoDup sts -> sts ≠ [] ->
  (∀ i j, i ∈ sts -> j ∈ sts -> is_Some (lookup_entry Q i j)) ->
  ∃ P, matrixExponential Q sts 0 = Some P
    ∧ ∀ i j, i ∈ sts -> j ∈ sts ->
        lookup_entry P i j = Some (if decide (i = j) then 1 else 0).
Proof.
  intros Hnd Hne Hdef. unfold matrixExponential.
  rewrite decide_False by (by intros ?%length_zero_iff_nil).
  destruct (times_t_zero Q sts Hdef) as (Z & -> & HZ).
  unfold scaled_Qt. rewrite inf_norm_zero by done.
  change (scaling_exponent 0) with 0%nat.
  replace (pow2 0) with (Q2Qc 1) by (apply Qc_is_canon; reflexivity).
  rewrite scale_matrix_1, !pade_of_zero by done.
  rewrite gaussJordanInverse_identity, matMult_identity. simpl.
  eexists. split; [done|]. intros si sj Hi Hj.
  apply list_elem_of_lookup in Hi as [i Hi]. apply list_elem_of_lookup in Hj as [j Hj].
  rewrite (to_record_entry sts _ i j) by done. f_equal.
  rewrite get2_identity by (eapply lookup_lt_Some; eauto).
  destruct (decide (i = j)) as [->|Hij].
  - rewrite decide_True; [done|]. congruence.
  - rewrite decide_False; [done|]. intros ->. apply Hij.
    eapply NoDup_lookup; eauto.
Qed.

(** C4. For the generator [Q] of a valid chain with at least one state,
    [matrixExponential(Q, states, 0)] is the identity matrix: entry 1 where
    the row state is the column state and 0 elsewhere, exactly and hence
    within the tolerance 1e-6. *)
Theorem matrixExponential_at_zero (chain : CtmcDef) (Q : gmap string (gmap string Qc)) :
  valid_chain chain = true -> states chain ≠ [] -> buildRateMatrix chain = Some Q ->
  ∃ P, matrixExponential Q (states chain) 0 = Some P
    ∧ ∀ i j, i ∈ states chain -> j ∈ states chain ->
        lookup_entry P i j = Some (if decide (i = j) then 1 else 0)
        ∧ Math_abs (entry P i j - (if decide (i = j) then 1 else 0)) ≤ tolerance_1e6.
Proof.
  intros Hv Hne HQ.
  destruct (matrixExponential_zero_entries Q (states chain)) as (P & HP & Hent);
    [by apply valid_chain_NoDup|done|by eapply buildRateMatrix_entries_defined|].
  exists P. split; [done|]. intros i j Hi Hj. split; [by apply Hent|].
  rewrite entry_lookup_entry, Hent by done. simpl.
  replace ((if decide (i = j) then 1 else 0) - (if decide (i = j) then 1 else 0))
    with (Q2Qc 0) by (destruct (decide (i = j)); ring).
  apply (bool_decide_unpack _). vm_compute. exact I.
Qed.

Lemma matrixExponential_at_zero_witness :
  ∃ Q P, buildRateMatrix two_state_chain = Some Q
    ∧ matrixExponential Q (states two_state_chain) 0 = Some P
    ∧ ∀ i j, i ∈ states two_state_chain -> j ∈ states two_state_chain ->
        lookup_entry P i j = Some (if decide (i = j) then 1 else 0)
        ∧ Math_abs (entry P i j - (if decide (i = j) then 1 else 0)) ≤ tolerance_1e6.
Proof.
  destruct (buildRateMatrix two_state_chain) as [Q|] eqn:HQ; [|by vm_compute in HQ].
  exists Q.
  destruct (matrixExponential_at_zero two_state_chain Q) as (P & HP & Hent);
    [vm_compute; reflexivity|discriminate|exact HQ|].
  exists P. split; [reflexivity|]. split; [exact HP|exact Hent].
Defined.

(** C5 at the chain [A -> B : 1], [B -> A : 1] and [t = 1]: the norm of [Qt]
    is 2, the scaling exponent is [m = 1], and the scaled matrix [Qt / 2] has
    infinity norm exactly 1, which is not strictly less than 1. *)
Theorem scaled_norm_is_one_at_norm_two :
  ∃ Q Qt, buildRateMatrix two_state_chain = Some Q
    ∧ times_t Q (states two_state_chain) 1 = Some Qt
    ∧ inf_norm 2 Qt = 1 + 1
    ∧ scaling_exponent (inf_norm 2 Qt) = 1%nat
    ∧ inf_norm 2 (scaled_Qt 2 Qt) = 1
    ∧ ¬ inf_norm 2 (scaled_Qt 2 Qt) < 1.
Proof.
  eexists. eexists. split; [vm_compute; reflexivity|].
  split; [vm_compute; reflexivity|].
  split; [apply (bool_decide_unpack _); vm_compute; exact I|].
  split; [vm_compute; reflexivity|].
  split; apply (bool_decide_unpack _); vm_compute; exact I.
Qed.

(** ** parseCtmcDSL *)

Lemma scan_line_section (st st' : scan_state) (line : string) :
  scan_line st line = Continue st' ->
  section st' = match fst <$> header_of (trim line) with
                | Some h => Some h
                | None => section st
                end.
Proof.
  unfold scan_line. destruct (String.length (trim line) =? 0)%nat eqn:Hblank.
  - intros [= <-]. apply Nat.eqb_eq in Hblank.
    destruct (trim line); [done|discriminate].
  - destruct (header_of (trim line)) as [[sec part]|]; simpl.
    + destruct (String.length part =? 0)%nat; intros [= <-]; [done|].
      by destruct sec.
    + destruct (section st) as [sec|] eqn:Hsec; [|done].
      intros [= <-]. by destruct sec.
Qed.

Lemma scan_lines_section (lines : list string) (st st' : scan_state) :
  pfold scan_line st lines = Continue st' ->
  section st' = match last (omap (fun line => fst <$> header_of (trim line)) lines) with
                | Some h => Some h
                | None => section st
                end.
Proof.
  revert st. induction lines as [|line lines IH]; intros st; simpl.
  - by intros [= <-].
  - destruct (scan_line st line) as [st1|] eqn:H1; simpl; [|done].
    intros H. rewrite (IH _ H). apply scan_line_section in H1.
    destruct (fst <$> header_of (trim line)) as [h|]; simpl.
    + rewrite last_cons. by destruct (last _).
    + by rewrite H1.
Qed.

Lemma parse_body_rates_last (trimmed : string) (chain : CtmcDef) :
  parse_body trimmed = Continue chain ->
  last (omap (fun line => fst <$> header_of (trim line)) (split "010" trimmed))
  = Some SecRates.
Proof.
  unfold parse_body.
  destruct (pfold scan_line _ _) as [st|] eqn:Hscan; simpl; [|done].
  apply scan_lines_section in Hscan. simpl in Hscan.
  destruct (length (filter _ _) =? 0)%nat; [done|].
  destruct (pfold add_state _ _) as [sts|]; simpl; [|done].
  destruct (length sts =? 0)%nat; [done|].
  destruct (length (initialLines st) =? 0)%nat; [done|].
  destruct (parse_initial _ _) as [mu|]; simpl; [|done].
  destruct (pfold (parse_rate_line sts) _ _) as [ts|]; simpl; [|done].
  destruct (section st) as [[]|] eqn:Hsec; try done.
  intros _. by destruct (last _) as [h|]; [injection Hscan as ->|].
Qed.

(** The only test on the order of the sections: parsing fails whenever the
    last section header of the text is not a [Rates:] header; in particular
    it fails when the [Rates:] header comes before a [States:] or
    [Initial distribution:] header that is the last one. *)
Theorem parse_fails_unless_rates_header_last (text : string) :
  last (headers text) ≠ Some SecRates ->
  ∃ e, parseCtmcDSL text = ParseError e.
Proof.
  intros Hlast. unfold parseCtmcDSL.
  destruct (String.length (trim text) =? 0)%nat; [eauto|].
  destruct (parse_body (trim text)) as [chain|e] eqn:Hbody; [|eauto].
  exfalso. apply Hlast. by apply parse_body_rates_last in Hbody.
Qed.

Lemma parse_fails_unless_rates_header_last_witness :
  ∃ e, parseCtmcDSL rates_first_text = ParseError e.
Proof.
  apply (parse_fails_unless_rates_header_last rates_first_text).
  vm_compute. discriminate.
Defined.

(** C7 at the text [Initial distribution: uniform / States: A, B /
    Rates: A -> B : 1, B -> A : 1]: the [Initial distribution:] header comes
    before the [States:] header, and the text is parsed successfully into
    the chain with states [A], [B] and both transitions. *)
Theorem parse_accepts_initial_before_states :
  out_of_order (headers initial_first_text) = true
  ∧ ∃ chain, parseCtmcDSL initial_first_text = ParseOk chain
      ∧ states chain = ["A"; "B"]%string
      ∧ map (fun t => (from t, to t)) (transitions chain)
        = [("A", "B"); ("B", "A")]%string.
Proof.
  split; [vm_compute; reflexivity|].
  eexists. split; [vm_compute; reflexivity|]. split; reflexivity.
Qed.

(** C8 at the text whose Rates section is [A -> B : -1, B -> A : 1]: the
    parser succeeds and the chain has the single transition [B -> A]; the
    entry with the negative rate is dropped without a failure. *)
Theorem parse_drops_negative_rate :
  ∃ chain, parseCtmcDSL negative_rate_text = ParseOk chain
    ∧ states chain = ["A"; "B"]%string
    ∧ map (fun t => (from t, to t)) (transitions chain) = [("B", "A")]%string
    ∧ rate_match "A -> B : -1" = None.
Proof.
  eexists. split; [vm_compute; reflexivity|]. repeat split; reflexivity.
Qed.

(** ** The jump-chain table *)

Lemma group_by_from_lookup (ts : list CtmcTransition) (s : string) :
  default [] (group_by_from ts !! s)
  = map (fun t => (to t, rate t)) (filter (fun t => from t = s) ts).
Proof.
  unfold group_by_from.
  assert (G : ∀ m : gmap string (list (string * Qc)),
    default [] (foldl (fun m t => <[from t := default [] (m !! from t) ++ [(to t, rate t)]]> m)
                      m ts !! s)
    = default [] (m !! s) ++ map (fun t => (to t, rate t)) (filter (fun t => from t = s) ts)).
  { induction ts as [|t0 ts IH]; intros m; simpl.
    - by rewrite app_nil_r.
    - rewrite IH, filter_cons. destruct (decide (from t0 = s)) as [<-|Hne].
      + rewrite lookup_insert_eq. simpl. by rewrite <- app_assoc.
      + by rewrite lookup_insert_ne. }
  rewrite G. by rewrite lookup_empty.
Qed.

Lemma row_of_spec (l : list (string * Qc)) :
  row_to (row_of l) = map fst l
  ∧ totalRate (row_of l) = sum_Qc (map snd l)
  ∧ length (cumul (row_of l)) = length l.
Proof.
  unfold row_of.
  assert (G : ∀ r, row_to (foldl extend_row r l) = row_to r ++ map fst l
                   ∧ totalRate (foldl extend_row r l) = totalRate r + sum_Qc (map snd l)
                   ∧ length (cumul (foldl extend_row r l)) = (length (cumul r) + length l)%nat).
  { induction l as [|e l IH]; intros r; simpl.
    - rewrite app_nil_r, sum_Qc_nil. split; [done|]. split; [ring|lia].
    - destruct (IH (extend_row r e)) as (-> & -> & ->). simpl.
      rewrite <- app_assoc, sum_Qc_cons, length_app. simpl.
      split; [done|]. split; [ring|lia]. }
  destruct (G (mkRow 0 [] [])) as (-> & -> & ->). simpl.
  split; [done|]. split; [ring|done].
Qed.

Lemma buildJumpMap_lookup (chain : CtmcDef) (s : string) :
  buildJumpMap chain !! s
  = if decide (s ∈ states chain)
    then Some (row_of (default [] (group_by_from (transitions chain) !! s)))
    else None.
Proof.
  unfold buildJumpMap. generalize (group_by_from (transitions chain)). intros byFrom.
  assert (G : ∀ m : gmap string jump_row,
    foldl (fun m s => <[s := row_of (default [] (byFrom !! s))]> m) m (states chain) !! s
    = if decide (s ∈ states chain) then Some (row_of (default [] (byFrom !! s)))
      else m !! s).
  { induction (states chain) as [|s0 l IH]; intros m; simpl.
    - destruct (decide (s ∈ [])) as [H|]; [by apply elem_of_nil in H|done].
    - rewrite IH. destruct (decide (s ∈ l)) as [Hin|Hin].
      + rewrite decide_True; [done|by right].
      + destruct (decide (s = s0)) as [->|Hne].
        * rewrite decide_True by left. by rewrite lookup_insert_eq.
        * rewrite decide_False by (by intros [?|?]%elem_of_cons).
          by rewrite lookup_insert_ne. }
  rewrite G. by destruct (decide _).
Qed.

Lemma jump_row_targets (chain : CtmcDef) (s next : string) (row : jump_row) :
  valid_chain chain = true -> buildJumpMap chain !! s = Some row ->
  next ∈ row_to row -> next ∈ states chain.
Proof.
  intros Hv Hrow Hnext. rewrite buildJumpMap_lookup in Hrow.
  destruct (decide (s ∈ states chain)); [|done]. injection Hrow as <-.
  destruct (row_of_spec (default [] (group_by_from (transitions chain) !! s)))
    as (Hto & _ & _).
  rewrite Hto, group_by_from_lookup in Hnext.
  apply list_elem_of_fmap in Hnext as ([to_ r] & -> & He). simpl.
  apply list_elem_of_fmap in He as (t0 & [= -> ->] & Ht0).
  apply list_elem_of_filter in Ht0 as [_ Ht0].
  by apply (valid_chain_transition chain t0 Hv Ht0).
Qed.

(** ** The trajectory loop *)

Lemma pick_next_cases (from_ : option string) (row : jump_row) (u : Qc) :
  pick_next from_ row u = from_ ∨ ∃ next, pick_next from_ row u = Some next ∧ next ∈ row_to row.
Proof.
  unfold pick_next.
  destruct (find _ _) as [[c next]|] eqn:Hfind; [|by left].
  right. exists next. split; [done|].
  apply find_some in Hfind as [Hin _]. apply list_elem_of_In in Hin.
  by apply elem_of_zip_r in Hin.
Qed.

Section trajectory.
Variable Math_log : Qc -> Qc.
Variables (jumpMap : gmap string jump_row) (maxTime : Qc) (rand : nat -> Qc).

(** An invariant of the loop holds of what the loop returns. *)
Lemma trajectory_loop_invariant (Inv : list TrajectoryPoint -> option string -> Qc -> Prop) :
  (∀ trajectory cs ct k ns h k',
     Inv trajectory cs ct -> ct < maxTime ->
     sampleJump Math_log cs jumpMap rand k = (ns, Some h, k') ->
     ¬ maxTime ≤ ct + h ->
     Inv (trajectory ++ [mkPoint (ct + h) ns]) ns (ct + h)) ->
  ∀ fuel trajectory cs ct k res k',
    Inv trajectory cs ct ->
    trajectory_loop Math_log fuel jumpMap maxTime rand trajectory cs ct k = Ret (res, k') ->
    ∃ cs' ct', Inv res cs' ct'.
Proof.
  intros Hstep. induction fuel as [|fuel IH]; intros trajectory cs ct k res k' HI; simpl.
  - destruct (decide (ct < maxTime)); [done|]. intros [= <- <-]. eauto.
  - destruct (decide (ct < maxTime)) as [Hlt|]; [|intros [= <- <-]; eauto].
    destruct (sampleJump Math_log cs jumpMap rand k) as [[ns [h|]] k1] eqn:Hjump.
    + destruct (decide (maxTime ≤ ct + h)) as [|Hn]; [intros [= <- <-]; eauto|].
      apply IH. by eapply Hstep.
    + intros [= <- <-]. eauto.
Qed.
End trajectory.

Lemma sampleFromDistribution_in (dist : gmap string Qc) (sts : list string) (u : Qc) :
  sts ≠ [] -> ∃ s, sampleFromDistribution dist sts u = Some s ∧ s ∈ sts.
Proof.
  intros Hne. unfold sampleFromDistribution.
  destruct (sample_scan dist u 0 sts) as [s|] eqn:Hscan.
  - exists s. split; [done|]. revert Hscan. generalize (Q2Qc 0).
    induction sts as [|s0 l IH]; intros c; simpl; [done|].
    destruct (decide _); [intros [= ->]; left|].
    destruct l as [|s1 l']; [done|]. intros H. right. by eapply IH.
  - destruct (last sts) as [s|] eqn:Hlast.
    + exists s. split; [done|]. by apply last_Some_elem_of.
    + apply last_None in Hlast. done.
Qed.

Lemma valid_chain_states_nonempty (c : CtmcDef) : valid_chain c = true -> states c ≠ [].
Proof.
  unfold valid_chain. rewrite !andb_true_iff. intros [_ Hinit] Hnil.
  unfold wf_initial in Hinit. rewrite Hnil in Hinit. simpl in Hinit.
  vm_compute in Hinit. done.
Qed.

Lemma sampleTrajectory_states (Math_log : Qc -> Qc) (fuel : nat) (chain : CtmcDef)
    (maxTime : Qc) (rand : nat -> Qc) (k k' : nat) (trajectory : list TrajectoryPoint) :
  valid_chain chain = true ->
  sampleTrajectory Math_log fuel chain maxTime rand k = Ret (trajectory, k') ->
  trajectory ≠ [] ∧ ∀ p, p ∈ trajectory -> ∃ s, state p = Some s ∧ s ∈ states chain.
Proof.
  intros Hv. unfold sampleTrajectory.
  destruct (sampleFromDistribution_in (initialDistribution chain) (states chain) (rand k))
    as (start & -> & Hstart); [by apply valid_chain_states_nonempty|].
  intros Hrun.
  set (Inv := fun (tr : list TrajectoryPoint) (cs : option string) (_ : Qc) =>
    tr ≠ [] ∧ (∀ p, p ∈ tr -> ∃ s, state p = Some s ∧ s ∈ states chain)
    ∧ ∃ s, cs = Some s ∧ s ∈ states chain).
  assert (Hinit : Inv [mkPoint 0 (Some start)] (Some start) 0).
  { split; [done|]. split; [|eauto].
    intros p Hp%list_elem_of_singleton. subst p. eauto. }
  assert (Hstep : ∀ tr cs ct k0 ns h k1,
     Inv tr cs ct -> ct < maxTime ->
     sampleJump Math_log cs (buildJumpMap chain) rand k0 = (ns, Some h, k1) ->
     ¬ maxTime ≤ ct + h ->
     Inv (tr ++ [mkPoint (ct + h) ns]) ns (ct + h)).
  { intros tr cs ct k0 ns h k1 (Hne & Hall & s & -> & Hs) _ Hjump _.
    assert (Hns : ∃ s', ns = Some s' ∧ s' ∈ states chain).
    { unfold sampleJump in Hjump. simpl in Hjump.
      destruct (buildJumpMap chain !! s) as [row|] eqn:Hrow; [|done].
      destruct (decide (totalRate row = 0)); [done|].
      injection Hjump as <- _ _.
      destruct (pick_next_cases (Some s) row (rand (S k0) * totalRate row))
        as [->|(next & -> & Hnext)]; [eauto|].
      exists next. split; [done|]. by eapply jump_row_targets. }
    split; [by destruct tr|]. split; [|done].
    intros p [Hp|Hp]%elem_of_app; [by apply Hall|].
    apply list_elem_of_singleton in Hp as ->. done. }
  destruct (trajectory_loop_invariant Math_log (buildJumpMap chain) maxTime rand Inv Hstep
              fuel _ _ _ _ _ _ Hinit Hrun) as (cs' & ct' & Hne & Hall & _).
  done.
Qed.

(** ** runSimulation *)

Lemma get_insert_eq (a : list Qc) (i : nat) (x : Qc) :
  (i < length a)%nat -> get (<[i := x]> a) i = x.
Proof. intros Hi. unfold get. by rewrite list_lookup_insert_eq. Qed.

Lemma get_insert_ne (a : list Qc) (i j : nat) (x : Qc) :
  i ≠ j -> get (<[i := x]> a) j = get a j.
Proof. intros Hij. unfold get. by rewrite list_lookup_insert_ne. Qed.

Lemma for_each_index_get (n : nat) (f : nat -> Qc -> Qc) (a : list Qc) (i : nat) :
  (i < n)%nat -> (i < length a)%nat -> get (for_each_index n f a) i = f i (get a i).
Proof.
  intros Hin Hia. unfold for_each_index.
  assert (G : ∀ l a, NoDup l -> (i < length a)%nat ->
    length (foldl (fun a j => <[j := f j (get a j)]> a) a l) = length a
    ∧ get (foldl (fun a j => <[j := f j (get a j)]> a) a l) i
      = if decide (i ∈ l) then f i (get a i) else get a i).
  { clear a Hia. induction l as [|j l IH]; intros a Hnd Hia; simpl.
    - split; [done|]. destruct (decide (i ∈ [])) as [H|]; [by apply elem_of_nil in H|done].
    - apply NoDup_cons in Hnd as [Hj Hnd].
      destruct (IH (<[j := f j (get a j)]> a) Hnd) as [Hlen Hget];
        [by rewrite length_insert|].
      rewrite Hlen, Hget, length_insert. split; [done|].
      destruct (decide (i = j)) as [->|Hne].
      + rewrite decide_False by done. rewrite decide_True by left.
        by rewrite get_insert_eq.
      + rewrite get_insert_ne by done.
        destruct (decide (i ∈ l)).
        * rewrite decide_True; [done|by right].
        * rewrite decide_False; [done|]. by intros [?|?]%elem_of_cons. }
  destruct (G (seq 0 n) a) as [_ ->]; [apply NoDup_seq|done|].
  rewrite decide_True; [done|]. apply elem_of_seq. lia.
Qed.

Lemma sum_Qc_map_ext {A : Type} (f g : A -> Qc) (l : list A) :
  (∀ x, x ∈ l -> f x = g x) -> sum_Qc (map f l) = sum_Qc (map g l).
Proof.
  intros H. f_equal. apply map_ext_in. intros x Hx. apply H. by apply list_elem_of_In.
Qed.

Lemma sum_Qc_map_div {A : Type} (f : A -> Qc) (c : Qc) (l : list A) :
  sum_Qc (map (fun x => f x / c) l) = sum_Qc (map f l) / c.
Proof.
  induction l as [|x l IH]; simpl.
  - rewrite sum_Qc_nil. unfold Qcdiv. ring.
  - rewrite !sum_Qc_cons, IH. unfold Qcdiv. ring.
Qed.


Lemma column_sum_bump (sts : list string) (p : gmap string (list Qc)) (s : string)
    (counts : list Qc) (i j : nat) :
  NoDup sts -> s ∈ sts -> p !! s = Some counts -> (i < length counts)%nat ->
  column_sum (<[s := <[i := get counts i + 1]> counts]> p) sts j
  = column_sum p sts j + (if decide (j = i) then 1 else 0).
Proof.
  intros Hnd Hs Hp Hi. unfold column_sum.
  rewrite (sum_Qc_split_NoDup _ sts s), (sum_Qc_split_NoDup (fun s0 => proportion_at p s0 j) sts s)
    by done.
  assert (Hrest : sum_Qc (map (fun s0 => proportion_at (<[s := <[i := get counts i + 1]> counts]> p) s0 j)
                              (filter (fun x => x ≠ s) sts))
                  = sum_Qc (map (fun s0 => proportion_at p s0 j) (filter (fun x => x ≠ s) sts))).
  { apply sum_Qc_map_ext. intros x Hx%list_elem_of_filter.
    unfold proportion_at. rewrite lookup_insert_ne; [done|]. by intros ->; destruct Hx. }
  rewrite Hrest. unfold proportion_at. rewrite lookup_insert_eq, Hp. simpl.
  destruct (decide (j = i)) as [->|Hne].
  - rewrite get_insert_eq by done. ring.
  - rewrite get_insert_ne by done. ring.
Qed.

Lemma last_state_before_cases (st : option string) (rest : list TrajectoryPoint) (time : Qc) :
  last_state_before st rest time = st
  ∨ ∃ p, p ∈ rest ∧ last_state_before st rest time = state p.
Proof.
  revert st. induction rest as [|p rest IH]; intros st; simpl; [by left|].
  destruct (decide (t p ≤ time)); [|by left].
  destruct (IH (state p)) as [->|(pt & Hpt & ->)].
  - right. exists p. split; [left|done].
  - right. exists pt. split; [by right|done].
Qed.

Lemma count_at_spec (n : nat) (sts : list string) (trajectory : list TrajectoryPoint)
    (timePoints : list Qc) (p : gmap string (list Qc)) (i : nat) :
  NoDup sts -> trajectory ≠ [] ->
  (∀ q, q ∈ trajectory -> ∃ s, state q = Some s ∧ s ∈ sts) ->
  counts_ok n sts p -> (i < n)%nat ->
  ∃ p', count_at trajectory timePoints p i = Ret p' ∧ counts_ok n sts p'
    ∧ ∀ j, column_sum p' sts j = column_sum p sts j + (if decide (j = i) then 1 else 0).
Proof.
  intros Hnd Hne Hstates Hok Hi. unfold count_at.
  destruct trajectory as [|p0 rest]; [done|].
  assert (Hst : ∃ s, last_state_before (state p0) rest (get timePoints i) = Some s ∧ s ∈ sts).
  { destruct (last_state_before_cases (state p0) rest (get timePoints i))
      as [->|(pt & Hpt & ->)]; apply Hstates; [left|by right]. }
  destruct Hst as (s & -> & Hs).
  destruct (Hok s Hs) as (counts & Hp & Hlen & Hnn). rewrite Hp.
  eexists. split; [done|]. split.
  - intros s' Hs'. destruct (decide (s' = s)) as [->|Hdiff].
    + rewrite lookup_insert_eq. eexists. split; [done|].
      split; [by rewrite length_insert|]. intros j.
      destruct (decide (i = j)) as [<-|Hij].
      * rewrite get_insert_eq by lia. specialize (Hnn i). qc_lra.
      * by rewrite get_insert_ne.
    + rewrite lookup_insert_ne by done. by apply Hok.
  - intros j. apply column_sum_bump; [done|done|done|lia].
Qed.

Lemma count_all_spec (n : nat) (sts : list string) (trajectory : list TrajectoryPoint)
    (timePoints : list Qc) (l : list nat) (p : gmap string (list Qc)) :
  NoDup sts -> trajectory ≠ [] ->
  (∀ q, q ∈ trajectory -> ∃ s, state q = Some s ∧ s ∈ sts) ->
  NoDup l -> (∀ i, i ∈ l -> (i < n)%nat) -> counts_ok n sts p ->
  ∃ p', ofold (count_at trajectory timePoints) p l = Ret p' ∧ counts_ok n sts p'
    ∧ ∀ j, column_sum p' sts j = column_sum p sts j + (if decide (j ∈ l) then 1 else 0).
Proof.
  intros Hnd Hne Hstates Hl. revert p. induction Hl as [|i l Hi Hl IH]; intros p Hlt Hok; simpl.
  - exists p. split; [done|]. split; [done|]. intros j.
    destruct (decide (j ∈ [])) as [H|]; [by apply elem_of_nil in H|ring].
  - destruct (count_at_spec n sts trajectory timePoints p i) as (p1 & -> & Hok1 & Hsum1);
      [done|done|done|done|apply Hlt; left|].
    simpl. destruct (IH p1) as (p' & -> & Hok' & Hsum'); [intros; apply Hlt; by right|done|].
    exists p'. split; [done|]. split; [done|]. intros j. rewrite Hsum', Hsum1.
    destruct (decide (j = i)) as [->|Hne'].
    + rewrite (decide_False (P := i ∈ l)) by done.
      rewrite decide_True by left. ring.
    + destruct (decide (j ∈ l)).
      * rewrite decide_True by (by right). ring.
      * rewrite decide_False by (by intros [?|?]%elem_of_cons). ring.
Qed.

Lemma Qc_of_nat_0 : Q2Qc (inject_Z (Z.of_nat 0)) = 0.
Proof. apply Qc_is_canon. reflexivity. Qed.

Lemma Qc_of_nat_S (n : nat) :
  Q2Qc (inject_Z (Z.of_nat (S n))) = 1 + Q2Qc (inject_Z (Z.of_nat n)).
Proof.
  apply Qc_is_canon. qc_unfold. rewrite Nat2Z.inj_succ. unfold Z.succ.
  rewrite inject_Z_plus. ring.
Qed.

Lemma Qc_of_nat_pos (n : nat) : (1 ≤ n)%nat -> 0 < Q2Qc (inject_Z (Z.of_nat n)).
Proof.
  intros Hn. qc_unfold. rewrite <- (Zlt_Qlt 0). lia.
Qed.

Lemma sum_Qc_zeros {A : Type} (l : list A) : sum_Qc (map (fun _ => 0) l) = 0.
Proof.
  induction l as [|x l IH]; simpl; [done|]. rewrite sum_Qc_cons, IH. ring.
Qed.

Lemma zero_counts_spec (n : nat) (sts : list string) :
  let zeros := foldl (fun p s => <[s := replicate n 0]> p) (∅ : gmap string (list Qc)) sts in
  counts_ok n sts zeros ∧ ∀ j, column_sum zeros sts j = 0.
Proof.
  intros zeros.
  assert (Hlook : ∀ s, s ∈ sts -> zeros !! s = Some (replicate n 0)).
  { intros s Hs. unfold zeros.
    assert (G : ∀ (l : list string) (p : gmap string (list Qc)),
      foldl (fun p s => <[s := replicate n 0]> p) p l !! s
      = if decide (s ∈ l) then Some (replicate n 0) else p !! s).
    { induction l as [|s0 l IH]; intros p; simpl.
      - destruct (decide (s ∈ [])) as [H|]; [by apply elem_of_nil in H|done].
      - rewrite IH. destruct (decide (s ∈ l)) as [Hin|Hin].
        + rewrite decide_True; [done|by right].
        + destruct (decide (s = s0)) as [->|Hne'].
          * rewrite decide_True by left. by rewrite lookup_insert_eq.
          * rewrite decide_False by (by intros [?|?]%elem_of_cons).
            by rewrite lookup_insert_ne. }
    rewrite G. by rewrite decide_True. }
  assert (Hget : ∀ i, get (replicate n 0) i = 0).
  { intros i. unfold get. destruct (replicate n (Q2Qc 0) !! i) as [x|] eqn:Hx; [|done].
    apply lookup_replicate in Hx as [-> _]. done. }
  split.
  - intros s Hs. exists (replicate n 0). split; [by apply Hlook|].
    split; [by rewrite length_replicate|]. intros i. rewrite Hget. apply Qcle_refl.
  - intros j. unfold column_sum.
    rewrite (sum_Qc_map_ext _ (fun _ => 0)).
    + apply sum_Qc_zeros.
    + intros s Hs. unfold proportion_at. rewrite (Hlook s Hs). simpl. apply Hget.
Qed.

Lemma normalize_lookup (F : list Qc -> list Qc) (l : list string) :
  NoDup l ->
  ∀ (p : gmap string (list Qc)) (s : string),
    foldl (fun p s => <[s := F (default [] (p !! s))]> p) p l !! s
    = if decide (s ∈ l) then Some (F (default [] (p !! s))) else p !! s.
Proof.
  induction 1 as [|s0 l Hs0 Hnd IH]; intros p s; simpl.
  - destruct (decide (s ∈ [])) as [H|]; [by apply elem_of_nil in H|done].
  - rewrite IH. destruct (decide (s ∈ l)) as [Hin|Hin].
    + rewrite decide_True by (by right).
      rewrite lookup_insert_ne; [done|]. by intros ->.
    + destruct (decide (s = s0)) as [->|Hne].
      * rewrite decide_True by left. by rewrite lookup_insert_eq.
      * rewrite decide_False by (by intros [?|?]%elem_of_cons).
        by rewrite lookup_insert_ne.
Qed.

Lemma Qc_div_nonneg (x c : Qc) : 0 ≤ x -> 0 < c -> 0 ≤ x / c.
Proof.
  intros Hx Hc. unfold Qcdiv.
  replace (Q2Qc 0) with (0 * / c) by ring.
  apply Qcmult_le_compat_r; [done|]. apply Qclt_le_weak. by apply Qcinv_pos.
Qed.

Lemma Qc_div_self (c : Qc) : 0 < c -> c / c = 1.
Proof.
  intros Hc. unfold Qcdiv. apply Qcmult_inv_r. intros ->. by apply Qclt_not_eq in Hc.
Qed.

(** ** Sums and quotients *)

Ltac qc_nra :=
  repeat match goal with
  | H : @eq Qc ?x ?y |- _ => apply Qc_eq_Qeq in H
  | |- @eq Qc _ _ => apply Qc_is_canon
  end; qc_unfold; nra.

Lemma strictly_increasing_snoc (l : list Qc) (y : Qc) :
  strictly_increasing l -> (∀ x, x ∈ l -> x < y) -> strictly_increasing (l ++ [y]).
Proof.
  intros Hl Hy i j a b Hij Ha Hb.
  destruct (decide (j < length l)%nat) as [Hj|Hj].
  - rewrite lookup_app_l in Ha, Hb by lia. exact (Hl i j a b Hij Ha Hb).
  - assert (Hi : (i < length l)%nat).
    { apply lookup_lt_Some in Hb. rewrite length_app in Hb. simpl in Hb. lia. }
    rewrite lookup_app_l in Ha by done.
    rewrite lookup_app_r in Hb by lia.
    apply list_lookup_singleton_Some in Hb as [_ <-].
    apply Hy. by eapply list_elem_of_lookup_2.
Qed.

Lemma sum_Qc_nonneg (l : list Qc) : (∀ x, x ∈ l -> 0 ≤ x) -> 0 ≤ sum_Qc l.
Proof.
  induction l as [|x l IH]; intros H; [apply Qcle_refl|].
  rewrite sum_Qc_cons.
  assert (0 ≤ x) by (apply H; left).
  assert (0 ≤ sum_Qc l) by (apply IH; intros; apply H; by right).
  qc_lra.
Qed.

Lemma sum_Qc_filter_le {A : Type} (f : A -> Qc) (P : A -> Prop) `{∀ x, Decision (P x)}
    (l : list A) :
  (∀ x, x ∈ l -> 0 ≤ f x) -> sum_Qc (map f (filter P l)) ≤ sum_Qc (map f l).
Proof.
  induction l as [|x l IH]; intros Hnn; [apply Qcle_refl|].
  assert (0 ≤ f x) by (apply Hnn; left).
  assert (sum_Qc (map f (filter P l)) ≤ sum_Qc (map f l)) by (apply IH; intros; apply Hnn; by right).
  rewrite filter_cons. simpl. destruct (decide (P x)); simpl; rewrite ?sum_Qc_cons; qc_lra.
Qed.

Lemma sum_Qc_pos (l : list Qc) : (∀ x, x ∈ l -> 0 < x) -> sum_Qc l ≠ 0 -> 0 < sum_Qc l.
Proof.
  intros Hpos Hne.
  assert (0 ≤ sum_Qc l).
  { apply sum_Qc_nonneg. intros x Hx. apply Qclt_le_weak. by apply Hpos. }
  destruct (Qcle_lt_or_eq _ _ H) as [?|Heq]; [done|]. by rewrite <- Heq in Hne.
Qed.

Lemma Qc_le_div (eta a x : Qc) : 0 < a -> eta * a ≤ x -> eta ≤ x / a.
Proof.
  intros Ha H. apply (Qcmult_lt_0_le_reg_r _ _ a Ha).
  replace (x / a * a) with x; [done|]. field. intros ->. by apply Qclt_not_eq in Ha.
Qed.

Lemma Qc_div_mul (x c : Qc) : 0 < c -> x / c * c = x.
Proof. intros Hc. field. intros ->. by apply Qclt_not_eq in Hc. Qed.

(** ** Powers of two *)

Lemma pow2_pos (n : nat) : 0 < pow2 n.
Proof.
  unfold pow2. qc_unfold. rewrite <- (Zlt_Qlt 0). apply Z.pow_pos_nonneg; lia.
Qed.

Lemma pow2_S (n : nat) : pow2 (S n) = (1 + 1) * pow2 n.
Proof.
  unfold pow2. apply Qc_is_canon. qc_unfold.
  rewrite Nat2Z.inj_succ, Z.pow_succ_r by lia. rewrite inject_Z_mult. ring.
Qed.

(** ** What the parser guarantees *)

Lemma pfold_add_state (names seen sts : list string) :
  pfold add_state seen names = Continue sts -> NoDup seen -> NoDup sts ∧ sts = seen ++ names.
Proof.
  revert seen. induction names as [|n names IH]; intros seen; simpl.
  - intros [= <-] Hnd. by rewrite app_nil_r.
  - unfold add_state at 1. destruct (decide (n ∈ seen)) as [|Hn]; simpl; [done|].
    intros H Hnd. destruct (IH _ H) as [Hnd' ->].
    + apply NoDup_app. split; [done|]. split; [|apply NoDup_singleton].
      intros x Hx ->%list_elem_of_singleton. done.
    + split; [done|]. by rewrite <- app_assoc.
Qed.

Lemma add_transition_wf (sts : list string) (ts ts' : list CtmcTransition) (part : string) :
  add_transition sts ts part = Continue ts' ->
  forallb (wf_transition sts) ts = true -> forallb (wf_transition sts) ts' = true.
Proof.
  unfold add_transition. destruct (rate_match (trim part)) as [[[m1 m2] m3]|]; [|by intros [= <-]].
  destruct (decide (trim m1 ∈ sts)) as [Hf|]; [|done].
  destruct (decide (trim m2 ∈ sts)) as [Ht|]; [|done].
  destruct (decide (trim m1 = trim m2)) as [|Hne]; [done|].
  destruct (parseFloat m3) as [r|]; [|done].
  destruct (decide (r ≤ 0)) as [|Hr]; [done|].
  intros [= <-] Hts. rewrite forallb_app, Hts. simpl.
  unfold wf_transition. simpl.
  rewrite !bool_decide_eq_true_2; [done|by apply Qcnot_le_lt|done|done|done].
Qed.

Lemma pfold_preserves {A B : Type} (P : A -> Prop) (f : A -> B -> parsing A) (l : list B) :
  (∀ a x a', f a x = Continue a' -> P a -> P a') ->
  ∀ a a', pfold f a l = Continue a' -> P a -> P a'.
Proof.
  intros Hf. induction l as [|x l IH]; intros a a'; simpl.
  - by intros [= <-].
  - destruct (f a x) as [a1|] eqn:H1; simpl; [|done].
    intros H Ha. eapply IH; [done|]. by eapply Hf.
Qed.

Lemma parse_rates_wf (sts : list string) (rateLines_ : list string) (ts : list CtmcTransition) :
  pfold (parse_rate_line sts) [] rateLines_ = Continue ts ->
  forallb (wf_transition sts) ts = true.
Proof.
  intros H.
  apply (pfold_preserves (fun ts => forallb (wf_transition sts) ts = true)
           (parse_rate_line sts) rateLines_) with (a := []); [|done|done].
  intros acc line acc' Hline. unfold parse_rate_line in Hline.
  apply (pfold_preserves (fun ts => forallb (wf_transition sts) ts = true)
           (add_transition sts) (split "," line)); [|done].
  intros a x a'. apply add_transition_wf.
Qed.

Lemma foldl_sum_map {A : Type} (f : A -> Qc) (l : list A) :
  foldl (fun acc x => acc + f x) 0 l = sum_Qc (map f l).
Proof.
  unfold sum_Qc. generalize (Q2Qc 0). induction l as [|x l IH]; intros a; simpl; [done|].
  apply IH.
Qed.

Lemma sum_Qc_const {A : Type} (c : Qc) (l : list A) :
  sum_Qc (map (fun _ => c) l) = Q2Qc (inject_Z (Z.of_nat (length l))) * c.
Proof.
  induction l as [|x l IH]; simpl length.
  - rewrite Qc_of_nat_0. simpl. rewrite sum_Qc_nil. ring.
  - rewrite Qc_of_nat_S. simpl. rewrite sum_Qc_cons, IH. ring.
Qed.

Lemma fold_insert_const_lookup (c : Qc) (l : list string) (m0 : gmap string Qc) (s : string) :
  foldl (fun mu s => <[s := c]> mu) m0 l !! s = if decide (s ∈ l) then Some c else m0 !! s.
Proof.
  revert m0. induction l as [|s0 l IH]; intros m0; simpl.
  - destruct (decide (s ∈ [])) as [H|]; [by apply elem_of_nil in H|done].
  - rewrite IH. destruct (decide (s ∈ l)) as [Hin|Hin].
    + rewrite decide_True; [done|by right].
    + destruct (decide (s = s0)) as [->|Hne].
      * rewrite decide_True by left. by rewrite lookup_insert_eq.
      * rewrite decide_False by (by intros [?|?]%elem_of_cons).
        by rewrite lookup_insert_ne.
Qed.

Lemma Math_abs_0_le_tolerance : Math_abs (1 - 1) ≤ tolerance_1e6.
Proof. apply (bool_decide_unpack _). vm_compute. exact I. Qed.

Lemma add_probability_nonneg (sts : list string) (mu mu' : gmap string Qc)
    (m : string * string) :
  add_probability sts mu m = Continue mu' ->
  (∀ s p, mu !! s = Some p -> 0 ≤ p) -> ∀ s p, mu' !! s = Some p -> 0 ≤ p.
Proof.
  unfold add_probability. destruct (decide (trim m.1 ∈ sts)); [|done].
  destruct (parseFloat m.2) as [prob|]; [|done].
  destruct (decide (prob < 0 ∨ 1 < prob)) as [|Hrange]; [done|].
  intros [= <-] Hmu s p. destruct (decide (s = trim m.1)) as [->|Hne].
  - rewrite lookup_insert_eq. intros [= <-].
    assert (0 ≤ prob) by (apply Qcnot_lt_le; tauto).
    assert (0 ≤ default 0 (mu !! trim m.1)).
    { destruct (mu !! trim m.1) as [x|] eqn:Hx; simpl; [by eapply Hmu|apply Qcle_refl]. }
    generalize dependent (default 0 (mu !! trim m.1)). intros d Hd.
    clear -H Hd. qc_lra.
  - rewrite lookup_insert_ne by done. apply Hmu.
Qed.

Lemma fill_missing_spec (sts : list string) (mu : gmap string Qc) :
  (∀ s p, mu !! s = Some p -> 0 ≤ p) ->
  (∀ s p, foldl fill_missing mu sts !! s = Some p -> 0 ≤ p)
  ∧ ∀ s, s ∈ sts -> is_Some (foldl fill_missing mu sts !! s).
Proof.
  revert mu. induction sts as [|s0 sts IH]; intros mu Hmu; simpl.
  - split; [done|]. intros s Hs. by apply elem_of_nil in Hs.
  - assert (Hmu' : ∀ s p, fill_missing mu s0 !! s = Some p -> 0 ≤ p).
    { intros s p. unfold fill_missing. destruct (mu !! s0) eqn:Hs0; [apply Hmu|].
      destruct (decide (s = s0)) as [->|].
      - rewrite lookup_insert_eq. intros [= <-]. apply Qcle_refl.
      - rewrite lookup_insert_ne by done. apply Hmu. }
    destruct (IH _ Hmu') as [IH1 IH2]. split; [done|].
    intros s [->|Hs]%elem_of_cons; [|by apply IH2].
    assert (Hkeep : ∀ l m, is_Some (m !! s0) -> is_Some (foldl fill_missing m l !! s0)).
    { induction l as [|x l IHl]; intros m Hm; simpl; [done|]. apply IHl.
      unfold fill_missing. destruct (m !! x); [done|].
      destruct (decide (s0 = x)) as [->|]; [by rewrite lookup_insert_eq|].
      by rewrite lookup_insert_ne. }
    apply Hkeep. unfold fill_missing. destruct (mu !! s0) eqn:Hs0; [by rewrite Hs0|].
    by rewrite lookup_insert_eq.
Qed.

Lemma parse_initial_wf (sts : list string) (initialText : string) (mu : gmap string Qc) :
  sts ≠ [] -> parse_initial sts initialText = Continue mu -> wf_initial sts mu = true.
Proof.
  intros Hne. unfold parse_initial, wf_initial.
  destruct (String.eqb (toLowerCase initialText) "uniform").
  - intros [= <-]. set (p := 1 / Q2Qc (inject_Z (Z.of_nat (length sts)))).
    assert (Hn : 0 < Q2Qc (inject_Z (Z.of_nat (length sts)))).
    { apply Qc_of_nat_pos. destruct sts; [done|simpl; lia]. }
    apply andb_true_iff. split.
    + apply forallb_forall. intros s Hs%list_elem_of_In.
      rewrite fold_insert_const_lookup, decide_True by done.
      apply bool_decide_eq_true_2. apply Qc_div_nonneg; [|done].
      apply (bool_decide_unpack _). vm_compute. exact I.
    + apply bool_decide_eq_true_2.
      rewrite (sum_Qc_map_ext _ (fun _ => p)).
      2:{ intros s Hs. by rewrite fold_insert_const_lookup, decide_True. }
      rewrite sum_Qc_const. unfold p.
      replace (Q2Qc (inject_Z (Z.of_nat (length sts))) * (1 / Q2Qc (inject_Z (Z.of_nat (length sts)))))
        with (Q2Qc 1).
      * apply Math_abs_0_le_tolerance.
      * unfold Qcdiv. rewrite Qcmult_1_l, Qcmult_inv_r; [done|].
        intros H0. rewrite H0 in Hn. by apply Qclt_not_eq in Hn.
  - destruct (pfold (add_probability sts) ∅ (prob_matches 0 initialText)) as [mu0|] eqn:Hfold;
      simpl; [|done].
    assert (Hmu0 : ∀ s p, mu0 !! s = Some p -> 0 ≤ p).
    { apply (pfold_preserves (fun mu => ∀ s p, mu !! s = Some p -> 0 ≤ p)
               (add_probability sts) (prob_matches 0 initialText)) with (a := ∅).
      - intros a x a'. apply add_probability_nonneg.
      - done.
      - intros s p. by rewrite lookup_empty. }
    destruct (fill_missing_spec sts mu0 Hmu0) as [Hnn Hall].
    rewrite foldl_sum_map.
    destruct (decide (tolerance_1e6 < Math_abs _)) as [|Hsum]; [done|].
    intros [= <-]. apply andb_true_iff. split.
    + apply forallb_forall. intros s Hs%list_elem_of_In.
      destruct (Hall s Hs) as [p Hp]. rewrite Hp.
      apply bool_decide_eq_true_2. by eapply Hnn.
    + apply bool_decide_eq_true_2. by apply Qcnot_lt_le.
Qed.

(** Every chain definition that the parser returns satisfies the data-model
    invariants. *)
Theorem parseCtmcDSL_valid (text : string) (chain : CtmcDef) :
  parseCtmcDSL text = ParseOk chain -> valid_chain chain = true.
Proof.
  unfold parseCtmcDSL. destruct (String.length (trim text) =? 0)%nat; [done|].
  destruct (parse_body (trim text)) as [c|] eqn:Hbody; [|done]. intros [= ->].
  unfold parse_body in Hbody.
  destruct (pfold scan_line _ _) as [st|]; simpl in Hbody; [|done].
  destruct (length (filter _ _) =? 0)%nat; [done|].
  destruct (pfold add_state _ _) as [sts|] eqn:Hsts; simpl in Hbody; [|done].
  destruct (length sts =? 0)%nat eqn:Hlen; [done|].
  destruct (length (initialLines st) =? 0)%nat; [done|].
  destruct (parse_initial _ _) as [mu|] eqn:Hmu; simpl in Hbody; [|done].
  destruct (pfold (parse_rate_line sts) _ _) as [ts|] eqn:Hts; simpl in Hbody; [|done].
  destruct (section st) as [[]|]; try done. injection Hbody as <-.
  unfold valid_chain. simpl.
  destruct (pfold_add_state _ _ _ Hsts (NoDup_nil_2)) as [Hnd _].
  rewrite bool_decide_eq_true_2 by done.
  rewrite (parse_rates_wf _ _ _ Hts). simpl.
  apply (parse_initial_wf _ _ _) in Hmu; [done|].
  intros ->. simpl in Hlen. done.
Qed.

(** ** The scaling step of matrixExponential *)

Lemma scaling_exponent_bound (norm : Qc) : norm ≤ pow2 (scaling_exponent norm).
Proof.
  unfold scaling_exponent, Math_ceil_log2.
  destruct (decide (norm ≤ 0)) as [Hle|Hpos]; simpl.
  - eapply Qcle_trans; [exact Hle|]. apply Qclt_le_weak, pow2_pos.
  - apply Qcnot_le_lt in Hpos. unfold ceil_log2_pos, pow2.
    destruct norm as [[p q] Hcanon]. qc_unfold. simpl in *.
    assert (Hp : (0 < p)%Z).
    { unfold Qlt in Hpos. simpl in Hpos. lia. }
    unfold Qle. simpl. rewrite Z.mul_1_r.
    destruct (decide (Z.pos q ≤ p)%Z) as [Hqp|Hqp].
    + set (a := ((p + Z.pos q - 1) / Z.pos q)%Z).
      assert (Ha : (p ≤ Z.pos q * a)%Z).
      { pose proof (Z.mul_succ_div_gt (p + Z.pos q - 1) (Z.pos q) ltac:(lia)) as H.
        fold a in H. lia. }
      assert (Ha1 : (1 ≤ a)%Z).
      { unfold a. apply Z.div_le_lower_bound; lia. }
      assert (Hk : (0 ≤ Z.log2_up a)%Z) by apply Z.log2_up_nonneg.
      rewrite Z.max_r by done. rewrite Z2Nat.id by done.
      assert (Hup : (a ≤ 2 ^ Z.log2_up a)%Z).
      { destruct (decide (a = 1%Z)) as [Ha'|Ha']; [by rewrite Ha'|].
        apply Z.log2_up_spec. lia. }
      nia.
    + assert (Hk : (- Z.log2 (Z.pos q / p) ≤ 0)%Z).
      { pose proof (Z.log2_nonneg (Z.pos q / p)). lia. }
      rewrite Z.max_l by done. rewrite Z2Nat.id, Z.pow_0_r by lia. lia.
Qed.

Lemma Math_abs_div (x c : Qc) : 0 < c -> Math_abs (x / c) = Math_abs x / c.
Proof.
  intros Hc. unfold Math_abs.
  assert (Hiff : 0 ≤ x / c ↔ 0 ≤ x).
  { split.
    - intros H. apply (Qcmult_le_compat_r _ _ c) in H; [|by apply Qclt_le_weak].
      rewrite Qc_div_mul in H by done. by rewrite Qcmult_0_l in H.
    - intros H. by apply Qc_div_nonneg. }
  destruct (decide (0 ≤ x / c)) as [H1|H1], (decide (0 ≤ x)) as [H2|H2]; try tauto.
  unfold Qcdiv. ring.
Qed.

Lemma Math_max_div (x y c : Qc) : 0 < c -> Math_max (x / c) (y / c) = Math_max x y / c.
Proof.
  intros Hc. unfold Math_max.
  assert (Hiff : x / c ≤ y / c ↔ x ≤ y).
  { unfold Qcdiv. symmetry. apply Qcmult_le_mono_pos_r. by apply Qcinv_pos. }
  destruct (decide (x / c ≤ y / c)), (decide (x ≤ y)); tauto.
Qed.

Lemma for_each_index_scale_get (n : nat) (c : Qc) (a : list Qc) (j : nat) :
  (j < n)%nat -> get (for_each_index n (fun _ x => x / c) a) j = get a j / c.
Proof.
  intros Hj. destruct (decide (j < length a)%nat) as [Hlt|Hge].
  - by apply for_each_index_get.
  - assert (Hlen : ∀ l b, length (foldl (fun a j => <[j := get a j / c]> a) b l) = length b).
    { induction l as [|i l IH]; intros b; simpl; [done|]. by rewrite IH, length_insert. }
    assert (H1 : for_each_index n (fun _ x => x / c) a !! j = None).
    { apply lookup_ge_None_2. unfold for_each_index. rewrite Hlen. lia. }
    assert (H2 : a !! j = None) by (apply lookup_ge_None_2; lia).
    unfold get. rewrite H1, H2. simpl. unfold Qcdiv. ring.
Qed.

Lemma scale_matrix_get2 (n : nat) (M : list (list Qc)) (c : Qc) (i j : nat) :
  (i < n)%nat -> (j < n)%nat -> get2 (scale_matrix n M c) i j = get2 M i j / c.
Proof.
  intros Hi Hj. unfold scale_matrix.
  assert (G : ∀ l M0, NoDup l ->
    get_row (foldl (fun M i => <[i := for_each_index n (fun _ x => x / c) (get_row M i)]> M) M0 l) i
    = if decide (i ∈ l ∧ (i < length M0)%nat)
      then for_each_index n (fun _ x => x / c) (get_row M0 i) else get_row M0 i).
  { induction l as [|i0 l IH]; intros M0 Hnd; cbn [foldl].
    - destruct (decide _) as [[H _]|]; [by apply elem_of_nil in H|done].
    - apply NoDup_cons in Hnd as [Hi0 Hnd]. rewrite IH by done. rewrite length_insert.
      destruct (decide (i = i0)) as [->|Hne].
      + rewrite (decide_False (P := i0 ∈ l ∧ _)) by tauto.
        destruct (decide (i0 < length M0)%nat).
        * rewrite decide_True by (split; [left|done]).
          unfold get_row at 1. by rewrite list_lookup_insert_eq.
        * rewrite decide_False by tauto. by rewrite list_insert_ge by lia.
      + unfold get_row at 1 3. rewrite list_lookup_insert_ne by done.
        fold (get_row M0 i).
        destruct (decide (i ∈ l ∧ (i < length M0)%nat)) as [[? ?]|Hn].
        * rewrite decide_True; [done|]. split; [by right|done].
        * rewrite decide_False; [done|]. intros [[?|?]%elem_of_cons ?]; tauto. }
  unfold get2. rewrite G by apply NoDup_seq.
  destruct (decide (i ∈ seq 0 n ∧ (i < length M)%nat)) as [_|Hn].
  - by apply for_each_index_scale_get.
  - assert (Hge : ¬ (i < length M)%nat).
    { intros H. apply Hn. split; [|done]. apply elem_of_seq. lia. }
    unfold get_row. rewrite lookup_ge_None_2 by lia. simpl. unfold get. simpl.
    unfold Qcdiv. ring.
Qed.

Lemma inf_norm_scale (n : nat) (M : list (list Qc)) (c : Qc) :
  0 < c -> inf_norm n (scale_matrix n M c) = inf_norm n M / c.
Proof.
  intros Hc. unfold inf_norm.
  assert (Hrow : ∀ i l acc, (i < n)%nat -> (∀ j, j ∈ l -> (j < n)%nat) ->
    foldl (fun rowSum j => rowSum + Math_abs (get2 (scale_matrix n M c) i j)) (acc / c) l
    = foldl (fun rowSum j => rowSum + Math_abs (get2 M i j)) acc l / c).
  { intros i l. induction l as [|j l IH]; intros acc Hi Hl; simpl; [done|].
    rewrite scale_matrix_get2, Math_abs_div by (done || apply Hl; left).
    replace (acc / c + Math_abs (get2 M i j) / c) with ((acc + Math_abs (get2 M i j)) / c)
      by (unfold Qcdiv; ring).
    apply IH; [done|]. intros j' Hj'. apply Hl. by right. }
  assert (Hz : Q2Qc 0 = 0 / c) by (unfold Qcdiv; ring).
  assert (G : ∀ l acc, (∀ i, i ∈ l -> (i < n)%nat) ->
    foldl (fun norm i => Math_max norm
             (foldl (fun rowSum j => rowSum + Math_abs (get2 (scale_matrix n M c) i j)) 0 (seq 0 n)))
          (acc / c) l
    = foldl (fun norm i => Math_max norm
               (foldl (fun rowSum j => rowSum + Math_abs (get2 M i j)) 0 (seq 0 n)))
            acc l / c).
  { induction l as [|i l IH]; intros acc Hl; simpl; [done|].
    rewrite Hz at 1. rewrite Hrow; [|apply Hl; left|intros j Hj%elem_of_seq; lia].
    rewrite Math_max_div by done. apply IH. intros i' Hi'. apply Hl. by right. }
  rewrite Hz at 1. apply G. intros i Hi%elem_of_seq. lia.
Qed.

(** The scaled matrix has infinity norm at most 1 (and exactly 1 when the
    norm of [Qt] is an exact power of two, as [scaled_norm_is_one_at_norm_two]
    shows). *)
Theorem scaled_norm_le_one (n : nat) (Qt : list (list Qc)) :
  inf_norm n (scaled_Qt n Qt) ≤ 1.
Proof.
  unfold scaled_Qt. pose proof (pow2_pos (scaling_exponent (inf_norm n Qt))) as Hpos.
  rewrite inf_norm_scale by done.
  pose proof (scaling_exponent_bound (inf_norm n Qt)) as Hb.
  rewrite <- (Qc_div_self _ Hpos). unfold Qcdiv.
  apply Qcmult_le_compat_r; [done|]. apply Qclt_le_weak. by apply Qcinv_pos.
Qed.

(** ** The jump-chain table of a valid chain *)

Lemma extend_rows_cumul (l : list (string * Qc)) (r : jump_row) :
  (∀ e, e ∈ l -> 0 < snd e) ->
  strictly_increasing (cumul r) -> (∀ c, c ∈ cumul r -> c ≤ totalRate r) ->
  (cumul r ≠ [] -> last (cumul r) = Some (totalRate r)) ->
  strictly_increasing (cumul (foldl extend_row r l))
  ∧ (∀ c, c ∈ cumul (foldl extend_row r l) -> c ≤ totalRate (foldl extend_row r l))
  ∧ (cumul (foldl extend_row r l) ≠ [] ->
     last (cumul (foldl extend_row r l)) = Some (totalRate (foldl extend_row r l))).
Proof.
  revert r. induction l as [|e l IH]; intros r Hpos Hinc Hle Hlast; simpl; [done|].
  assert (He : 0 < snd e) by (apply Hpos; left).
  apply IH.
  - intros e' He'. apply Hpos. by right.
  - simpl. apply strictly_increasing_snoc; [done|].
    intros c Hc. specialize (Hle c Hc). clear -Hle He. qc_lra.
  - simpl. intros c [Hc|Hc]%elem_of_app.
    + specialize (Hle c Hc). clear -Hle He. qc_lra.
    + apply list_elem_of_singleton in Hc as ->. apply Qcle_refl.
  - simpl. intros _. by rewrite last_snoc.
Qed.

(** In exact arithmetic, for every state of a valid chain the table holds
    the targets of the outgoing transitions in their order, the total exit
    rate (the sum of their rates) and strictly increasing cumulative
    thresholds that end at the total exit rate.  (In doubles a rate added
    to a much larger total can leave two consecutive thresholds equal.) *)
Theorem buildJumpMap_row (chain : CtmcDef) (s : string) :
  valid_chain chain = true -> s ∈ states chain ->
  ∃ row, buildJumpMap chain !! s = Some row
    ∧ row_to row = map to (filter (fun t0 => from t0 = s) (transitions chain))
    ∧ totalRate row = sum_Qc (map rate (filter (fun t0 => from t0 = s) (transitions chain)))
    ∧ length (cumul row) = length (row_to row)
    ∧ strictly_increasing (cumul row)
    ∧ (cumul row ≠ [] -> last (cumul row) = Some (totalRate row)).
Proof.
  intros Hv Hs. rewrite buildJumpMap_lookup, decide_True by done.
  eexists. split; [done|].
  pose proof (group_by_from_lookup (transitions chain) s) as Hl.
  set (l := default [] (group_by_from (transitions chain) !! s)) in *.
  destruct (row_of_spec l) as (Hto & Htot & Hlen).
  destruct (extend_rows_cumul l (mkRow 0 [] [])) as (Hinc & _ & Hlast); simpl.
  - intros e He. rewrite Hl in He.
    apply list_elem_of_fmap in He as (t0 & -> & Ht0%list_elem_of_filter). simpl.
    apply (valid_chain_transition chain t0 Hv). tauto.
  - intros i j x y _ Hi. by rewrite lookup_nil in Hi.
  - intros c Hc. by apply elem_of_nil in Hc.
  - done.
  - fold (row_of l) in Hinc, Hlast.
    split; [by rewrite Hto, Hl, map_map|].
    split; [by rewrite Htot, Hl, map_map|].
    split; [by rewrite Hlen, Hto, length_map|].
    split; done.
Qed.

Lemma buildJumpMap_row_witness :
  ∃ row, buildJumpMap two_state_chain !! "A"%string = Some row
    ∧ row_to row = map to (filter (fun t0 => from t0 = "A"%string) (transitions two_state_chain))
    ∧ totalRate row
      = sum_Qc (map rate (filter (fun t0 => from t0 = "A"%string) (transitions two_state_chain)))
    ∧ length (cumul row) = length (row_to row)
    ∧ strictly_increasing (cumul row)
    ∧ (cumul row ≠ [] -> last (cumul row) = Some (totalRate row)).
Proof.
  apply (buildJumpMap_row two_state_chain "A").
  - vm_compute. reflexivity.
  - left.
Defined.

Lemma parseCtmcDSL_valid_witness :
  ∃ chain, parseCtmcDSL scenario_text = ParseOk chain ∧ valid_chain chain = true.
Proof.
  destruct (parseCtmcDSL scenario_text) as [chain|e] eqn:Hparse; [|by vm_compute in Hparse].
  exists chain. split; [reflexivity|]. exact (parseCtmcDSL_valid scenario_text chain Hparse).
Defined.

(** ** The concrete scenario *)

(** The text [States: A, B / Initial distribution: A : 1.0 /
    Rates: A -> B : 1.0, B -> A : 1.0] parses; its generator is
    [[-1, 1], [1, -1]]; the chain is irreducible; its stationary distribution
    is [{A: 1/2, B: 1/2}]; and [matrixExponential] at [t = 20] is within 1e-3
    of [[1/2, 1/2], [1/2, 1/2]]. *)
Theorem concrete_scenario :
  ∃ chain Q pi P,
    parseCtmcDSL scenario_text = ParseOk chain
    ∧ states chain = ["A"; "B"]%string
    ∧ buildRateMatrix chain = Some Q
    ∧ lookup_entry Q "A" "A" = Some (- (1)) ∧ lookup_entry Q "A" "B" = Some 1
    ∧ lookup_entry Q "B" "A" = Some 1 ∧ lookup_entry Q "B" "B" = Some (- (1))
    ∧ isIrreducible 2 chain = Ret true
    ∧ getStationaryDistribution 2 chain = Ret (Some pi)
    ∧ pi !! "A"%string = Some one_half ∧ pi !! "B"%string = Some one_half
    ∧ matrixExponential Q (states chain) twenty = Some P
    ∧ ∀ i j, i ∈ states chain -> j ∈ states chain ->
        Math_abs (entry P i j - one_half) ≤ one_thousandth.
Proof.
  do 4 eexists.
  split; [vm_compute; reflexivity|]. split; [reflexivity|].
  split; [vm_compute; reflexivity|].
  do 4 (split; [apply (bool_decide_unpack _); vm_compute; exact I|]).
  split; [vm_compute; reflexivity|]. split; [vm_compute; reflexivity|].
  do 2 (split; [apply (bool_decide_unpack _); vm_compute; exact I|]).
  split; [vm_compute; reflexivity|].
  intros i j Hi Hj. simpl in Hi, Hj.
  apply elem_of_cons in Hi as [->|Hi]; [|apply list_elem_of_singleton in Hi as ->];
    (apply elem_of_cons in Hj as [->|Hj]; [|apply list_elem_of_singleton in Hj as ->]);
    apply (bool_decide_unpack _); vm_compute; exact I.
Qed.

(** ** Total variation distance *)

Lemma Math_abs_nonneg (x : Qc) : 0 ≤ Math_abs x.
Proof. unfold Math_abs. destruct (decide (0 ≤ x)) as [H|H]; [done|]. qc_lra. Qed.

Lemma Math_abs_sym (x y : Qc) : Math_abs (x - y) = Math_abs (y - x).
Proof. unfold Math_abs. destruct (decide (0 ≤ x - y)), (decide (0 ≤ y - x)); qc_lra. Qed.

Lemma Math_abs_triangle (x y z : Qc) :
  Math_abs (x - z) ≤ Math_abs (x - y) + Math_abs (y - z).
Proof.
  unfold Math_abs.
  destruct (decide (0 ≤ x - z)), (decide (0 ≤ x - y)), (decide (0 ≤ y - z)); qc_lra.
Qed.

Lemma Math_abs_zero_iff (x y : Qc) : Math_abs (x - y) = 0 ↔ x = y.
Proof.
  unfold Math_abs. split.
  - destruct (decide (0 ≤ x - y)); intros H; qc_lra.
  - intros ->. destruct (decide (0 ≤ y - y)); qc_lra.
Qed.

Lemma Math_abs_diff_le (x y : Qc) : 0 ≤ x -> 0 ≤ y -> Math_abs (x - y) ≤ x + y.
Proof. intros Hx Hy. unfold Math_abs. destruct (decide (0 ≤ x - y)); qc_lra. Qed.

Lemma totalVariationDistance_sum (p q : gmap string Qc) (sts : list string) :
  totalVariationDistance p q sts
  = one_half * sum_Qc (map (fun s => Math_abs (default 0 (p !! s) - default 0 (q !! s))) sts).
Proof. unfold totalVariationDistance. by rewrite foldl_sum_map. Qed.

Lemma sum_Qc_map_le {A : Type} (f g : A -> Qc) (l : list A) :
  (∀ x, x ∈ l -> f x ≤ g x) -> sum_Qc (map f l) ≤ sum_Qc (map g l).
Proof.
  induction l as [|x l IH]; intros H; [apply Qcle_refl|]. simpl. rewrite !sum_Qc_cons.
  assert (f x ≤ g x) by (apply H; left).
  assert (sum_Qc (map f l) ≤ sum_Qc (map g l)) by (apply IH; intros; apply H; by right).
  qc_lra.
Qed.

Lemma sum_Qc_map_plus {A : Type} (f g : A -> Qc) (l : list A) :
  sum_Qc (map (fun x => f x + g x) l) = sum_Qc (map f l) + sum_Qc (map g l).
Proof.
  induction l as [|x l IH]; simpl.
  - rewrite sum_Qc_nil. ring.
  - rewrite !sum_Qc_cons, IH. ring.
Qed.

Lemma sum_Qc_zero_iff (l : list Qc) :
  (∀ x, x ∈ l -> 0 ≤ x) -> sum_Qc l = 0 ↔ ∀ x, x ∈ l -> x = 0.
Proof.
  induction l as [|x l IH]; intros Hnn.
  - split; [intros _ x Hx; by apply elem_of_nil in Hx|done].
  - rewrite sum_Qc_cons.
    assert (Hx : 0 ≤ x) by (apply Hnn; left).
    assert (Hl : ∀ y, y ∈ l -> 0 ≤ y) by (intros; apply Hnn; by right).
    pose proof (sum_Qc_nonneg l Hl) as Hs. split.
    + intros Hsum y [->|Hy]%elem_of_cons.
      * clear -Hx Hs Hsum. qc_lra.
      * apply IH; [done| |done]. clear -Hx Hs Hsum. qc_lra.
    + intros Hall. rewrite (Hall x) by left.
      assert (sum_Qc l = 0) as -> by (apply IH; [done|]; intros; apply Hall; by right).
      ring.
Qed.

Lemma half_nonneg (x : Qc) : 0 ≤ x -> 0 ≤ one_half * x.
Proof. intros H. unfold one_half. qc_lra. Qed.

Lemma half_le (x y : Qc) : x ≤ y -> one_half * x ≤ one_half * y.
Proof. intros H. unfold one_half. qc_lra. Qed.

Lemma half_zero_iff (x : Qc) : one_half * x = 0 ↔ x = 0.
Proof. unfold one_half. split; intros H; qc_lra. Qed.

(** The total variation distance is a pseudo-metric on records, for every
    list of states: it is never negative, it is 0 from a record to itself,
    it is symmetric, and it satisfies the triangle inequality. *)
Theorem totalVariationDistance_metric (p q r : gmap string Qc) (sts : list string) :
  0 ≤ totalVariationDistance p q sts
  ∧ totalVariationDistance p p sts = 0
  ∧ totalVariationDistance p q sts = totalVariationDistance q p sts
  ∧ totalVariationDistance p r sts
    ≤ totalVariationDistance p q sts + totalVariationDistance q r sts.
Proof.
  rewrite !totalVariationDistance_sum. repeat split.
  - apply half_nonneg, sum_Qc_nonneg.
    intros x (s & -> & _)%list_elem_of_fmap. apply Math_abs_nonneg.
  - rewrite (sum_Qc_map_ext _ (fun _ => 0)).
    + rewrite sum_Qc_zeros. ring.
    + intros s _. by apply Math_abs_zero_iff.
  - f_equal. apply sum_Qc_map_ext. intros s _. apply Math_abs_sym.
  - rewrite <- Qcmult_plus_distr_r, <- sum_Qc_map_plus.
    apply half_le, sum_Qc_map_le. intros s _. apply Math_abs_triangle.
Qed.

(** The distance is 0 exactly when the two records agree on every listed
    state, a missing key counting as 0. *)
Theorem totalVariationDistance_zero_iff (p q : gmap string Qc) (sts : list string) :
  totalVariationDistance p q sts = 0
  ↔ ∀ s, s ∈ sts -> default 0 (p !! s) = default 0 (q !! s).
Proof.
  rewrite totalVariationDistance_sum.
  rewrite half_zero_iff, sum_Qc_zero_iff.
  - split.
    + intros H s Hs. apply Math_abs_zero_iff. apply H. apply list_elem_of_fmap. eauto.
    + intros H x (s & -> & Hs)%list_elem_of_fmap. apply Math_abs_zero_iff. by apply H.
  - intros x (s & -> & _)%list_elem_of_fmap. apply Math_abs_nonneg.
Qed.




(** ** matrixExponential returns a full matrix *)

Lemma times_t_defined (Q : gmap string (gmap string Qc)) (sts : list string) (time : Qc) :
  (∀ i j, i ∈ sts -> j ∈ sts -> is_Some (lookup_entry Q i j)) ->
  is_Some (times_t Q sts time).
Proof.
  intros Hdef. exists (map (fun i => map (fun j => entry Q i j * time) sts) sts).
  unfold times_t. apply mapM_pointwise. intros i Hi.
  apply mapM_pointwise. intros j Hj.
  rewrite entry_lookup_entry. destruct (Hdef i j Hi Hj) as [x ->]. done.
Qed.

Lemma fold_insert_lookup_in {V : Type} (f : nat -> V) (l : list (nat * string))
    (m0 : gmap string V) (s : string) :
  s ∈ l.*2 -> ∃ i, foldl (fun m '(i, s) => <[s := f i]> m) m0 l !! s = Some (f i).
Proof.
  revert m0. induction l as [|[i' s'] l IH]; intros m0 Hin; simpl in *.
  - by apply elem_of_nil in Hin.
  - destruct (decide (s ∈ l.*2)) as [Hl|Hl]; [by apply IH|].
    apply elem_of_cons in Hin as [->|?]; [|done].
    exists i'. rewrite fold_insert_lookup_notin by done. by rewrite lookup_insert_eq.
Qed.

Lemma fold_insert_lookup_None {V : Type} (f : nat -> V) (l : list (nat * string))
    (s : string) :
  s ∉ l.*2 -> foldl (fun m '(i, s) => <[s := f i]> m) (∅ : gmap string V) l !! s = None.
Proof. intros H. by rewrite fold_insert_lookup_notin. Qed.

Lemma to_record_defined (sts : list string) (R : list (list Qc)) (si sj : string) :
  is_Some (lookup_entry (to_record sts R) si sj) ↔ si ∈ sts ∧ sj ∈ sts.
Proof.
  unfold lookup_entry, to_record. split.
  - intros [x Hx].
    destruct (decide (si ∈ sts)) as [Hi|Hi].
    + split; [done|].
      destruct (fold_insert_lookup_in
                  (fun i => foldl (fun row '(j, sj) => <[sj := get2 R i j]> row)
                                  (∅ : gmap string Qc) (imap pair sts))
                  (imap pair sts) ∅ si) as [i Hrow]; [by rewrite imap_pair_snd|].
      rewrite Hrow in Hx. simpl in Hx.
      destruct (decide (sj ∈ sts)) as [|Hj]; [done|].
      rewrite fold_insert_lookup_None in Hx; [done|by rewrite imap_pair_snd].
    + rewrite fold_insert_lookup_None in Hx; [done|by rewrite imap_pair_snd].
  - intros [Hi Hj].
    destruct (fold_insert_lookup_in
                (fun i => foldl (fun row '(j, sj) => <[sj := get2 R i j]> row)
                                (∅ : gmap string Qc) (imap pair sts))
                (imap pair sts) ∅ si) as [i ->]; [by rewrite imap_pair_snd|].
    simpl.
    destruct (fold_insert_lookup_in (fun j => get2 R i j) (imap pair sts) ∅ sj) as [j ->];
      [by rewrite imap_pair_snd|]. eauto.
Qed.

Lemma matrixExponential_entries_defined (Q : gmap string (gmap string Qc))
    (sts : list string) (time : Qc) :
  (∀ i j, i ∈ sts -> j ∈ sts -> is_Some (lookup_entry Q i j)) ->
  ∃ P, matrixExponential Q sts time = Some P
    ∧ ∀ i j, is_Some (lookup_entry P i j) ↔ i ∈ sts ∧ j ∈ sts.
Proof.
  intros Hdef. unfold matrixExponential.
  destruct (decide (length sts = 0%nat)) as [Hn|Hn].
  - exists ∅. split; [done|]. intros i j. apply length_zero_iff_nil in Hn as ->.
    unfold lookup_entry. rewrite lookup_empty. simpl. split.
    + by intros [? ?].
    + intros [H _]. by apply elem_of_nil in H.
  - destruct (times_t_defined Q sts time Hdef) as [Qt ->].
    eexists. split; [done|]. intros i j. apply to_record_defined.
Qed.

(** For the generator of a valid chain and every time [t],
    [matrixExponential] returns a matrix (no read of an undefined row, no
    missing entry) that has an entry exactly for the pairs of states of the
    chain. *)
Theorem matrixExponential_full_matrix (chain : CtmcDef) (Q : gmap string (gmap string Qc))
    (time : Qc) :
  valid_chain chain = true -> buildRateMatrix chain = Some Q ->
  ∃ P, matrixExponential Q (states chain) time = Some P
    ∧ ∀ i j, is_Some (lookup_entry P i j) ↔ i ∈ states chain ∧ j ∈ states chain.
Proof.
  intros Hv HQ. apply matrixExponential_entries_defined.
  intros i j Hi Hj. by eapply buildRateMatrix_entries_defined.
Qed.

Lemma matrixExponential_full_matrix_witness :
  ∃ Q P, buildRateMatrix two_state_chain = Some Q
    ∧ matrixExponential Q (states two_state_chain) twenty = Some P
    ∧ ∀ i j, is_Some (lookup_entry P i j)
             ↔ i ∈ states two_state_chain ∧ j ∈ states two_state_chain.
Proof.
  destruct (buildRateMatrix two_state_chain) as [Q|] eqn:HQ; [|by vm_compute in HQ].
  exists Q.
  destruct (matrixExponential_full_matrix two_state_chain Q twenty) as (P & HP & Hent);
    [vm_compute; reflexivity|exact HQ|].
  exists P. split; [reflexivity|]. split; [exact HP|exact Hent].
Defined.

(** ** computeDistributionOverTime *)

Lemma distribution_at_spec (mu : gmap string Qc) (P : gmap string (gmap string Qc))
    (sts : list string) (to_ : string) :
  (∀ from_, from_ ∈ sts -> is_Some (lookup_entry P from_ to_)) ->
  distribution_at mu P sts to_ = Some (carried mu P sts to_).
Proof.
  intros Hdef. unfold distribution_at, carried.
  assert (G : ∀ a : Qc,
    fold_option (fun prob from_ =>
                   (fun x => prob + default 0 (mu !! from_) * x) <$> lookup_entry P from_ to_)
                a sts
    = Some (a + sum_Qc (map (fun from_ => default 0 (mu !! from_) * entry P from_ to_) sts))).
  { induction sts as [|s l IH]; intros a; simpl.
    - rewrite sum_Qc_nil. f_equal. ring.
    - rewrite entry_lookup_entry. destruct (Hdef s) as [x ->]; [left|]. simpl.
      rewrite IH by (intros; apply Hdef; by right). rewrite sum_Qc_cons. f_equal. ring. }
  rewrite G. f_equal. ring.
Qed.

(** The inner loop over the target states. *)
Lemma record_distributions_spec (mu : gmap string Qc) (P : gmap string (gmap string Qc))
    (sts : list string) (idx : nat) (l : list string) (d : gmap string (list Qc)) :
  (∀ s, s ∈ l -> is_Some (d !! s)) ->
  (∀ s, s ∈ l -> ∀ from_, from_ ∈ sts -> is_Some (lookup_entry P from_ s)) ->
  ∃ d', fold_option (record_distribution mu P sts idx) d l = Some d'
    ∧ ∀ s, d' !! s = if decide (s ∈ l) then (fun row => <[idx := carried mu P sts s]> row) <$> d !! s
                     else d !! s.
Proof.
  revert d. induction l as [|x l IH]; intros d Hrows Hdef; cbn [fold_option].
  - exists d. split; [done|]. intros s.
    destruct (decide (s ∈ [])) as [H|]; [by apply elem_of_nil in H|done].
  - destruct (Hrows x) as [row Hrow]; [left|].
    assert (record_distribution mu P sts idx d x
            = Some (<[x := <[idx := carried mu P sts x]> row]> d)) as ->.
    { unfold record_distribution.
      rewrite distribution_at_spec by (apply Hdef; left). simpl. by rewrite Hrow. }
    cbn [mbind option_bind].
    destruct (IH (<[x := <[idx := carried mu P sts x]> row]> d)) as (d' & -> & Hd').
    { intros s Hs. destruct (decide (s = x)) as [->|Hne].
      - rewrite lookup_insert_eq. eauto.
      - rewrite lookup_insert_ne by done. apply Hrows. by right. }
    { intros s Hs. apply Hdef. by right. }
    exists d'. split; [done|]. intros s. rewrite Hd'.
    destruct (decide (s = x)) as [->|Hne].
    + rewrite lookup_insert_eq, Hrow. rewrite (decide_True (P := x ∈ x :: l)) by left.
      simpl. destruct (decide (x ∈ l)); simpl; [|done].
      by rewrite list_insert_insert_eq.
    + rewrite lookup_insert_ne by done.
      destruct (decide (s ∈ l)) as [Hin|Hin].
      * rewrite (decide_True (P := s ∈ x :: l)) by (by right). done.
      * rewrite (decide_False (P := s ∈ x :: l)); [done|].
        by intros [?|?]%elem_of_cons.
Qed.

Lemma zero_distributions_lookup (n : nat) (sts : list string) (s : string) :
  foldl (fun d s => <[s := replicate n 0]> d) (∅ : gmap string (list Qc)) sts !! s
  = if decide (s ∈ sts) then Some (replicate n 0) else None.
Proof.
  assert (G : ∀ m : gmap string (list Qc),
    foldl (fun d s => <[s := replicate n 0]> d) m sts !! s
    = if decide (s ∈ sts) then Some (replicate n 0) else m !! s).
  { induction sts as [|s0 l IH]; intros m; simpl.
    - destruct (decide (s ∈ [])) as [H|]; [by apply elem_of_nil in H|done].
    - rewrite IH. destruct (decide (s ∈ l)) as [Hin|Hin].
      + rewrite decide_True; [done|by right].
      + destruct (decide (s = s0)) as [->|Hne].
        * rewrite decide_True by left. by rewrite lookup_insert_eq.
        * rewrite decide_False by (by intros [?|?]%elem_of_cons).
          by rewrite lookup_insert_ne. }
  rewrite G. by destruct (decide _).
Qed.

(** The outer loop over the time points: the cells of the indices it visits
    hold the carried distribution, the other cells are untouched, and the
    rows keep their length. *)
Lemma distribution_steps_spec (chain : CtmcDef) (Q : gmap string (gmap string Qc)) (n : nat)
    (val : string -> nat -> Qc) (l : list (nat * Qc)) (d : gmap string (list Qc)) :
  (∀ i j, i ∈ states chain -> j ∈ states chain -> is_Some (lookup_entry Q i j)) ->
  (∀ s, s ∈ states chain -> ∃ row, d !! s = Some row ∧ length row = n) ->
  (∀ idx time, (idx, time) ∈ l ->
     (idx < n)%nat
     ∧ ∀ P, matrixExponential Q (states chain) time = Some P ->
            ∀ s, s ∈ states chain ->
              carried (initialDistribution chain) P (states chain) s = val s idx) ->
  ∃ d', fold_option (distribution_step chain Q) d l = Some d'
    ∧ ∀ s, s ∈ states chain ->
        ∃ row row', d !! s = Some row ∧ d' !! s = Some row' ∧ length row' = n
          ∧ ∀ idx, row' !! idx = if decide (idx ∈ l.*1) then Some (val s idx) else row !! idx.
Proof.
  intros HQ. revert d.
  induction l as [|[idx time] l IH]; intros d Hrows Hval; cbn [fold_option fmap list_fmap].
  - exists d. split; [done|]. intros s Hs. destruct (Hrows s Hs) as (row & Hrow & Hlen).
    exists row, row. by repeat split.
  - destruct (matrixExponential_entries_defined Q (states chain) time HQ) as (P & HP & HPdef).
    destruct (Hval idx time) as [Hidx HvalP]; [left|].
    destruct (record_distributions_spec (initialDistribution chain) P (states chain) idx
                (states chain) d) as (d1 & Hstep & Hd1).
    { intros s Hs. destruct (Hrows s Hs) as (row & -> & _). eauto. }
    { intros s Hs from_ Hfrom. by apply HPdef. }
    assert (distribution_step chain Q d (idx, time) = Some d1) as ->.
    { unfold distribution_step. simpl. rewrite HP. simpl. done. }
    cbn [mbind option_bind].
    destruct (IH d1) as (d' & -> & Hd').
    { intros s Hs. rewrite Hd1, decide_True by done.
      destruct (Hrows s Hs) as (row & -> & Hlen). simpl.
      eexists. split; [done|]. by rewrite length_insert. }
    { intros idx' time' Hin. apply Hval. by right. }
    exists d'. split; [done|]. intros s Hs.
    destruct (Hd' s Hs) as (row1 & row' & Hrow1 & Hrow' & Hlen' & Hcells).
    destruct (Hrows s Hs) as (row & Hrow & Hlen).
    rewrite Hd1, decide_True, Hrow in Hrow1 by done. simpl in Hrow1.
    injection Hrow1 as <-.
    exists row, row'. repeat split; try done. intros idx'. rewrite Hcells.
    destruct (decide (idx' = idx)) as [->|Hne].
    + rewrite (decide_True (P := idx ∈ idx :: l.*1)) by left.
      rewrite list_lookup_insert_eq by lia. rewrite (HvalP P HP s Hs).
      by destruct (decide (idx ∈ l.*1)).
    + rewrite list_lookup_insert_ne by done.
      destruct (decide (idx' ∈ l.*1)) as [Hin|Hin].
      * rewrite (decide_True (P := idx' ∈ idx :: l.*1)) by (by right). done.
      * rewrite (decide_False (P := idx' ∈ idx :: l.*1)); [done|].
        by intros [?|?]%elem_of_cons.
Qed.

Lemma elem_of_imap_pair {A : Type} (l : list A) (i : nat) (x : A) :
  (i, x) ∈ imap pair l ↔ l !! i = Some x.
Proof.
  split.
  - intros (j & Hj)%list_elem_of_lookup. rewrite list_lookup_imap in Hj.
    destruct (l !! j) eqn:E; simpl in Hj; [|done]. by injection Hj as -> ->.
  - intros H. apply (list_elem_of_lookup_2 _ i). by rewrite list_lookup_imap, H.
Qed.

Lemma imap_pair_fst {A : Type} (l : list A) (i : nat) :
  i ∈ (imap pair l).*1 ↔ (i < length l)%nat.
Proof.
  split.
  - intros ([j x] & -> & Hin)%list_elem_of_fmap. apply elem_of_imap_pair in Hin.
    simpl. by eapply lookup_lt_Some.
  - intros Hlt. destruct (lookup_lt_is_Some_2 l i Hlt) as [x Hx].
    apply list_elem_of_fmap. exists (i, x). split; [done|]. by apply elem_of_imap_pair.
Qed.

(** What the function computes, for a generator with all its entries. *)
Lemma computeDistributionOverTime_cells (chain : CtmcDef) (Q : gmap string (gmap string Qc))
    (timePoints : list Qc) :
  buildRateMatrix chain = Some Q ->
  (∀ i j, i ∈ states chain -> j ∈ states chain -> is_Some (lookup_entry Q i j)) ->
  ∃ d, computeDistributionOverTime chain timePoints = Some (mkDistributions timePoints d)
    ∧ ∀ s, s ∈ states chain ->
        ∃ row, d !! s = Some row ∧ length row = length timePoints
          ∧ ∀ idx time, timePoints !! idx = Some time ->
              ∃ P, matrixExponential Q (states chain) time = Some P
                ∧ row !! idx
                  = Some (carried (initialDistribution chain) P (states chain) s).
Proof.
  intros HQ Hdef. unfold computeDistributionOverTime. rewrite HQ. simpl.
  set (val := fun (s : string) (idx : nat) =>
    match timePoints !! idx ≫= matrixExponential Q (states chain) with
    | Some P => carried (initialDistribution chain) P (states chain) s
    | None => 0
    end).
  destruct (distribution_steps_spec chain Q (length timePoints) val (imap pair timePoints)
              (foldl (fun d s => <[s := replicate (length timePoints) 0]> d) ∅ (states chain)))
    as (d & -> & Hd).
  - done.
  - intros s Hs. rewrite zero_distributions_lookup, decide_True by done.
    eexists. split; [done|]. by rewrite length_replicate.
  - intros idx time Hin%elem_of_imap_pair. split; [by eapply lookup_lt_Some|].
    intros P HP s Hs. unfold val. rewrite Hin. simpl. by rewrite HP.
  - simpl. exists d. split; [done|]. intros s Hs.
    destruct (Hd s Hs) as (row & row' & _ & Hrow' & Hlen & Hcells).
    exists row'. repeat split; try done. intros idx time Hidx.
    destruct (matrixExponential_entries_defined Q (states chain) time Hdef) as (P & HP & _).
    exists P. split; [done|]. rewrite Hcells, decide_True.
    + unfold val. rewrite Hidx. simpl. by rewrite HP.
    + apply imap_pair_fst. by eapply lookup_lt_Some.
Qed.

(** For a valid chain and every list of time points,
    [computeDistributionOverTime] returns (it reads no undefined row) the
    time points unchanged and, for every state [s], an array with one cell
    per time point; the cell of time [t] is the sum over the states [from]
    of [initialDistribution[from]] times the entry [(from, s)] of
    [matrixExponential(Q, states, t)], where [Q] is the rate matrix. *)
Theorem computeDistributionOverTime_spec (chain : CtmcDef) (timePoints : list Qc) :
  valid_chain chain = true ->
  ∃ Q res, buildRateMatrix chain = Some Q
    ∧ computeDistributionOverTime chain timePoints = Some res
    ∧ distribution_t res = timePoints
    ∧ ∀ s, s ∈ states chain ->
        ∃ row, distributions res !! s = Some row ∧ length row = length timePoints
          ∧ ∀ idx time, timePoints !! idx = Some time ->
              ∃ P, matrixExponential Q (states chain) time = Some P
                ∧ row !! idx
                  = Some (carried (initialDistribution chain) P (states chain) s).
Proof.
  intros Hv. destruct (buildRateMatrix_spec chain Hv) as (Q & HQ & _).
  destruct (computeDistributionOverTime_cells chain Q timePoints HQ) as (d & Hres & Hd).
  { intros i j Hi Hj. by eapply buildRateMatrix_entries_defined. }
  exists Q, (mkDistributions timePoints d). by repeat split.
Qed.

Lemma computeDistributionOverTime_spec_witness :
  ∃ Q res, buildRateMatrix two_state_chain = Some Q
    ∧ computeDistributionOverTime two_state_chain [0; 1] = Some res
    ∧ distribution_t res = [0; 1]
    ∧ ∀ s, s ∈ states two_state_chain ->
        ∃ row, distributions res !! s = Some row ∧ length row = length [0; 1]
          ∧ ∀ idx time, [0; 1] !! idx = Some time ->
              ∃ P, matrixExponential Q (states two_state_chain) time = Some P
                ∧ row !! idx
                  = Some (carried (initialDistribution two_state_chain) P
                            (states two_state_chain) s).
Proof.
  apply (computeDistributionOverTime_spec two_state_chain [0; 1]).
  vm_compute. reflexivity.
Defined.

Lemma carried_identity (mu : gmap string Qc) (P : gmap string (gmap string Qc))
    (sts : list string) (s : string) :
  NoDup sts -> s ∈ sts ->
  (∀ i j, i ∈ sts -> j ∈ sts -> lookup_entry P i j = Some (if decide (i = j) then 1 else 0)) ->
  carried mu P sts s = default 0 (mu !! s).
Proof.
  intros Hnd Hs HP. unfold carried.
  rewrite (sum_Qc_split_NoDup _ sts s Hnd Hs).
  rewrite entry_lookup_entry, HP, decide_True by done. simpl.
  rewrite (sum_Qc_map_ext _ (fun _ => 0)).
  - rewrite sum_Qc_zeros. ring.
  - intros j [Hne Hj]%list_elem_of_filter.
    rewrite entry_lookup_entry, HP, decide_False by done. simpl. ring.
Qed.

(** At a time point equal to 0 the computed distribution is the initial
    distribution: for a valid chain, the cell of every state [s] at such an
    index holds [initialDistribution[s]]. *)
Theorem computeDistributionOverTime_at_zero (chain : CtmcDef) (timePoints : list Qc)
    (idx : nat) :
  valid_chain chain = true -> timePoints !! idx = Some 0 ->
  ∃ res, computeDistributionOverTime chain timePoints = Some res
    ∧ ∀ s, s ∈ states chain ->
        ∃ row, distributions res !! s = Some row
          ∧ row !! idx = initialDistribution chain !! s.
Proof.
  intros Hv Hidx. destruct (buildRateMatrix_spec chain Hv) as (Q & HQ & _).
  assert (Hdef : ∀ i j, i ∈ states chain -> j ∈ states chain -> is_Some (lookup_entry Q i j)).
  { intros i j Hi Hj. by eapply buildRateMatrix_entries_defined. }
  destruct (computeDistributionOverTime_cells chain Q timePoints HQ Hdef) as (d & Hres & Hd).
  eexists. split; [done|]. simpl. intros s Hs.
  destruct (Hd s Hs) as (row & Hrow & _ & Hcells). exists row. split; [done|].
  destruct (Hcells idx 0 Hidx) as (P & HP & ->).
  destruct (matrixExponential_zero_entries Q (states chain)) as (P0 & HP0 & Hent);
    [by apply valid_chain_NoDup|by apply valid_chain_states_nonempty|done|].
  assert (P0 = P) as -> by congruence.
  rewrite (carried_identity _ _ _ s) by (done || by apply valid_chain_NoDup).
  assert (Hmu : is_Some (initialDistribution chain !! s)).
  { unfold valid_chain in Hv. rewrite !andb_true_iff in Hv. destruct Hv as [_ Hinit].
    unfold wf_initial in Hinit. rewrite andb_true_iff in Hinit. destruct Hinit as [Hall _].
    rewrite forallb_forall in Hall. specialize (Hall s).
    destruct (initialDistribution chain !! s); [eauto|].
    assert (false = true) by (apply Hall; by apply list_elem_of_In). done. }
  destruct Hmu as [x ->]. done.
Qed.

Lemma computeDistributionOverTime_at_zero_witness :
  ∃ res, computeDistributionOverTime two_state_chain [1; 0] = Some res
    ∧ ∀ s, s ∈ states two_state_chain ->
        ∃ row, distributions res !! s = Some row
          ∧ row !! 1%nat = initialDistribution two_state_chain !! s.
Proof.
  apply (computeDistributionOverTime_at_zero two_state_chain [1; 0] 1).
  - vm_compute. reflexivity.
  - reflexivity.
Defined.

(** ** buildRateMatrix: errors, self-loops, signs *)

Lemma add_rate_rows (Q Q' : gmap string (gmap string Qc)) (t0 : CtmcTransition) (i : string) :
  add_rate Q t0 = Some Q' -> Q' !! i = None ↔ Q !! i = None.
Proof.
  unfold add_rate. destruct (Q !! from t0) as [row|] eqn:Hrow; [|done].
  intros [= <-]. destruct (decide (i = from t0)) as [->|Hne].
  - rewrite lookup_insert_eq, Hrow. done.
  - by rewrite lookup_insert_ne.
Qed.

Lemma add_rates_rows (ts : list CtmcTransition) (Q Q' : gmap string (gmap string Qc))
    (i : string) :
  add_rates Q ts = Some Q' -> Q' !! i = None ↔ Q !! i = None.
Proof.
  revert Q. induction ts as [|t0 ts IH]; intros Q; simpl.
  - by intros [= <-].
  - destruct (add_rate Q t0) as [Q1|] eqn:HQ1; [|done]. intros HQ'.
    rewrite (IH Q1 HQ'). by eapply add_rate_rows.
Qed.

Lemma add_rates_None (ts : list CtmcTransition) (Q : gmap string (gmap string Qc)) :
  add_rates Q ts = None ↔ ∃ t0, t0 ∈ ts ∧ Q !! from t0 = None.
Proof.
  revert Q. induction ts as [|t0 ts IH]; intros Q; simpl.
  - split; [done|]. intros (t0 & H & _). by apply elem_of_nil in H.
  - destruct (add_rate Q t0) as [Q1|] eqn:HQ1.
    + rewrite IH. split.
      * intros (t1 & Ht1 & Hnone). exists t1. split; [by right|].
        by apply (add_rate_rows Q Q1 t0 (from t1) HQ1).
      * intros (t1 & [->|Ht1]%elem_of_cons & Hnone).
        -- unfold add_rate in HQ1. by rewrite Hnone in HQ1.
        -- exists t1. split; [done|]. by apply (add_rate_rows Q Q1 t0 (from t1) HQ1).
    + split; [|done]. intros _. exists t0. split; [left|].
      unfold add_rate in HQ1. by destruct (Q !! from t0).
Qed.

(** [buildRateMatrix] throws (a TypeError on [Q[t.from][t.to]]) exactly when
    some transition leaves a state that is not in the list of states; a
    transition into an undeclared state does not make it throw.  (The
    undeclared name is taken not to be an inherited property name of a
    JavaScript object, for which [Q[t.from]] is defined.) *)
Theorem buildRateMatrix_throws_iff (chain : CtmcDef) :
  buildRateMatrix chain = None
  ↔ ∃ t0, t0 ∈ transitions chain ∧ from t0 ∉ states chain.
Proof.
  unfold buildRateMatrix.
  destruct (add_rates (zero_matrix (states chain)) (transitions chain)) as [Q|] eqn:HQ.
  - split; [done|]. intros (t0 & Ht0 & Hfrom).
    assert (add_rates (zero_matrix (states chain)) (transitions chain) = None); [|congruence].
    apply add_rates_None. exists t0. split; [done|].
    by rewrite zero_matrix_lookup, decide_False.
  - split; [|done]. intros _. apply add_rates_None in HQ as (t0 & Ht0 & Hnone).
    exists t0. split; [done|]. rewrite zero_matrix_lookup in Hnone.
    by destruct (decide (from t0 ∈ states chain)).
Qed.

Lemma set_diagonals_rows (sts done_ : list string) (Q : gmap string (gmap string Qc))
    (i : string) :
  (∀ s, s ∈ done_ -> is_Some (Q !! s)) ->
  foldl (set_diagonal sts) Q done_ !! i = None ↔ Q !! i = None.
Proof.
  revert Q. induction done_ as [|s l IH]; intros Q Hdef; simpl; [done|].
  assert (Hstep : ∀ s', set_diagonal sts Q s !! s' = None ↔ Q !! s' = None).
  { intros s'. unfold set_diagonal. destruct (decide (s' = s)) as [->|Hne].
    - rewrite lookup_insert_eq. destruct (Hdef s) as [r ->]; [left|]. done.
    - by rewrite lookup_insert_ne. }
  rewrite IH; [apply Hstep|].
  intros s' Hs'. apply not_eq_None_Some. rewrite Hstep. apply not_eq_None_Some.
  apply Hdef. by right.
Qed.

(** The generator of a chain whose transitions connect listed states,
    self-loops allowed, entry by entry over all keys. *)
Lemma buildRateMatrix_lookup (chain : CtmcDef) :
  (∀ t0, t0 ∈ transitions chain -> from t0 ∈ states chain ∧ to t0 ∈ states chain) ->
  ∃ Q, buildRateMatrix chain = Some Q
    ∧ (∀ i, Q !! i = None ↔ i ∉ states chain)
    ∧ ∀ i j, lookup_entry Q i j
        = if decide (i ∈ states chain ∧ j ∈ states chain)
          then Some (if decide (i = j)
                     then - sum_Qc (map (rate_between (transitions chain) i)
                                        (filter (fun k => k ≠ i) (states chain)))
                     else rate_between (transitions chain) i j)
          else None.
Proof.
  intros Hts. unfold buildRateMatrix.
  destruct (add_rates_entry (transitions chain) (zero_matrix (states chain)))
    as (Q1 & HQ1 & Hent).
  { intros t0 Ht0. destruct (Hts t0 Ht0). rewrite zero_matrix_entry by done. eauto. }
  rewrite HQ1. eexists. split; [done|].
  assert (Hrows1 : ∀ i, Q1 !! i = None ↔ i ∉ states chain).
  { intros i. rewrite (add_rates_rows _ _ _ i HQ1), zero_matrix_lookup.
    destruct (decide (i ∈ states chain)); split; done. }
  assert (Hdef1 : ∀ s, s ∈ states chain -> is_Some (Q1 !! s)).
  { intros s Hs. apply not_eq_None_Some. rewrite Hrows1. tauto. }
  split.
  { intros i. by rewrite set_diagonals_rows. }
  assert (Hent1 : ∀ i j, lookup_entry Q1 i j
    = if decide (i ∈ states chain ∧ j ∈ states chain)
      then Some (rate_between (transitions chain) i j) else None).
  { intros i j. rewrite Hent. unfold lookup_entry at 1.
    rewrite zero_matrix_lookup.
    destruct (decide (i ∈ states chain)) as [Hi|Hi]; simpl.
    - rewrite zero_row_lookup. destruct (decide (j ∈ states chain)) as [Hj|Hj]; simpl.
      + rewrite decide_True by done. f_equal. ring.
      + rewrite decide_False by tauto. done.
    - rewrite decide_False by tauto. done. }
  intros i j. rewrite set_diagonals_entry by done.
  destruct (decide (i = j ∧ i ∈ states chain)) as [[<- Hi]|Hn].
  - rewrite decide_True by done. rewrite decide_True by done.
    rewrite off_diagonal_sum_filter. do 3 f_equal.
    apply map_ext_in. intros k Hk%list_elem_of_In.
    apply list_elem_of_filter in Hk as [_ Hk].
    rewrite entry_lookup_entry, Hent1, decide_True by done. done.
  - rewrite Hent1. destruct (decide (i ∈ states chain ∧ j ∈ states chain)) as [[Hi Hj]|]; [|done].
    rewrite decide_False; [done|]. intros ->. tauto.
Qed.

Lemma rate_between_without_self_loops (ts : list CtmcTransition) (i j : string) :
  i ≠ j -> rate_between (filter (fun t0 => from t0 ≠ to t0) ts) i j = rate_between ts i j.
Proof.
  intros Hij. induction ts as [|t0 ts IH]; [done|].
  rewrite filter_cons. destruct (decide (from t0 ≠ to t0)) as [Hne|Heq].
  - by rewrite !rate_between_cons, IH.
  - rewrite rate_between_cons, IH. rewrite decide_False; [ring|].
    intros [<- <-]. done.
Qed.

Lemma generator_eq (Q Q' : gmap string (gmap string Qc)) :
  (∀ i, Q !! i = None ↔ Q' !! i = None) ->
  (∀ i j, lookup_entry Q i j = lookup_entry Q' i j) -> Q = Q'.
Proof.
  intros Hrows Hent. apply map_eq. intros i.
  destruct (Q !! i) as [r|] eqn:Hr, (Q' !! i) as [r'|] eqn:Hr'.
  - f_equal. apply map_eq. intros j. specialize (Hent i j).
    unfold lookup_entry in Hent. by rewrite Hr, Hr' in Hent.
  - by apply Hrows in Hr'; rewrite Hr' in Hr.
  - by apply Hrows in Hr; rewrite Hr in Hr'.
  - done.
Qed.

(** Self-loops never enter the generator: for a chain whose transitions
    connect listed states, [buildRateMatrix] returns the very matrix it
    returns for the chain with the self-loops removed -- the third loop
    overwrites every diagonal entry. *)
Theorem buildRateMatrix_ignores_self_loops (chain : CtmcDef) :
  (∀ t0, t0 ∈ transitions chain -> from t0 ∈ states chain ∧ to t0 ∈ states chain) ->
  ∃ Q, buildRateMatrix chain = Some Q
    ∧ buildRateMatrix (without_self_loops chain) = Some Q.
Proof.
  intros Hts.
  destruct (buildRateMatrix_lookup chain Hts) as (Q & HQ & Hrows & Hent).
  destruct (buildRateMatrix_lookup (without_self_loops chain)) as (Q' & HQ' & Hrows' & Hent').
  { simpl. intros t0 [_ Ht0]%list_elem_of_filter. by apply Hts. }
  simpl in *. exists Q. split; [done|]. rewrite HQ'. f_equal. symmetry.
  apply generator_eq.
  - intros i. by rewrite Hrows, Hrows'.
  - intros i j. rewrite Hent, Hent'.
    destruct (decide (i ∈ states chain ∧ j ∈ states chain)); [|done]. f_equal.
    destruct (decide (i = j)) as [<-|Hij].
    + do 2 f_equal. apply map_ext_in. intros k Hk%list_elem_of_In.
      apply list_elem_of_filter in Hk as [Hk _].
      symmetry. apply rate_between_without_self_loops. by intros ->.
    + symmetry. by apply rate_between_without_self_loops.
Qed.

Lemma buildRateMatrix_ignores_self_loops_witness :
  ∃ Q, buildRateMatrix (mkCtmc ["A"; "B"]%string ∅
                          [mkTransition "A" "A" 1; mkTransition "A" "B" 1]) = Some Q
    ∧ buildRateMatrix (without_self_loops
                         (mkCtmc ["A"; "B"]%string ∅
                            [mkTransition "A" "A" 1; mkTransition "A" "B" 1])) = Some Q.
Proof.
  apply (buildRateMatrix_ignores_self_loops
           (mkCtmc ["A"; "B"]%string ∅ [mkTransition "A" "A" 1; mkTransition "A" "B" 1])).
  intros t0 Ht0. simpl in Ht0.
  apply elem_of_cons in Ht0 as [->|Ht0]; [|apply elem_of_cons in Ht0 as [->|Ht0]];
    [| |by apply elem_of_nil in Ht0]; simpl; split; apply (bool_decide_unpack _); vm_compute; exact I.
Defined.

Lemma rate_between_nonneg (chain : CtmcDef) (i j : string) :
  valid_chain chain = true -> 0 ≤ rate_between (transitions chain) i j.
Proof.
  intros Hv. apply sum_Qc_nonneg. intros x (t0 & -> & Ht0)%list_elem_of_fmap.
  apply list_elem_of_filter in Ht0 as [_ Ht0].
  apply Qclt_le_weak. by apply (valid_chain_transition chain t0 Hv Ht0).
Qed.

Lemma rate_between_pos_iff (chain : CtmcDef) (i j : string) :
  valid_chain chain = true ->
  0 < rate_between (transitions chain) i j
  ↔ ∃ t0, t0 ∈ transitions chain ∧ from t0 = i ∧ to t0 = j.
Proof.
  intros Hv. split.
  - intros Hpos.
    destruct (filter (fun t0 => from t0 = i ∧ to t0 = j) (transitions chain)) as [|t0 l] eqn:Hf.
    + unfold rate_between in Hpos. rewrite Hf in Hpos. simpl in Hpos.
      rewrite sum_Qc_nil in Hpos. by apply Qclt_not_eq in Hpos.
    + exists t0. assert (Hin : t0 ∈ filter (fun t0 => from t0 = i ∧ to t0 = j) (transitions chain))
        by (rewrite Hf; left).
      apply list_elem_of_filter in Hin. tauto.
  - intros (t0 & Ht0 & Hfrom & Hto). unfold rate_between. apply sum_Qc_pos.
    + intros x (t1 & -> & Ht1)%list_elem_of_fmap.
      apply list_elem_of_filter in Ht1 as [_ Ht1].
      by apply (valid_chain_transition chain t1 Hv Ht1).
    + intros Hzero.
      assert (Hall : ∀ x, x ∈ map rate (filter (fun t0 => from t0 = i ∧ to t0 = j)
                                          (transitions chain)) -> x = 0).
      { apply sum_Qc_zero_iff; [|done]. intros x (t1 & -> & Ht1)%list_elem_of_fmap.
        apply list_elem_of_filter in Ht1 as [_ Ht1].
        apply Qclt_le_weak. by apply (valid_chain_transition chain t1 Hv Ht1). }
      assert (rate t0 = 0).
      { apply Hall. apply list_elem_of_fmap. exists t0. split; [done|].
        apply list_elem_of_filter. tauto. }
      destruct (valid_chain_transition chain t0 Hv Ht0) as (_ & _ & _ & Hpos).
      rewrite H in Hpos. by apply Qclt_not_eq in Hpos.
Qed.

(** The graph that [isIrreducible] explores is the graph of the
    transitions: for a valid chain and two distinct states, the entry
    [Q[i][j]] is never negative, and it is positive exactly when the chain
    has a transition from [i] to [j]. *)
Theorem buildRateMatrix_edges (chain : CtmcDef) (i j : string) :
  valid_chain chain = true -> i ∈ states chain -> j ∈ states chain -> i ≠ j ->
  ∃ Q, buildRateMatrix chain = Some Q
    ∧ 0 ≤ entry Q i j
    ∧ (0 < entry Q i j ↔ ∃ t0, t0 ∈ transitions chain ∧ from t0 = i ∧ to t0 = j).
Proof.
  intros Hv Hi Hj Hij. destruct (buildRateMatrix_spec chain Hv) as (Q & HQ & Hspec).
  exists Q. split; [done|]. destruct (Hspec i Hi) as [Hoff _].
  rewrite entry_lookup_entry, (Hoff j Hj Hij). simpl. split.
  - by apply rate_between_nonneg.
  - by apply rate_between_pos_iff.
Qed.

Lemma buildRateMatrix_edges_witness :
  ∃ Q, buildRateMatrix two_state_chain = Some Q
    ∧ 0 ≤ entry Q "A" "B"
    ∧ (0 < entry Q "A" "B"
       ↔ ∃ t0, t0 ∈ transitions two_state_chain ∧ from t0 = "A"%string ∧ to t0 = "B"%string).
Proof.
  apply (buildRateMatrix_edges two_state_chain "A" "B").
  - vm_compute. reflexivity.
  - apply (bool_decide_unpack _). vm_compute. exact I.
  - apply (bool_decide_unpack _). vm_compute. exact I.
  - discriminate.
Defined.

Lemma sum_Qc_indicator (x : string) (c : Qc) (l : list string) :
  NoDup l -> x ∈ l -> sum_Qc (map (fun j => if decide (x = j) then c else 0) l) = c.
Proof.
  intros Hnd Hx. rewrite (sum_Qc_split_NoDup _ l x Hnd Hx).
  rewrite decide_True by done.
  rewrite (sum_Qc_map_ext _ (fun _ => 0)).
  - rewrite sum_Qc_zeros. ring.
  - intros j [Hne _]%list_elem_of_filter. rewrite decide_False; [done|]. by intros ->.
Qed.

Lemma NoDup_filter_ne (i : string) (l : list string) :
  NoDup l -> NoDup (filter (fun k => k ≠ i) l).
Proof. apply NoDup_filter. Qed.

(** Regrouping the rates of the transitions that leave [i] by target. *)
Lemma rate_between_row_sum (ts : list CtmcTransition) (sts : list string) (i : string) :
  NoDup sts ->
  (∀ t0, t0 ∈ ts -> from t0 = i -> to t0 ∈ sts ∧ to t0 ≠ i) ->
  sum_Qc (map (rate_between ts i) (filter (fun k => k ≠ i) sts))
  = sum_Qc (map rate (filter (fun t0 => from t0 = i) ts)).
Proof.
  intros Hnd. induction ts as [|t0 ts IH]; intros Hts.
  - simpl. rewrite (sum_Qc_map_ext _ (fun _ => 0)); [by rewrite sum_Qc_zeros|done].
  - rewrite (sum_Qc_map_ext _ (fun j => (if decide (to t0 = j)
                                          then (if decide (from t0 = i) then rate t0 else 0)
                                          else 0)
                                         + rate_between ts i j)).
    2:{ intros j _. rewrite rate_between_cons.
        destruct (decide (from t0 = i)), (decide (to t0 = j));
          (rewrite decide_True by done) || (rewrite decide_False by tauto); done. }
    rewrite sum_Qc_map_plus, IH by (intros; apply Hts; [by right|done]).
    rewrite filter_cons. destruct (decide (from t0 = i)) as [Hfrom|Hfrom].
    + destruct (Hts t0) as [Hto Hne]; [left|done|].
      rewrite sum_Qc_indicator.
      * simpl. by rewrite sum_Qc_cons.
      * by apply NoDup_filter_ne.
      * apply list_elem_of_filter. done.
    + rewrite (sum_Qc_map_ext _ (fun _ => 0)).
      * rewrite sum_Qc_zeros. ring.
      * intros j _. by destruct (decide (to t0 = j)).
Qed.

(** The generator and the sampler agree on exit rates (in exact
    arithmetic): for every state [i] of a valid chain, the diagonal entry
    [Q[i][i]] is the negation of the [totalRate] that [buildJumpMap] stores
    for [i], the sum of the rates of the transitions that leave [i]. *)
Theorem buildRateMatrix_diagonal_exit_rate (chain : CtmcDef) (i : string) :
  valid_chain chain = true -> i ∈ states chain ->
  ∃ Q row, buildRateMatrix chain = Some Q ∧ buildJumpMap chain !! i = Some row
    ∧ totalRate row = sum_Qc (map rate (outgoing chain i))
    ∧ lookup_entry Q i i = Some (- totalRate row).
Proof.
  intros Hv Hi.
  destruct (buildRateMatrix_lookup chain) as (Q & HQ & _ & Hent).
  { intros t0 Ht0. destruct (valid_chain_transition chain t0 Hv Ht0). tauto. }
  exists Q. rewrite buildJumpMap_lookup, decide_True by done.
  eexists. split; [done|]. split; [done|].
  destruct (row_of_spec (default [] (group_by_from (transitions chain) !! i)))
    as (_ & -> & _).
  rewrite group_by_from_lookup, map_map. simpl. split; [done|].
  rewrite Hent, !decide_True by done. do 2 f_equal.
  apply rate_between_row_sum; [by apply valid_chain_NoDup|].
  intros t0 Ht0 Hfrom. destruct (valid_chain_transition chain t0 Hv Ht0) as (_ & Hto & Hne & _).
  split; [done|]. intros Heq. apply Hne. congruence.
Qed.

Lemma buildRateMatrix_diagonal_exit_rate_witness :
  ∃ Q row, buildRateMatrix two_state_chain = Some Q
    ∧ buildJumpMap two_state_chain !! "A"%string = Some row
    ∧ totalRate row = sum_Qc (map rate (outgoing two_state_chain "A"))
    ∧ lookup_entry Q "A" "A" = Some (- totalRate row).
Proof.
  apply (buildRateMatrix_diagonal_exit_rate two_state_chain "A").
  - vm_compute. reflexivity.
  - apply (bool_decide_unpack _). vm_compute. exact I.
Defined.

(** ** isIrreducible: states without exit or entry *)

Lemma two_states_other (sts : list string) (s : string) :
  NoDup sts -> (2 ≤ length sts)%nat -> ∃ s', s' ∈ sts ∧ s' ≠ s.
Proof.
  intros Hnd Hlen. destruct sts as [|x [|y l]]; simpl in Hlen; [lia|lia|].
  destruct (decide (x = s)) as [->|Hx].
  - exists y. split; [right; left|]. intros ->.
    apply NoDup_cons in Hnd as [Hnin _]. apply Hnin. left.
  - exists x. split; [left|done].
Qed.

(** In a valid chain with at least two states, a state that no transition
    leaves, or that no transition enters, makes [isIrreducible] return
    [false] (with at least one loop iteration per state allowed). *)
Theorem isIrreducible_false_without_exit_or_entry (chain : CtmcDef) (s : string) :
  valid_chain chain = true -> (2 ≤ length (states chain))%nat -> s ∈ states chain ->
  (∀ t0, t0 ∈ transitions chain -> from t0 ≠ s)
  ∨ (∀ t0, t0 ∈ transitions chain -> to t0 ≠ s) ->
  ∀ fuel, (length (states chain) ≤ fuel)%nat -> isIrreducible fuel chain = Ret false.
Proof.
  intros Hv Hlen Hs Hnone fuel Hfuel.
  pose proof (valid_chain_NoDup chain Hv) as Hnd.
  destruct (buildRateMatrix_spec chain Hv) as (Q & HQ & Hspec).
  destruct (isIrreducible_fuel_independent chain Q Hnd HQ) as (b & Hb & Hiff).
  rewrite (Hb fuel Hfuel). f_equal. destruct b; [|done]. exfalso.
  assert (Hsc : strongly_connected (states chain) Q) by (by apply Hiff).
  destruct (two_states_other (states chain) s Hnd Hlen) as (s' & Hs' & Hne).
  assert (Hedge : ∀ i j, edge (states chain) Q i j ->
            ∃ t0, t0 ∈ transitions chain ∧ from t0 = i ∧ to t0 = j).
  { intros i j (Hi & Hj & Hpos). destruct (Hspec i Hi) as [Hoff Hdiag].
    destruct (decide (i = j)) as [<-|Hij].
    - exfalso. rewrite entry_lookup_entry, Hdiag in Hpos. simpl in Hpos.
      assert (0 ≤ sum_Qc (map (entry Q i) (filter (fun j => j ≠ i) (states chain)))).
      { apply sum_Qc_nonneg. intros x (k & -> & Hk)%list_elem_of_fmap.
        apply list_elem_of_filter in Hk as [Hki Hk].
        rewrite entry_lookup_entry, (Hoff k Hk) by done. simpl.
        by apply rate_between_nonneg. }
      generalize dependent (sum_Qc (map (entry Q i) (filter (fun j => j ≠ i) (states chain)))).
      intros x Hx1 Hx2. clear -Hx1 Hx2. qc_lra.
    - rewrite entry_lookup_entry, (Hoff j Hj Hij) in Hpos. simpl in Hpos.
      by apply rate_between_pos_iff in Hpos. }
  destruct Hnone as [Hexit|Hentry].
  - specialize (Hsc s s' Hs Hs'). apply rtc_inv in Hsc as [->|(y & Hy & _)]; [done|].
    destruct (Hedge s y Hy) as (t0 & Ht0 & Hfrom & _). by apply (Hexit t0).
  - specialize (Hsc s' s Hs' Hs). apply rtc_inv_r in Hsc as [->|(y & _ & Hy)]; [done|].
    destruct (Hedge y s Hy) as (t0 & Ht0 & _ & Hto). by apply (Hentry t0).
Qed.

Lemma isIrreducible_false_without_exit_or_entry_witness :
  isIrreducible 2 (mkCtmc ["A"; "B"]%string (<["A"%string := 1]> (<["B"%string := 0]> ∅))
                     [mkTransition "A" "B" 1]) = Ret false.
Proof.
  apply (isIrreducible_false_without_exit_or_entry
           (mkCtmc ["A"; "B"]%string (<["A"%string := 1]> (<["B"%string := 0]> ∅))
              [mkTransition "A" "B" 1]) "B").
  - vm_compute. reflexivity.
  - simpl. lia.
  - apply (bool_decide_unpack _). vm_compute. exact I.
  - left. intros t0 Ht0. simpl in Ht0. apply list_elem_of_singleton in Ht0 as ->.
    simpl. discriminate.
  - simpl. lia.
Defined.

(** ** getStationaryDistribution on two-state chains *)

Ltac qc_cbn := cbn -[Qcplus Qcmult Qcopp Qcminus Qcdiv Qcinv Q2Qc Math_abs eps decide bool_decide].

Ltac qc_field :=
  apply Qc_is_canon; qc_unfold; field; repeat split; lra.

(** Equality of arrays of numbers, entry by entry. *)
Ltac entrywise tac :=
  lazymatch goal with
  | |- @eq (list _) (_ :: _) (_ :: _) => f_equal; entrywise tac
  | |- @eq (prod _ _) (_, _) (_, _) => f_equal; entrywise tac
  | |- @eq Qc _ _ => tac
  | |- _ => idtac
  end.

Lemma eps_pos : 0 < eps.
Proof. apply (bool_decide_unpack _). vm_compute. exact I. Qed.

Lemma eps_lt_1 : eps < 1.
Proof. apply (bool_decide_unpack _). vm_compute. exact I. Qed.

Lemma Math_abs_1_not_small : ¬ Math_abs 1 < eps.
Proof. apply (bool_decide_unpack _). vm_compute. exact I. Qed.

Lemma Math_abs_1_large : eps < Math_abs 1.
Proof. apply (bool_decide_unpack _). vm_compute. exact I. Qed.

Lemma Math_abs_opp (x : Qc) : Math_abs (- x) = Math_abs x.
Proof. unfold Math_abs. destruct (decide (0 ≤ - x)), (decide (0 ≤ x)); qc_lra. Qed.

Lemma Math_abs_of_nonneg (x : Qc) : 0 ≤ x -> Math_abs x = x.
Proof. intros H. unfold Math_abs. by rewrite decide_True. Qed.

Lemma Qc_div_pos (x c : Qc) : 0 < x -> 0 < c -> 0 < x / c.
Proof. intros Hx Hc. unfold Qcdiv. apply Qcmult_pos_pos; [done|]. by apply Qcinv_pos. Qed.

Lemma Math_abs_small_pos (x : Qc) : 0 < x -> x < eps -> ¬ eps < Math_abs (- x).
Proof.
  intros H0 H. rewrite Math_abs_opp, Math_abs_of_nonneg by (by apply Qclt_le_weak).
  clear -H. intros H'. qc_lra.
Qed.

(** Elimination on the system of a two-state chain with rates [a], [b]. *)
Lemma gauss_eliminate_two_states (a b : Qc) : eps < a -> eps * a ≤ b ->
  (gauss_eliminate 2 [[- a; b]; [1; 1]] [0; 1]).2 = [b / (a + b); a / (a + b)].
Proof.
  intros Ha Hb. pose proof eps_pos as Heps.
  assert (Ha0 : 0 < a) by (clear -Ha Heps; qc_lra).
  assert (Hb0 : 0 < b).
  { assert (0 < eps * a) by (by apply Qcmult_pos_pos). clear -H Hb. qc_lra. }
  assert (Hba : eps ≤ b / a) by (by apply Qc_le_div).
  assert (Hba0 : 0 < b / a) by (by apply Qc_div_pos).
  unfold gauss_eliminate. cbn [seq foldl].
  assert (eliminate_column 2 ([[- a; b]; [1; 1]], [0; 1]) 0
          = ([[1; - (b / a)]; [0; 1 + b / a]], [0; 1])) as ->.
  { unfold eliminate_column.
    assert (find_pivot 2 [[- a; b]; [1; 1]] 0 = Some 0%nat) as ->.
    { unfold find_pivot. qc_cbn. rewrite bool_decide_eq_true_2; [done|].
      rewrite Math_abs_opp, Math_abs_of_nonneg; [done|by apply Qclt_le_weak]. }
    rewrite swap_rows_same. qc_cbn.
    rewrite decide_True by (by left). qc_cbn.
    rewrite decide_False by (intros [?|?]; [done|by apply Math_abs_1_not_small]).
    clear Hba Hba0 Ha Hb Heps.
    entrywise ltac:(apply Qc_is_canon; qc_unfold; field; lra). }
  unfold eliminate_column.
  assert (find_pivot 2 [[1; - (b / a)]; [0; 1 + b / a]] 1 = Some 1%nat) as ->.
  { unfold find_pivot. qc_cbn. rewrite bool_decide_eq_true_2; [done|].
    pose proof eps_lt_1 as Heps1.
    rewrite Math_abs_of_nonneg; clear -Hba0 Heps1.
    - generalize dependent (b / a). intros x Hx. qc_lra.
    - generalize dependent (b / a). intros x Hx. qc_lra. }
  rewrite swap_rows_same. qc_cbn.
  rewrite decide_False.
  2:{ intros [?|Hsmall]; [done|]. rewrite Math_abs_opp, Math_abs_of_nonneg in Hsmall
        by (by apply Qclt_le_weak).
      clear -Hsmall Hba. generalize dependent (b / a). intros x ? ?. qc_lra. }
  qc_cbn. rewrite decide_True by (by left). qc_cbn.
  assert (Hne : (1 + b / a) ≠ 0).
  { clear -Hba0. generalize dependent (b / a). intros x Hx Hz. qc_lra. }
  clear Hne Hba Hba0 Ha Hb Heps.
  entrywise ltac:(apply Qc_is_canon; qc_unfold; field; repeat split; lra).
Qed.

(** Elimination when both rates are below the pivot tolerance. *)
Lemma gauss_eliminate_two_slow_states (a b : Qc) : 0 < a -> a < eps -> 0 < b -> b < eps ->
  (gauss_eliminate 2 [[- a; b]; [1; 1]] [0; 1]).2 = [1; 0].
Proof.
  intros Ha0 Ha Hb0 Hb.
  unfold gauss_eliminate. cbn [seq foldl].
  assert (eliminate_column 2 ([[- a; b]; [1; 1]], [0; 1]) 0
          = ([[1; 1]; [- a; b]], [1; 0])) as ->.
  { unfold eliminate_column.
    assert (find_pivot 2 [[- a; b]; [1; 1]] 0 = Some 1%nat) as ->.
    { unfold find_pivot. qc_cbn.
      rewrite bool_decide_eq_false_2 by (by apply Math_abs_small_pos).
      rewrite bool_decide_eq_true_2; [done|apply Math_abs_1_large]. }
    qc_cbn. rewrite decide_True by (by left). qc_cbn.
    rewrite decide_True.
    2:{ right. rewrite Math_abs_opp, Math_abs_of_nonneg; [done|by apply Qclt_le_weak]. }
    entrywise ltac:(apply Qc_is_canon; reflexivity). }
  unfold eliminate_column.
  assert (find_pivot 2 [[1; 1]; [- a; b]] 1 = None) as ->.
  { unfold find_pivot. qc_cbn. rewrite bool_decide_eq_false_2; [done|].
    rewrite Math_abs_of_nonneg by (by apply Qclt_le_weak). clear -Hb. intros H. qc_lra. }
  done.
Qed.

Lemma two_state_generator (chain : CtmcDef) (x y : string) (Q : gmap string (gmap string Qc)) :
  valid_chain chain = true -> states chain = [x; y] -> buildRateMatrix chain = Some Q ->
  x ≠ y
  ∧ entry Q x y = rate_between (transitions chain) x y
  ∧ entry Q y x = rate_between (transitions chain) y x
  ∧ entry Q x x = - rate_between (transitions chain) x y.
Proof.
  intros Hv Hsts HQ. pose proof (valid_chain_NoDup chain Hv) as Hnd. rewrite Hsts in Hnd.
  assert (Hxy : x ≠ y).
  { apply NoDup_cons in Hnd as [Hnin _]. intros ->. apply Hnin. left. }
  destruct (buildRateMatrix_spec chain Hv) as (Q' & HQ' & Hspec).
  assert (Q' = Q) as -> by congruence. rewrite Hsts in Hspec.
  destruct (Hspec x) as [Hoffx Hdiagx]; [left|].
  destruct (Hspec y) as [Hoffy _]; [right; left|].
  split; [done|]. rewrite !entry_lookup_entry.
  rewrite (Hoffx y) by (done || (right; left)).
  rewrite (Hoffy x) by (done || left).
  rewrite Hdiagx. simpl. repeat split; try done.
  rewrite filter_cons, decide_False by (by intros ?).
  rewrite filter_cons, decide_True by done. rewrite filter_nil. simpl.
  rewrite sum_Qc_cons, sum_Qc_nil, entry_lookup_entry, (Hoffx y) by (done || (right; left)).
  simpl. ring.
Qed.

(** What the function runs on a two-state chain with positive rates. *)
Lemma getStationaryDistribution_two_states_run (chain : CtmcDef) (x y : string) (fuel : nat) :
  valid_chain chain = true -> states chain = [x; y] -> (2 ≤ fuel)%nat ->
  0 < rate_between (transitions chain) x y -> 0 < rate_between (transitions chain) y x ->
  x ≠ y
  ∧ getStationaryDistribution fuel chain
    = Ret (Some (clamp_solution [x; y]
                   (gauss_eliminate 2 [[- rate_between (transitions chain) x y;
                                        rate_between (transitions chain) y x]; [1; 1]]
                                    [0; 1]).2)).
Proof.
  intros Hv Hsts Hfuel Ha Hb.
  pose proof (valid_chain_NoDup chain Hv) as Hnd.
  destruct (buildRateMatrix_spec chain Hv) as (Q & HQ & _).
  destruct (two_state_generator chain x y Q Hv Hsts HQ) as (Hxy & Exy & Eyx & Exx).
  split; [done|].
  destruct (isIrreducible_fuel_independent chain Q Hnd HQ) as (b0 & Hb0 & Hiff).
  assert (b0 = true) as ->.
  { apply Hiff. rewrite Hsts. intros i j Hi Hj.
    assert (Hcases : ∀ s, s ∈ [x; y] -> s = x ∨ s = y).
    { intros s Hs. apply elem_of_cons in Hs as [->|Hs]; [by left|].
      apply list_elem_of_singleton in Hs. by right. }
    destruct (Hcases i Hi) as [->| ->], (Hcases j Hj) as [->| ->]; try apply rtc_refl.
    - apply rtc_once. repeat split; [done|done|]. by rewrite Exy.
    - apply rtc_once. repeat split; [done|done|]. by rewrite Eyx. }
  unfold getStationaryDistribution. rewrite Hb0 by (rewrite Hsts; simpl; lia).
  simpl. rewrite Hsts. simpl. rewrite <- Hsts, HQ, Hsts.
  do 3 f_equal.
  unfold stationary_matrix, stationary_rhs. simpl. by rewrite Exx, Eyx.
Qed.

Lemma clamp_two (x y : string) (p q : Qc) :
  x ≠ y -> 0 ≤ p -> 0 ≤ q ->
  clamp_solution [x; y] [p; q] !! x = Some p ∧ clamp_solution [x; y] [p; q] !! y = Some q.
Proof.
  intros Hxy Hp Hq. unfold clamp_solution. simpl.
  rewrite lookup_insert_ne, !lookup_insert_eq by done.
  unfold get. simpl. unfold Math_max. by rewrite !decide_True.
Qed.

(** A two-state chain whose rates pass the pivot tests: with [a] the rate
    from [x] to [y] and [b] the rate back, [a > 1e-10] and [b >= 1e-10 * a],
    the function returns the stationary distribution
    [x: b / (a + b)], [y: a / (a + b)] (in exact arithmetic). *)
Theorem getStationaryDistribution_two_states (chain : CtmcDef) (x y : string) (fuel : nat) :
  valid_chain chain = true -> states chain = [x; y] -> (2 ≤ fuel)%nat ->
  eps < rate_between (transitions chain) x y ->
  eps * rate_between (transitions chain) x y ≤ rate_between (transitions chain) y x ->
  ∃ pi, getStationaryDistribution fuel chain = Ret (Some pi)
    ∧ pi !! x = Some (rate_between (transitions chain) y x
                      / (rate_between (transitions chain) x y
                         + rate_between (transitions chain) y x))
    ∧ pi !! y = Some (rate_between (transitions chain) x y
                      / (rate_between (transitions chain) x y
                         + rate_between (transitions chain) y x)).
Proof.
  intros Hv Hsts Hfuel Ha Hb.
  set (a := rate_between (transitions chain) x y) in *.
  set (b := rate_between (transitions chain) y x) in *.
  pose proof eps_pos as Heps.
  assert (Ha0 : 0 < a) by (clear -Ha Heps; qc_lra).
  assert (Hb0 : 0 < b).
  { assert (0 < eps * a) by (by apply Qcmult_pos_pos). clear -H Hb. qc_lra. }
  destruct (getStationaryDistribution_two_states_run chain x y fuel Hv Hsts Hfuel Ha0 Hb0)
    as [Hxy Hrun].
  fold a b in Hrun. rewrite (gauss_eliminate_two_states a b Ha Hb) in Hrun.
  eexists. split; [exact Hrun|].
  assert (Hab : 0 < a + b) by (clear -Ha0 Hb0; qc_lra).
  apply clamp_two; [done| |]; apply Qclt_le_weak; by apply Qc_div_pos.
Qed.

Lemma getStationaryDistribution_two_states_witness :
  ∃ pi, getStationaryDistribution 2 two_state_chain = Ret (Some pi)
    ∧ pi !! "A"%string
      = Some (rate_between (transitions two_state_chain) "B" "A"
              / (rate_between (transitions two_state_chain) "A" "B"
                 + rate_between (transitions two_state_chain) "B" "A"))
    ∧ pi !! "B"%string
      = Some (rate_between (transitions two_state_chain) "A" "B"
              / (rate_between (transitions two_state_chain) "A" "B"
                 + rate_between (transitions two_state_chain) "B" "A")).
Proof.
  apply (getStationaryDistribution_two_states two_state_chain "A" "B" 2).
  - vm_compute. reflexivity.
  - reflexivity.
  - lia.
  - apply (bool_decide_unpack _). vm_compute. exact I.
  - apply (bool_decide_unpack _). vm_compute. exact I.
Defined.

(** The effect of the pivot tolerance: when both rates of a two-state chain
    are below 1e-10, the first column is pivoted on the normalisation row,
    the second has no pivot, and the function returns [x: 1], [y: 0]
    whatever the two rates are. *)
Theorem getStationaryDistribution_two_slow_states (chain : CtmcDef) (x y : string)
    (fuel : nat) :
  valid_chain chain = true -> states chain = [x; y] -> (2 ≤ fuel)%nat ->
  0 < rate_between (transitions chain) x y -> rate_between (transitions chain) x y < eps ->
  0 < rate_between (transitions chain) y x -> rate_between (transitions chain) y x < eps ->
  ∃ pi, getStationaryDistribution fuel chain = Ret (Some pi)
    ∧ pi !! x = Some 1 ∧ pi !! y = Some 0.
Proof.
  intros Hv Hsts Hfuel Ha0 Ha Hb0 Hb.
  destruct (getStationaryDistribution_two_states_run chain x y fuel Hv Hsts Hfuel Ha0 Hb0)
    as [Hxy Hrun].
  rewrite (gauss_eliminate_two_slow_states _ _ Ha0 Ha Hb0 Hb) in Hrun.
  eexists. split; [exact Hrun|].
  apply clamp_two; [done| |]; apply (bool_decide_unpack _); vm_compute; exact I.
Qed.

Lemma getStationaryDistribution_two_slow_states_witness :
  ∃ pi, getStationaryDistribution 2 slow_chain = Ret (Some pi)
    ∧ pi !! "A"%string = Some 1 ∧ pi !! "B"%string = Some 0.
Proof.
  apply (getStationaryDistribution_two_slow_states slow_chain "A" "B" 2).
  - vm_compute. reflexivity.
  - reflexivity.
  - lia.
  - apply (bool_decide_unpack _). vm_compute. exact I.
  - apply (bool_decide_unpack _). vm_compute. exact I.
  - apply (bool_decide_unpack _). vm_compute. exact I.
  - apply (bool_decide_unpack _). vm_compute. exact I.
Defined.


(** ** Chains without transitions *)

Lemma times_t_of_zero (Q : gmap string (gmap string Qc)) (sts : list string) (time : Qc) :
  (∀ i j, i ∈ sts -> j ∈ sts -> lookup_entry Q i j = Some 0) ->
  ∃ Z, times_t Q sts time = Some Z ∧ ∀ i j, get2 Z i j = 0.
Proof.
  intros Hdef. exists (map (fun _ => map (fun _ => 0) sts) sts). split.
  - unfold times_t. apply mapM_pointwise. intros i Hi.
    apply mapM_pointwise. intros j Hj.
    rewrite (Hdef i j Hi Hj). simpl. f_equal. ring.
  - intros i j. unfold get2, get_row, get. rewrite list_lookup_fmap.
    destruct (sts !! i); simpl; [|done].
    rewrite list_lookup_fmap. by destruct (sts !! j).
Qed.

Lemma matrixExponential_of_zero (Q : gmap string (gmap string Qc)) (sts : list string)
    (time : Qc) :
  NoDup sts -> sts ≠ [] ->
  (∀ i j, i ∈ sts -> j ∈ sts -> lookup_entry Q i j = Some 0) ->
  ∃ P, matrixExponential Q sts time = Some P
    ∧ ∀ i j, i ∈ sts -> j ∈ sts ->
        lookup_entry P i j = Some (if decide (i = j) then 1 else 0).
Proof.
  intros Hnd Hne Hdef. unfold matrixExponential.
  rewrite decide_False by (by intros ?%length_zero_iff_nil).
  destruct (times_t_of_zero Q sts time Hdef) as (Z & -> & HZ).
  unfold scaled_Qt. rewrite inf_norm_zero by done.
  change (scaling_exponent 0) with 0%nat.
  replace (pow2 0) with (Q2Qc 1) by (apply Qc_is_canon; reflexivity).
  rewrite scale_matrix_1, !pade_of_zero by done.
  rewrite gaussJordanInverse_identity, matMult_identity. simpl.
  eexists. split; [done|]. intros si sj Hi Hj.
  apply list_elem_of_lookup in Hi as [i Hi]. apply list_elem_of_lookup in Hj as [j Hj].
  rewrite (to_record_entry sts _ i j) by done. f_equal.
  rewrite get2_identity by (eapply lookup_lt_Some; eauto).
  destruct (decide (i = j)) as [->|Hij].
  - rewrite decide_True; [done|]. congruence.
  - rewrite decide_False; [done|]. intros ->. apply Hij.
    eapply NoDup_lookup; eauto.
Qed.

Lemma generator_without_transitions (chain : CtmcDef) (Q : gmap string (gmap string Qc)) :
  valid_chain chain = true -> transitions chain = [] -> buildRateMatrix chain = Some Q ->
  ∀ i j, i ∈ states chain -> j ∈ states chain -> lookup_entry Q i j = Some 0.
Proof.
  intros Hv Hts HQ i j Hi Hj.
  destruct (buildRateMatrix_lookup chain) as (Q' & HQ' & _ & Hent).
  { rewrite Hts. intros t0 Ht0. by apply elem_of_nil in Ht0. }
  assert (Q' = Q) as -> by congruence.
  rewrite Hent, decide_True by done. rewrite Hts. f_equal.
  destruct (decide (i = j)); [|done].
  rewrite (sum_Qc_map_ext _ (fun _ => 0)) by done. rewrite sum_Qc_zeros.
  apply Qc_is_canon. reflexivity.
Qed.

(** A chain in which every state is absorbing never moves: for a valid
    chain without transitions and every time [t], [matrixExponential]
    returns the identity matrix. *)
Theorem matrixExponential_no_transitions (chain : CtmcDef) (Q : gmap string (gmap string Qc))
    (time : Qc) :
  valid_chain chain = true -> transitions chain = [] -> buildRateMatrix chain = Some Q ->
  ∃ P, matrixExponential Q (states chain) time = Some P
    ∧ ∀ i j, i ∈ states chain -> j ∈ states chain ->
        lookup_entry P i j = Some (if decide (i = j) then 1 else 0).
Proof.
  intros Hv Hts HQ. apply matrixExponential_of_zero.
  - by apply valid_chain_NoDup.
  - by apply valid_chain_states_nonempty.
  - by apply generator_without_transitions.
Qed.

Lemma matrixExponential_no_transitions_witness :
  ∃ Q P, buildRateMatrix frozen_chain = Some Q
    ∧ matrixExponential Q (states frozen_chain) twenty = Some P
    ∧ ∀ i j, i ∈ states frozen_chain -> j ∈ states frozen_chain ->
        lookup_entry P i j = Some (if decide (i = j) then 1 else 0).
Proof.
  destruct (buildRateMatrix frozen_chain) as [Q|] eqn:HQ;
    [|by vm_compute in HQ].
  exists Q.
  destruct (matrixExponential_no_transitions
              frozen_chain
              Q twenty) as (P & HP & Hent);
    [vm_compute; reflexivity|reflexivity|exact HQ|].
  exists P. split; [reflexivity|]. split; [exact HP|exact Hent].
Defined.

(** Such a chain keeps its initial distribution: for a valid chain without
    transitions, every cell that [computeDistributionOverTime] fills for a
    state [s] holds [initialDistribution[s]], at every time point. *)
Theorem computeDistributionOverTime_no_transitions (chain : CtmcDef) (timePoints : list Qc) :
  valid_chain chain = true -> transitions chain = [] ->
  ∃ res, computeDistributionOverTime chain timePoints = Some res
    ∧ ∀ s, s ∈ states chain ->
        ∃ row, distributions res !! s = Some row ∧ length row = length timePoints
          ∧ ∀ x, x ∈ row -> Some x = initialDistribution chain !! s.
Proof.
  intros Hv Hts. destruct (buildRateMatrix_spec chain Hv) as (Q & HQ & _).
  assert (Hdef : ∀ i j, i ∈ states chain -> j ∈ states chain -> is_Some (lookup_entry Q i j)).
  { intros i j Hi Hj. by eapply buildRateMatrix_entries_defined. }
  destruct (computeDistributionOverTime_cells chain Q timePoints HQ Hdef) as (d & Hres & Hd).
  eexists. split; [done|]. simpl. intros s Hs.
  destruct (Hd s Hs) as (row & Hrow & Hlen & Hcells). exists row. split; [done|].
  split; [done|]. intros x (idx & Hx)%list_elem_of_lookup.
  assert (Hidx : (idx < length timePoints)%nat) by (rewrite <- Hlen; by eapply lookup_lt_Some).
  destruct (lookup_lt_is_Some_2 timePoints idx Hidx) as [time Htime].
  destruct (Hcells idx time Htime) as (P & HP & Hcell).
  destruct (matrixExponential_of_zero Q (states chain) time) as (P0 & HP0 & Hent);
    [by apply valid_chain_NoDup|by apply valid_chain_states_nonempty
    |by apply generator_without_transitions|].
  assert (P0 = P) as -> by congruence.
  rewrite (carried_identity _ _ _ s) in Hcell by (done || by apply valid_chain_NoDup).
  rewrite Hx in Hcell. injection Hcell as ->.
  assert (Hmu : is_Some (initialDistribution chain !! s)).
  { unfold valid_chain in Hv. rewrite !andb_true_iff in Hv. destruct Hv as [_ Hinit].
    unfold wf_initial in Hinit. rewrite andb_true_iff in Hinit. destruct Hinit as [Hall _].
    rewrite forallb_forall in Hall. specialize (Hall s).
    destruct (initialDistribution chain !! s); [eauto|].
    assert (false = true) by (apply Hall; by apply list_elem_of_In). done. }
  destruct Hmu as [v ->]. done.
Qed.

Lemma computeDistributionOverTime_no_transitions_witness :
  ∃ res, computeDistributionOverTime
           frozen_chain
           [0; twenty] = Some res
    ∧ ∀ s, s ∈ states frozen_chain ->
        ∃ row, distributions res !! s = Some row ∧ length row = length [0; twenty]
          ∧ ∀ x, x ∈ row -> Some x = initialDistribution frozen_chain !! s.
Proof.
  apply (computeDistributionOverTime_no_transitions
           frozen_chain
           [0; twenty]).
  - vm_compute. reflexivity.
  - reflexivity.
Defined.

(** ** sampleFromDistribution: inversion of the cumulative distribution *)

Lemma mass_cons (dist : gmap string Qc) (s : string) (l : list string) :
  mass dist (s :: l) = default 0 (dist !! s) + mass dist l.
Proof. unfold mass. simpl. by rewrite sum_Qc_cons. Qed.

Lemma mass_nonneg (dist : gmap string Qc) (l : list string) :
  (∀ s, s ∈ l -> 0 ≤ default 0 (dist !! s)) -> 0 ≤ mass dist l.
Proof.
  intros H. apply sum_Qc_nonneg. intros x (s & -> & Hs)%list_elem_of_fmap. by apply H.
Qed.

Lemma Qc_not_lt_of_le (x m u : Qc) : x + m ≤ u -> 0 ≤ m -> ¬ u < x.
Proof. intros H1 H2 H3. qc_lra. Qed.

Lemma sample_scan_at (dist : gmap string Qc) (u : Qc) (sts : list string) :
  (∀ s, s ∈ sts -> 0 ≤ default 0 (dist !! s)) ->
  ∀ c i s, sts !! i = Some s ->
    c + mass dist (firstn i sts) ≤ u -> u < c + mass dist (firstn (S i) sts) ->
    sample_scan dist u c sts = Some s.
Proof.
  induction sts as [|s0 l IH]; intros Hnn c i s Hi Hle Hlt; [done|].
  destruct i as [|i]; simpl in *.
  - injection Hi as ->. rewrite mass_cons in Hlt.
    change (mass dist (firstn 0 l)) with (Q2Qc 0) in Hlt.
    rewrite decide_True; [done|]. clear -Hlt.
    generalize dependent (default 0 (dist !! s)). intros d Hlt. qc_lra.
  - rewrite mass_cons in Hle, Hlt.
    assert (Hm : 0 ≤ mass dist (firstn i l)).
    { apply mass_nonneg. intros s' Hs'. apply Hnn. right.
      apply elem_of_take in Hs' as (j & Hj & _). by eapply list_elem_of_lookup_2. }
    rewrite Qcplus_assoc in Hle, Hlt.
    rewrite decide_False by (by eapply Qc_not_lt_of_le).
    by apply (IH (fun s' Hs' => Hnn s' ltac:(by right)) _ i).
Qed.

Lemma sample_scan_none (dist : gmap string Qc) (u : Qc) (sts : list string) :
  (∀ s, s ∈ sts -> 0 ≤ default 0 (dist !! s)) ->
  ∀ c, c + mass dist sts ≤ u -> sample_scan dist u c sts = None.
Proof.
  induction sts as [|s0 l IH]; intros Hnn c Hle; [done|]. simpl.
  rewrite mass_cons in Hle.
  assert (Hm : 0 ≤ mass dist l).
  { apply mass_nonneg. intros s' Hs'. apply Hnn. by right. }
  rewrite Qcplus_assoc in Hle.
  rewrite decide_False by (by eapply Qc_not_lt_of_le).
  apply IH; [intros; apply Hnn; by right|done].
Qed.



Lemma sample_scan_found (dist : gmap string Qc) (u : Qc) (sts : list string) :
  ∀ c s, c ≤ u -> sample_scan dist u c sts = Some s ->
    s ∈ sts ∧ 0 < default 0 (dist !! s).
Proof.
  induction sts as [|s0 l IH]; intros c s Hc; simpl; [done|].
  destruct (decide (u < c + default 0 (dist !! s0))) as [Hlt|Hge].
  - intros [= <-]. split; [left|].
    clear -Hc Hlt. generalize dependent (default 0 (dist !! s0)). intros. qc_lra.
  - intros Hscan. destruct (IH _ s ltac:(by apply Qcnot_lt_le) Hscan). split; [by right|done].
Qed.

Lemma sample_scan_some (dist : gmap string Qc) (u : Qc) (sts : list string) :
  ∀ c, c ≤ u -> u < c + mass dist sts -> is_Some (sample_scan dist u c sts).
Proof.
  induction sts as [|s0 l IH]; intros c Hc Hlt; simpl.
  - exfalso. change (mass dist []) with (Q2Qc 0) in Hlt. clear -Hc Hlt. qc_lra.
  - destruct (decide _); [eauto|]. apply IH; [by apply Qcnot_lt_le|].
    rewrite mass_cons in Hlt. by rewrite Qcplus_assoc in Hlt.
Qed.



(** ** sampleJump: the next state and the draws *)

Lemma row_of_snoc (l : list (string * Qc)) (e : string * Qc) :
  row_of (l ++ [e]) = extend_row (row_of l) e.
Proof. unfold row_of. by rewrite foldl_snoc. Qed.

Lemma find_app_l {A : Type} (f : A -> bool) (l1 l2 : list A) (x : A) :
  find f l1 = Some x -> find f (l1 ++ l2) = Some x.
Proof.
  induction l1 as [|y l1 IH]; simpl; [done|]. destruct (f y); [done|]. apply IH.
Qed.

Lemma find_app_r {A : Type} (f : A -> bool) (l1 l2 : list A) :
  find f l1 = None -> find f (l1 ++ l2) = find f l2.
Proof.
  induction l1 as [|y l1 IH]; simpl; [done|]. destruct (f y); [done|]. apply IH.
Qed.

Lemma row_of_cumul_bound (l : list (string * Qc)) (c : Qc) :
  (∀ e, e ∈ l -> 0 < snd e) -> c ∈ cumul (row_of l) -> c ≤ sum_Qc (map snd l).
Proof.
  intros Hpos Hc.
  assert (Hinc : strictly_increasing (cumul (mkRow 0 [] []))).
  { intros i j x y _ Hi. simpl in Hi. by rewrite lookup_nil in Hi. }
  assert (Hbound : ∀ c', c' ∈ cumul (mkRow 0 [] []) -> c' ≤ totalRate (mkRow 0 [] [])).
  { intros c' Hc'. simpl in Hc'. by apply elem_of_nil in Hc'. }
  destruct (extend_rows_cumul l (mkRow 0 [] []) Hpos Hinc Hbound) as (_ & Hle & _); [done|].
  destruct (row_of_spec l) as (_ & <- & _). by apply Hle.
Qed.

(** The scan of the cumulative thresholds stops at the entry whose interval
    holds [u]. *)
Lemma row_of_find (l : list (string * Qc)) (u : Qc) :
  (∀ e, e ∈ l -> 0 < snd e) ->
  ∀ i e, l !! i = Some e ->
    sum_Qc (map snd (firstn i l)) ≤ u -> u < sum_Qc (map snd (firstn (S i) l)) ->
    ∃ c, find (fun c => bool_decide (u < fst c)) (zip (cumul (row_of l)) (row_to (row_of l)))
         = Some (c, fst e).
Proof.
  induction l as [|e' l IH] using rev_ind; intros Hpos i e Hi Hle Hlt.
  - by rewrite lookup_nil in Hi.
  - rewrite row_of_snoc. unfold extend_row. cbn [cumul row_to].
    destruct (row_of_spec l) as (Hto & Htot & Hlen).
    rewrite zip_with_app by (by rewrite Hlen, Hto, length_map).
    assert (Hpos' : ∀ e0, e0 ∈ l -> 0 < snd e0).
    { intros e0 He0. apply Hpos. apply elem_of_app. by left. }
    destruct (decide (i < length l)%nat) as [Hil|Hil].
    + rewrite lookup_app_l in Hi by done.
      rewrite take_app_le in Hle by lia. rewrite take_app_le in Hlt by lia.
      destruct (IH Hpos' i e Hi Hle Hlt) as [c Hc].
      exists c. by apply find_app_l.
    + assert (i = length l) as ->.
      { apply lookup_lt_Some in Hi. rewrite length_app in Hi. simpl in Hi. lia. }
      rewrite lookup_app_r, Nat.sub_diag in Hi by lia. injection Hi as <-.
      rewrite take_app_length in Hle.
      rewrite take_ge in Hlt by (rewrite length_app; simpl; lia).
      rewrite map_app, sum_Qc_app in Hlt. simpl in Hlt.
      rewrite sum_Qc_cons, sum_Qc_nil in Hlt.
      rewrite find_app_r.
      * simpl. exists (totalRate (row_of l) + snd e'). rewrite bool_decide_eq_true_2; [done|].
        rewrite Htot. clear -Hlt. generalize dependent (sum_Qc (map snd l)). intros. qc_lra.
      * apply find_all_false. intros [c next] Hin%list_elem_of_In.
        apply elem_of_zip_l in Hin. simpl.
        apply bool_decide_eq_false_2.
        pose proof (row_of_cumul_bound l c Hpos' Hin) as Hc.
        clear -Hc Hle. generalize dependent (sum_Qc (map snd l)). intros. intros ?. qc_lra.
Qed.



(** From a state that no transition leaves (or that is not a state of the
    chain) [sampleJump] stays in place with an infinite holding time and
    consumes no draw, for every chain definition. *)
Theorem sampleJump_absorbing (Math_log : Qc -> Qc) (chain : CtmcDef) (rand : nat -> Qc)
    (k : nat) (s : string) :
  (∀ t0, t0 ∈ transitions chain -> from t0 ≠ s) ->
  sampleJump Math_log (Some s) (buildJumpMap chain) rand k = (Some s, None, k).
Proof.
  intros Hnone. unfold sampleJump. simpl. rewrite buildJumpMap_lookup.
  destruct (decide (s ∈ states chain)); [|done].
  rewrite group_by_from_lookup.
  assert (filter (fun t0 => from t0 = s) (transitions chain) = []) as ->.
  { induction (transitions chain) as [|t0 l IH]; [done|].
    rewrite filter_cons, decide_False by (apply Hnone; left).
    apply IH. intros t1 Ht1. apply Hnone. by right. }
  change (row_of (map (fun t1 => (to t1, rate t1)) [])) with (mkRow 0 [] []).
  cbn [totalRate]. by rewrite decide_True.
Qed.

Lemma sampleJump_absorbing_witness :
  sampleJump log_lower_bound (Some "A"%string) (buildJumpMap frozen_chain) half_rand 0
  = (Some "A"%string, None, 0%nat).
Proof.
  apply (sampleJump_absorbing log_lower_bound frozen_chain half_rand 0 "A").
  intros t0 Ht0. simpl in Ht0. by apply elem_of_nil in Ht0.
Defined.

(** ** sampleTrajectory follows the transitions of the chain *)

Lemma sampleJump_moves (Math_log : Qc -> Qc) (chain : CtmcDef) (rand : nat -> Qc)
    (k k' : nat) (s : string) (ns : option string) (h : Qc) :
  valid_chain chain = true -> s ∈ states chain -> rand (S k) < 1 ->
  sampleJump Math_log (Some s) (buildJumpMap chain) rand k = (ns, Some h, k') ->
  ∃ t0, t0 ∈ transitions chain ∧ from t0 = s ∧ ns = Some (to t0).
Proof.
  intros Hv Hs Hrand. unfold sampleJump. simpl.
  rewrite buildJumpMap_lookup, decide_True by done.
  set (l := default [] (group_by_from (transitions chain) !! s)).
  assert (Hl : l = map (fun t1 => (to t1, rate t1))
                       (filter (fun t1 => from t1 = s) (transitions chain)))
    by apply group_by_from_lookup.
  destruct (decide (totalRate (row_of l) = 0)) as [|Hne]; [done|].
  intros [= <- _ _].
  assert (Hpos : ∀ e, e ∈ l -> 0 < snd e).
  { intros e He. rewrite Hl in He.
    apply list_elem_of_fmap in He as (t1 & -> & Ht1%list_elem_of_filter). simpl.
    apply (valid_chain_transition chain t1 Hv). tauto. }
  destruct (row_of_spec l) as (Hto & Htot & Hlen).
  assert (Htotal : 0 < totalRate (row_of l)).
  { rewrite Htot in *. apply sum_Qc_pos; [|done].
    intros x (e & -> & He)%list_elem_of_fmap. by apply Hpos. }
  assert (Hu : rand (S k) * totalRate (row_of l) < totalRate (row_of l)).
  { rewrite <- (Qcmult_1_l (totalRate (row_of l))) at 2. by apply Qcmult_lt_compat_r. }
  assert (Hinc : strictly_increasing (cumul (mkRow 0 [] []))).
  { intros i j x y _ Hi. simpl in Hi. by rewrite lookup_nil in Hi. }
  assert (Hbound : ∀ c', c' ∈ cumul (mkRow 0 [] []) -> c' ≤ totalRate (mkRow 0 [] [])).
  { intros c' Hc'. simpl in Hc'. by apply elem_of_nil in Hc'. }
  destruct (extend_rows_cumul l (mkRow 0 [] []) Hpos Hinc Hbound) as (_ & _ & Hlast); [done|].
  fold (row_of l) in Hlast.
  assert (Hnonempty : cumul (row_of l) ≠ []).
  { intros Hnil. rewrite Hnil in Hlen. simpl in Hlen. symmetry in Hlen.
    apply length_zero_iff_nil in Hlen. rewrite Hlen in Hne. by apply Hne. }
  specialize (Hlast Hnonempty). rewrite last_lookup in Hlast.
  set (j := pred (length (cumul (row_of l)))) in *.
  assert (Hj : is_Some (row_to (row_of l) !! j)).
  { apply lookup_lt_is_Some. rewrite Hto, length_map, <- Hlen.
    by eapply lookup_lt_Some. }
  destruct Hj as [next Hnext].
  unfold pick_next.
  destruct (find _ _) as [[c nx]|] eqn:Hfind.
  - apply find_some in Hfind as [Hin _]. apply list_elem_of_In, elem_of_zip_r in Hin.
    rewrite Hto, Hl, map_map in Hin. simpl in Hin.
    apply list_elem_of_fmap in Hin as (t0 & -> & Ht0%list_elem_of_filter).
    exists t0. tauto.
  - exfalso.
    assert (Hin : (totalRate (row_of l), next) ∈ zip (cumul (row_of l)) (row_to (row_of l))).
    { apply (list_elem_of_lookup_2 _ j). rewrite lookup_zip_with, Hlast. simpl.
      by rewrite Hnext. }
    apply list_elem_of_In in Hin.
    pose proof (find_none _ _ Hfind _ Hin) as Hf. simpl in Hf.
    by apply bool_decide_eq_false in Hf.
Qed.

Lemma sampleTrajectory_pairs (Math_log : Qc -> Qc) (chain : CtmcDef) (maxTime : Qc)
    (rand : nat -> Qc) (fuel k k' : nat) (trajectory : list TrajectoryPoint) :
  valid_chain chain = true -> (∀ n, rand n < 1) ->
  sampleTrajectory Math_log fuel chain maxTime rand k = Ret (trajectory, k') ->
  ∀ i p p', trajectory !! i = Some p -> trajectory !! S i = Some p' ->
    ∃ t0, t0 ∈ transitions chain ∧ state p = Some (from t0) ∧ state p' = Some (to t0).
Proof.
  intros Hv Hrand. unfold sampleTrajectory.
  destruct (sampleFromDistribution_in (initialDistribution chain) (states chain) (rand k))
    as (start & -> & Hstart); [by apply valid_chain_states_nonempty|].
  intros Hrun.
  set (Inv := fun (tr : list TrajectoryPoint) (cs : option string) (_ : Qc) =>
    (∃ s, cs = Some s ∧ s ∈ states chain)
    ∧ (∃ p, last tr = Some p ∧ state p = cs)
    ∧ ∀ i p p', tr !! i = Some p -> tr !! S i = Some p' ->
        ∃ t0, t0 ∈ transitions chain ∧ state p = Some (from t0) ∧ state p' = Some (to t0)).
  assert (Hinit : Inv [mkPoint 0 (Some start)] (Some start) 0).
  { split; [eauto|]. split; [by eexists|]. intros i p p' _ Hp'. done. }
  assert (Hstep : ∀ tr0 cs ct k0 ns h k1,
     Inv tr0 cs ct -> ct < maxTime ->
     sampleJump Math_log cs (buildJumpMap chain) rand k0 = (ns, Some h, k1) ->
     ¬ maxTime ≤ ct + h ->
     Inv (tr0 ++ [mkPoint (ct + h) ns]) ns (ct + h)).
  { intros tr0 cs ct k0 ns h k1 ((s & -> & Hs) & (pl & Hlast & Hpl) & Hpairs) _ Hjump _.
    destruct (sampleJump_moves Math_log chain rand k0 k1 s ns h Hv Hs (Hrand _) Hjump)
      as (t0 & Ht0 & Hfrom & ->).
    split; [|split].
    - exists (to t0). split; [done|]. by apply (valid_chain_transition chain t0 Hv Ht0).
    - eexists. by rewrite last_snoc.
    - intros i p p' Hp Hp'.
      destruct (decide (S i < length tr0)%nat) as [Hlt|Hge].
      + rewrite lookup_app_l in Hp, Hp' by lia. by eapply Hpairs.
      + assert (S i = length tr0) as Hi.
        { apply lookup_lt_Some in Hp'. rewrite length_app in Hp'. simpl in Hp'. lia. }
        rewrite lookup_app_l in Hp by lia.
        rewrite lookup_app_r, Hi, Nat.sub_diag in Hp' by lia. injection Hp' as <-.
        rewrite last_lookup, <- Hi in Hlast. simpl in Hlast.
        assert (p = pl) as -> by congruence.
        exists t0. simpl. rewrite Hpl, Hfrom. done. }
  destruct (trajectory_loop_invariant Math_log (buildJumpMap chain) maxTime rand Inv Hstep
              fuel _ _ _ _ _ _ Hinit Hrun) as (cs' & ct' & _ & _ & Hpairs).
  exact Hpairs.
Qed.

(** The sampled path moves along transitions of the chain: for a valid
    chain and a random source with values below 1, any two consecutive
    events of a trajectory that [sampleTrajectory] returns are the source
    and the target of a transition of the chain (so they differ). *)
Theorem sampleTrajectory_follows_transitions (Math_log : Qc -> Qc) (chain : CtmcDef)
    (maxTime : Qc) (rand : nat -> Qc) (fuel k : nat) (trajectory : list TrajectoryPoint)
    (k' : nat) :
  valid_chain chain = true -> (∀ n, rand n < 1) ->
  sampleTrajectory Math_log fuel chain maxTime rand k = Ret (trajectory, k') ->
  ∀ i p p', trajectory !! i = Some p -> trajectory !! S i = Some p' ->
    ∃ t0, t0 ∈ transitions chain
      ∧ state p = Some (from t0) ∧ state p' = Some (to t0) ∧ state p ≠ state p'.
Proof.
  intros Hv Hrand Hrun i p p' Hp Hp'.
  destruct (sampleTrajectory_pairs Math_log chain maxTime rand fuel k k' trajectory
              Hv Hrand Hrun i p p' Hp Hp') as (t0 & Ht0 & Hfrom & Hto).
  exists t0. repeat split; try done.
  rewrite Hfrom, Hto. intros [= Heq].
  by apply (valid_chain_transition chain t0 Hv Ht0).
Qed.

Lemma sampleTrajectory_follows_transitions_witness :
  sampleTrajectory log_lower_bound 3 two_state_chain (1 + 1 + 1) half_rand 0%nat
  = Ret ([mkPoint 0 (Some "A"%string); mkPoint 1 (Some "B"%string);
          mkPoint (1 + 1) (Some "A"%string)], 7%nat)
  ∧ ∀ i p p',
      [mkPoint 0 (Some "A"%string); mkPoint 1 (Some "B"%string);
       mkPoint (1 + 1) (Some "A"%string)] !! i = Some p ->
      [mkPoint 0 (Some "A"%string); mkPoint 1 (Some "B"%string);
       mkPoint (1 + 1) (Some "A"%string)] !! S i = Some p' ->
      ∃ t0, t0 ∈ transitions two_state_chain
        ∧ state p = Some (from t0) ∧ state p' = Some (to t0) ∧ state p ≠ state p'.
Proof.
  assert (Hrun : sampleTrajectory log_lower_bound 3 two_state_chain (1 + 1 + 1) half_rand 0%nat
                 = Ret ([mkPoint 0 (Some "A"%string); mkPoint 1 (Some "B"%string);
                         mkPoint (1 + 1) (Some "A"%string)], 7%nat)).
  { apply (bool_decide_unpack _). vm_compute. exact I. }
  split; [exact Hrun|].
  apply (sampleTrajectory_follows_transitions log_lower_bound two_state_chain (1 + 1 + 1)
           half_rand 3 0 _ 7).
  - vm_compute. reflexivity.
  - intros n. apply (bool_decide_unpack _). vm_compute. exact I.
  - exact Hrun.
Defined.

(** ** The time grid of runSimulation *)

Lemma time_points_lookup (n : nat) (maxTime : Qc) (i : nat) :
  (i < n)%nat ->
  time_points n maxTime !! i
  = Some (Q2Qc (inject_Z (Z.of_nat i)) / Q2Qc (inject_Z (Z.of_nat (n - 1))) * maxTime).
Proof.
  intros Hi. unfold time_points.
  change (map ?f ?l) with (f <$> l). rewrite list_lookup_fmap, lookup_seq_lt by done. done.
Qed.



(** ** Strings *)

Lemma append_nil_l (s : string) : "" +:+ s = s.
Proof. reflexivity. Qed.

Lemma append_cons (c : ascii) (a b : string) : String c a +:+ b = String c (a +:+ b).
Proof. reflexivity. Qed.

Lemma append_nil_r (s : string) : s +:+ "" = s.
Proof. induction s as [|c s IH]; [done|]. by rewrite append_cons, IH. Qed.

Lemma append_assoc (a b c : string) : (a +:+ b) +:+ c = a +:+ (b +:+ c).
Proof. induction a as [|x a IH]; [done|]. by rewrite !append_cons, IH. Qed.

Lemma length_append (a b : string) :
  String.length (a +:+ b) = (String.length a + String.length b)%nat.
Proof. induction a as [|x a IH]; [done|]. rewrite append_cons. simpl. by rewrite IH. Qed.

Lemma string_forall_append (p : ascii -> bool) (a b : string) :
  string_forall p (a +:+ b) = string_forall p a && string_forall p b.
Proof.
  induction a as [|x a IH]; [done|]. rewrite append_cons. simpl.
  rewrite IH. by rewrite andb_assoc.
Qed.

Lemma string_forall_impl (p q : ascii -> bool) (s : string) :
  (∀ c, p c = true -> q c = true) -> string_forall p s = true -> string_forall q s = true.
Proof.
  intros Hpq. induction s as [|c s IH]; simpl; [done|].
  rewrite !andb_true_iff. intros [H1 H2]. split; [by apply Hpq|by apply IH].
Qed.

Lemma rev_app_spec (s a b : string) :
  String.rev_app (String.rev_app s a) b = String.rev_app a (s +:+ b).
Proof.
  revert a b. induction s as [|c s IH]; intros a b; simpl; [done|].
  by rewrite IH.
Qed.

Lemma rev_rev (s : string) : String.rev (String.rev s) = s.
Proof. unfold String.rev. rewrite rev_app_spec. simpl. apply append_nil_r. Qed.

Lemma rev_app_append (s a : string) : String.rev_app s a = String.rev s +:+ a.
Proof.
  unfold String.rev. revert a. induction s as [|c s IH]; intros a; simpl; [done|].
  rewrite (IH (String c a)), (IH (String c "")), append_assoc. done.
Qed.

Lemma rev_cons (c : ascii) (s : string) : String.rev (String c s) = String.rev s +:+ String c "".
Proof. unfold String.rev at 1. simpl. apply rev_app_append. Qed.

Lemma rev_append (a b : string) : String.rev (a +:+ b) = String.rev b +:+ String.rev a.
Proof.
  induction a as [|c a IH].
  - rewrite append_nil_l. change (String.rev "") with "". by rewrite append_nil_r.
  - by rewrite append_cons, !rev_cons, IH, append_assoc.
Qed.

Lemma string_forall_rev (p : ascii -> bool) (s : string) :
  string_forall p (String.rev s) = string_forall p s.
Proof.
  induction s as [|c s IH]; [done|].
  rewrite rev_cons, string_forall_append, IH. simpl.
  by rewrite andb_true_r, andb_comm.
Qed.

(** *** trim *)

Lemma trim_start_all_space (s : string) :
  string_forall is_space s = true -> trim_start s = "".
Proof.
  induction s as [|c s IH]; simpl; [done|]. rewrite andb_true_iff. intros [-> H]. by apply IH.
Qed.

Lemma trim_start_empty (s : string) :
  trim_start s = "" -> string_forall is_space s = true.
Proof.
  induction s as [|c s IH]; simpl; [done|]. destruct (is_space c); [|done]. apply IH.
Qed.

Lemma trim_start_head (s : string) (c : ascii) (s' : string) :
  trim_start s = String c s' -> is_space c = false.
Proof.
  induction s as [|x s IH]; simpl; [done|].
  destruct (is_space x) eqn:Hx; [apply IH|]. by intros [= <- <-].
Qed.

Lemma trim_start_id (c : ascii) (s : string) :
  is_space c = false -> trim_start (String c s) = String c s.
Proof. intros H. simpl. by rewrite H. Qed.

Lemma trim_start_space (c : ascii) (s : string) :
  is_space c = true -> trim_start (String c s) = trim_start s.
Proof. intros H. simpl. by rewrite H. Qed.

Lemma rev_empty (s : string) : String.rev s = "" -> s = "".
Proof. intros H. rewrite <- (rev_rev s), H. done. Qed.

Lemma trim_empty_iff (s : string) : trim s = "" ↔ string_forall is_space s = true.
Proof.
  unfold trim, trim_end. split.
  - intros H%rev_empty%trim_start_empty. rewrite string_forall_rev in H.
    destruct (trim_start s) as [|c t] eqn:Ht; [by apply trim_start_empty|].
    apply trim_start_head in Ht. simpl in H. by rewrite Ht in H.
  - intros H. by rewrite (trim_start_all_space s H).
Qed.



Lemma trim_end_clean (s : string) : ends_clean s = true -> trim_end s = s.
Proof.
  unfold ends_clean, trim_end. destruct (String.rev s) as [|d r] eqn:Hr; [done|].
  intros Hd%negb_true_iff. rewrite trim_start_id by done. by rewrite <- Hr, rev_rev.
Qed.

Lemma trim_clean (s : string) : starts_clean s = true -> ends_clean s = true -> trim s = s.
Proof.
  intros Hs He. unfold trim. destruct s as [|c s]; [done|].
  simpl in Hs. apply negb_true_iff in Hs. rewrite trim_start_id by done.
  by apply trim_end_clean.
Qed.

Lemma ends_clean_append (a b : string) : ends_clean b = true -> ends_clean (a +:+ b) = true.
Proof.
  unfold ends_clean. rewrite rev_append. destruct (String.rev b) as [|d r]; [done|].
  by rewrite append_cons.
Qed.

Lemma starts_clean_append (a b : string) : starts_clean a = true -> starts_clean (a +:+ b) = true.
Proof. destruct a as [|c a]; [done|]. by rewrite append_cons. Qed.

Lemma trim_space_l (c : ascii) (s : string) : is_space c = true -> trim (String c s) = trim s.
Proof. intros H. unfold trim. by rewrite trim_start_space. Qed.

(** ** parseCtmcDSL on blank texts *)

Lemma pfold_Failed {A B : Type} (f : A -> B -> parsing A) (l : list B) (a : A)
    (e : parse_error) :
  pfold f a l = Failed e -> ∃ a' x, x ∈ l ∧ f a' x = Failed e.
Proof.
  revert a. induction l as [|x l IH]; intros a; simpl; [done|].
  destruct (f a x) as [a1|e1] eqn:Hf; simpl.
  - intros (a' & y & Hy & Hfy)%IH. exists a', y. split; [by right|done].
  - intros [= <-]. exists a, x. split; [left|done].
Qed.

Lemma add_transition_error (sts : list string) (ts : list CtmcTransition) (part : string)
    (e : parse_error) :
  add_transition sts ts part = Failed e -> e ≠ DefinitionIsEmpty.
Proof.
  unfold add_transition. destruct (rate_match (trim part)) as [[[m1 m2] m3]|]; [|done].
  repeat (destruct (decide _); try (by intros [= <-])).
  destruct (parseFloat m3); [|by intros [= <-]].
  destruct (decide _); by intros [= <-].
Qed.

Lemma parse_body_error (trimmed : string) (e : parse_error) :
  parse_body trimmed = Failed e -> e ≠ DefinitionIsEmpty.
Proof.
  unfold parse_body.
  destruct (pfold scan_line _ _) as [st|e0] eqn:Hscan; simpl.
  2:{ intros [= <-]. apply pfold_Failed in Hscan as (st' & line & _ & Hline).
      unfold scan_line in Hline. destruct (_ =? _)%nat; [done|].
      destruct (header_of _) as [[sec part]|].
      - by destruct (_ =? _)%nat.
      - destruct (section st'); [done|]. by injection Hline as <-. }
  destruct (_ =? _)%nat; [by intros [= <-]|].
  destruct (pfold add_state _ _) as [sts|e0] eqn:Hsts; simpl.
  2:{ intros [= <-]. apply pfold_Failed in Hsts as (seen & n & _ & Hn).
      unfold add_state in Hn. destruct (decide _); [|done]. by injection Hn as <-. }
  destruct (_ =? _)%nat; [by intros [= <-]|].
  destruct (_ =? _)%nat; [by intros [= <-]|].
  destruct (parse_initial _ _) as [mu|e0] eqn:Hmu; simpl.
  2:{ intros [= <-]. unfold parse_initial in Hmu. destruct (String.eqb _ _); [done|].
      destruct (pfold (add_probability sts) _ _) as [mu|e1] eqn:Hp; simpl in Hmu.
      - destruct (decide _); [|done]. by injection Hmu as <-.
      - injection Hmu as <-. apply pfold_Failed in Hp as (mu' & m & _ & Hm).
        unfold add_probability in Hm. destruct (decide _); [|by injection Hm as <-].
        destruct (parseFloat _); [|by injection Hm as <-].
        destruct (decide _); [|done]. by injection Hm as <-. }
  destruct (pfold (parse_rate_line sts) _ _) as [ts|e0] eqn:Hts; simpl.
  2:{ intros [= <-]. apply pfold_Failed in Hts as (ts' & line & _ & Hline).
      unfold parse_rate_line in Hline.
      apply pfold_Failed in Hline as (ts'' & part & _ & Hpart).
      by eapply add_transition_error. }
  destruct (section st) as [[]|]; by intros [= <-].
Qed.

(** [parseCtmcDSL] reports an empty definition exactly for the texts that
    consist of white space only (the empty text included). *)
Theorem parseCtmcDSL_empty_iff (text : string) :
  parseCtmcDSL text = ParseError DefinitionIsEmpty ↔ string_forall is_space text = true.
Proof.
  unfold parseCtmcDSL. rewrite <- trim_empty_iff.
  destruct (trim text) as [|c s] eqn:Ht; simpl; [done|].
  split; [|done].
  destruct (parse_body (String c s)) as [chain|e] eqn:Hbody; [done|].
  intros [= ->]. by apply parse_body_error in Hbody.
Qed.

(** *** split and join *)


Lemma split_no_sep (sep : ascii) (a : string) :
  string_forall (is_not sep) a = true -> split sep a = [a].
Proof.
  induction a as [|c a IH]; simpl; [done|]. unfold is_not at 1.
  rewrite andb_true_iff, negb_true_iff. intros [-> Ha]. by rewrite IH.
Qed.

Lemma split_append (sep : ascii) (a b : string) :
  string_forall (is_not sep) a = true ->
  split sep (a +:+ String sep b) = a :: split sep b.
Proof.
  induction a as [|c a IH].
  - intros _. rewrite append_nil_l. simpl. by rewrite Ascii.eqb_refl.
  - intros H. rewrite append_cons. simpl in *. unfold is_not at 1 in H.
    apply andb_true_iff in H as [Hc%negb_true_iff Ha]. by rewrite Hc, IH.
Qed.

Lemma join_comma_cons (x : string) (l : list string) :
  l ≠ [] -> join_comma (x :: l) = x +:+ String "," (join_comma l).
Proof. destruct l; [done|]. intros _. reflexivity. Qed.

Lemma split_join_comma (l : list string) :
  l ≠ [] -> Forall (fun x => string_forall (is_not ",") x = true) l ->
  split "," (join_comma l) = l.
Proof.
  induction l as [|x l IH]; [done|]. intros _ Hall.
  apply Forall_cons in Hall as [Hx Hl]. destruct l as [|y l].
  - simpl. by apply split_no_sep.
  - rewrite join_comma_cons by done. rewrite split_append by done. by rewrite IH.
Qed.

Lemma string_forall_join_comma (p : ascii -> bool) (l : list string) :
  p ","%char = true -> Forall (fun x => string_forall p x = true) l ->
  string_forall p (join_comma l) = true.
Proof.
  intros Hp. induction l as [|x l IH]; [done|]. intros Hall.
  apply Forall_cons in Hall as [Hx Hl]. destruct l as [|y l]; [done|].
  rewrite join_comma_cons by done. rewrite string_forall_append, Hx. simpl.
  rewrite Hp. simpl. by apply IH.
Qed.

Lemma ends_clean_join_comma (l : list string) :
  l ≠ [] -> Forall (fun x => ends_clean x = true) l -> ends_clean (join_comma l) = true.
Proof.
  induction l as [|x l IH]; [done|]. intros _ Hall.
  apply Forall_cons in Hall as [Hx Hl]. destruct l as [|y l]; [done|].
  rewrite join_comma_cons by done. apply ends_clean_append.
  change (String "," (join_comma (y :: l))) with (String "," "" +:+ join_comma (y :: l)).
  apply ends_clean_append. by apply IH.
Qed.

(** The list [" " ++ x1, " " ++ x2, ...] joined by commas is a space
    followed by [x1, " " ++ x2, ...] joined by commas. *)
Lemma join_comma_spaced (x : string) (l : list string) :
  join_comma (map (append " ") (x :: l)) = " " +:+ join_comma (x :: map (append " ") l).
Proof.
  destruct l as [|y l]; [done|].
  cbn [map]. rewrite !join_comma_cons by done. by rewrite append_assoc.
Qed.

(** *** Names and numbers *)

Lemma string_forall_nonempty_ends (p : ascii -> bool) (s : string) :
  (∀ c, p c = true -> is_space c = false) ->
  is_empty s = false -> string_forall p s = true ->
  starts_clean s = true ∧ ends_clean s = true.
Proof.
  intros Hp Hne Hall. split.
  - destruct s as [|c s]; [done|]. simpl in *. apply andb_true_iff in Hall as [Hc _].
    by rewrite (Hp c Hc).
  - unfold ends_clean. rewrite <- string_forall_rev in Hall.
    destruct (String.rev s) as [|d r] eqn:Hr.
    + apply rev_empty in Hr. by subst.
    + simpl in Hall. apply andb_true_iff in Hall as [Hd _]. by rewrite (Hp d Hd).
Qed.

Lemma plain_name_facts (n : string) :
  plain_name n = true ->
  is_empty n = false
  ∧ string_forall (fun c => negb (is_space c)) n = true
  ∧ string_forall (is_not ",") n = true
  ∧ string_forall (is_not "010") n = true
  ∧ starts_clean n = true ∧ ends_clean n = true.
Proof.
  unfold plain_name. rewrite andb_true_iff, negb_true_iff. intros [Hne Hall].
  split; [done|]. split; [|split; [|split]].
  - eapply string_forall_impl; [|done]. intros c. rewrite andb_true_iff. tauto.
  - eapply string_forall_impl; [|done]. intros c. rewrite andb_true_iff. unfold is_not. tauto.
  - eapply string_forall_impl; [|done]. intros c. rewrite andb_true_iff, negb_true_iff.
    intros [Hc _]. unfold is_not. apply negb_true_iff. apply Ascii.eqb_neq. intros ->. done.
  - eapply string_forall_nonempty_ends; [|done|done].
    intros c. rewrite andb_true_iff, negb_true_iff. tauto.
Qed.

Lemma is_digit_or_dot_facts (c : ascii) :
  is_digit_or_dot c = true ->
  is_space c = false ∧ is_not "," c = true ∧ is_not "010" c = true.
Proof.
  intros H. repeat split.
  - destruct (is_space c) eqn:Hs; [|done]. exfalso. revert H Hs.
    unfold is_digit_or_dot, is_digit, is_space.
    destruct (Ascii.eqb_spec c "."%char) as [->|_]; [done|].
    rewrite orb_false_r, andb_true_iff, orb_true_iff, andb_true_iff, !Nat.leb_le, Nat.eqb_eq.
    lia.
  - unfold is_not. apply negb_true_iff, Ascii.eqb_neq. intros ->. done.
  - unfold is_not. apply negb_true_iff, Ascii.eqb_neq. intros ->. done.
Qed.

Lemma number_text_facts (n : string) :
  number_text n = true ->
  is_empty n = false
  ∧ string_forall is_digit_or_dot n = true
  ∧ string_forall (is_not ",") n = true
  ∧ string_forall (is_not "010") n = true
  ∧ ends_clean n = true.
Proof.
  unfold number_text. rewrite andb_true_iff, negb_true_iff. intros [Hne Hall].
  split; [done|]. split; [done|]. split; [|split].
  - eapply string_forall_impl; [|done]. intros c Hc. by apply is_digit_or_dot_facts.
  - eapply string_forall_impl; [|done]. intros c Hc. by apply is_digit_or_dot_facts.
  - eapply (string_forall_nonempty_ends is_digit_or_dot); [|done|done].
    intros c Hc. by apply is_digit_or_dot_facts.
Qed.

(** *** The rate pattern on a rendered entry *)

Lemma span_prefix (p : ascii -> bool) (a : string) (c : ascii) (b : string) :
  string_forall p a = true -> p c = false -> span p (a +:+ String c b) = (a, String c b).
Proof.
  intros Ha Hc. induction a as [|x a IH].
  - rewrite append_nil_l. simpl. by rewrite Hc.
  - rewrite append_cons. simpl in *. apply andb_true_iff in Ha as [-> Ha]. by rewrite IH.
Qed.

Lemma span_all (p : ascii -> bool) (a : string) :
  string_forall p a = true -> span p a = (a, "").
Proof.
  induction a as [|x a IH]; simpl; [done|].
  rewrite andb_true_iff. intros [-> Ha]. by rewrite IH.
Qed.

Lemma skip_append (a b : string) : skip (String.length a) (a +:+ b) = b.
Proof. induction a as [|x a IH]; [by destruct b|]. rewrite append_cons. simpl. apply IH. Qed.

Lemma take_append (a b : string) : take (String.length a) (a +:+ b) = a.
Proof.
  induction a as [|x a IH]; [by destruct b|]. rewrite append_cons. simpl. by rewrite IH.
Qed.

Lemma match_colon_number_rendered (num : string) :
  number_text num = true -> match_colon_number (" : " +:+ num) = Some (num, "").
Proof.
  intros (Hne & Hall & _)%number_text_facts. unfold match_colon_number.
  change (trim_start (" : " +:+ num)) with (":" +:+ " " +:+ num).
  change (strip_prefix ":" (":" +:+ " " +:+ num)) with (Some (" " +:+ num)).
  cbn match.
  change (trim_start (" " +:+ num)) with (trim_start num).
  destruct num as [|d num]; [done|].
  assert (Hd : is_space d = false).
  { simpl in Hall. apply andb_true_iff in Hall as [Hd _]. by apply is_digit_or_dot_facts. }
  rewrite trim_start_id by done. rewrite span_all by done. done.
Qed.

Lemma length_pos_S (s : string) : is_empty s = false -> ∃ k, String.length s = S k.
Proof. destruct s as [|c s]; [done|]. intros _. by exists (String.length s). Qed.

Lemma rate_match_to_rendered (to_ num : string) :
  plain_name to_ = true -> number_text num = true ->
  rate_match_to (String.length (fst (span (fun c => negb (is_space c)) (to_ +:+ " : " +:+ num))))
                (to_ +:+ " : " +:+ num)
  = Some (to_, num).
Proof.
  intros (Hne & Hns & _)%plain_name_facts Hnum.
  change (" : " +:+ num) with (String " " (": " +:+ num)).
  rewrite span_prefix by done. cbn [fst].
  destruct (length_pos_S to_ Hne) as [k Hk]. rewrite Hk. cbn [rate_match_to].
  rewrite <- Hk, skip_append, take_append.
  change (String " " (": " +:+ num)) with (" : " +:+ num).
  by rewrite match_colon_number_rendered.
Qed.

Lemma rate_match_rendered (e : rate_entry) :
  plain_name (entry_from e) = true -> plain_name (entry_to e) = true ->
  number_text (entry_rate e) = true ->
  rate_match (render_entry e) = Some (entry_from e, entry_to e, entry_rate e).
Proof.
  intros Hfrom Hto Hnum. destruct e as [from_ to_ num]. simpl in *.
  pose proof Hfrom as (Hne & Hns & _ & _ & Hstart & _)%plain_name_facts.
  unfold rate_match, render_entry. simpl.
  assert (Hts : trim_start (from_ +:+ " -> " +:+ to_ +:+ " : " +:+ num)
                = from_ +:+ " -> " +:+ to_ +:+ " : " +:+ num).
  { destruct from_ as [|c f]; [done|]. rewrite append_cons. apply trim_start_id.
    simpl in Hstart. by apply negb_true_iff. }
  rewrite Hts.
  change (" -> " +:+ to_ +:+ " : " +:+ num) with (String " " ("-> " +:+ to_ +:+ " : " +:+ num)).
  rewrite span_prefix by done. cbn [fst].
  destruct (length_pos_S from_ Hne) as [k Hk]. rewrite Hk. cbn [rate_match_from].
  rewrite <- Hk, skip_append, take_append.
  change (trim_start (String " " ("-> " +:+ to_ +:+ " : " +:+ num)))
    with ("->" +:+ " " +:+ to_ +:+ " : " +:+ num).
  change (strip_prefix "->" ("->" +:+ " " +:+ to_ +:+ " : " +:+ num))
    with (Some (" " +:+ to_ +:+ " : " +:+ num)).
  cbn match.
  change (trim_start (" " +:+ to_ +:+ " : " +:+ num))
    with (trim_start (to_ +:+ " : " +:+ num)).
  pose proof Hto as (Hne2 & _ & _ & _ & Hstart2 & _)%plain_name_facts.
  assert (Hts2 : trim_start (to_ +:+ " : " +:+ num) = to_ +:+ " : " +:+ num).
  { destruct to_ as [|c f]; [done|]. rewrite append_cons. apply trim_start_id.
    simpl in Hstart2. by apply negb_true_iff. }
  rewrite Hts2, rate_match_to_rendered by done. done.
Qed.

(** *** The pieces of a canonical text *)

Lemma render_entry_facts (e : rate_entry) :
  renderable_entry e ->
  starts_clean (render_entry e) = true ∧ ends_clean (render_entry e) = true
  ∧ string_forall (is_not ",") (render_entry e) = true
  ∧ string_forall (is_not "010") (render_entry e) = true.
Proof.
  intros (Hpf & Hpt & Hnum).
  pose proof Hpf as (_ & _ & Hc1 & Hn1 & Hs1 & _)%plain_name_facts.
  pose proof Hpt as (_ & _ & Hc2 & Hn2 & _)%plain_name_facts.
  pose proof Hnum as (_ & _ & Hc3 & Hn3 & He3)%number_text_facts.
  repeat split; try done; unfold render_entry.
  - by apply starts_clean_append.
  - by do 4 apply ends_clean_append.
  - rewrite !string_forall_append, Hc1, Hc2, Hc3. done.
  - rewrite !string_forall_append, Hn1, Hn2, Hn3. done.
Qed.

Lemma well_formed_renderable (names : list string) (e : rate_entry) :
  Forall (fun n => plain_name n = true) names -> well_formed_entry names e ->
  renderable_entry e.
Proof.
  intros Hnames (Hfrom & Hto & _ & Hnum & _). rewrite Forall_forall in Hnames.
  split; [by apply Hnames|]. split; [by apply Hnames|done].
Qed.

Lemma trim_plain (n : string) : plain_name n = true -> trim n = n.
Proof. intros (_ & _ & _ & _ & Hs & He)%plain_name_facts. by apply trim_clean. Qed.

Lemma trim_spaced (s : string) :
  starts_clean s = true -> ends_clean s = true -> trim (" " +:+ s) = s.
Proof.
  intros Hs He. change (" " +:+ s) with (String " " s).
  rewrite trim_space_l by done. by apply trim_clean.
Qed.

Lemma add_transition_rendered (names : list string) (ts : list CtmcTransition)
    (e : rate_entry) :
  Forall (fun n => plain_name n = true) names -> well_formed_entry names e ->
  add_transition names ts (render_entry e) = Continue (ts ++ [described_transition e]).
Proof.
  intros Hnames Hwf.
  pose proof (well_formed_renderable names e Hnames Hwf) as Hr.
  destruct (render_entry_facts e Hr) as (Hs & He & _).
  destruct Hr as (Hpf & Hpt & Hnum).
  destruct Hwf as (Hfrom & Hto & Hne & _ & Hpos).
  unfold add_transition. rewrite trim_clean, rate_match_rendered by done.
  rewrite !trim_plain by done.
  rewrite decide_True by done. rewrite decide_True by done. rewrite decide_False by done.
  unfold described_transition.
  destruct (parseFloat (entry_rate e)) as [r|]; simpl in *.
  - rewrite decide_False; [done|]. by apply Qclt_not_le.
  - by apply Qclt_not_eq in Hpos.
Qed.


Lemma add_transition_trim (names : list string) (ts : list CtmcTransition)
    (part part' : string) :
  trim part = trim part' -> add_transition names ts part = add_transition names ts part'.
Proof. intros H. unfold add_transition. by rewrite H. Qed.

Lemma add_transitions_read (names : list string) (es : list rate_entry) :
  ∀ parts ts, Forall2 (fun part e => trim part = trim (render_entry e)) parts es ->
    pfold (add_transition names) ts parts = pfold (read_entry names) ts es.
Proof.
  induction es as [|e es IH]; intros parts ts Hparts.
  - by apply Forall2_nil_inv_r in Hparts as ->.
  - apply Forall2_cons_inv_r in Hparts as (part & parts' & Hpart & Hparts' & ->).
    cbn [pfold]. unfold read_entry at 1.
    rewrite (add_transition_trim names ts part (render_entry e) Hpart).
    destruct (add_transition names ts (render_entry e)); simpl; [|done]. by apply IH.
Qed.

(** The Rates line: what follows the header, trimmed, and the entries
    read from it. *)
Lemma rate_lines_rendered (names : list string) (es : list rate_entry) :
  Forall renderable_entry es ->
  let R := join_comma (map (fun e => " " +:+ render_entry e) es) in
  string_forall (is_not "010") R = true
  ∧ (es ≠ [] -> ends_clean R = true)
  ∧ pfold (parse_rate_line names) []
          (if is_empty (trim R) then [] else [trim R])
    = pfold (read_entry names) [] es.
Proof.
  intros Hwf R.
  assert (Hfacts : ∀ e, e ∈ es ->
    starts_clean (render_entry e) = true ∧ ends_clean (render_entry e) = true
    ∧ string_forall (is_not ",") (render_entry e) = true
    ∧ string_forall (is_not "010") (render_entry e) = true).
  { intros e He. rewrite Forall_forall in Hwf. by apply render_entry_facts, Hwf. }
  split; [|split].
  - apply string_forall_join_comma; [done|]. apply Forall_forall.
    intros x (e & -> & He)%list_elem_of_fmap.
    change (" " +:+ render_entry e) with (String " " (render_entry e)). simpl.
    by apply Hfacts.
  - intros Hne. apply ends_clean_join_comma.
    + by destruct es.
    + apply Forall_forall. intros x (e & -> & He)%list_elem_of_fmap.
      apply ends_clean_append. by apply Hfacts.
  - destruct es as [|e es]; [done|].
    assert (HR : R = " " +:+ join_comma (render_entry e :: map (fun e => " " +:+ render_entry e) es)).
    { unfold R. rewrite <- (map_map render_entry (append " ")). cbn [map].
      rewrite <- (map_map render_entry (append " ")).
      apply (join_comma_spaced (render_entry e) (map render_entry es)). }
    set (R' := join_comma (render_entry e :: map (fun e => " " +:+ render_entry e) es)) in *.
    assert (Hs : starts_clean R' = true).
    { unfold R'. destruct (map _ es) eqn:Hm.
      - simpl. apply Hfacts. left.
      - rewrite join_comma_cons by done. apply starts_clean_append. apply Hfacts. left. }
    assert (He : ends_clean R' = true).
    { apply ends_clean_join_comma; [done|]. apply Forall_cons. split; [apply Hfacts; left|].
      apply Forall_forall. intros x (e' & -> & He')%list_elem_of_fmap.
      apply ends_clean_append. apply Hfacts. by right. }
    rewrite HR, trim_spaced by done.
    assert (is_empty R' = false) as ->.
    { destruct R'; [done|done]. }
    change (pfold (parse_rate_line names) [] [R'])
      with (pbind (parse_rate_line names [] R') (fun ts => Continue ts)).
    unfold parse_rate_line.
    assert (Hsplit : split "," R' = render_entry e :: map (fun e => " " +:+ render_entry e) es).
    { apply split_join_comma; [done|]. apply Forall_cons. split; [apply Hfacts; left|].
      apply Forall_forall. intros x (e' & -> & He')%list_elem_of_fmap.
      change (" " +:+ render_entry e') with (String " " (render_entry e')). simpl.
      apply Hfacts. by right. }
    rewrite Hsplit.
    rewrite (add_transitions_read names (e :: es)).
    + by destruct (pfold (read_entry names) [] (e :: es)).
    + apply Forall2_cons. split; [done|].
      apply Forall2_fmap_l, Forall_Forall2_diag, Forall_forall. intros e' He'.
      unfold compose. rewrite trim_spaced, trim_clean; try done; apply Hfacts; by right.
Qed.

(** The States line: what follows the header, trimmed, and the names read
    from it. *)
Lemma state_names_rendered (names : list string) :
  names ≠ [] -> Forall (fun n => plain_name n = true) names ->
  let X := join_comma (map (append " ") names) in
  string_forall (is_not "010") X = true
  ∧ ends_clean X = true
  ∧ is_empty (trim X) = false
  ∧ filter (fun s => negb (is_empty s)) (map trim (split "," (trim X))) = names.
Proof.
  intros Hne Hnames X. rewrite Forall_forall in Hnames.
  assert (Hfacts : ∀ n, n ∈ names -> _) by (intros n Hn; exact (plain_name_facts n (Hnames n Hn))).
  destruct names as [|n names]; [done|].
  assert (HX : X = " " +:+ join_comma (n :: map (append " ") names)) by apply join_comma_spaced.
  set (Y := join_comma (n :: map (append " ") names)) in *.
  assert (Hs : starts_clean Y = true).
  { unfold Y. destruct (map _ names) eqn:Hm.
    - simpl. apply Hfacts. left.
    - rewrite join_comma_cons by done. apply starts_clean_append. apply Hfacts. left. }
  assert (He : ends_clean Y = true).
  { apply ends_clean_join_comma; [done|]. apply Forall_cons. split; [apply Hfacts; left|].
    apply Forall_forall. intros x (n' & -> & Hn')%list_elem_of_fmap.
    apply ends_clean_append. apply Hfacts. by right. }
  split; [|split; [|split]].
  - apply string_forall_join_comma; [done|]. apply Forall_forall.
    intros x (n' & -> & Hn')%list_elem_of_fmap.
    change (" " +:+ n') with (String " " n'). simpl. by apply Hfacts.
  - rewrite HX. by apply ends_clean_append.
  - rewrite HX, trim_spaced by done. by destruct Y.
  - rewrite HX, trim_spaced by done.
    assert (Hsplit : split "," Y = n :: map (append " ") names).
    { apply split_join_comma; [done|]. apply Forall_cons. split; [apply Hfacts; left|].
      apply Forall_forall. intros x (n' & -> & Hn')%list_elem_of_fmap.
      change (" " +:+ n') with (String " " n'). simpl. apply Hfacts. by right. }
    rewrite Hsplit. cbn [map]. rewrite trim_plain by (apply Hnames; left).
    rewrite map_map.
    assert (Hmap : map (fun x => trim (" " +:+ x)) names = names).
    { rewrite <- (map_id names) at 2. apply map_ext_in. intros n' Hn'%list_elem_of_In.
      apply trim_spaced; apply Hfacts; by right. }
    rewrite Hmap.
    assert (Hfilter : ∀ l : list string, (∀ x, x ∈ l -> is_empty x = false) ->
              filter (fun s => negb (is_empty s)) l = l).
    { induction l as [|x l IH]; intros Hl; [done|].
      rewrite filter_cons, decide_True by (by rewrite (Hl x) by left).
      f_equal. apply IH. intros; apply Hl; by right. }
    apply Hfilter. intros x Hx. by apply Hfacts.
Qed.

(** *** The three lines *)

Lemma scan_line_states (st : scan_state) (X : string) :
  ends_clean X = true -> is_empty (trim X) = false ->
  scan_line st ("States:" +:+ X) = Continue (push_line st SecStates (trim X)).
Proof.
  intros He Hne. unfold scan_line.
  rewrite trim_clean by (by apply starts_clean_append || by apply ends_clean_append).
  rewrite length_append. cbn [String.length Nat.add Nat.eqb].
  assert (header_of ("States:" +:+ X) = Some (SecStates, trim X)) as -> by reflexivity.
  unfold is_empty in Hne. by rewrite Hne.
Qed.

Lemma scan_line_initial (st : scan_state) (initial : string) :
  starts_clean initial = true -> ends_clean initial = true ->
  scan_line st ("Initial distribution: " +:+ initial)
  = Continue (push_line st SecInitial initial).
Proof.
  intros Hs He. unfold scan_line.
  rewrite trim_clean by (by apply starts_clean_append || by apply ends_clean_append).
  rewrite length_append. cbn [String.length Nat.add Nat.eqb].
  assert (header_of ("Initial distribution: " +:+ initial)
          = Some (SecInitial, trim (" " +:+ initial))) as -> by reflexivity.
  rewrite trim_spaced by done. destruct initial as [|c i]; [done|]. done.
Qed.

Lemma scan_line_rates (st : scan_state) (R : string) :
  ends_clean ("Rates:" +:+ R) = true ->
  scan_line st ("Rates:" +:+ R)
  = Continue (if is_empty (trim R) then set_section st SecRates
              else push_line st SecRates (trim R)).
Proof.
  intros He. unfold scan_line.
  rewrite trim_clean by (by apply starts_clean_append || done).
  rewrite length_append. cbn [String.length Nat.add Nat.eqb].
  assert (header_of ("Rates:" +:+ R) = Some (SecRates, trim R)) as -> by reflexivity.
  unfold is_empty. by destruct (_ =? _)%nat.
Qed.

Lemma pfold_add_state_NoDup (names seen : list string) :
  NoDup (seen ++ names) -> pfold add_state seen names = Continue (seen ++ names).
Proof.
  revert seen. induction names as [|n names IH]; intros seen Hnd; simpl.
  - by rewrite app_nil_r.
  - unfold add_state at 1. rewrite decide_False.
    + simpl. rewrite IH; [by rewrite <- app_assoc|]. by rewrite <- app_assoc.
    + apply NoDup_app in Hnd as (_ & Hdisj & _). intros Hin. apply (Hdisj n Hin). left.
Qed.

Lemma parse_initial_uniform (names : list string) :
  parse_initial names "uniform" = Continue (uniform_distribution names).
Proof. reflexivity. Qed.

(** A text in the layout is read as its initial part and its list of
    entries. *)
Lemma parseCtmcDSL_reads_layout (names : list string) (initial : string)
    (entries : list rate_entry) :
  names ≠ [] -> NoDup names -> Forall (fun n => plain_name n = true) names ->
  Forall renderable_entry entries ->
  starts_clean initial = true -> ends_clean initial = true ->
  string_forall (is_not "010") initial = true ->
  parseCtmcDSL (layout names initial entries)
  = match parse_initial names initial with
    | Failed e => ParseError e
    | Continue mu =>
        match pfold (read_entry names) [] entries with
        | Continue ts => ParseOk (mkCtmc names mu ts)
        | Failed e => ParseError e
        end
    end.
Proof.
  intros Hne Hnd Hnames Hwf HsI HeI HnlI.
  destruct (state_names_rendered names Hne Hnames) as (HnlX & HeX & HneX & Hsplit).
  destruct (rate_lines_rendered names entries Hwf) as (HnlR & HeR & Hrates).
  set (X := join_comma (map (append " ") names)) in *.
  set (R := join_comma (map (fun e => " " +:+ render_entry e) entries)) in *.
  set (L2 := ("Initial distribution: " +:+ initial)%string).
  assert (Htext : layout names initial entries
                  = ("States:" +:+ X) +:+ String "010" (L2 +:+ String "010" ("Rates:" +:+ R))).
  { unfold layout. fold X R. rewrite <- (append_assoc "States:" X).
    unfold L2. by rewrite (append_assoc "Initial distribution: " initial). }
  assert (HeL3 : ends_clean ("Rates:" +:+ R) = true).
  { destruct entries as [|e es]; [done|]. apply ends_clean_append. by apply HeR. }
  assert (Htrim : trim (layout names initial entries) = layout names initial entries).
  { rewrite Htext. apply trim_clean.
    - by do 2 apply starts_clean_append.
    - apply ends_clean_append.
      change (String "010" (L2 +:+ String "010" ("Rates:" +:+ R)))
        with (String "010" "" +:+ L2 +:+ String "010" "" +:+ "Rates:" +:+ R).
      by do 3 apply ends_clean_append. }
  unfold parseCtmcDSL. rewrite Htrim.
  assert ((String.length (layout names initial entries) =? 0)%nat = false) as ->.
  { rewrite Htext, !length_append. done. }
  unfold parse_body.
  assert (Hlines : split "010" (layout names initial entries)
                   = ["States:" +:+ X; L2; "Rates:" +:+ R]).
  { rewrite Htext, split_append by (by rewrite string_forall_append, HnlX).
    rewrite split_append by (unfold L2; by rewrite string_forall_append, HnlI).
    rewrite split_no_sep by (by rewrite string_forall_append, HnlR). done. }
  rewrite Hlines. cbn [pfold].
  rewrite scan_line_states by done. cbn [pbind].
  unfold L2. rewrite scan_line_initial by done. cbn [pbind].
  rewrite scan_line_rates by done. cbn [pbind].
  assert (Hfinal : ∀ st, (stateLines st = [trim X]) -> initialLines st = [initial] ->
    section st = Some SecRates ->
    rateLines st = (if is_empty (trim R) then [] else [trim R]) ->
    (let stateText := join_space (stateLines st) in
     let names0 := filter (fun s => negb (is_empty s)) (map trim (split "," stateText)) in
     if (length names0 =? 0)%nat then Failed StatesListIsEmpty
     else
       pbind (pfold add_state [] names0) (fun sts =>
       if (length sts =? 0)%nat then Failed MissingStatesSection
       else if (length (initialLines st) =? 0)%nat then Failed MissingInitialSection
       else
         pbind (parse_initial sts (trim (join_space (initialLines st)))) (fun mu =>
         pbind (pfold (parse_rate_line sts) [] (rateLines st)) (fun ts =>
         match section st with
         | Some SecRates => Continue (mkCtmc sts mu ts)
         | _ => Failed MissingRatesSection
         end))))
    = pbind (parse_initial names initial) (fun mu =>
      pbind (pfold (read_entry names) [] entries) (fun ts =>
        Continue (mkCtmc names mu ts)))).
  { intros st -> -> -> ->. cbn [join_space]. rewrite Hsplit.
    assert ((length names =? 0)%nat = false) as -> by (by destruct names).
    rewrite (pfold_add_state_NoDup names []) by done. cbn [pbind app].
    assert ((length names =? 0)%nat = false) as -> by (by destruct names).
    cbn [length Nat.eqb]. rewrite (trim_clean initial) by done.
    destruct (parse_initial names initial); [|done]. cbn [pbind]. by rewrite Hrates. }
  destruct (is_empty (trim R)) eqn:HR.
  - rewrite Hfinal by done. destruct (parse_initial names initial); [|done].
    by destruct (pfold (read_entry names) [] entries).
  - rewrite Hfinal by done. destruct (parse_initial names initial); [|done].
    by destruct (pfold (read_entry names) [] entries).
Qed.

(** A text in the canonical layout is read as its list of entries. *)
Lemma parseCtmcDSL_reads_entries (names : list string) (entries : list rate_entry) :
  names ≠ [] -> NoDup names -> Forall (fun n => plain_name n = true) names ->
  Forall renderable_entry entries ->
  parseCtmcDSL (canonical_text names entries)
  = match pfold (read_entry names) [] entries with
    | Continue ts => ParseOk (mkCtmc names (uniform_distribution names) ts)
    | Failed e => ParseError e
    end.
Proof.
  intros Hne Hnd Hnames Hwf.
  change (canonical_text names entries) with (layout names "uniform" entries).
  by rewrite parseCtmcDSL_reads_layout, parse_initial_uniform.
Qed.

Lemma read_entries_well_formed (names : list string) (es : list rate_entry)
    (ts : list CtmcTransition) :
  Forall (fun n => plain_name n = true) names -> Forall (well_formed_entry names) es ->
  pfold (read_entry names) ts es = Continue (ts ++ map described_transition es).
Proof.
  intros Hnames. revert ts. induction es as [|e es IH]; intros ts Hwf; simpl.
  - by rewrite app_nil_r.
  - apply Forall_cons in Hwf as [Hwe Hwf]. unfold read_entry at 1.
    rewrite add_transition_rendered by done. simpl. rewrite IH by done.
    by rewrite <- app_assoc.
Qed.

(** Every text in the canonical layout is accepted, and the chain returned
    is the one the text describes: for a non-empty list of distinct plain
    state names and rate entries between two distinct listed states whose
    rate text is made of digits and dots and has a positive value,
    [parseCtmcDSL] returns the states in their order, the uniform initial
    distribution, and one transition per entry, in order, with the value of
    the rate text as rate. *)
Theorem parseCtmcDSL_canonical (names : list string) (entries : list rate_entry) :
  names ≠ [] -> NoDup names -> Forall (fun n => plain_name n = true) names ->
  Forall (well_formed_entry names) entries ->
  parseCtmcDSL (canonical_text names entries)
  = ParseOk (mkCtmc names (uniform_distribution names) (map described_transition entries)).
Proof.
  intros Hne Hnd Hnames Hwf.
  rewrite parseCtmcDSL_reads_entries; try done.
  - by rewrite read_entries_well_formed.
  - eapply Forall_impl; [done|]. intros e. by apply well_formed_renderable.
Qed.

Lemma parseCtmcDSL_canonical_witness :
  parseCtmcDSL (canonical_text ["A"; "B"]%string
                  [mkEntry "A" "B" "1.0"; mkEntry "B" "A" "2.5"])
  = ParseOk (mkCtmc ["A"; "B"]%string (uniform_distribution ["A"; "B"]%string)
               (map described_transition [mkEntry "A" "B" "1.0"; mkEntry "B" "A" "2.5"])).
Proof.
  apply (parseCtmcDSL_canonical ["A"; "B"]%string
           [mkEntry "A" "B" "1.0"; mkEntry "B" "A" "2.5"]).
  - discriminate.
  - apply (bool_decide_unpack _). vm_compute. exact I.
  - repeat constructor.
  - repeat constructor; simpl;
      try (apply (bool_decide_unpack _); vm_compute; exact I); discriminate.
Defined.

(** The first entry that is not acceptable decides the error, in this
    order of tests: an unknown source state, an unknown target state, a
    self-loop, a rate that is not positive.  Here the entries before [bad]
    are well formed, and [bad] and the entries after it are merely written
    with plain names and number texts. *)
Theorem parseCtmcDSL_first_bad_entry (names : list string) (good : list rate_entry)
    (bad : rate_entry) (rest : list rate_entry) :
  names ≠ [] -> NoDup names -> Forall (fun n => plain_name n = true) names ->
  Forall (well_formed_entry names) good -> Forall renderable_entry (bad :: rest) ->
  ¬ well_formed_entry names bad ->
  parseCtmcDSL (canonical_text names (good ++ bad :: rest))
  = ParseError
      (if decide (entry_from bad ∈ names) then
         if decide (entry_to bad ∈ names) then
           if decide (entry_from bad = entry_to bad)
           then SelfLoopNotAllowed (entry_from bad) (entry_to bad)
           else InvalidRate (entry_rate bad)
         else UnknownStateInRate (entry_to bad)
       else UnknownStateInRate (entry_from bad)).
Proof.
  intros Hne Hnd Hnames Hgood Hrest Hbad.
  rewrite parseCtmcDSL_reads_entries; try done.
  2:{ apply Forall_app. split; [|done].
      eapply Forall_impl; [done|]. intros e. by apply well_formed_renderable. }
  assert (Happ : ∀ l1 l2 ts, pfold (read_entry names) ts (l1 ++ l2)
            = pbind (pfold (read_entry names) ts l1) (fun ts' => pfold (read_entry names) ts' l2)).
  { induction l1 as [|x l1 IH]; intros l2 ts; simpl; [done|].
    destruct (read_entry names ts x); simpl; [apply IH|done]. }
  rewrite Happ, read_entries_well_formed by done. cbn [pbind pfold app].
  apply Forall_cons in Hrest as [Hr _].
  destruct (render_entry_facts bad Hr) as (Hs & He & _).
  destruct Hr as (Hpf & Hpt & Hnum).
  unfold read_entry at 1. unfold add_transition.
  rewrite trim_clean, rate_match_rendered by done. rewrite !trim_plain by done.
  destruct (decide (entry_from bad ∈ names)) as [Hfrom|]; [|done].
  destruct (decide (entry_to bad ∈ names)) as [Hto|]; [|done].
  destruct (decide (entry_from bad = entry_to bad)) as [|Hdiff]; [done|].
  destruct (parseFloat (entry_rate bad)) as [r|] eqn:Hr; [|done].
  destruct (decide (r ≤ 0)) as [|Hpos]; [done|].
  exfalso. apply Hbad. repeat split; try done. rewrite Hr. simpl. by apply Qcnot_le_lt.
Qed.

Lemma parseCtmcDSL_first_bad_entry_witness :
  parseCtmcDSL (canonical_text ["A"; "B"]%string
                  ([mkEntry "A" "B" "1.0"] ++ mkEntry "B" "A" "0" :: []))
  = ParseError (InvalidRate "0").
Proof.
  apply (parseCtmcDSL_first_bad_entry ["A"; "B"]%string [mkEntry "A" "B" "1.0"]
           (mkEntry "B" "A" "0") []).
  - discriminate.
  - apply (bool_decide_unpack _). vm_compute. exact I.
  - repeat constructor.
  - repeat constructor; simpl;
      try (apply (bool_decide_unpack _); vm_compute; exact I); discriminate.
  - repeat constructor.
  - intros (_ & _ & _ & _ & Hpos). revert Hpos. apply (bool_decide_unpack _).
    vm_compute. exact I.
Defined.

(** *** The probability pattern on a rendered initial distribution *)

Lemma prob_matches_skip (s : string) (r : nat) :
  prob_matches r s = prob_matches 0 (skip r s).
Proof.
  revert r. induction s as [|c s IH]; intros r.
  - by destruct r.
  - destruct r as [|r]; [done|]. simpl. apply IH.
Qed.


Lemma span_number (num rest : string) :
  string_forall is_digit_or_dot num = true -> number_ends rest = true ->
  span is_digit_or_dot (num +:+ rest) = (num, rest).
Proof.
  intros Hnum Hrest. destruct rest as [|c rest].
  - rewrite append_nil_r. by apply span_all.
  - apply span_prefix; [done|]. simpl in Hrest. by apply negb_true_iff.
Qed.

Lemma match_colon_number_before (num rest : string) :
  number_text num = true -> number_ends rest = true ->
  match_colon_number (" : " +:+ num +:+ rest) = Some (num, rest).
Proof.
  intros (Hne & Hall & _)%number_text_facts Hrest. unfold match_colon_number.
  change (trim_start (" : " +:+ num +:+ rest)) with (":" +:+ " " +:+ num +:+ rest).
  change (strip_prefix ":" (":" +:+ " " +:+ num +:+ rest)) with (Some (" " +:+ num +:+ rest)).
  cbn match.
  change (trim_start (" " +:+ num +:+ rest)) with (trim_start (num +:+ rest)).
  destruct num as [|d num]; [done|].
  assert (Hd : is_space d = false).
  { simpl in Hall. apply andb_true_iff in Hall as [Hd _]. by apply is_digit_or_dot_facts. }
  rewrite append_cons, trim_start_id by done. rewrite <- append_cons.
  rewrite span_number by done. done.
Qed.

Lemma prob_matches_rendered (e : prob_entry) (rest : string) :
  plain_name (prob_name e) = true -> number_text (prob_text e) = true ->
  number_ends rest = true ->
  prob_matches 0 (render_prob e +:+ rest)
  = (prob_name e, prob_text e) :: prob_matches 0 rest.
Proof.
  intros Hname Hnum Hrest. destruct e as [name num]. simpl in *.
  pose proof Hname as (Hne & Hns & _)%plain_name_facts.
  unfold render_prob. simpl.
  assert (Hs : (name +:+ " : " +:+ num) +:+ rest
               = name +:+ String " " (": " +:+ num +:+ rest)).
  { by rewrite !append_assoc. }
  assert (Hat : prob_match_at ((name +:+ " : " +:+ num) +:+ rest)
                = Some (name, num, String.length (name +:+ " : " +:+ num))).
  { unfold prob_match_at.
    assert (Hspan : span (fun c => negb (is_space c)) ((name +:+ " : " +:+ num) +:+ rest)
                    = (name, String " " (": " +:+ num +:+ rest))).
    { rewrite Hs. by apply span_prefix. }
    assert (Hskip : skip (String.length name) ((name +:+ " : " +:+ num) +:+ rest)
                    = " : " +:+ num +:+ rest).
    { rewrite Hs. apply skip_append. }
    assert (Htake : take (String.length name) ((name +:+ " : " +:+ num) +:+ rest) = name).
    { rewrite Hs. apply take_append. }
    rewrite Hspan. cbn [fst].
    destruct (length_pos_S name Hne) as [k Hk]. rewrite Hk. cbn [prob_match_len].
    rewrite <- Hk, Hskip, Htake, match_colon_number_before by done.
    do 2 f_equal. rewrite (length_append (name +:+ " : " +:+ num) rest). lia. }
  destruct ((name +:+ " : " +:+ num) +:+ rest) as [|c s'] eqn:Hcs.
  { exfalso. destruct name; [done|]. by rewrite !append_cons in Hcs. }
  cbn [prob_matches]. rewrite Hat. f_equal.
  rewrite prob_matches_skip. f_equal.
  assert (Hlen : String.length (name +:+ " : " +:+ num)
                 = S (String.length (name +:+ " : " +:+ num) - 1)).
  { destruct name; [done|]. rewrite append_cons. simpl. lia. }
  change (skip (String.length (name +:+ " : " +:+ num) - 1) s')
    with (skip (S (String.length (name +:+ " : " +:+ num) - 1)) (String c s')).
  rewrite <- Hlen, <- Hcs. apply skip_append.
Qed.

Lemma prob_matches_separator (t2 : string) (c : ascii) (t2' : string) :
  t2 = String c t2' -> is_space c = false -> Ascii.eqb c ":" = false ->
  prob_matches 0 (", " +:+ t2) = prob_matches 0 t2.
Proof.
  intros -> Hc Hcolon.
  change (", " +:+ String c t2') with (String "," (String " " (String c t2'))).
  cbn [prob_matches].
  assert (E1 : match_colon_number (String " " (String c t2')) = None).
  { unfold match_colon_number. rewrite trim_start_space by done.
    rewrite trim_start_id by done. cbn [strip_prefix]. by rewrite Ascii.eqb_sym, Hcolon. }
  assert (prob_match_at (String "," (String " " (String c t2'))) = None) as ->.
  { unfold prob_match_at.
    assert (span (fun c0 => negb (is_space c0)) (String "," (String " " (String c t2')))
            = (String "," "", String " " (String c t2'))) as -> by reflexivity.
    cbn [fst String.length prob_match_len skip]. by rewrite E1. }
  assert (prob_match_at (String " " (String c t2')) = None) as -> by reflexivity.
  done.
Qed.

Lemma join_comma_space_cons (x : string) (l : list string) :
  l ≠ [] -> join_comma_space (x :: l) = x +:+ ", " +:+ join_comma_space l.
Proof. destruct l; [done|]. intros _. reflexivity. Qed.

Lemma simple_name_facts (n : string) :
  simple_name n = true ->
  plain_name n = true
  ∧ ∃ c n', n = String c n' ∧ is_space c = false ∧ Ascii.eqb c ":" = false.
Proof.
  unfold simple_name. rewrite andb_true_iff. intros [Hp Hc]. split; [done|].
  pose proof Hp as (Hne & Hns & _)%plain_name_facts.
  destruct n as [|c n']; [done|]. exists c, n'. split; [done|].
  simpl in Hns, Hc. apply andb_true_iff in Hns as [Hs _]. apply andb_true_iff in Hc as [Hc _].
  split; [by apply negb_true_iff|]. unfold is_not in Hc. by apply negb_true_iff.
Qed.

Lemma render_prob_facts (e : prob_entry) :
  plain_name (prob_name e) = true -> number_text (prob_text e) = true ->
  starts_clean (render_prob e) = true ∧ ends_clean (render_prob e) = true
  ∧ string_forall (is_not "010") (render_prob e) = true.
Proof.
  intros (_ & _ & _ & Hn1 & Hs1 & _)%plain_name_facts (_ & _ & _ & Hn2 & He2)%number_text_facts.
  unfold render_prob. repeat split.
  - by apply starts_clean_append.
  - by do 2 apply ends_clean_append.
  - by rewrite !string_forall_append, Hn1, Hn2.
Qed.

Section initial_text.
Variable names : list string.
Hypothesis names_simple : Forall (fun n => simple_name n = true) names.

Lemma prob_entry_facts (e : prob_entry) :
  well_formed_prob names e ->
  plain_name (prob_name e) = true ∧ number_text (prob_text e) = true
  ∧ ∃ c n', prob_name e = String c n' ∧ is_space c = false ∧ Ascii.eqb c ":" = false.
Proof.
  intros (Hin & Hnum & _). rewrite Forall_forall in names_simple.
  destruct (simple_name_facts _ (names_simple _ Hin)) as [Hp Hc]. done.
Qed.

Lemma initial_text_head (e : prob_entry) (probs : list prob_entry) :
  Forall (well_formed_prob names) (e :: probs) ->
  ∃ c t', initial_text (e :: probs) = String c t'
          ∧ is_space c = false ∧ Ascii.eqb c ":" = false.
Proof.
  intros [He _]%Forall_cons.
  destruct (prob_entry_facts e He) as (_ & _ & c & n' & Hn & Hc & Hcolon).
  unfold initial_text. cbn [map]. destruct (map render_prob probs) as [|y l] eqn:Hm.
  - exists c, (n' +:+ " : " +:+ prob_text e). simpl. unfold render_prob.
    by rewrite Hn, append_cons.
  - exists c, (n' +:+ " : " +:+ prob_text e +:+ ", " +:+ join_comma_space (y :: l)).
    rewrite join_comma_space_cons by done. unfold render_prob.
    by rewrite Hn, !append_cons, !append_assoc.
Qed.

Lemma initial_text_matches (probs : list prob_entry) :
  Forall (well_formed_prob names) probs ->
  prob_matches 0 (initial_text probs) = map (fun e => (prob_name e, prob_text e)) probs.
Proof.
  induction probs as [|e probs IH]; intros Hwf; [done|].
  pose proof Hwf as [He Hrest]%Forall_cons.
  destruct (prob_entry_facts e He) as (Hname & Hnum & _).
  unfold initial_text in *. cbn [map]. destruct probs as [|e2 probs].
  - cbn [map join_comma_space]. rewrite <- (append_nil_r (render_prob e)).
    by rewrite prob_matches_rendered.
  - rewrite join_comma_space_cons by done.
    rewrite prob_matches_rendered by done. f_equal.
    destruct (initial_text_head e2 probs Hrest) as (c & t' & Ht & Hc & Hcolon).
    unfold initial_text in Ht.
    rewrite (prob_matches_separator _ c t' Ht Hc Hcolon). by apply IH.
Qed.

Lemma initial_text_facts (probs : list prob_entry) :
  probs ≠ [] -> Forall (well_formed_prob names) probs ->
  starts_clean (initial_text probs) = true ∧ ends_clean (initial_text probs) = true
  ∧ string_forall (is_not "010") (initial_text probs) = true
  ∧ string_forall (fun c => negb (is_space c)) (initial_text probs) = false.
Proof.
  intros Hne Hwf. unfold initial_text.
  induction probs as [|e probs IH]; [done|].
  apply Forall_cons in Hwf as [He Hrest].
  destruct (prob_entry_facts e He) as (Hname & Hnum & _).
  destruct (render_prob_facts e Hname Hnum) as (Hs & Hend & Hnl).
  assert (Hsp : string_forall (fun c => negb (is_space c)) (render_prob e) = false).
  { unfold render_prob. rewrite string_forall_append.
    change (" : " +:+ prob_text e) with (String " " (": " +:+ prob_text e)).
    simpl. by rewrite andb_false_r. }
  cbn [map]. destruct probs as [|e2 probs]; [done|].
  rewrite join_comma_space_cons by done.
  destruct (IH ltac:(done) Hrest) as (_ & He2 & Hnl2 & _).
  split; [by apply starts_clean_append|]. split; [by do 2 apply ends_clean_append|].
  split.
  - rewrite !string_forall_append, Hnl, Hnl2. done.
  - by rewrite string_forall_append, Hsp.
Qed.

End initial_text.

Lemma is_space_to_lower (c : ascii) : is_space (to_lower c) = is_space c.
Proof. destruct c as [[] [] [] [] [] [] [] []]; reflexivity. Qed.

Lemma string_forall_toLowerCase (s : string) :
  string_forall (fun c => negb (is_space c)) (toLowerCase s)
  = string_forall (fun c => negb (is_space c)) s.
Proof. induction s as [|c s IH]; simpl; [done|]. by rewrite is_space_to_lower, IH. Qed.

Lemma not_uniform (s : string) :
  string_forall (fun c => negb (is_space c)) s = false ->
  String.eqb (toLowerCase s) "uniform" = false.
Proof.
  intros Hs. apply String.eqb_neq. intros Heq.
  rewrite <- string_forall_toLowerCase, Heq in Hs. done.
Qed.

(** *** Accumulating the probabilities *)

Lemma mass_on_cons (e : prob_entry) (probs : list prob_entry) (s : string) :
  mass_on (e :: probs) s
  = (if decide (prob_name e = s) then prob_value e else 0) + mass_on probs s.
Proof.
  unfold mass_on. rewrite filter_cons. destruct (decide (prob_name e = s)); simpl.
  - by rewrite sum_Qc_cons.
  - ring.
Qed.

Lemma add_probabilities_rendered (names : list string) (probs : list prob_entry) :
  Forall (fun n => simple_name n = true) names ->
  Forall (well_formed_prob names) probs ->
  ∀ mu, ∃ mu',
    pfold (add_probability names) mu (map (fun e => (prob_name e, prob_text e)) probs)
    = Continue mu'
    ∧ ∀ s, default 0 (mu' !! s) = default 0 (mu !! s) + mass_on probs s.
Proof.
  intros Hnames. induction probs as [|e probs IH]; intros Hwf mu.
  - exists mu. split; [done|]. intros s. unfold mass_on. simpl. rewrite sum_Qc_nil. ring.
  - apply Forall_cons in Hwf as [He Hrest].
    destruct (prob_entry_facts names Hnames e He) as (Hname & _).
    destruct He as (Hin & Hnum & [p Hp] & H0 & H1).
    unfold prob_value in H0, H1. rewrite Hp in H0, H1. simpl in H0, H1.
    cbn [map pfold]. unfold add_probability at 1. cbn [fst snd].
    rewrite trim_plain, decide_True, Hp by done.
    rewrite decide_False by (intros [?%Qclt_not_le|?%Qclt_not_le]; done).
    cbn [pbind].
    destruct (IH Hrest (<[prob_name e := default 0 (mu !! prob_name e) + p]> mu))
      as (mu' & Hfold & Hmu').
    exists mu'. split; [done|]. intros s. rewrite Hmu', mass_on_cons.
    unfold prob_value at 1. rewrite Hp. simpl.
    destruct (decide (prob_name e = s)) as [<-|Hne].
    + rewrite lookup_insert_eq. simpl. ring.
    + rewrite lookup_insert_ne by done. ring.
Qed.

Lemma fill_missing_lookup (sts : list string) (mu : gmap string Qc) (s : string) :
  s ∈ sts -> foldl fill_missing mu sts !! s = Some (default 0 (mu !! s)).
Proof.
  assert (Hkeep : ∀ l m x, m !! s = Some x -> foldl fill_missing m l !! s = Some x).
  { induction l as [|y l IHl]; intros m x Hm; simpl; [done|]. apply IHl.
    unfold fill_missing. destruct (m !! y) eqn:Hy; [done|].
    destruct (decide (s = y)) as [->|]; [congruence|]. by rewrite lookup_insert_ne. }
  revert mu. induction sts as [|s0 sts IH]; intros mu Hs; [by apply elem_of_nil in Hs|].
  simpl. destruct (decide (s = s0)) as [->|Hne].
  - apply Hkeep. unfold fill_missing. destruct (mu !! s0) eqn:Hs0; [by rewrite Hs0|].
    by rewrite lookup_insert_eq.
  - apply elem_of_cons in Hs as [?|Hs]; [done|]. rewrite IH by done.
    unfold fill_missing. destruct (mu !! s0); [done|]. by rewrite lookup_insert_ne.
Qed.



(** ** Rounding to the nearest double *)


Lemma two_to_this (z : Z) : (this (Binary64.two_to z) == 2 ^ z)%Q.
Proof. unfold Binary64.two_to. simpl. apply Qred_correct. Qed.

Lemma two_to_pos (z : Z) : 0 < Binary64.two_to z.
Proof.
  unfold Qclt. rewrite two_to_this. simpl. by apply Qpower_0_lt.
Qed.

Lemma two_to_plus (a b : Z) :
  Binary64.two_to (a + b) = Binary64.two_to a * Binary64.two_to b.
Proof.
  apply Qc_is_canon. simpl. rewrite !Qred_correct. by apply Qpower_plus.
Qed.

Lemma two_to_0 : Binary64.two_to 0 = 1.
Proof. apply Qc_is_canon. reflexivity. Qed.

Lemma two_to_1 : Binary64.two_to 1 = 1 + 1.
Proof. apply Qc_is_canon. reflexivity. Qed.

Lemma two_to_succ (a : Z) : Binary64.two_to (a + 1) = (1 + 1) * Binary64.two_to a.
Proof. rewrite two_to_plus, two_to_1. ring. Qed.

Lemma two_to_le (a b : Z) : (a ≤ b)%Z -> Binary64.two_to a ≤ Binary64.two_to b.
Proof.
  intros Hab. unfold Qcle. rewrite !two_to_this. by apply Qpower_le_compat_l.
Qed.

Lemma two_to_nonneg_Z (z : Z) :
  (0 ≤ z)%Z -> Binary64.two_to z = Q2Qc (inject_Z (2 ^ z)).
Proof.
  intros Hz. apply Qc_is_canon. simpl. rewrite !Qred_correct.
  by rewrite Zpower_Qpower.
Qed.

Lemma Math_abs_le_iff (x b : Qc) : Math_abs x ≤ b ↔ - b ≤ x ∧ x ≤ b.
Proof.
  unfold Math_abs. destruct (decide (0 ≤ x)) as [H|H%Qcnot_le_lt]; split.
  - intros Hb. split; [|done]. generalize dependent b. intros b Hb. qc_lra.
  - tauto.
  - intros Hb. split; generalize dependent b; intros b Hb; qc_lra.
  - intros [H1 H2]. qc_lra.
Qed.

Lemma Math_abs_pos (x : Qc) : x ≠ 0 -> 0 < Math_abs x.
Proof.
  intros Hx. unfold Math_abs. destruct (decide (0 ≤ x)) as [H|H%Qcnot_le_lt].
  - apply Qcle_lt_or_eq in H as [H|H]; [done|]. by subst.
  - qc_lra.
Qed.

Lemma Math_abs_mult_pos (x c : Qc) : 0 < c -> Math_abs (x * c) = Math_abs x * c.
Proof.
  intros Hc. unfold Math_abs.
  destruct (decide (0 ≤ x)) as [H|H%Qcnot_le_lt].
  - rewrite decide_True; [done|]. qc_nra.
  - rewrite decide_False; [ring|]. apply Qclt_not_le. qc_nra.
Qed.

(** The exponent of a number: [2^e <= |x| < 2^(e+1)]. *)
Lemma exponent_spec (x : Qc) :
  x ≠ 0 ->
  Binary64.two_to (Binary64.exponent x) ≤ Math_abs x
  ∧ Math_abs x < Binary64.two_to (Binary64.exponent x + 1).
Proof.
  intros Hx. unfold Binary64.exponent.
  set (a := Z.abs (Qnum x)). set (dn := Z.pos (Qden x)).
  assert (Ha : (0 < a)%Z).
  { unfold a. destruct x as [[n dd] Hc]. simpl.
    destruct n; [|lia|lia]. exfalso. apply Hx. apply Qc_is_canon. simpl. reflexivity. }
  assert (Hd : (0 < dn)%Z) by done.
  destruct (Z.log2_spec a Ha) as [Ha1 Ha2]. destruct (Z.log2_spec dn Hd) as [Hd1 Hd2].
  pose proof (Z.log2_nonneg a) as Hla. pose proof (Z.log2_nonneg dn) as Hld.
  set (la := Z.log2 a) in *. set (ld := Z.log2 dn) in *.
  assert (Habs : Math_abs x * Q2Qc (inject_Z dn) = Q2Qc (inject_Z a)).
  { unfold Math_abs, a, dn. destruct x as [[n dd] Hc].
    destruct (decide _) as [H|H%Qcnot_le_lt]; apply Qc_is_canon; qc_unfold; simpl in *;
      unfold Qeq, Qle, Qlt in *; simpl in *; lia. }
  assert (HA1 : Binary64.two_to la ≤ Q2Qc (inject_Z a)).
  { rewrite two_to_nonneg_Z by done. unfold Qcle. simpl. rewrite !Qred_correct.
    by rewrite <- Zle_Qle. }
  assert (HA2 : Q2Qc (inject_Z a) < Binary64.two_to (la + 1)).
  { rewrite two_to_nonneg_Z by lia. unfold Qclt. simpl. rewrite !Qred_correct.
    rewrite <- Zlt_Qlt. by rewrite <- Z.add_1_r in Ha2. }
  assert (HD1 : Binary64.two_to ld ≤ Q2Qc (inject_Z dn)).
  { rewrite two_to_nonneg_Z by done. unfold Qcle. simpl. rewrite !Qred_correct.
    by rewrite <- Zle_Qle. }
  assert (HD2 : Q2Qc (inject_Z dn) < Binary64.two_to (ld + 1)).
  { rewrite two_to_nonneg_Z by lia. unfold Qclt. simpl. rewrite !Qred_correct.
    rewrite <- Zlt_Qlt. by rewrite <- Z.add_1_r in Hd2. }
  rewrite two_to_succ in HA2, HD2.
  assert (He0 : Binary64.two_to (la - ld) * Binary64.two_to ld = Binary64.two_to la).
  { rewrite <- two_to_plus. f_equal. lia. }
  pose proof (two_to_pos la) as Hpa. pose proof (two_to_pos ld) as Hpd.
  pose proof (two_to_pos (la - ld)) as Hpe.
  pose proof (Math_abs_nonneg x) as Hnn.
  assert (Hlo : Binary64.two_to (la - ld - 1) ≤ Math_abs x
                ∧ Math_abs x < Binary64.two_to (la - ld + 1)).
  { replace (la - ld)%Z with (la - ld - 1 + 1)%Z in He0, Hpe by lia.
    replace (la - ld + 1)%Z with (la - ld - 1 + 1 + 1)%Z by lia.
    rewrite !two_to_succ in *. pose proof (two_to_pos (la - ld - 1)) as Hpe1.
    generalize dependent (Binary64.two_to (la - ld - 1)).
    generalize dependent (Binary64.two_to la). generalize dependent (Binary64.two_to ld).
    generalize dependent (Q2Qc (inject_Z a)). generalize dependent (Q2Qc (inject_Z dn)).
    generalize dependent (Math_abs x). clear. intros. split; qc_nra. }
  destruct (decide (Binary64.two_to (la - ld) ≤ Math_abs x)) as [H|H%Qcnot_le_lt].
  - split; [done|]. tauto.
  - split; [tauto|]. by replace (la - ld - 1 + 1)%Z with (la - ld)%Z by lia.
Qed.

Lemma two_to_lt_inv (a b : Z) : Binary64.two_to a < Binary64.two_to b -> (a < b)%Z.
Proof.
  intros H. destruct (decide (a < b)%Z) as [|Hn]; [done|].
  exfalso. apply (Qclt_not_le _ _ H). apply two_to_le. lia.
Qed.

Lemma Qc_of_Z_plus (a b : Z) :
  Q2Qc (inject_Z (a + b)) = Q2Qc (inject_Z a) + Q2Qc (inject_Z b).
Proof. apply Qc_is_canon. qc_unfold. by rewrite inject_Z_plus. Qed.

Lemma Qc_of_Z_mult (a b : Z) :
  Q2Qc (inject_Z (a * b)) = Q2Qc (inject_Z a) * Q2Qc (inject_Z b).
Proof. apply Qc_is_canon. qc_unfold. by rewrite inject_Z_mult. Qed.

Lemma Qc_of_Z_le (a b : Z) : (a ≤ b)%Z -> Q2Qc (inject_Z a) ≤ Q2Qc (inject_Z b).
Proof. intros H. qc_unfold. by rewrite <- Zle_Qle. Qed.

Lemma Qc_of_Z_1 : Q2Qc (inject_Z 1) = 1.
Proof. apply Qc_is_canon. reflexivity. Qed.

Lemma floor_spec (q : Qc) :
  Q2Qc (inject_Z (Qfloor q)) ≤ q ∧ q < Q2Qc (inject_Z (Qfloor q)) + 1.
Proof.
  split.
  - qc_unfold. apply Qfloor_le.
  - rewrite <- Qc_of_Z_1, <- Qc_of_Z_plus. qc_unfold. apply Qlt_floor.
Qed.

Lemma floor_of_Z (z : Z) : Qfloor (Q2Qc (inject_Z z)) = z.
Proof.
  unfold Q2Qc. cbn [this]. rewrite (Qfloor_comp _ _ (Qred_correct _)). apply Qfloor_Z.
Qed.

Lemma one_half_double : one_half + one_half = 1.
Proof. apply Qc_is_canon. reflexivity. Qed.

(** Rounding to the nearest integer moves a number by at most one half. *)
Lemma nearest_even_error (q : Qc) :
  Math_abs (Q2Qc (inject_Z (Binary64.nearest_even q)) - q) ≤ one_half.
Proof.
  pose proof one_half_double as Hh.
  destruct (floor_spec q) as [Hlo Hhi]. unfold Binary64.nearest_even. cbv zeta.
  set (F := Qfloor q) in *. set (f := Q2Qc (inject_Z F)) in *.
  apply Math_abs_le_iff.
  destruct (decide (q - f < one_half)) as [H1|H1%Qcnot_lt_le];
    [|destruct (decide (one_half < q - f)) as [H2|H2%Qcnot_lt_le]; [|destruct (Z.even F)]];
    rewrite ?Qc_of_Z_plus, ?Qc_of_Z_1; fold f; clearbody f;
    generalize dependent one_half; intros h ?; intros; split; qc_lra.
Qed.

Lemma nearest_even_nonneg (q : Qc) : 0 ≤ q -> (0 ≤ Binary64.nearest_even q)%Z.
Proof.
  intros Hq. assert (HF : (0 ≤ Qfloor q)%Z).
  { change 0%Z with (Qfloor 0). by apply Qfloor_resp_le. }
  unfold Binary64.nearest_even. cbv zeta.
  repeat destruct (decide _); try destruct (Z.even _); lia.
Qed.

Lemma nearest_even_of_Z (z : Z) : Binary64.nearest_even (Q2Qc (inject_Z z)) = z.
Proof.
  unfold Binary64.nearest_even. cbv zeta. rewrite floor_of_Z.
  rewrite decide_True; [done|].
  replace (Q2Qc (inject_Z z) - Q2Qc (inject_Z z)) with (Q2Qc 0) by ring.
  apply (bool_decide_unpack _). vm_compute. exact I.
Qed.

Lemma ulp_pos (x : Qc) : 0 < Binary64.ulp x.
Proof. apply two_to_pos. Qed.

Lemma round_0 : Binary64.round 0 = 0.
Proof. reflexivity. Qed.

Lemma two_to_half (e : Z) : one_half * Binary64.two_to e = Binary64.two_to (e - 1).
Proof.
  pose proof (two_to_succ (e - 1)) as H. replace (e - 1 + 1)%Z with e in H by lia.
  rewrite H. pose proof one_half_double as Hh.
  generalize dependent (Binary64.two_to (e - 1)). intros y _.
  replace (one_half * ((1 + 1) * y)) with ((one_half + one_half) * y) by ring.
  rewrite Hh. ring.
Qed.

(** The relative error of rounding is at most [2^-53]. *)
Lemma round_error (x : Qc) :
  Math_abs (Binary64.round x - x) ≤ Binary64.two_to (-53) * Math_abs x.
Proof.
  unfold Binary64.round. destruct (decide (x = 0)) as [->|Hx].
  - replace (Q2Qc 0 - 0) with (Q2Qc 0) by ring. rewrite Math_abs_0.
    replace (Binary64.two_to (-53) * 0) with (Q2Qc 0) by ring. apply Qcle_refl.
  - pose proof (ulp_pos x) as Hu. destruct (exponent_spec x Hx) as [He _].
    pose proof (nearest_even_error (x / Binary64.ulp x)) as Hk.
    set (k := Q2Qc (inject_Z (Binary64.nearest_even (x / Binary64.ulp x)))) in *.
    assert (Hq : x / Binary64.ulp x * Binary64.ulp x = x) by (by apply Qc_div_mul).
    assert (Heq : k * Binary64.ulp x - x = (k - x / Binary64.ulp x) * Binary64.ulp x).
    { transitivity (k * Binary64.ulp x - x / Binary64.ulp x * Binary64.ulp x);
        [by rewrite Hq|ring]. }
    rewrite Heq, Math_abs_mult_pos by done.
    assert (Hulp : one_half * Binary64.ulp x
                   = Binary64.two_to (-53) * Binary64.two_to (Binary64.exponent x)).
    { unfold Binary64.ulp. rewrite two_to_half, <- two_to_plus. f_equal. lia. }
    pose proof (two_to_pos (-53)) as Hp.
    generalize dependent (Math_abs (k - x / Binary64.ulp x)). intros err Herr.
    generalize dependent (Binary64.two_to (Binary64.exponent x)).
    generalize dependent (Binary64.two_to (-53)). generalize dependent (Math_abs x).
    generalize dependent (Binary64.ulp x). generalize dependent one_half.
    clear. intros. qc_nra.
Qed.

Lemma round_nonneg (x : Qc) : 0 ≤ x -> 0 ≤ Binary64.round x.
Proof.
  intros Hx. unfold Binary64.round. destruct (decide (x = 0)); [apply Qcle_refl|].
  pose proof (ulp_pos x) as Hu.
  assert (Hq : 0 ≤ x / Binary64.ulp x) by (apply Qc_div_nonneg; done).
  apply nearest_even_nonneg, Qc_of_Z_le in Hq.
  change (Q2Qc (inject_Z 0)) with (Q2Qc 0) in Hq.
  generalize dependent (Q2Qc (inject_Z (Binary64.nearest_even (x / Binary64.ulp x)))).
  generalize dependent (Binary64.ulp x). intros. qc_nra.
Qed.

Lemma Qc_div_eq_mult (x u v : Qc) : u * v = 1 -> x / u = x * v.
Proof.
  intros H. assert (Hu : u ≠ 0).
  { intros ->. rewrite Qcmult_0_l in H. discriminate. }
  unfold Qcdiv. transitivity (x * / u * (u * v)); [rewrite H; ring|].
  transitivity (x * v * (u * / u)); [ring|]. rewrite Qcmult_inv_r by done. ring.
Qed.

(** The integers below [2^53] are doubles. *)
Lemma round_of_Z (z : Z) :
  (0 ≤ z < 2 ^ 53)%Z -> Binary64.round (Q2Qc (inject_Z z)) = Q2Qc (inject_Z z).
Proof.
  intros [Hz0 Hz]. unfold Binary64.round.
  destruct (decide (Q2Qc (inject_Z z) = 0)) as [->|Hx]; [done|].
  destruct (exponent_spec _ Hx) as [He _].
  rewrite Math_abs_of_nonneg in He
    by (change 0 with (Q2Qc (inject_Z 0)); by apply Qc_of_Z_le).
  set (e := Binary64.exponent (Q2Qc (inject_Z z))) in *.
  assert (Hlt : Binary64.two_to e < Binary64.two_to 53).
  { eapply Qcle_lt_trans; [exact He|]. rewrite (two_to_nonneg_Z 53) by lia.
    qc_unfold. by rewrite <- Zlt_Qlt. }
  apply two_to_lt_inv in Hlt. unfold Binary64.ulp. fold e.
  assert (Hinv : Binary64.two_to (e - 52) * Binary64.two_to (52 - e) = 1).
  { rewrite <- two_to_plus. replace (e - 52 + (52 - e))%Z with 0%Z by lia. apply two_to_0. }
  pose proof (two_to_pos (e - 52)) as Hp.
  assert (Hq : Q2Qc (inject_Z z) / Binary64.two_to (e - 52)
               = Q2Qc (inject_Z (z * 2 ^ (52 - e)))).
  { rewrite Qc_of_Z_mult, <- two_to_nonneg_Z by lia. by apply Qc_div_eq_mult. }
  rewrite Hq, nearest_even_of_Z, Qc_of_Z_mult, <- two_to_nonneg_Z by lia.
  rewrite <- Qcmult_assoc, (Qcmult_comm (Binary64.two_to (52 - e))), Hinv. ring.
Qed.


(** ** The generator matrix in doubles *)

Lemma rounded_add_rate_entry (Q Q' : gmap string (gmap string Qc)) (t : CtmcTransition)
    (i j : string) :
  Binary64.add_rate Q t = Some Q' -> is_Some (lookup_entry Q (from t) (to t)) ->
  lookup_entry Q' i j
  = (fun v => if decide (from t = i ∧ to t = j) then Binary64.add v (rate t) else v)
      <$> lookup_entry Q i j.
Proof.
  unfold Binary64.add_rate, lookup_entry. intros Hadd [v Hv].
  destruct (Q !! from t) as [row|] eqn:Hrow; [|done].
  simpl in Hv. injection Hadd as <-.
  destruct (decide (from t = i)) as [<-|Hi].
  - rewrite lookup_insert_eq, Hrow. simpl.
    destruct (decide (to t = j)) as [<-|Hj].
    + rewrite lookup_insert_eq, Hv. simpl. by rewrite decide_True.
    + rewrite lookup_insert_ne by done.
      destruct (row !! j); simpl; [|done]. by rewrite decide_False by tauto.
  - rewrite lookup_insert_ne by done.
    destruct (Q !! i ≫= _); simpl; [|done]. by rewrite decide_False by tauto.
Qed.

Lemma rounded_add_rates_entry (ts : list CtmcTransition) (Q : gmap string (gmap string Qc)) :
  (∀ t, t ∈ ts -> is_Some (lookup_entry Q (from t) (to t))) ->
  ∃ Q', Binary64.add_rates Q ts = Some Q'
        ∧ ∀ i j, lookup_entry Q' i j
                 = (fun v => foldl Binary64.add v
                               (map rate (filter (fun t => from t = i ∧ to t = j) ts)))
                     <$> lookup_entry Q i j.
Proof.
  revert Q. induction ts as [|t ts IH]; intros Q Hdef; simpl.
  - exists Q. split; [done|]. intros i j. by destruct (lookup_entry Q i j).
  - assert (Ht : is_Some (lookup_entry Q (from t) (to t))) by (apply Hdef; set_solver).
    destruct (Binary64.add_rate Q t) as [Q1|] eqn:HQ1.
    2:{ unfold Binary64.add_rate in HQ1. unfold lookup_entry in Ht.
        destruct (Q !! from t); [done|]. by destruct Ht. }
    destruct (IH Q1) as (Q' & HQ' & Hent).
    { intros t' Ht'. rewrite (rounded_add_rate_entry Q Q1 t) by done.
      apply fmap_is_Some, Hdef. set_solver. }
    exists Q'. split; [done|]. intros i j.
    rewrite Hent, (rounded_add_rate_entry Q Q1 t) by done. rewrite filter_cons.
    destruct (lookup_entry Q i j); simpl; [|done]. f_equal.
    by destruct (decide (from t = i ∧ to t = j)).
Qed.

Lemma rounded_set_diagonal_entry (sts : list string) (Q : gmap string (gmap string Qc))
    (s i j : string) :
  is_Some (Q !! s) ->
  lookup_entry (Binary64.set_diagonal sts Q s) i j
  = if decide (i = s ∧ j = s) then Some (- Binary64.off_diagonal_sum Q sts s)
    else lookup_entry Q i j.
Proof.
  intros [row Hrow]. unfold Binary64.set_diagonal, lookup_entry. rewrite Hrow. simpl.
  destruct (decide (i = s)) as [->|Hi].
  - rewrite lookup_insert_eq. simpl. rewrite Hrow. simpl.
    destruct (decide (j = s)) as [->|Hj].
    + rewrite lookup_insert_eq. by rewrite decide_True.
    + rewrite lookup_insert_ne by done. rewrite decide_False by tauto. done.
  - rewrite lookup_insert_ne by done. rewrite decide_False by tauto. done.
Qed.

Lemma rounded_off_diagonal_sum_ext (Q Q' : gmap string (gmap string Qc))
    (sts : list string) (s : string) :
  (∀ j, s ≠ j -> entry Q s j = entry Q' s j) ->
  Binary64.off_diagonal_sum Q sts s = Binary64.off_diagonal_sum Q' sts s.
Proof.
  intros Hext. unfold Binary64.off_diagonal_sum. generalize (Q2Qc 0) as acc.
  induction sts as [|s2 sts IH]; intros acc; simpl; [done|].
  destruct (decide (s ≠ s2)); [rewrite Hext by done|]; apply IH.
Qed.

Lemma rounded_off_diagonal_sum_filter (Q : gmap string (gmap string Qc))
    (sts : list string) (s : string) :
  Binary64.off_diagonal_sum Q sts s
  = Binary64.sum (map (entry Q s) (filter (fun j => j ≠ s) sts)).
Proof.
  unfold Binary64.off_diagonal_sum, Binary64.sum. generalize (Q2Qc 0) as acc.
  induction sts as [|s2 sts IH]; intros acc; simpl; [done|].
  rewrite IH, filter_cons. destruct (decide (s ≠ s2)).
  - by rewrite decide_True by done.
  - by rewrite decide_False by (intros ?; by subst).
Qed.

Lemma rounded_set_diagonals_entry (sts done_ : list string)
    (Q : gmap string (gmap string Qc)) (i j : string) :
  (∀ s, s ∈ done_ -> is_Some (Q !! s)) ->
  lookup_entry (foldl (Binary64.set_diagonal sts) Q done_) i j
  = if decide (i = j ∧ i ∈ done_) then Some (- Binary64.off_diagonal_sum Q sts i)
    else lookup_entry Q i j.
Proof.
  revert Q. induction done_ as [|s l IH]; intros Q Hdef; simpl.
  - rewrite decide_False; [done|]. intros [_ H]. by apply elem_of_nil in H.
  - assert (Hs : is_Some (Q !! s)) by (apply Hdef; left).
    rewrite IH.
    2:{ intros s' Hs'. unfold Binary64.set_diagonal. destruct (decide (s' = s)) as [->|].
        - rewrite lookup_insert_eq. eauto.
        - rewrite lookup_insert_ne by done. apply Hdef. by right. }
    assert (Hods : Binary64.off_diagonal_sum (Binary64.set_diagonal sts Q s) sts i
                   = Binary64.off_diagonal_sum Q sts i).
    { apply rounded_off_diagonal_sum_ext. intros j' Hj'. rewrite !entry_lookup_entry.
      rewrite rounded_set_diagonal_entry by done. rewrite decide_False; [done|].
      intros [-> ->]. done. }
    rewrite Hods, rounded_set_diagonal_entry by done.
    destruct (decide (i = j ∧ i ∈ l)) as [[-> Hl]|Hn].
    + rewrite decide_True; [done|]. split; [done|by right].
    + destruct (decide (i = s ∧ j = s)) as [[-> ->]|Hn'].
      * rewrite decide_True; [done|]. split; [done|left].
      * rewrite decide_False; [done|]. intros [-> [->|?]%elem_of_cons]; tauto.
Qed.

(** The generator matrix as the doubles store it, entry by entry. *)
Lemma rounded_buildRateMatrix_spec (chain : CtmcDef) :
  valid_chain chain = true ->
  ∃ Q, Binary64.buildRateMatrix chain = Some Q ∧
    ∀ i, i ∈ states chain ->
      (∀ j, j ∈ states chain -> i ≠ j ->
         lookup_entry Q i j
         = Some (Binary64.sum (map rate (filter (fun t => from t = i ∧ to t = j)
                                           (transitions chain)))))
      ∧ lookup_entry Q i i
        = Some (- Binary64.sum (map (entry Q i) (filter (fun j => j ≠ i) (states chain)))).
Proof.
  intros Hv. unfold Binary64.buildRateMatrix.
  destruct (rounded_add_rates_entry (transitions chain) (zero_matrix (states chain)))
    as (Q1 & HQ1 & Hent).
  { intros t Ht. destruct (valid_chain_transition chain t Hv Ht) as (Hf & Hto & _).
    rewrite zero_matrix_entry by done. eauto. }
  rewrite HQ1. eexists. split; [done|]. intros i Hi.
  assert (Hrows : ∀ s, s ∈ states chain -> is_Some (Q1 !! s)).
  { intros s Hs. specialize (Hent s s). rewrite zero_matrix_entry in Hent by done.
    unfold lookup_entry in Hent. destruct (Q1 !! s); [eauto|done]. }
  assert (Hoff : ∀ j, i ≠ j ->
    lookup_entry (foldl (Binary64.set_diagonal (states chain)) Q1 (states chain)) i j
    = lookup_entry Q1 i j).
  { intros j Hij. rewrite rounded_set_diagonals_entry by done.
    rewrite decide_False; [done|]. tauto. }
  split.
  - intros j Hj Hij. by rewrite Hoff, Hent, zero_matrix_entry by done.
  - rewrite rounded_set_diagonals_entry by done. rewrite decide_True by done.
    rewrite rounded_off_diagonal_sum_filter. do 3 f_equal.
    apply map_ext_in. intros j Hj%list_elem_of_In.
    apply list_elem_of_filter in Hj as [Hj _].
    rewrite !entry_lookup_entry, Hoff; [done|]. intros ->. done.
Qed.

(** *** The error of a sum of doubles *)

Lemma Qcpower_ge_1 (p : Qc) (n : nat) : 1 ≤ p -> 1 ≤ p ^ n.
Proof.
  intros Hp. induction n as [|n IH]; simpl; [apply Qcle_refl|].
  generalize dependent (p ^ n). intros P HP. qc_nra.
Qed.

Lemma two_to_m53_small : Binary64.two_to (-53) ≤ 1.
Proof. apply (bool_decide_unpack _). vm_compute. exact I. Qed.

Lemma rounded_sum_snoc (l : list Qc) (a : Qc) :
  Binary64.sum (l ++ [a]) = Binary64.add (Binary64.sum l) a.
Proof. unfold Binary64.sum. by rewrite foldl_app. Qed.

(** One more addition: the error grows by the factor [1 + 2^-53]. *)
Lemma rounded_add_error (s S a u P : Qc) :
  0 ≤ s -> 0 ≤ S -> 0 ≤ a -> 0 < u -> u ≤ 1 -> 1 ≤ P ->
  Math_abs (s - S) ≤ (P - 1) * S ->
  Math_abs (Binary64.add s a - (s + a)) ≤ u * (s + a) ->
  Math_abs (Binary64.add s a - (S + a)) ≤ ((1 + u) * P - 1) * (S + a).
Proof.
  intros Hs HS Ha Hu Hu1 HP HE%Math_abs_le_iff Hr%Math_abs_le_iff.
  apply Math_abs_le_iff. generalize dependent (Binary64.add s a). intros s' [Hr1 Hr2].
  destruct HE as [HE1 HE2].
  assert (H1 : 0 ≤ (P - 1) * a) by qc_nra.
  assert (H2 : 0 ≤ u * (P - 1) * S) by qc_nra.
  assert (H3 : 0 ≤ u * (P - 1) * a) by qc_nra.
  assert (H4 : 0 ≤ (1 - u) * (s - (S - (P - 1) * S))) by qc_nra.
  assert (H5 : 0 ≤ (1 + u) * (S + (P - 1) * S - s)) by qc_nra.
  split; qc_nra.
Qed.

Lemma rounded_sum_error (l : list Qc) :
  (∀ a, a ∈ l -> 0 ≤ a) ->
  0 ≤ Binary64.sum l
  ∧ Math_abs (Binary64.sum l - sum_Qc l)
    ≤ ((1 + Binary64.two_to (-53)) ^ length l - 1) * sum_Qc l.
Proof.
  induction l as [|a l IH] using rev_ind; intros Hl.
  - split; [apply Qcle_refl|]. apply (bool_decide_unpack _). vm_compute. exact I.
  - destruct IH as [Hs HE]; [intros; apply Hl, elem_of_app; by left|].
    assert (Ha : 0 ≤ a) by (apply Hl, elem_of_app; right; left).
    assert (HS : 0 ≤ sum_Qc l) by (apply sum_Qc_nonneg; intros; apply Hl, elem_of_app; by left).
    rewrite rounded_sum_snoc, sum_Qc_app, sum_Qc_cons, sum_Qc_nil, length_app, Nat.add_1_r.
    replace (a + 0) with a by ring.
    split.
    + apply round_nonneg. generalize dependent (Binary64.sum l). intros. qc_lra.
    + change ((1 + Binary64.two_to (-53)) ^ S (length l))
        with ((1 + Binary64.two_to (-53)) * (1 + Binary64.two_to (-53)) ^ length l).
      pose proof (two_to_pos (-53)) as Hu. pose proof two_to_m53_small as Hu1.
      apply rounded_add_error; try done.
      * apply Qcpower_ge_1. generalize dependent (Binary64.two_to (-53)). intros. qc_lra.
      * pose proof (round_error (Binary64.sum l + a)) as Hr.
        rewrite (Math_abs_of_nonneg (Binary64.sum l + a)) in Hr; [done|].
        generalize dependent (Binary64.sum l). intros. qc_lra.
Qed.

Lemma length_filter_ne (sts : list string) (i : string) :
  NoDup sts -> i ∈ sts -> length (filter (fun j => j ≠ i) sts) = (length sts - 1)%nat.
Proof.
  induction 1 as [|s sts Hnin Hnd IH]; intros Hi; [by apply elem_of_nil in Hi|].
  rewrite filter_cons. apply elem_of_cons in Hi as [->|Hi].
  - rewrite decide_False by (intros ?; done).
    assert (Hf : filter (fun j => j ≠ s) sts = sts).
    { clear IH Hnd. induction sts as [|x l IHl]; [done|].
      rewrite filter_cons, decide_True.
      - f_equal. apply IHl. intros ?. apply Hnin. by right.
      - intros ->. apply Hnin. left. }
    rewrite Hf. simpl. lia.
  - rewrite decide_True by (intros ->; done). simpl. rewrite IH by done.
    destruct sts; [by apply elem_of_nil in Hi|]. simpl. lia.
Qed.

(** C1 (as the code has it).  For every valid chain [buildRateMatrix]
    returns a matrix in which each off-diagonal entry [Q(i,j)] is the sum,
    accumulated left to right in doubles, of the rates of the transitions
    from [i] to [j] (0 when there is none, never negative, within the
    rounding error of the exact sum), and each diagonal entry [Q(i,i)] is
    the negation of the sum, accumulated left to right in doubles, of the
    off-diagonal entries of row [i].  A row sums to 0 up to the rounding
    error of that accumulation: with [n] states its exact sum is at most
    [(1 + 2^-53)^(n-1) - 1] times the sum of its off-diagonal entries in
    magnitude. *)
Theorem buildRateMatrix_rounded_generator (chain : CtmcDef) :
  valid_chain chain = true ->
  ∃ Q, Binary64.buildRateMatrix chain = Some Q ∧
    ∀ i, i ∈ states chain ->
      (∀ j, j ∈ states chain -> i ≠ j ->
         lookup_entry Q i j
         = Some (Binary64.sum (map rate (filter (fun t => from t = i ∧ to t = j)
                                           (transitions chain))))
         ∧ 0 ≤ entry Q i j
         ∧ Math_abs (entry Q i j - rate_between (transitions chain) i j)
           ≤ ((1 + Binary64.two_to (-53))
                ^ length (filter (fun t => from t = i ∧ to t = j) (transitions chain)) - 1)
             * rate_between (transitions chain) i j
         ∧ ((∀ t, t ∈ transitions chain -> ¬ (from t = i ∧ to t = j)) ->
            lookup_entry Q i j = Some 0))
      ∧ lookup_entry Q i i
        = Some (- Binary64.sum (map (entry Q i) (filter (fun j => j ≠ i) (states chain))))
      ∧ Math_abs (sum_Qc (map (entry Q i) (states chain)))
        ≤ ((1 + Binary64.two_to (-53)) ^ (length (states chain) - 1) - 1)
          * sum_Qc (map (entry Q i) (filter (fun j => j ≠ i) (states chain))).
Proof.
  intros Hv. destruct (rounded_buildRateMatrix_spec chain Hv) as (Q & HQ & Hspec).
  exists Q. split; [done|]. intros i Hi. destruct (Hspec i Hi) as [Hoff Hdiag].
  assert (Hrates : ∀ j a,
    a ∈ map rate (filter (fun t => from t = i ∧ to t = j) (transitions chain)) -> 0 ≤ a).
  { intros j a (t0 & -> & Ht0%list_elem_of_filter)%list_elem_of_fmap.
    apply Qclt_le_weak. apply (valid_chain_transition chain t0 Hv). tauto. }
  assert (Hnn : ∀ j, j ∈ states chain -> i ≠ j -> 0 ≤ entry Q i j).
  { intros j Hj Hij. rewrite entry_lookup_entry, Hoff by done. simpl.
    by apply rounded_sum_error, Hrates. }
  split; [|split; [done|]].
  - intros j Hj Hij. split; [by apply Hoff|]. split; [by apply Hnn|]. split.
    + rewrite entry_lookup_entry, Hoff by done. simpl. unfold rate_between.
      rewrite <- (length_map rate). by apply rounded_sum_error, Hrates.
    + intros Hnone. rewrite Hoff by done. do 2 f_equal.
      assert (G : ∀ ts : list CtmcTransition,
                (∀ t, t ∈ ts -> ¬ (from t = i ∧ to t = j)) ->
                filter (fun t => from t = i ∧ to t = j) ts = []).
      { induction ts as [|t0 ts IH]; intros Hts; [done|].
        rewrite filter_cons, decide_False by (apply Hts; left).
        apply IH. intros t' Ht'. apply Hts. by right. }
      by rewrite G.
  - pose proof (valid_chain_NoDup chain Hv) as Hnd.
    rewrite (sum_Qc_split_NoDup _ _ i) by done.
    rewrite (entry_lookup_entry _ i i), Hdiag. simpl.
    rewrite <- (length_filter_ne (states chain) i), <- (length_map (entry Q i)) by done.
    set (l := map (entry Q i) (filter (fun j => j ≠ i) (states chain))).
    destruct (rounded_sum_error l) as [_ HE].
    { intros a (j & -> & [Hj Hin]%list_elem_of_filter)%list_elem_of_fmap.
      apply Hnn; [done|]. by intros ->. }
    replace (- Binary64.sum l + sum_Qc l) with (- (Binary64.sum l - sum_Qc l)) by ring.
    by rewrite Math_abs_opp.
Qed.

Lemma buildRateMatrix_rounded_generator_witness :
  ∃ Q, Binary64.buildRateMatrix two_state_chain = Some Q ∧
    ∀ i, i ∈ states two_state_chain ->
      (∀ j, j ∈ states two_state_chain -> i ≠ j ->
         lookup_entry Q i j
         = Some (Binary64.sum (map rate (filter (fun t => from t = i ∧ to t = j)
                                           (transitions two_state_chain))))
         ∧ 0 ≤ entry Q i j
         ∧ Math_abs (entry Q i j - rate_between (transitions two_state_chain) i j)
           ≤ ((1 + Binary64.two_to (-53))
                ^ length (filter (fun t => from t = i ∧ to t = j)
                            (transitions two_state_chain)) - 1)
             * rate_between (transitions two_state_chain) i j
         ∧ ((∀ t, t ∈ transitions two_state_chain -> ¬ (from t = i ∧ to t = j)) ->
            lookup_entry Q i j = Some 0))
      ∧ lookup_entry Q i i
        = Some (- Binary64.sum (map (entry Q i)
                                  (filter (fun j => j ≠ i) (states two_state_chain))))
      ∧ Math_abs (sum_Qc (map (entry Q i) (states two_state_chain)))
        ≤ ((1 + Binary64.two_to (-53)) ^ (length (states two_state_chain) - 1) - 1)
          * sum_Qc (map (entry Q i) (filter (fun j => j ≠ i) (states two_state_chain))).
Proof. apply (buildRateMatrix_rounded_generator two_state_chain). vm_compute. reflexivity. Defined.

(** C1 (as the claim has it) fails: for the valid chain [A -> B : 1e20],
    [A -> C : 1] the sum of the off-diagonal entries of row [A] is rounded
    to 1e20, the row stored is [(-1e20, 1e20, 1)], and it sums to 1, not to
    0 (adding its entries exactly, or left to right in doubles). *)
Lemma buildRateMatrix_row_sum_not_zero :
  valid_chain wide_rate_chain = true
  ∧ ∃ Q, Binary64.buildRateMatrix wide_rate_chain = Some Q
      ∧ lookup_entry Q "A" "A" = Some (- ten_to_20)
      ∧ lookup_entry Q "A" "B" = Some ten_to_20
      ∧ lookup_entry Q "A" "C" = Some 1
      ∧ sum_Qc (map (entry Q "A") (states wide_rate_chain)) = 1
      ∧ Binary64.sum (map (entry Q "A") (states wide_rate_chain)) = 1
      ∧ sum_Qc (map (entry Q "A") (states wide_rate_chain)) ≠ 0.
Proof.
  split; [vm_compute; reflexivity|].
  eexists. split; [vm_compute; reflexivity|].
  repeat split; try (apply (bool_decide_unpack _); vm_compute; exact I).
Qed.

(** ** Sampling in doubles *)

Lemma rounded_row_of_targets (l : list (string * Qc)) :
  row_to (Binary64.row_of l) = map fst l.
Proof.
  unfold Binary64.row_of.
  assert (G : ∀ r, row_to (foldl Binary64.extend_row r l) = row_to r ++ map fst l).
  { induction l as [|e l IH]; intros r; simpl.
    - by rewrite app_nil_r.
    - rewrite IH. simpl. by rewrite <- app_assoc. }
  by rewrite G.
Qed.

Lemma rounded_buildJumpMap_lookup (chain : CtmcDef) (s : string) :
  Binary64.buildJumpMap chain !! s
  = if decide (s ∈ states chain)
    then Some (Binary64.row_of (default [] (group_by_from (transitions chain) !! s)))
    else None.
Proof.
  unfold Binary64.buildJumpMap. generalize (group_by_from (transitions chain)). intros byFrom.
  assert (G : ∀ m : gmap string jump_row,
    foldl (fun m s => <[s := Binary64.row_of (default [] (byFrom !! s))]> m) m (states chain)
      !! s
    = if decide (s ∈ states chain) then Some (Binary64.row_of (default [] (byFrom !! s)))
      else m !! s).
  { induction (states chain) as [|s0 l IH]; intros m; simpl.
    - destruct (decide (s ∈ [])) as [H|]; [by apply elem_of_nil in H|done].
    - rewrite IH. destruct (decide (s ∈ l)) as [Hin|Hin].
      + rewrite decide_True; [done|by right].
      + destruct (decide (s = s0)) as [->|Hne].
        * rewrite decide_True by left. by rewrite lookup_insert_eq.
        * rewrite decide_False by (by intros [?|?]%elem_of_cons).
          by rewrite lookup_insert_ne. }
  rewrite G. by destruct (decide _).
Qed.

Lemma rounded_jump_row_targets (chain : CtmcDef) (s next : string) (row : jump_row) :
  valid_chain chain = true -> Binary64.buildJumpMap chain !! s = Some row ->
  next ∈ row_to row -> next ∈ states chain.
Proof.
  intros Hv Hrow Hnext. rewrite rounded_buildJumpMap_lookup in Hrow.
  destruct (decide (s ∈ states chain)); [|done]. injection Hrow as <-.
  rewrite rounded_row_of_targets, group_by_from_lookup in Hnext.
  apply list_elem_of_fmap in Hnext as ([to_ r] & -> & He). simpl.
  apply list_elem_of_fmap in He as (t0 & [= -> ->] & Ht0).
  apply list_elem_of_filter in Ht0 as [_ Ht0].
  by apply (valid_chain_transition chain t0 Hv Ht0).
Qed.

Section rounded_trajectory.
Variable Math_log : Qc -> Qc.
Variables (jumpMap : gmap string jump_row) (maxTime : Qc) (rand : nat -> Qc).

(** An invariant of the loop holds of what the loop returns. *)
Lemma rounded_trajectory_loop_invariant
    (Inv : list TrajectoryPoint -> option string -> Qc -> Prop) :
  (∀ trajectory cs ct k ns h k',
     Inv trajectory cs ct -> ct < maxTime ->
     Binary64.sampleJump Math_log cs jumpMap rand k = (ns, Some h, k') ->
     ¬ maxTime ≤ Binary64.add ct h ->
     Inv (trajectory ++ [mkPoint (Binary64.add ct h) ns]) ns (Binary64.add ct h)) ->
  ∀ fuel trajectory cs ct k res k',
    Inv trajectory cs ct ->
    Binary64.trajectory_loop Math_log fuel jumpMap maxTime rand trajectory cs ct k
    = Ret (res, k') ->
    ∃ cs' ct', Inv res cs' ct'.
Proof.
  intros Hstep. induction fuel as [|fuel IH]; intros trajectory cs ct k res k' HI; simpl.
  - destruct (decide (ct < maxTime)); [done|]. intros [= <- <-]. eauto.
  - destruct (decide (ct < maxTime)) as [Hlt|]; [|intros [= <- <-]; eauto].
    destruct (Binary64.sampleJump Math_log cs jumpMap rand k) as [[ns [h|]] k1] eqn:Hjump.
    + destruct (decide (maxTime ≤ Binary64.add ct h)) as [|Hn]; [intros [= <- <-]; eauto|].
      apply IH. by eapply Hstep.
    + intros [= <- <-]. eauto.
Qed.
End rounded_trajectory.

Lemma rounded_sampleFromDistribution_in (dist : gmap string Qc) (sts : list string) (u : Qc) :
  sts ≠ [] -> ∃ s, Binary64.sampleFromDistribution dist sts u = Some s ∧ s ∈ sts.
Proof.
  intros Hne. unfold Binary64.sampleFromDistribution.
  destruct (Binary64.sample_scan dist u 0 sts) as [s|] eqn:Hscan.
  - exists s. split; [done|]. revert Hscan. generalize (Q2Qc 0).
    induction sts as [|s0 l IH]; intros c; simpl; [done|].
    destruct (decide _); [intros [= ->]; left|].
    destruct l as [|s1 l']; [done|]. intros H. right. by eapply IH.
  - destruct (last sts) as [s|] eqn:Hlast.
    + exists s. split; [done|]. by apply last_Some_elem_of.
    + apply last_None in Hlast. done.
Qed.

Lemma rounded_sampleTrajectory_states (Math_log : Qc -> Qc) (fuel : nat) (chain : CtmcDef)
    (maxTime : Qc) (rand : nat -> Qc) (k k' : nat) (trajectory : list TrajectoryPoint) :
  valid_chain chain = true ->
  Binary64.sampleTrajectory Math_log fuel chain maxTime rand k = Ret (trajectory, k') ->
  trajectory ≠ [] ∧ ∀ p, p ∈ trajectory -> ∃ s, state p = Some s ∧ s ∈ states chain.
Proof.
  intros Hv. unfold Binary64.sampleTrajectory.
  destruct (rounded_sampleFromDistribution_in (initialDistribution chain) (states chain)
              (rand k)) as (start & -> & Hstart); [by apply valid_chain_states_nonempty|].
  intros Hrun.
  set (Inv := fun (tr : list TrajectoryPoint) (cs : option string) (_ : Qc) =>
    tr ≠ [] ∧ (∀ p, p ∈ tr -> ∃ s, state p = Some s ∧ s ∈ states chain)
    ∧ ∃ s, cs = Some s ∧ s ∈ states chain).
  assert (Hinit : Inv [mkPoint 0 (Some start)] (Some start) 0).
  { split; [done|]. split; [|eauto].
    intros p Hp%list_elem_of_singleton. subst p. eauto. }
  assert (Hstep : ∀ tr cs ct k0 ns h k1,
     Inv tr cs ct -> ct < maxTime ->
     Binary64.sampleJump Math_log cs (Binary64.buildJumpMap chain) rand k0 = (ns, Some h, k1) ->
     ¬ maxTime ≤ Binary64.add ct h ->
     Inv (tr ++ [mkPoint (Binary64.add ct h) ns]) ns (Binary64.add ct h)).
  { intros tr cs ct k0 ns h k1 (Hne & Hall & s & -> & Hs) _ Hjump _.
    assert (Hns : ∃ s', ns = Some s' ∧ s' ∈ states chain).
    { unfold Binary64.sampleJump in Hjump. simpl in Hjump.
      destruct (Binary64.buildJumpMap chain !! s) as [row|] eqn:Hrow; [|done].
      destruct (decide (totalRate row = 0)); [done|].
      injection Hjump as <- _ _.
      destruct (pick_next_cases (Some s) row (Binary64.mul (rand (S k0)) (totalRate row)))
        as [->|(next & -> & Hnext)]; [eauto|].
      exists next. split; [done|]. by eapply rounded_jump_row_targets. }
    split; [by destruct tr|]. split; [|done].
    intros p [Hp|Hp]%elem_of_app; [by apply Hall|].
    apply list_elem_of_singleton in Hp as ->. done. }
  destruct (rounded_trajectory_loop_invariant Math_log (Binary64.buildJumpMap chain) maxTime
              rand Inv Hstep fuel _ _ _ _ _ _ Hinit Hrun) as (cs' & ct' & Hne & Hall & _).
  done.
Qed.

(** ** Counting in doubles *)


Lemma whole_counts_le (b b' : nat -> nat) (p : gmap string (list Qc)) :
  (∀ i, (b i ≤ b' i)%nat) -> whole_counts b p -> whole_counts b' p.
Proof.
  intros Hb Hp s counts i Hs. destruct (Hp s counts i Hs) as (c & Hc & Hle).
  exists c. split; [done|]. specialize (Hb i). lia.
Qed.

(** Adding 1 to a count below [2^53 - 1] is exact. *)
Lemma rounded_count_succ (c : nat) :
  (Z.of_nat c + 1 < 2 ^ 53)%Z ->
  Binary64.add (Q2Qc (inject_Z (Z.of_nat c))) 1 = Q2Qc (inject_Z (Z.of_nat c)) + 1.
Proof.
  intros Hc. unfold Binary64.add. rewrite <- Qc_of_Z_1, <- Qc_of_Z_plus.
  apply round_of_Z. lia.
Qed.

Lemma rounded_count_at_eq (b : nat -> nat) (trajectory : list TrajectoryPoint)
    (timePoints : list Qc) (p : gmap string (list Qc)) (i : nat) :
  whole_counts b p -> (Z.of_nat (b i) + 1 < 2 ^ 53)%Z ->
  Binary64.count_at trajectory timePoints p i = count_at trajectory timePoints p i.
Proof.
  intros Hp Hb. unfold Binary64.count_at, count_at.
  destruct trajectory as [|p0 rest]; [done|].
  destruct (last_state_before _ _ _) as [s|]; [|done].
  destruct (p !! s) as [counts|] eqn:Hs; [|done].
  destruct (Hp s counts i Hs) as (c & -> & Hc). rewrite rounded_count_succ by lia. done.
Qed.

Lemma count_at_whole (b : nat -> nat) (trajectory : list TrajectoryPoint)
    (timePoints : list Qc) (p p' : gmap string (list Qc)) (i : nat) :
  whole_counts b p -> count_at trajectory timePoints p i = Ret p' ->
  whole_counts (fun j => if decide (j = i) then S (b j) else b j) p'.
Proof.
  intros Hp. unfold count_at.
  destruct trajectory as [|p0 rest]; [done|].
  destruct (last_state_before _ _ _) as [s|]; [|done].
  destruct (p !! s) as [counts|] eqn:Hs; [|done].
  intros [= <-] s' counts' j Hs'.
  destruct (decide (s' = s)) as [->|Hne].
  - rewrite lookup_insert_eq in Hs'. injection Hs' as <-.
    destruct (Hp s counts j Hs) as (c & Hc & Hle).
    destruct (decide (j = i)) as [->|Hji].
    + destruct (decide (i < length counts)%nat) as [Hlt|Hge].
      * exists (S c). rewrite get_insert_eq, Hc by done. split; [|lia].
        rewrite Nat2Z.inj_succ. unfold Z.succ. rewrite Qc_of_Z_plus, Qc_of_Z_1. ring.
      * exists c. split; [|lia]. unfold get in *.
        by rewrite list_insert_ge by lia.
    + exists c. by rewrite get_insert_ne.
  - rewrite lookup_insert_ne in Hs' by done.
    destruct (Hp s' counts' j Hs') as (c & Hc & Hle).
    exists c. split; [done|]. destruct (decide (j = i)); [subst; lia|done].
Qed.

Lemma rounded_count_all (trajectory : list TrajectoryPoint) (timePoints : list Qc)
    (l : list nat) :
  NoDup l ->
  ∀ (b : nat -> nat) (p p' : gmap string (list Qc)),
    whole_counts b p -> (∀ i, i ∈ l -> (Z.of_nat (b i) + 1 < 2 ^ 53)%Z) ->
    ofold (count_at trajectory timePoints) p l = Ret p' ->
    ofold (Binary64.count_at trajectory timePoints) p l = Ret p'
    ∧ whole_counts (fun j => if decide (j ∈ l) then S (b j) else b j) p'.
Proof.
  induction 1 as [|i l Hi Hl IH]; intros b p p' Hp Hb; cbn [ofold].
  - intros [= <-]. split; [done|]. eapply whole_counts_le; [|done].
    intros i. by rewrite decide_False by (by intros ?%elem_of_nil).
  - rewrite (rounded_count_at_eq b) by (done || apply Hb; left).
    destruct (count_at trajectory timePoints p i) as [p1| |] eqn:Hp1; [|done|done].
    simpl. intros Hrest.
    destruct (IH _ p1 p' (count_at_whole b _ _ _ _ _ Hp Hp1)) as [Hrun Hp']; [|done|].
    { intros j Hj. rewrite decide_False by (by intros ->). apply Hb. by right. }
    split; [done|]. eapply whole_counts_le; [|done]. intros j. simpl.
    destruct (decide (j ∈ l)) as [Hjl|Hjl].
    + rewrite decide_False by (by intros ->). by rewrite decide_True by (by right).
    + destruct (decide (j = i)) as [->|Hji].
      * by rewrite decide_True by left.
      * by rewrite decide_False by (by intros [?|?]%elem_of_cons).
Qed.

Lemma rounded_simulate_one_spec (Math_log : Qc -> Qc) (fuel : nat) (chain : CtmcDef)
    (maxTime : Qc) (n : nat) (rand : nat -> Qc) (p : gmap string (list Qc)) (k m done_ : nat)
    (trajectory : list TrajectoryPoint) (k' : nat) :
  valid_chain chain = true -> counts_ok n (states chain) p ->
  whole_counts (fun _ => done_) p -> (Z.of_nat done_ + 1 < 2 ^ 53)%Z ->
  Binary64.sampleTrajectory Math_log fuel chain maxTime rand k = Ret (trajectory, k') ->
  ∃ p', Binary64.simulate_one Math_log fuel chain maxTime n rand (p, k) m = Ret (p', k')
    ∧ counts_ok n (states chain) p'
    ∧ whole_counts (fun _ => S done_) p'
    ∧ ∀ j, (j < n)%nat -> column_sum p' (states chain) j = column_sum p (states chain) j + 1.
Proof.
  intros Hv Hok Hwhole Hdone Htraj. unfold Binary64.simulate_one. simpl. rewrite Htraj. simpl.
  destruct (rounded_sampleTrajectory_states Math_log fuel chain maxTime rand k k' trajectory
              Hv Htraj) as [Hne Hstates].
  destruct (count_all_spec n (states chain) trajectory (Binary64.time_points n maxTime)
              (seq 0 n) p) as (p' & Hrun & Hok' & Hsum);
    [by apply valid_chain_NoDup|done|done|apply NoDup_seq| |done|].
  { intros i Hi%elem_of_seq. lia. }
  destruct (rounded_count_all trajectory (Binary64.time_points n maxTime) (seq 0 n)
              (NoDup_seq 0 n) (fun _ => done_) p p' Hwhole) as [-> Hwhole']; [done|done|].
  exists p'. split; [done|]. split; [done|]. split.
  - eapply whole_counts_le; [|done]. intros i. simpl. destruct (decide _); lia.
  - intros j Hj. rewrite Hsum. rewrite decide_True; [done|]. apply elem_of_seq. lia.
Qed.

Lemma rounded_simulate_all_spec (Math_log : Qc -> Qc) (fuel : nat) (chain : CtmcDef)
    (maxTime : Qc) (n : nat) (rand : nat -> Qc) (l : list nat) :
  valid_chain chain = true ->
  ∀ (p : gmap string (list Qc)) (k done_ : nat) (p' : gmap string (list Qc)) (k' : nat),
    counts_ok n (states chain) p -> whole_counts (fun _ => done_) p ->
    (Z.of_nat (done_ + length l) < 2 ^ 53)%Z ->
    ofold (Binary64.simulate_one Math_log fuel chain maxTime n rand) (p, k) l = Ret (p', k') ->
    counts_ok n (states chain) p'
    ∧ whole_counts (fun _ => (done_ + length l)%nat) p'
    ∧ ∀ j, (j < n)%nat ->
        column_sum p' (states chain) j
        = column_sum p (states chain) j + Q2Qc (inject_Z (Z.of_nat (length l))).
Proof.
  intros Hv. induction l as [|m l IH]; intros p k done_ p' k' Hok Hwhole Hb; cbn [ofold length].
  - intros [= <- <-]. split; [done|]. split.
    + eapply whole_counts_le; [|done]. intros i. simpl. lia.
    + intros j _. rewrite Qc_of_nat_0. ring.
  - cbn [length] in Hb.
    destruct (Binary64.sampleTrajectory Math_log fuel chain maxTime rand k)
      as [[tr k1]| |] eqn:Htraj.
    + destruct (rounded_simulate_one_spec Math_log fuel chain maxTime n rand p k m done_ tr k1
                  Hv Hok Hwhole) as (p1 & -> & Hok1 & Hwhole1 & Hsum1); [lia|done|].
      simpl. intros Hrest.
      destruct (IH p1 k1 (S done_) p' k' Hok1 Hwhole1) as (Hok' & Hwhole' & Hsum');
        [lia|done|].
      split; [done|]. split.
      * eapply whole_counts_le; [|done]. intros i. simpl. lia.
      * intros j Hj. rewrite Hsum', Hsum1 by done. rewrite Qc_of_nat_S. ring.
    + unfold Binary64.simulate_one. simpl. rewrite Htraj. done.
    + unfold Binary64.simulate_one. simpl. rewrite Htraj. done.
Qed.

Lemma zero_counts_whole (n : nat) (sts : list string) :
  whole_counts (fun _ => 0%nat)
    (foldl (fun p s => <[s := replicate n 0]> p) (∅ : gmap string (list Qc)) sts).
Proof.
  assert (G : ∀ (l : list string) (p : gmap string (list Qc)),
    whole_counts (fun _ => 0%nat) p ->
    whole_counts (fun _ => 0%nat) (foldl (fun p s => <[s := replicate n 0]> p) p l)).
  { induction l as [|s0 l IH]; intros p Hp; simpl; [done|]. apply IH.
    intros s counts i Hs. destruct (decide (s = s0)) as [->|Hne].
    - rewrite lookup_insert_eq in Hs. injection Hs as <-. exists 0%nat. split; [|done].
      unfold get. destruct (replicate n (Q2Qc 0) !! i) as [x|] eqn:Hx; [|done].
      apply lookup_replicate in Hx as [-> _]. done.
    - rewrite lookup_insert_ne in Hs by done. by eapply Hp. }
  apply G. intros s counts i Hs. by rewrite lookup_empty in Hs.
Qed.

(** ** runSimulation in doubles *)

Lemma Qc_of_Z_inj (a b : Z) : Q2Qc (inject_Z a) = Q2Qc (inject_Z b) -> a = b.
Proof.
  intros H%Qc_eq_Qeq. simpl in H. rewrite !Qred_correct in H.
  apply inject_Z_injective. exact H.
Qed.

Lemma counts_list (f : string -> Qc) (sts : list string) :
  (∀ s, s ∈ sts -> ∃ c : nat, f s = Q2Qc (inject_Z (Z.of_nat c))) ->
  ∃ counts : list nat,
    Forall2 (fun s c => f s = Q2Qc (inject_Z (Z.of_nat c))) sts counts
    ∧ sum_Qc (map f sts) = Q2Qc (inject_Z (Z.of_nat (sum_list counts))).
Proof.
  induction sts as [|s sts IH]; intros Hf.
  - exists []. split; [constructor|]. done.
  - destruct (Hf s) as [c Hc]; [left|].
    destruct IH as (counts & Hall & Hsum); [intros; apply Hf; by right|].
    exists (c :: counts). split; [by constructor|].
    cbn [map sum_list]. rewrite sum_Qc_cons, Hc, Hsum, Nat2Z.inj_add, Qc_of_Z_plus. done.
Qed.

Lemma sum_Qc_abs_diff {A : Type} (f g h : A -> Qc) (l : list A) :
  (∀ x, x ∈ l -> Math_abs (f x - g x) ≤ h x) ->
  Math_abs (sum_Qc (map f l) - sum_Qc (map g l)) ≤ sum_Qc (map h l).
Proof.
  induction l as [|x l IH]; intros H.
  - simpl. rewrite sum_Qc_nil. apply (bool_decide_unpack _). vm_compute. exact I.
  - cbn [map]. rewrite !sum_Qc_cons.
    assert (Hx : Math_abs (f x - g x) ≤ h x) by (apply H; left).
    assert (Hl : Math_abs (sum_Qc (map f l) - sum_Qc (map g l)) ≤ sum_Qc (map h l))
      by (apply IH; intros; apply H; by right).
    apply Math_abs_le_iff in Hx, Hl. apply Math_abs_le_iff.
    generalize dependent (sum_Qc (map f l)). generalize dependent (sum_Qc (map g l)).
    generalize dependent (sum_Qc (map h l)). intros. split; qc_lra.
Qed.

Lemma sum_Qc_map_mult {A : Type} (f : A -> Qc) (c : Qc) (l : list A) :
  sum_Qc (map (fun x => c * f x) l) = c * sum_Qc (map f l).
Proof.
  induction l as [|x l IH]; simpl.
  - rewrite sum_Qc_nil. ring.
  - rewrite !sum_Qc_cons, IH. ring.
Qed.

Lemma Forall2_impl_elem {A B : Type} (R R' : A -> B -> Prop) (l : list A) (k : list B) :
  Forall2 R l k -> (∀ x y, x ∈ l -> R x y -> R' x y) -> Forall2 R' l k.
Proof.
  induction 1 as [|x y l k Hxy Hlk IH]; intros H; constructor.
  - apply H; [left|done].
  - apply IH. intros x' y' Hx'. apply H. by right.
Qed.

(** What [runSimulation] returns, in doubles. *)
Lemma rounded_runSimulation_result (Math_log : Qc -> Qc) (fuel : nat) (chain : CtmcDef)
    (M : nat) (maxTime : Qc) (n : nat) (rand : nat -> Qc) (res : SimulateResult) :
  valid_chain chain = true -> (1 ≤ M)%nat -> (Z.of_nat M < 2 ^ 53)%Z ->
  Binary64.runSimulation Math_log fuel chain M maxTime n rand = Ret res ->
  ∃ p, counts_ok n (states chain) p ∧ whole_counts (fun _ => M) p
    ∧ (∀ i, (i < n)%nat -> column_sum p (states chain) i = Q2Qc (inject_Z (Z.of_nat M)))
    ∧ ∀ s i, s ∈ states chain -> (i < n)%nat ->
        proportion_at (proportions res) s i
        = Binary64.div (proportion_at p s i) (Q2Qc (inject_Z (Z.of_nat M))).
Proof.
  intros Hv HM HM53. unfold Binary64.runSimulation.
  destruct (zero_counts_spec n (states chain)) as [Hok0 Hsum0].
  pose proof (zero_counts_whole n (states chain)) as Hwhole0.
  destruct (ofold _ _ _) as [[p k]| |] eqn:Hloop; simpl; [|done|done].
  intros [= <-]. simpl.
  destruct (rounded_simulate_all_spec Math_log fuel chain maxTime n rand (seq 0 M) Hv
              _ 0%nat 0%nat p k Hok0 Hwhole0) as (Hok & Hwhole & Hsum);
    [by rewrite length_seq|done|].
  rewrite length_seq in Hsum, Hwhole.
  exists p. split; [done|]. split; [done|]. split.
  - intros i Hi. rewrite Hsum, Hsum0 by done. ring.
  - intros s i Hs Hi. unfold proportion_at.
    rewrite (normalize_lookup
               (for_each_index n (fun _ x => Binary64.div x (Q2Qc (inject_Z (Z.of_nat M))))))
      by (by apply valid_chain_NoDup).
    rewrite decide_True by done. simpl.
    destruct (Hok s Hs) as (counts & -> & Hlen & _). simpl.
    by rewrite for_each_index_get by lia.
Qed.

Lemma rounded_runSimulation_returns (Math_log : Qc -> Qc) (fuel : nat) (chain : CtmcDef)
    (M : nat) (maxTime : Qc) (n : nat) (rand : nat -> Qc) :
  valid_chain chain = true -> (Z.of_nat M < 2 ^ 53)%Z ->
  (∀ k, ∃ r, Binary64.sampleTrajectory Math_log fuel chain maxTime rand k = Ret r) ->
  ∃ res, Binary64.runSimulation Math_log fuel chain M maxTime n rand = Ret res.
Proof.
  intros Hv HM Hret. unfold Binary64.runSimulation.
  destruct (zero_counts_spec n (states chain)) as [Hok0 _].
  pose proof (zero_counts_whole n (states chain)) as Hwhole0.
  assert (G : ∀ l p k done_, counts_ok n (states chain) p ->
    whole_counts (fun _ => done_) p -> (Z.of_nat (done_ + length l) < 2 ^ 53)%Z ->
    ∃ acc, ofold (Binary64.simulate_one Math_log fuel chain maxTime n rand) (p, k) l = Ret acc).
  { induction l as [|m l IH]; intros p k done_ Hok Hwhole Hb; cbn [ofold]; [eauto|].
    cbn [length] in Hb.
    destruct (Hret k) as [[tr k1] Htraj].
    destruct (rounded_simulate_one_spec Math_log fuel chain maxTime n rand p k m done_ tr k1
                Hv Hok Hwhole) as (p1 & -> & Hok1 & Hwhole1 & _); [lia|done|].
    simpl. apply (IH p1 k1 (S done_)); [done|done|lia]. }
  destruct (G (seq 0 M) _ 0%nat 0%nat Hok0 Hwhole0) as [acc ->]; [by rewrite length_seq|].
  simpl. eauto.
Qed.

(** C10 (as the code has it).  For a valid chain, [1 <= M < 2^53]
    trajectories and a grid of at least two points, the proportions that
    [runSimulation] returns at a grid index are the counts of the
    trajectories found in each state there (natural numbers that sum to
    exactly [M]), each divided by [M] and rounded to the nearest double.
    They are not negative, and their exact sum differs from 1 by at most
    [2^-53].  A result is returned (no TypeError) whenever every sampling
    loop ends. *)
Theorem runSimulation_rounded_proportions (Math_log : Qc -> Qc) (chain : CtmcDef) (M : nat)
    (maxTime : Qc) (numTimePoints : nat) (rand : nat -> Qc) :
  valid_chain chain = true -> (1 ≤ M)%nat -> (Z.of_nat M < 2 ^ 53)%Z ->
  (2 ≤ numTimePoints)%nat ->
  (∀ fuel res,
     Binary64.runSimulation Math_log fuel chain M maxTime numTimePoints rand = Ret res ->
     ∀ i, (i < numTimePoints)%nat ->
       ∃ counts : list nat,
         Forall2 (fun s c => proportion_at (proportions res) s i
                             = Binary64.div (Q2Qc (inject_Z (Z.of_nat c)))
                                            (Q2Qc (inject_Z (Z.of_nat M))))
                 (states chain) counts
         ∧ sum_list counts = M
         ∧ (∀ s, s ∈ states chain -> 0 ≤ proportion_at (proportions res) s i)
         ∧ Math_abs (column_sum (proportions res) (states chain) i - 1)
           ≤ Binary64.two_to (-53))
  ∧ (∀ fuel,
       (∀ k, ∃ r, Binary64.sampleTrajectory Math_log fuel chain maxTime rand k = Ret r) ->
       ∃ res,
         Binary64.runSimulation Math_log fuel chain M maxTime numTimePoints rand = Ret res).
Proof.
  intros Hv HM HM53 _. split; [|intros fuel; by apply rounded_runSimulation_returns].
  intros fuel res Hrun i Hi.
  destruct (rounded_runSimulation_result Math_log fuel chain M maxTime numTimePoints rand res
              Hv HM HM53 Hrun) as (p & Hok & Hwhole & Hsum & Hprop).
  set (scale := Q2Qc (inject_Z (Z.of_nat M))) in *.
  assert (Hscale : 0 < scale) by (by apply Qc_of_nat_pos).
  destruct (counts_list (fun s => proportion_at p s i) (states chain)) as (counts & Hall & Htot).
  { intros s Hs. destruct (Hok s Hs) as (cs & Hcs & _).
    destruct (Hwhole s cs i Hcs) as (c & Hc & _). exists c. unfold proportion_at.
    by rewrite Hcs. }
  fold (column_sum p (states chain) i) in Htot. rewrite Hsum in Htot by done.
  apply Qc_of_Z_inj, Nat2Z.inj in Htot.
  assert (Hnn : ∀ s, s ∈ states chain -> 0 ≤ proportion_at p s i).
  { intros s Hs. unfold proportion_at. destruct (Hok s Hs) as (cs & -> & _ & Hcs). apply Hcs. }
  exists counts. split; [|split; [done|split]].
  - eapply Forall2_impl_elem; [exact Hall|]. intros s c Hs Hc. simpl in Hc.
    by rewrite Hprop, Hc.
  - intros s Hs. rewrite Hprop by done. apply round_nonneg, Qc_div_nonneg; [|done].
    by apply Hnn.
  - unfold column_sum.
    rewrite (sum_Qc_map_ext _ (fun s => Binary64.round (proportion_at p s i / scale)))
      by (intros s Hs; by apply Hprop).
    assert (Hone : sum_Qc (map (fun s => proportion_at p s i / scale) (states chain)) = 1).
    { rewrite sum_Qc_map_div. fold (column_sum p (states chain) i).
      rewrite Hsum by done. by apply Qc_div_self. }
    rewrite <- Hone at 1.
    eapply Qcle_trans.
    + apply (sum_Qc_abs_diff _ _
               (fun s => Binary64.two_to (-53) * (proportion_at p s i / scale))).
      intros s Hs. pose proof (round_error (proportion_at p s i / scale)) as Hr.
      rewrite (Math_abs_of_nonneg (proportion_at p s i / scale)) in Hr; [done|].
      apply Qc_div_nonneg; [by apply Hnn|done].
    + rewrite sum_Qc_map_mult, Hone. replace (Binary64.two_to (-53) * 1)
        with (Binary64.two_to (-53)) by ring. apply Qcle_refl.
Qed.

Lemma runSimulation_rounded_proportions_witness :
  (∀ fuel res,
     Binary64.runSimulation log_lower_bound fuel still_chain 6 1 2 six_draws = Ret res ->
     ∀ i, (i < 2)%nat ->
       ∃ counts : list nat,
         Forall2 (fun s c => proportion_at (proportions res) s i
                             = Binary64.div (Q2Qc (inject_Z (Z.of_nat c)))
                                            (Q2Qc (inject_Z (Z.of_nat 6))))
                 (states still_chain) counts
         ∧ sum_list counts = 6%nat
         ∧ (∀ s, s ∈ states still_chain -> 0 ≤ proportion_at (proportions res) s i)
         ∧ Math_abs (column_sum (proportions res) (states still_chain) i - 1)
           ≤ Binary64.two_to (-53))
  ∧ (∀ fuel,
       (∀ k, ∃ r, Binary64.sampleTrajectory log_lower_bound fuel still_chain 1 six_draws k
                  = Ret r) ->
       ∃ res, Binary64.runSimulation log_lower_bound fuel still_chain 6 1 2 six_draws = Ret res).
Proof.
  apply (runSimulation_rounded_proportions log_lower_bound still_chain 6 1 2 six_draws).
  - vm_compute. reflexivity.
  - lia.
  - vm_compute. reflexivity.
  - lia.
Defined.

(** C10 (as the claim has it) fails: six trajectories of the chain without
    transitions, one started in [A], four in [B] and one in [C], give the
    proportions [1/6], [4/6] and [1/6] rounded to doubles; their exact sum
    is [1 - 2^-54] and their sum in doubles is [1 - 2^-53], not 1. *)
Lemma runSimulation_proportions_sum_below_one :
  valid_chain still_chain = true
  ∧ ∀ Math_log : Qc -> Qc,
      ∃ res, Binary64.runSimulation Math_log 1 still_chain 6 1 2 six_draws = Ret res
        ∧ proportion_at (proportions res) "A" 0 = Binary64.div 1 (Q2Qc (6 # 1))
        ∧ proportion_at (proportions res) "B" 0 = Binary64.div (Q2Qc (4 # 1)) (Q2Qc (6 # 1))
        ∧ proportion_at (proportions res) "C" 0 = Binary64.div 1 (Q2Qc (6 # 1))
        ∧ column_sum (proportions res) (states still_chain) 0 = 1 - Binary64.two_to (-54)
        ∧ Binary64.sum (map (fun s => proportion_at (proportions res) s 0)
                          (states still_chain)) = 1 - Binary64.two_to (-53)
        ∧ column_sum (proportions res) (states still_chain) 0 ≠ 1.
Proof.
  split; [vm_compute; reflexivity|]. intros Math_log.
  eexists. split; [vm_compute; reflexivity|].
  repeat split; try (apply (bool_decide_unpack _); vm_compute; exact I).
Qed.

(** ** A sampling loop that does not advance *)

Section stall.
Variable Math_log : Qc -> Qc.
Hypothesis log_half : Math_log one_half = ln_half.

Lemma stiff_jump (jumpMap : gmap string jump_row) (s next : string) (rate_ : Qc) (k : nat) :
  jumpMap !! s = Some (mkRow rate_ [next] [rate_]) -> 0 < rate_ ->
  Binary64.sampleJump Math_log (Some s) jumpMap half_rand k
  = (Some next, Some (Binary64.div (- ln_half) rate_), S (S k)).
Proof.
  intros Hrow Hpos. unfold Binary64.sampleJump. cbn [mbind option_bind]. rewrite Hrow.
  cbn [totalRate]. rewrite decide_False by (intros ->; by apply Qclt_not_eq in Hpos).
  unfold Binary64.holding_time, half_rand.
  rewrite decide_False by (apply Qclt_not_le, (bool_decide_unpack _); vm_compute; exact I).
  rewrite log_half. f_equal. f_equal.
  unfold pick_next. cbn [cumul row_to zip zip_with find fst].
  rewrite bool_decide_eq_true_2; [done|].
  pose proof (round_error (one_half * rate_)) as Hr.
  apply Math_abs_le_iff in Hr as [_ Hr]. unfold Binary64.mul.
  assert (Hnn : 0 ≤ one_half * rate_).
  { pose proof one_half_double. generalize dependent one_half. intros. qc_nra. }
  rewrite Math_abs_of_nonneg in Hr by done.
  pose proof two_to_m53_small as Hu. pose proof (two_to_pos (-53)) as Hu0.
  assert (Hsmall : Binary64.two_to (-53) ≤ one_half)
    by (apply (bool_decide_unpack _); vm_compute; exact I).
  pose proof one_half_double as Hh.
  generalize dependent (Binary64.round (one_half * rate_)).
  generalize dependent (Binary64.two_to (-53)). generalize dependent one_half.
  intros. qc_nra.
Qed.

(** Between [B] and [C] the holding time is absorbed by the clock: the loop
    goes on for ever at the time of the first jump. *)
Lemma stiff_loop_stalls (fuel : nat) :
  ∀ trajectory s k, s = "B"%string ∨ s = "C"%string ->
    Binary64.trajectory_loop Math_log fuel (Binary64.buildJumpMap stiff_chain) one_thousand
      half_rand trajectory (Some s) first_jump_time k
    = OutOfFuel.
Proof.
  assert (HB : Binary64.buildJumpMap stiff_chain !! "B"%string
               = Some (mkRow fast_rate ["C"%string] [fast_rate]))
    by (apply (bool_decide_unpack _); vm_compute; exact I).
  assert (HC : Binary64.buildJumpMap stiff_chain !! "C"%string
               = Some (mkRow fast_rate ["B"%string] [fast_rate]))
    by (apply (bool_decide_unpack _); vm_compute; exact I).
  assert (Hpos : 0 < fast_rate) by (apply (bool_decide_unpack _); vm_compute; exact I).
  assert (Hlt : first_jump_time < one_thousand)
    by (apply (bool_decide_unpack _); vm_compute; exact I).
  assert (Habsorbed : Binary64.add first_jump_time (Binary64.div (- ln_half) fast_rate)
                      = first_jump_time)
    by (apply (bool_decide_unpack _); vm_compute; exact I).
  induction fuel as [|fuel IH]; intros trajectory s k Hs; cbn [Binary64.trajectory_loop];
    rewrite decide_True by done; [done|].
  destruct Hs as [-> | ->].
  - rewrite (stiff_jump _ _ _ _ _ HB Hpos), Habsorbed.
    rewrite decide_False by (by apply Qclt_not_le). apply IH. by right.
  - rewrite (stiff_jump _ _ _ _ _ HC Hpos), Habsorbed.
    rewrite decide_False by (by apply Qclt_not_le). apply IH. by left.
Qed.

Lemma stiff_chain_never_returns (fuel : nat) :
  Binary64.sampleTrajectory Math_log fuel stiff_chain one_thousand half_rand 0%nat = OutOfFuel.
Proof.
  unfold Binary64.sampleTrajectory.
  assert (Hstart : Binary64.sampleFromDistribution (initialDistribution stiff_chain)
                     (states stiff_chain) (half_rand 0%nat) = Some "A"%string)
    by (vm_compute; reflexivity).
  rewrite Hstart.
  assert (HA : Binary64.buildJumpMap stiff_chain !! "A"%string
               = Some (mkRow slow_rate ["B"%string] [slow_rate]))
    by (apply (bool_decide_unpack _); vm_compute; exact I).
  assert (Hpos : 0 < slow_rate) by (apply (bool_decide_unpack _); vm_compute; exact I).
  assert (Hfirst : Binary64.add 0 (Binary64.div (- ln_half) slow_rate) = first_jump_time)
    by (apply (bool_decide_unpack _); vm_compute; exact I).
  assert (Hlt : first_jump_time < one_thousand)
    by (apply (bool_decide_unpack _); vm_compute; exact I).
  destruct fuel as [|fuel]; cbn [Binary64.trajectory_loop];
    rewrite decide_True by (apply (bool_decide_unpack _); vm_compute; exact I); [done|].
  rewrite (stiff_jump _ _ _ _ _ HA Hpos), Hfirst.
  rewrite decide_False by (by apply Qclt_not_le).
  apply stiff_loop_stalls. by left.
Qed.

Lemma stiff_pair_repeats_time :
  Binary64.sampleTrajectory Math_log 3 stiff_pair_chain one_thousand half_rand 0%nat
  = Ret ([mkPoint 0 (Some "A"%string); mkPoint first_jump_time (Some "B"%string);
          mkPoint first_jump_time (Some "A"%string)], 7%nat).
Proof.
  unfold Binary64.sampleTrajectory.
  assert (Hstart : Binary64.sampleFromDistribution (initialDistribution stiff_pair_chain)
                     (states stiff_pair_chain) (half_rand 0%nat) = Some "A"%string)
    by (vm_compute; reflexivity).
  rewrite Hstart.
  assert (HA : Binary64.buildJumpMap stiff_pair_chain !! "A"%string
               = Some (mkRow slow_rate ["B"%string] [slow_rate]))
    by (apply (bool_decide_unpack _); vm_compute; exact I).
  assert (HB : Binary64.buildJumpMap stiff_pair_chain !! "B"%string
               = Some (mkRow fast_rate ["A"%string] [fast_rate]))
    by (apply (bool_decide_unpack _); vm_compute; exact I).
  assert (Hslow : 0 < slow_rate) by (apply (bool_decide_unpack _); vm_compute; exact I).
  assert (Hfast : 0 < fast_rate) by (apply (bool_decide_unpack _); vm_compute; exact I).
  assert (Hfirst : Binary64.add 0 (Binary64.div (- ln_half) slow_rate) = first_jump_time)
    by (apply (bool_decide_unpack _); vm_compute; exact I).
  assert (Habsorbed : Binary64.add first_jump_time (Binary64.div (- ln_half) fast_rate)
                      = first_jump_time)
    by (apply (bool_decide_unpack _); vm_compute; exact I).
  assert (Hlt : first_jump_time < one_thousand)
    by (apply (bool_decide_unpack _); vm_compute; exact I).
  assert (Hend : one_thousand ≤ Binary64.add first_jump_time
                                  (Binary64.div (- ln_half) slow_rate))
    by (apply (bool_decide_unpack _); vm_compute; exact I).
  cbn [Binary64.trajectory_loop].
  rewrite decide_True by (apply (bool_decide_unpack _); vm_compute; exact I).
  rewrite (stiff_jump _ _ _ _ _ HA Hslow), Hfirst.
  rewrite decide_False by (by apply Qclt_not_le).
  rewrite decide_True by done.
  rewrite (stiff_jump _ _ _ _ _ HB Hfast), Habsorbed.
  rewrite decide_False by (by apply Qclt_not_le).
  rewrite decide_True by done.
  rewrite (stiff_jump _ _ _ _ _ HA Hslow).
  by rewrite decide_True by done.
Qed.

End stall.

(** C9 at the chain [A -> B : 2^-10], [B -> C : 2^47], [C -> B : 2^47]
    started in [A], with horizon 1000 and a random source that always
    returns 0.5 (so that [Math.log] is only taken of 0.5, where it is
    [-0.6931471805599453]): the first jump is at time 709.78..., and from
    then on the holding time 4.9e-15 is less than half the distance between
    that time and the next double, so [currentTime + holdingTime] is
    [currentTime]; the loop never reaches the horizon and [sampleTrajectory]
    does not return, whatever the number of iterations allowed.  With the two
    states [A -> B : 2^-10], [B -> A : 2^47] it returns, and two events
    carry the same time. *)
Theorem sampleTrajectory_stalls_on_stiff_chain :
  parseCtmcDSL stiff_text = ParseOk stiff_chain
  ∧ valid_chain stiff_chain = true
  ∧ valid_chain stiff_pair_chain = true
  ∧ 0 < one_thousand
  ∧ (∀ k, 0 ≤ half_rand k ∧ half_rand k < 1)
  ∧ ∀ Math_log : Qc -> Qc, Math_log one_half = ln_half ->
      (∀ fuel, Binary64.sampleTrajectory Math_log fuel stiff_chain one_thousand half_rand 0%nat
               = OutOfFuel)
      ∧ Binary64.sampleTrajectory Math_log 3 stiff_pair_chain one_thousand half_rand 0%nat
        = Ret ([mkPoint 0 (Some "A"%string); mkPoint first_jump_time (Some "B"%string);
                mkPoint first_jump_time (Some "A"%string)], 7%nat)
      ∧ ¬ strictly_increasing [0; first_jump_time; first_jump_time].
Proof.
  split; [apply (bool_decide_unpack _); vm_compute; exact I|].
  split; [vm_compute; reflexivity|]. split; [vm_compute; reflexivity|].
  split; [apply (bool_decide_unpack _); vm_compute; exact I|].
  split; [intros k; split; apply (bool_decide_unpack _); vm_compute; exact I|].
  intros Math_log Hlog. split; [|split].
  - intros fuel. by apply stiff_chain_never_returns.
  - by apply stiff_pair_repeats_time.
  - intros Hinc. specialize (Hinc 1%nat 2%nat first_jump_time first_jump_time).
    by apply Qclt_not_eq in Hinc; [|lia|..].
Qed.

(** C6 at the chain [A -> B : 1e-11], [B -> A : 1e-11]: the chain is
    irreducible, and once the first column is eliminated the second has no
    entry above the tolerance 1e-10.  The solver does not report a singular
    system: it skips the column and returns [{A: 1, B: 0}].  That vector is
    not stationary (it sends the rate 1e-11 into [B]); the stationary
    distribution of the chain is [{A: 1/2, B: 1/2}]. *)
Theorem stationary_solver_skips_missing_pivot :
  valid_chain slow_chain = true
  ∧ ∃ Q pi, buildRateMatrix slow_chain = Some Q
      ∧ isIrreducible 2 slow_chain = Ret true
      ∧ find_pivot 2 (eliminate_column 2
           (stationary_matrix (states slow_chain) Q, stationary_rhs (states slow_chain)) 0).1 1
        = None
      ∧ getStationaryDistribution 2 slow_chain = Ret (Some pi)
      ∧ pi !! "A"%string = Some 1 ∧ pi !! "B"%string = Some 0
      ∧ carried pi Q (states slow_chain) "B" = tiny_rate
      ∧ carried pi Q (states slow_chain) "B" ≠ 0
      ∧ ∀ j, j ∈ states slow_chain ->
          carried (uniform_distribution (states slow_chain)) Q (states slow_chain) j = 0.
Proof.
  split; [vm_compute; reflexivity|].
  eexists. eexists. split; [vm_compute; reflexivity|].
  split; [vm_compute; reflexivity|].
  split; [vm_compute; reflexivity|].
  split; [vm_compute; reflexivity|].
  do 4 (split; [apply (bool_decide_unpack _); vm_compute; exact I|]).
  intros j [->|[->|Hj%elem_of_nil]%elem_of_cons]%elem_of_cons; [| |done];
    apply (bool_decide_unpack _); vm_compute; exact I.
Qed.
